(** * pyrsistent: persistent vector, map, set, deque and record, verified

    A shallow embedding of [src/pyrsistent.py].  Python integers are [Z],
    exceptions are the [Raise] branch of [result], and a Python list is a
    [list] wherever the code treats it as a value.  Where it matters that
    lists are objects, they are named or stored: the vector evolver names
    the lists it has copied, and [append] is modelled a second time over a
    store of list objects and shown to refine the first.  Every definition
    names the Python function it is translated from.  The definitions come
    first, the proofs after them. *)

From Stdlib Require Import ZArith Lia Bool String.
From Stdlib Require Import Floats.SpecFloat.
From stdpp Require Import base tactics option list numbers gmap.

Local Open Scope Z_scope.
#[local] Set Warnings "-register-all".

(** ** Exceptions and the result monad *)

(** The exception kinds the library raises.  [Diverges] is not a Python
    exception: it marks a loop whose iteration budget ran out, that is a
    [while] that would not end.  [SystemError] marks a reference to a list
    that is in no store, which Python rules out. *)
Inductive exn : Type :=
  | IndexError | KeyError | TypeError | ValueError | AttributeError
  | ZeroDivisionError | RecursionError | Diverges | SystemError
  | InvariantException (error_codes : list Z) (missing_fields : list string).

Inductive result (T : Type) : Type :=
  | Ok (x : T)
  | Raise (e : exn).
Arguments Ok {T} x.
Arguments Raise {T} e.

Global Instance result_ret : MRet result := @Ok.
Global Instance result_bind : MBind result := fun _ _ f m =>
  match m with Ok x => f x | Raise e => Raise e end.
Global Instance result_fmap : FMap result := fun _ _ f m =>
  match m with Ok x => Ok (f x) | Raise e => Raise e end.

Definition is_Ok {T} (m : result T) : Prop := exists x, m = Ok x.

(** ** Python built-ins used by the source *)

Definition len {T} (l : list T) : Z := Z.of_nat (length l).

(** [l[i]] on a Python list: a negative index counts from the end. *)
Definition list_getitem {T} (l : list T) (i : Z) : result T :=
  let j := if i <? 0 then i + len l else i in
  if (0 <=? j) && (j <? len l)
  then match l !! Z.to_nat j with Some x => Ok x | None => Raise IndexError end
  else Raise IndexError.

(** [l[i] = x] on a Python list. *)
Definition list_setitem {T} (l : list T) (i : Z) (x : T) : result (list T) :=
  let j := if i <? 0 then i + len l else i in
  if (0 <=? j) && (j <? len l)
  then Ok (<[Z.to_nat j := x]> l)
  else Raise IndexError.

(** [l[start:stop]] with integer bounds: negative bounds count from the end,
    then both are clamped to the list. *)
Definition list_slice {T} (l : list T) (start stop : Z) : list T :=
  let norm k := Z.min (len l) (Z.max 0 (if k <? 0 then k + len l else k)) in
  let a := norm start in
  let b := norm stop in
  take (Z.to_nat (b - a)) (drop (Z.to_nat a) l).

(** [range(start, stop, step)] for a non-zero step. *)
Definition py_range (start stop step : Z) : list Z :=
  let n := if 0 <? step then (stop - start + step - 1) / step
           else (start - stop - step - 1) / (- step) in
  (fun k : nat => start + Z.of_nat k * step) <$> seq 0 (Z.to_nat n).

(** [x >> n] and [x << n]: Python raises [ValueError] on a negative shift
    count. *)
Definition py_rshift (x n : Z) : result Z :=
  if n <? 0 then Raise ValueError else Ok (Z.shiftr x n).

Definition py_lshift (x n : Z) : result Z :=
  if n <? 0 then Raise ValueError else Ok (Z.shiftl x n).

(** [for x in xs: acc = f(acc, x)] where the body may raise. *)
Definition foldM {S T} (f : S -> T -> result S) : S -> list T -> result S :=
  fix go (acc : S) (xs : list T) : result S :=
    match xs with
    | [] => Ok acc
    | x :: xs' => acc' ← f acc x; go acc' xs'
    end.

Definition mapR {S T} (f : S -> result T) : list S -> result (list T) :=
  fix go (xs : list S) : result (list T) :=
    match xs with
    | [] => Ok []
    | x :: xs' => y ← f x; ys ← go xs'; Ok (y :: ys)
    end.

(** ** Module constants *)

Fixpoint pos_bitcount (p : positive) : Z :=
  match p with
  | xH => 1
  | xO q => pos_bitcount q
  | xI q => 1 + pos_bitcount q
  end.

(** [_bitcount(val)]: the number of ['1'] characters of [bin(val)]. *)
Definition _bitcount (val : Z) : Z :=
  match val with
  | Z0 => 0
  | Zpos p => pos_bitcount p
  | Zneg p => pos_bitcount p
  end.

Definition BRANCH_FACTOR : Z := 32.
Definition BIT_MASK : Z := BRANCH_FACTOR - 1.
Definition SHIFT : Z := _bitcount BIT_MASK.

(** ** The trie vector (class [PVector]) *)

(** A trie node is a Python list: of elements at level 0, of nodes above.
    The typed tree keeps the two apart; code that would read a node of the
    wrong kind is reported as [TypeError]. *)
Inductive node (A : Type) : Type :=
  | Leaf (xs : list A)
  | Branch (cs : list (node A)).
Arguments Leaf {A} xs.
Arguments Branch {A} cs.

Record PVector (A : Type) : Type := mkPVector {
  pv_count : Z;
  pv_shift : Z;
  pv_root : node A;
  pv_tail : list A;
  pv_tail_offset : Z
}.
Arguments mkPVector {A}.
Arguments pv_count {A}.
Arguments pv_shift {A}.
Arguments pv_root {A}.
Arguments pv_tail {A}.
Arguments pv_tail_offset {A}.

(** What [PVector._node_for] reads of its [pvector_like] argument, which is
    a vector or a vector evolver. *)
Class PVectorLike (A T : Type) : Type := {
  _count : T -> Z;
  _shift : T -> Z;
  _root : T -> node A;
  _tail : T -> list A;
  _tail_offset : T -> Z
}.

Global Instance PVector_like {A} : PVectorLike A (PVector A) := {|
  _count := pv_count; _shift := pv_shift; _root := pv_root;
  _tail := pv_tail; _tail_offset := pv_tail_offset
|}.

Section PVector.
Context {A : Type}.

(** [node[k]] where [node] is expected to hold child nodes. *)
Definition node_child (nd : node A) (k : Z) : result (node A) :=
  match nd with
  | Branch cs => list_getitem cs k
  | Leaf _ => Raise TypeError
  end.

(** [node[k]] where [node] is expected to hold elements. *)
Definition node_elem (nd : node A) (k : Z) : result A :=
  match nd with
  | Leaf xs => list_getitem xs k
  | Branch _ => Raise TypeError
  end.

(** [PVector.__new__] *)
Definition PVector_new (count shift : Z) (root : node A) (tail : list A)
  : PVector A :=
  mkPVector count shift root tail (count - len tail).

(** [PVector.__len__] *)
Definition PVector_len (self : PVector A) : Z := pv_count self.

(** [PVector._node_for] *)
Definition _node_for {T} `{PVectorLike A T} (pvector_like : T) (i : Z)
  : result (node A) :=
  if (0 <=? i) && (i <? _count pvector_like) then
    if _tail_offset pvector_like <=? i then Ok (Leaf (_tail pvector_like))
    else
      foldM (fun nd level => s ← py_rshift i level;
                             node_child nd (Z.land s BIT_MASK))
            (_root pvector_like)
            (py_range (_shift pvector_like) 0 (- SHIFT))
  else Raise IndexError.

(** [PVector.__getitem__] for an integer index. *)
Definition PVector_getitem (self : PVector A) (index : Z) : result A :=
  let index := if index <? 0 then index + pv_count self else index in
  nd ← _node_for self index;
  node_elem nd (Z.land index BIT_MASK).

(** [PVector._fill_list]: the elements the call appends to [the_list]. *)
Fixpoint _fill_list (nd : node A) (shift : Z) : result (list A) :=
  match nd with
  | Leaf xs => if shift =? 0 then Ok xs else Raise TypeError
  | Branch cs =>
      if shift =? 0 then Raise TypeError
      else (fun ls => concat ls) <$> mapR (fun n => _fill_list n (shift - SHIFT)) cs
  end.

(** [PVector._tolist] *)
Definition _tolist (self : PVector A) : result (list A) :=
  the_list ← _fill_list (pv_root self) (pv_shift self);
  Ok (the_list ++ pv_tail self).

(** [PVector._do_set].  The recursion goes down one level per call, so
    [level] calls are more than enough; the budget is only there for the
    termination checker. *)
Fixpoint _do_set_rec (budget : nat) (level : Z) (nd : node A) (i : Z) (val : A)
  : result (node A) :=
  if level =? 0 then
    match nd with
    | Leaf ret => Leaf <$> list_setitem ret (Z.land i BIT_MASK) val
    | Branch _ => Raise TypeError
    end
  else
    match budget, nd with
    | O, _ => Raise RecursionError
    | _, Leaf _ => Raise TypeError
    | S budget', Branch ret =>
        s ← py_rshift i level;
        let sub_index := Z.land s BIT_MASK in
        child ← list_getitem ret sub_index;
        new_child ← _do_set_rec budget' (level - SHIFT) child i val;
        Branch <$> list_setitem ret sub_index new_child
    end.

Definition _do_set (level : Z) (nd : node A) (i : Z) (val : A)
  : result (node A) :=
  _do_set_rec (Z.to_nat level) level nd i val.

(** [PVector._new_path]: a level that never reaches 0 recurses for ever,
    which Python ends with [RecursionError]. *)
Fixpoint _new_path_rec (budget : nat) (level : Z) (nd : node A)
  : result (node A) :=
  if level =? 0 then Ok nd
  else match budget with
       | O => Raise RecursionError
       | S budget' =>
           p ← _new_path_rec budget' (level - SHIFT) nd; Ok (Branch [p])
       end.

Definition _new_path (level : Z) (nd : node A) : result (node A) :=
  _new_path_rec (Z.to_nat level) level nd.

(** [PVector._push_tail]; [count] is [self._count]. *)
Fixpoint _push_tail_rec (budget : nat) (count : Z) (level : Z)
    (parent : node A) (tail_node : node A) : result (node A) :=
  match parent with
  | Leaf _ => Raise TypeError
  | Branch ret =>
      if level =? SHIFT then Ok (Branch (ret ++ [tail_node]))
      else
        s ← py_rshift (count - 1) level;
        let sub_index := Z.land s BIT_MASK in
        if sub_index <? len ret then
          match budget with
          | O => Raise RecursionError
          | S budget' =>
              child ← list_getitem ret sub_index;
              new_child ← _push_tail_rec budget' count (level - SHIFT)
                                         child tail_node;
              Branch <$> list_setitem ret sub_index new_child
          end
        else
          p ← _new_path (level - SHIFT) tail_node;
          Ok (Branch (ret ++ [p]))
  end.

Definition _push_tail (self : PVector A) (level : Z) (parent tail_node : node A)
  : result (node A) :=
  _push_tail_rec (Z.to_nat level) (pv_count self) level parent tail_node.

(** [PVector._create_new_root] *)
Definition _create_new_root (self : PVector A) : result (node A * Z) :=
  let new_shift := pv_shift self in
  high ← py_rshift (pv_count self) SHIFT;
  full ← py_lshift 1 (pv_shift self);
  if full <? high then
    p ← _new_path (pv_shift self) (Leaf (pv_tail self));
    Ok (Branch [pv_root self; p], new_shift + SHIFT)
  else
    new_root ← _push_tail self (pv_shift self) (pv_root self)
                          (Leaf (pv_tail self));
    Ok (new_root, new_shift).

(** [PVector.append] *)
Definition PVector_append (self : PVector A) (val : A) : result (PVector A) :=
  if len (pv_tail self) <? BRANCH_FACTOR then
    let new_tail := pv_tail self ++ [val] in
    Ok (PVector_new (pv_count self + 1) (pv_shift self) (pv_root self) new_tail)
  else
    '(new_root, new_shift) ← _create_new_root self;
    Ok (PVector_new (pv_count self + 1) new_shift new_root [val]).

(** [PVector.set] for an integer index. *)
Definition PVector_set (self : PVector A) (i : Z) (val : A) : result (PVector A) :=
  let i := if i <? 0 then i + pv_count self else i in
  if (0 <=? i) && (i <? pv_count self) then
    if pv_tail_offset self <=? i then
      new_tail ← list_setitem (pv_tail self) (Z.land i BIT_MASK) val;
      Ok (PVector_new (pv_count self) (pv_shift self) (pv_root self) new_tail)
    else
      new_root ← _do_set (pv_shift self) (pv_root self) i val;
      Ok (PVector_new (pv_count self) (pv_shift self) new_root (pv_tail self))
  else if i =? pv_count self then PVector_append self val
  else Raise IndexError.

(** The in-place methods [extend] runs on the vector it has just built.
    The vector is threaded through; [_tail_offset] is stale until
    [_mutating_extend] stores it at the end, as in the source. *)

(** [PVector._mutating_insert_tail] *)
Definition _mutating_insert_tail (self : PVector A) : result (PVector A) :=
  '(new_root, new_shift) ← _create_new_root self;
  Ok (mkPVector (pv_count self) new_shift new_root [] (pv_tail_offset self)).

(** [PVector._mutating_fill_tail]: the updated vector and the new offset. *)
Definition _mutating_fill_tail (self : PVector A) (offset : Z)
    (sequence : list A) : PVector A * Z :=
  let max_delta_len := BRANCH_FACTOR - len (pv_tail self) in
  let delta := list_slice sequence offset (offset + max_delta_len) in
  let delta_len := len delta in
  (mkPVector (pv_count self + delta_len) (pv_shift self) (pv_root self)
             (pv_tail self ++ delta) (pv_tail_offset self),
   offset + delta_len).

(** The [while] loop of [_mutating_extend]. *)
Fixpoint _mutating_extend_loop (budget : nat) (self : PVector A) (offset : Z)
    (sequence : list A) : result (PVector A) :=
  if offset <? len sequence then
    match budget with
    | O => Raise Diverges
    | S budget' =>
        let '(self1, offset1) := _mutating_fill_tail self offset sequence in
        self2 ← (if len (pv_tail self1) =? BRANCH_FACTOR
                 then _mutating_insert_tail self1 else Ok self1);
        _mutating_extend_loop budget' self2 offset1 sequence
    end
  else Ok self.

(** [PVector._mutating_extend]: every pass but the first consumes at
    least one element of [sequence]. *)
Definition _mutating_extend (self : PVector A) (sequence : list A)
  : result (PVector A) :=
  self' ← _mutating_extend_loop (S (length sequence)) self 0 sequence;
  Ok (mkPVector (pv_count self') (pv_shift self') (pv_root self') (pv_tail self')
                (pv_count self' - len (pv_tail self'))).

(** [PVector.extend], [obj] given as the list of its elements. *)
Definition PVector_extend (self : PVector A) (obj : list A) : result (PVector A) :=
  match obj with
  | [] => Ok self
  | x :: rest =>
      new_vector ← PVector_append self x;
      _mutating_extend new_vector rest
  end.

(** [_EMPTY_VECTOR] *)
Definition _EMPTY_VECTOR : PVector A := PVector_new 0 SHIFT (Branch []) [].

(** [_pvector] *)
Definition _pvector (iterable : list A) : result (PVector A) :=
  PVector_extend _EMPTY_VECTOR iterable.

End PVector.


(** ** The layout of a well-formed trie *)

Section Layout.
Context {A : Type}.

(** The number of elements under a full node [h] levels above the leaves. *)
Definition width (h : nat) : nat := (32 ^ S h)%nat.

Definition num_chunks (n m : nat) : nat := ((m + (n - 1)) / n)%nat.

(** [l] cut into consecutive pieces of [n] elements (the last may be
    shorter). *)
Definition chunks (n : nat) (l : list A) : list (list A) :=
  (fun k => take n (drop (k * n) l)) <$> seq 0 (num_chunks n (length l)).

(** The one trie of height [h] that stores [l] left to right. *)
Fixpoint trie (h : nat) (l : list A) : node A :=
  match h with
  | O => Leaf l
  | S h' => Branch (trie h' <$> chunks (width h') l)
  end.

(** The tree of the vector has height [H] and stores [l]; the tail stores
    the rest.  [_tail_offset] is left out: it is stale inside [extend]. *)
Definition tree_inv (v : PVector A) (H : nat) (l : list A) : Prop :=
  (1 <= H)%nat /\
  pv_shift v = 5 * Z.of_nat H /\
  pv_root v = trie H l /\
  (length l <= width H)%nat /\
  (length l mod 32 = 0)%nat /\
  (length (pv_tail v) <= 32)%nat /\
  pv_count v = len l + len (pv_tail v).

Definition pv_inv (v : PVector A) (H : nat) (l : list A) : Prop :=
  tree_inv v H l /\ pv_tail_offset v = len l.

(** Well-formed vectors: what the constructors of the library build. *)
Definition pv_wf (v : PVector A) : Prop := exists H l, pv_inv v H l.

(** The vectors built by the public operations. *)
Inductive pv_reachable : PVector A -> Prop :=
  | reach_empty : pv_reachable _EMPTY_VECTOR
  | reach_append v x v' :
      pv_reachable v -> PVector_append v x = Ok v' -> pv_reachable v'
  | reach_set v i x v' :
      pv_reachable v -> PVector_set v i x = Ok v' -> pv_reachable v'
  | reach_extend v xs v' :
      pv_reachable v -> PVector_extend v xs = Ok v' -> pv_reachable v'.

End Layout.

(** ** The vector evolver (class [PVector._Evolver]) *)

(** The evolver tells the list objects it has copied during the session from
    the ones it shares with published vectors by [id(node)].  A copied
    object is held by the evolver alone and sits at one place of its trie,
    so the model names it by that place: the tail, or the level of a tree
    node together with the index bits above that level.  Writing through
    such an object writes the trie at that place. *)
Inductive node_id : Type :=
  | TailId
  | TreeId (level block : Z).

Global Instance node_id_eq_dec : EqDecision node_id.
Proof. solve_decision. Defined.

Record Evolver (A : Type) : Type := mkEvolver {
  ev_count : Z;
  ev_shift : Z;
  ev_root : node A;
  ev_tail : list A;
  ev_tail_offset : Z;
  ev_dirty_nodes : list node_id;
  ev_extra_tail : list A;
  ev_cached_leafs : gmap Z node_id
}.
Arguments mkEvolver {A}.
Arguments ev_count {A}.
Arguments ev_shift {A}.
Arguments ev_root {A}.
Arguments ev_tail {A}.
Arguments ev_tail_offset {A}.
Arguments ev_dirty_nodes {A}.
Arguments ev_extra_tail {A}.
Arguments ev_cached_leafs {A}.

Global Instance Evolver_like {A} : PVectorLike A (Evolver A) := {|
  _count := ev_count; _shift := ev_shift; _root := ev_root;
  _tail := ev_tail; _tail_offset := ev_tail_offset
|}.

Section Evolver.
Context {A : Type}.

(** [_Evolver._reset], called on a new object by [__init__]. *)
Definition Evolver_reset (v : PVector A) : Evolver A :=
  mkEvolver (pv_count v) (pv_shift v) (pv_root v) (pv_tail v)
            (pv_tail_offset v) [] [] ∅.

(** [PVector.evolver] *)
Definition PVector_evolver (self : PVector A) : Evolver A :=
  Evolver_reset self.

(** [_Evolver.__len__] *)
Definition Evolver_len (self : Evolver A) : Z :=
  ev_count self + len (ev_extra_tail self).

(** [_Evolver.is_dirty]: the truth value of
    [self._dirty_nodes or self._extra_tail]. *)
Definition Evolver_is_dirty (self : Evolver A) : bool :=
  negb (bool_decide (ev_dirty_nodes self = []))
  || negb (bool_decide (length (ev_extra_tail self) = 0%nat)).

(** [_Evolver.__getitem__] for an integer index. *)
Definition Evolver_getitem (self : Evolver A) (index : Z) : result A :=
  let index := if index <? 0
               then index + (ev_count self + len (ev_extra_tail self))
               else index in
  if (ev_count self <=? index)
     && (index <? ev_count self + len (ev_extra_tail self))
  then list_getitem (ev_extra_tail self) (index - ev_count self)
  else nd ← _node_for self index; node_elem nd (Z.land index BIT_MASK).

(** [_Evolver.append] *)
Definition Evolver_append (self : Evolver A) (element : A) : Evolver A :=
  mkEvolver (ev_count self) (ev_shift self) (ev_root self) (ev_tail self)
            (ev_tail_offset self) (ev_dirty_nodes self)
            (ev_extra_tail self ++ [element]) (ev_cached_leafs self).

(** [_Evolver.extend] *)
Definition Evolver_extend (self : Evolver A) (iterable : list A) : Evolver A :=
  mkEvolver (ev_count self) (ev_shift self) (ev_root self) (ev_tail self)
            (ev_tail_offset self) (ev_dirty_nodes self)
            (ev_extra_tail self ++ iterable) (ev_cached_leafs self).

(** [_Evolver._do_set]: the node, and the [_dirty_nodes] and
    [_cached_leafs] it leaves behind.  [ret = node] for an object of the
    session and [ret = list(node)] for a shared one give the same list
    value; they differ in what [_dirty_nodes] records. *)
Fixpoint Evolver_do_set_rec (budget : nat) (dirty : list node_id)
    (cached : gmap Z node_id) (level : Z) (nd : node A) (i : Z) (val : A)
  : result (node A * list node_id * gmap Z node_id) :=
  let me := TreeId level (Z.shiftr i (level + SHIFT)) in
  let dirty := if decide (me ∈ dirty) then dirty else me :: dirty in
  if level =? 0 then
    match nd with
    | Leaf ret =>
        ret' ← list_setitem ret (Z.land i BIT_MASK) val;
        Ok (Leaf ret', dirty, <[Z.shiftr i SHIFT := me]> cached)
    | Branch _ => Raise TypeError
    end
  else
    match budget, nd with
    | O, _ => Raise RecursionError
    | _, Leaf _ => Raise TypeError
    | S budget', Branch ret =>
        s ← py_rshift i level;
        let sub_index := Z.land s BIT_MASK in
        child ← list_getitem ret sub_index;
        '(new_child, dirty', cached') ←
           Evolver_do_set_rec budget' dirty cached (level - SHIFT) child i val;
        ret' ← list_setitem ret sub_index new_child;
        Ok (Branch ret', dirty', cached')
    end.

Definition Evolver_do_set (self : Evolver A) (level : Z) (nd : node A)
    (i : Z) (val : A) : result (node A * list node_id * gmap Z node_id) :=
  Evolver_do_set_rec (Z.to_nat level) (ev_dirty_nodes self)
                     (ev_cached_leafs self) level nd i val.

(** The list object cached for the leaf of [index], read where it sits. *)
Definition cached_leaf (self : Evolver A) (id : node_id) (index : Z)
  : result (list A) :=
  match id with
  | TailId => Ok (ev_tail self)
  | TreeId _ _ =>
      nd ← foldM (fun nd level => s ← py_rshift index level;
                                  node_child nd (Z.land s BIT_MASK))
                 (ev_root self) (py_range (ev_shift self) 0 (- SHIFT));
      match nd with Leaf xs => Ok xs | Branch _ => Raise TypeError end
  end.

(** [_Evolver.__setitem__] for an integer index. *)
Definition Evolver_setitem (self : Evolver A) (index : Z) (val : A)
  : result (Evolver A) :=
  let index := if index <? 0
               then index + (ev_count self + len (ev_extra_tail self))
               else index in
  let tail_write (dirty : list node_id) (cached : gmap Z node_id) :=
    new_tail ← list_setitem (ev_tail self) (Z.land index BIT_MASK) val;
    Ok (mkEvolver (ev_count self) (ev_shift self) (ev_root self) new_tail
                  (ev_tail_offset self) dirty (ev_extra_tail self) cached) in
  let slow_path :=
    if ev_tail_offset self <=? index then
      if decide (TailId ∈ ev_dirty_nodes self)
      then tail_write (ev_dirty_nodes self) (ev_cached_leafs self)
      else tail_write (TailId :: ev_dirty_nodes self)
                      (<[Z.shiftr index SHIFT := TailId]> (ev_cached_leafs self))
    else
      '(new_root, dirty, cached) ←
         Evolver_do_set self (ev_shift self) (ev_root self) index val;
      Ok (mkEvolver (ev_count self) (ev_shift self) new_root (ev_tail self)
                    (ev_tail_offset self) dirty (ev_extra_tail self) cached) in
  if (0 <=? index) && (index <? ev_count self) then
    match ev_cached_leafs self !! Z.shiftr index SHIFT with
    | Some id =>
        leaf ← cached_leaf self id index;
        if negb (bool_decide (length leaf = 0%nat)) then
          match id with
          | TailId => tail_write (ev_dirty_nodes self) (ev_cached_leafs self)
          | TreeId _ _ =>
              new_root ← _do_set (ev_shift self) (ev_root self) index val;
              Ok (mkEvolver (ev_count self) (ev_shift self) new_root
                            (ev_tail self) (ev_tail_offset self)
                            (ev_dirty_nodes self) (ev_extra_tail self)
                            (ev_cached_leafs self))
          end
        else slow_path
    | None => slow_path
    end
  else if (ev_count self <=? index)
          && (index <? ev_count self + len (ev_extra_tail self)) then
    new_extra ← list_setitem (ev_extra_tail self) (index - ev_count self) val;
    Ok (mkEvolver (ev_count self) (ev_shift self) (ev_root self) (ev_tail self)
                  (ev_tail_offset self) (ev_dirty_nodes self) new_extra
                  (ev_cached_leafs self))
  else if index =? ev_count self + len (ev_extra_tail self) then
    Ok (Evolver_append self val)
  else Raise IndexError.

(** [_Evolver.persistent]: the vector, and the evolver reset to it. *)
Definition Evolver_persistent (self : Evolver A)
  : result (PVector A * Evolver A) :=
  v ← PVector_extend (PVector_new (ev_count self) (ev_shift self)
                                  (ev_root self) (ev_tail self))
                     (ev_extra_tail self);
  Ok (v, Evolver_reset v).

(** [PVector.mset], the arguments paired up. *)
Definition PVector_mset (self : PVector A) (args : list (Z * A))
  : result (PVector A) :=
  evolver ← foldM (fun e '(i, x) => Evolver_setitem e i x)
                  (PVector_evolver self) args;
  fst <$> Evolver_persistent evolver.

End Evolver.

(** ** The hash map (class [PMap]) *)

(** [len(...) < 0.67 * size]: binary64 arithmetic, as CPython does it.  The
    integers are converted exactly (they are far below [2^53]). *)
Definition float_of_int (n : Z) : spec_float := binary_normalize 53 1024 n 0 false.

(** The binary64 number written [0.67]. *)
Definition float_0_67 : spec_float := S754_finite false 6034823500676465 (-53).

Definition load_exceeded (buckets size : Z) : bool :=
  SFltb (float_of_int buckets) (SFmul 53 1024 float_0_67 (float_of_int size)).

(** [a % b] *)
Definition py_mod (a b : Z) : result Z :=
  if b =? 0 then Raise ZeroDivisionError else Ok (a mod b).

(** A bucket is [None] or a list of [(key, value)] pairs. *)
Definition bucket (K V : Type) : Type := option (list (K * V)).

(** The truth value of a bucket: [if bucket:]. *)
Definition truthy {K V} (b : bucket K V) : bool :=
  match b with
  | Some (_ :: _) => true
  | _ => false
  end.

Definition bucket_items {K V} (b : bucket K V) : list (K * V) :=
  match b with
  | Some l => l
  | None => []
  end.

Record PMap (K V : Type) : Type := mkPMap {
  pm_size : Z;
  pm_buckets : PVector (bucket K V)
}.
Arguments mkPMap {K V}.
Arguments pm_size {K V}.
Arguments pm_buckets {K V}.

(** What [PMap._get_bucket] needs of [buckets]: a vector or its evolver. *)
Class BucketsLike (K V B : Type) : Type := {
  buckets_len : B -> Z;
  buckets_getitem : B -> Z -> result (bucket K V)
}.

Global Instance PVector_buckets {K V} : BucketsLike K V (PVector (bucket K V)) :=
  {| buckets_len := PVector_len; buckets_getitem := PVector_getitem |}.

Global Instance Evolver_buckets {K V} : BucketsLike K V (Evolver (bucket K V)) :=
  {| buckets_len := Evolver_len; buckets_getitem := Evolver_getitem |}.

(** What a call hands back: an object that existed before, or a new one.
    Python code tells them apart with [is]. *)
Inductive handle (T : Type) : Type :=
  | Existing (x : T)
  | Created (x : T).
Arguments Existing {T} x.
Arguments Created {T} x.

Definition the {T} (h : handle T) : T :=
  match h with Existing x | Created x => x end.

Section PMap.
Context {K V : Type} `{EqDecision K}.
Context (hash : K -> Z).

(** [PMap._get_bucket] *)
Definition _get_bucket {B} `{BucketsLike K V B} (buckets : B) (key : K)
  : result (Z * bucket K V) :=
  index ← py_mod (hash key) (buckets_len buckets);
  b ← buckets_getitem buckets index;
  Ok (index, b).

(** The first pair of a bucket whose key equals [key]. *)
Definition bucket_find (b : bucket K V) (key : K) : option (K * V) :=
  if truthy b then List.find (fun kv => bool_decide (fst kv = key)) (bucket_items b)
  else None.

(** [PMap._getitem] *)
Definition _getitem {B} `{BucketsLike K V B} (buckets : B) (key : K)
  : result V :=
  '(_, b) ← _get_bucket buckets key;
  match bucket_find b key with
  | Some (_, v) => Ok v
  | None => Raise KeyError
  end.

(** [PMap.__getitem__] *)
Definition PMap_getitem (self : PMap K V) (key : K) : result V :=
  _getitem (pm_buckets self) key.

(** [PMap._contains] *)
Definition _contains {B} `{BucketsLike K V B} (buckets : B) (key : K)
  : result bool :=
  '(_, b) ← _get_bucket buckets key;
  Ok (match bucket_find b key with Some _ => true | None => false end).

(** [PMap.__contains__] *)
Definition PMap_contains (self : PMap K V) (key : K) : result bool :=
  _contains (pm_buckets self) key.

(** [PMap.__len__] *)
Definition PMap_len (self : PMap K V) : Z := pm_size self.

(** [PMap.iteritems], as the list of what it yields. *)
Definition PMap_iteritems (self : PMap K V) : result (list (K * V)) :=
  buckets ← _tolist (pm_buckets self);
  Ok (concat (bucket_items <$> filter (fun b => truthy b = true) buckets)).

(** The body shared by the loops of [_turbo_mapping] and
    [_Evolver._reallocate]: put [(k, v)] in its slot of a Python list of
    buckets. *)
Definition place_pair (size : Z) (buckets : list (bucket K V)) (kv : K * V)
  : result (list (bucket K V)) :=
  index ← py_mod (hash (fst kv)) size;
  b ← list_getitem buckets index;
  if truthy b then list_setitem buckets index (Some (bucket_items b ++ [kv]))
  else list_setitem buckets index (Some [kv]).

(** [_turbo_mapping]; [initial] is the list of items of the dictionary,
    whose keys differ. *)
Definition _turbo_mapping (initial : list (K * V)) (pre_size : Z)
  : result (PMap K V) :=
  let size := if negb (pre_size =? 0) then pre_size
              else if negb (2 * len initial =? 0) then 2 * len initial
              else 8 in
  let buckets := replicate (Z.to_nat size) None in
  buckets ← foldM (place_pair size) buckets initial;
  v ← _pvector buckets;
  Ok (mkPMap (len initial) v).

(** [_EMPTY_PMAP = _turbo_mapping({}, 0)] *)
Definition _EMPTY_PMAP : PMap K V :=
  Eval vm_compute in
    match _turbo_mapping [] 0 with
    | Ok m => m
    | Raise _ => mkPMap 0 _EMPTY_VECTOR
    end.

(** [pmap] *)
Definition pmap (initial : list (K * V)) (pre_size : Z) : result (PMap K V) :=
  match initial with
  | [] => Ok _EMPTY_PMAP
  | _ => _turbo_mapping initial pre_size
  end.

End PMap.

(** ** The map evolver (class [PMap._Evolver]) *)

Record MapEvolver (K V : Type) : Type := mkMapEvolver {
  me_buckets_evolver : Evolver (bucket K V);
  me_size : Z;
  me_original_pmap : PMap K V
}.
Arguments mkMapEvolver {K V}.
Arguments me_buckets_evolver {K V}.
Arguments me_size {K V}.
Arguments me_original_pmap {K V}.

Section MapEvolver.
Context {K V : Type} `{EqDecision K}.
Context (hash : K -> Z).
(** [v is val]: values stand for object references, so identity is
    equality of references. *)
Context `{EqDecision V}.

(** [PMap.evolver] and [_Evolver.__init__] *)
Definition PMap_evolver (original_pmap : PMap K V) : MapEvolver K V :=
  mkMapEvolver (PVector_evolver (pm_buckets original_pmap))
               (pm_size original_pmap) original_pmap.

(** [_Evolver.__getitem__] *)
Definition MapEvolver_getitem (self : MapEvolver K V) (key : K) : result V :=
  _getitem hash (me_buckets_evolver self) key.

(** [_Evolver.__contains__] *)
Definition MapEvolver_contains (self : MapEvolver K V) (key : K) : result bool :=
  _contains hash (me_buckets_evolver self) key.

(** [_Evolver.__len__] *)
Definition MapEvolver_len (self : MapEvolver K V) : Z := me_size self.

(** [_Evolver.is_dirty] *)
Definition MapEvolver_is_dirty (self : MapEvolver K V) : bool :=
  Evolver_is_dirty (me_buckets_evolver self).

(** [_Evolver._reallocate] *)
Definition _reallocate (self : MapEvolver K V) (new_size : Z)
  : result (MapEvolver K V) :=
  let new_list := replicate (Z.to_nat new_size) None in
  '(buckets, _) ← Evolver_persistent (me_buckets_evolver self);
  xs ← _tolist buckets;
  let pairs := concat (bucket_items <$> filter (fun b => truthy b = true) xs) in
  new_list ← foldM (place_pair hash new_size) new_list pairs;
  v ← _pvector new_list;
  Ok (mkMapEvolver (PVector_evolver v) (me_size self) (me_original_pmap self)).

(** [_Evolver.__setitem__] *)
Definition MapEvolver_setitem (self : MapEvolver K V) (key : K) (val : V)
  : result (MapEvolver K V) :=
  self ← (if load_exceeded (Evolver_len (me_buckets_evolver self)) (me_size self)
          then _reallocate self (2 * Evolver_len (me_buckets_evolver self))
          else Ok self);
  let kv := (key, val) in
  '(index, b) ← _get_bucket hash (me_buckets_evolver self) key;
  let store new_bucket size :=
    e ← Evolver_setitem (me_buckets_evolver self) index new_bucket;
    Ok (mkMapEvolver e size (me_original_pmap self)) in
  if truthy b then
    match bucket_find b key with
    | Some (k, v) =>
        if negb (bool_decide (v = val)) then
          let new_bucket :=
            (fun '(k2, v2) => if negb (bool_decide (k2 = k))
                              then (k2, v2) else (k2, val))
            <$> bucket_items b in
          store (Some new_bucket) (me_size self)
        else Ok self
    | None =>
        let new_bucket := [kv] ++ bucket_items b in
        store (Some new_bucket) (me_size self + 1)
    end
  else store (Some [kv]) (me_size self + 1).

(** [_Evolver.__delitem__] *)
Definition MapEvolver_delitem (self : MapEvolver K V) (key : K)
  : result (MapEvolver K V) :=
  '(index, b) ← _get_bucket hash (me_buckets_evolver self) key;
  if truthy b then
    let new_bucket :=
      filter (fun kv => fst kv <> key) (bucket_items b) in
    if len new_bucket <? len (bucket_items b) then
      e ← Evolver_setitem (me_buckets_evolver self) index
            (if negb (bool_decide (length new_bucket = 0%nat))
             then Some new_bucket else None);
      Ok (mkMapEvolver e (me_size self - 1) (me_original_pmap self))
    else Raise KeyError
  else Raise KeyError.

(** [_Evolver.persistent]: the map, and the evolver as the call leaves
    it. *)
Definition MapEvolver_persistent (self : MapEvolver K V)
  : result (handle (PMap K V) * MapEvolver K V) :=
  if MapEvolver_is_dirty self then
    '(v, e) ← Evolver_persistent (me_buckets_evolver self);
    Ok (Created (mkPMap (me_size self) v),
        mkMapEvolver e (me_size self) (me_original_pmap self))
  else Ok (Existing (me_original_pmap self), self).

(** [PMap.set] *)
Definition PMap_set (self : PMap K V) (key : K) (val : V)
  : result (handle (PMap K V)) :=
  evolver ← MapEvolver_setitem (PMap_evolver self) key val;
  fst <$> MapEvolver_persistent evolver.

(** [PMap.remove] *)
Definition PMap_remove (self : PMap K V) (key : K)
  : result (handle (PMap K V)) :=
  evolver ← MapEvolver_delitem (PMap_evolver self) key;
  fst <$> MapEvolver_persistent evolver.

(** [PMap.discard] *)
Definition PMap_discard (self : PMap K V) (key : K)
  : result (handle (PMap K V)) :=
  match PMap_remove self key with
  | Raise KeyError => Ok (Existing self)
  | r => r
  end.

(** [PMap.update_with], each mapping given as the list of its items. *)
Definition PMap_update_with (self : PMap K V) (update_fn : V -> V -> V)
    (maps : list (list (K * V))) : result (handle (PMap K V)) :=
  evolver ←
    foldM (fun e '(key, value) =>
             present ← MapEvolver_contains e key;
             if present : bool then
               old ← MapEvolver_getitem e key;
               MapEvolver_setitem e key (update_fn old value)
             else MapEvolver_setitem e key value)
          (PMap_evolver self) (concat maps);
  fst <$> MapEvolver_persistent evolver.

(** [PMap.update] *)
Definition PMap_update (self : PMap K V) (maps : list (list (K * V)))
  : result (handle (PMap K V)) :=
  PMap_update_with self (fun l r => r) maps.

End MapEvolver.

(** ** Invariants of evolvers and maps *)

Section EvolverInv.
Context {A : Type}.

(** The vector an evolver would publish with no pending appends. *)
Definition ev_vec (e : Evolver A) : PVector A :=
  mkPVector (ev_count e) (ev_shift e) (ev_root e) (ev_tail e) (ev_tail_offset e).

(** Every cached leaf is cached under the block it sits at, and a leaf is
    cached only once something has been copied. *)
Definition cache_ok (e : Evolver A) : Prop :=
  forall b id, ev_cached_leafs e !! b = Some id ->
    ev_dirty_nodes e <> [] /\
    match id with
    | TailId => b = ev_tail_offset e / 32
    | TreeId _ _ => 0 <= b < ev_tail_offset e / 32
    end.

Definition ev_inv (e : Evolver A) (H : nat) (l : list A) : Prop :=
  pv_inv (ev_vec e) H l /\ cache_ok e.

(** The sequence an evolver stands for. *)
Definition ev_list (e : Evolver A) (l : list A) : list A :=
  l ++ ev_tail e ++ ev_extra_tail e.

Definition ev_wf (e : Evolver A) (xs : list A) : Prop :=
  exists H l, ev_inv e H l /\ xs = ev_list e l.

End EvolverInv.

Section MapInv.
Context {K V : Type} `{EqDecision K}.
Context (hash : K -> Z).

(** The test [k == key] of the loops over a bucket. *)
Definition key_is (key : K) (kv : K * V) : bool := bool_decide (fst kv = key).

(** The slot of [key] in a list of buckets. *)
Definition slot (bl : list (bucket K V)) (key : K) : nat :=
  Z.to_nat (hash key mod len bl).

(** The binding a sequence of [set] leaves for [k]: the last one. *)
Definition last_binding (kvs : list (K * V)) (k : K) : option V :=
  snd <$> List.find (key_is k) (reverse kvs).

(** What a list of buckets maps [key] to. *)
Definition lookup_in (bl : list (bucket K V)) (key : K) : option V :=
  match bl !! Z.to_nat (hash key mod len bl) with
  | Some b => snd <$> bucket_find b key
  | None => None
  end.

(** Every pair sits in the bucket its key hashes to. *)
Definition buckets_ok (bl : list (bucket K V)) : Prop :=
  (0 < length bl)%nat /\
  forall (i : nat) b kv, bl !! i = Some b -> kv ∈ bucket_items b ->
    Z.to_nat (hash (fst kv) mod len bl) = i.

Definition pm_ok (m : PMap K V) (bl : list (bucket K V)) : Prop :=
  pv_wf (pm_buckets m) /\ _tolist (pm_buckets m) = Ok bl /\ buckets_ok bl.

Definition me_ok (e : MapEvolver K V) (bl : list (bucket K V)) : Prop :=
  ev_wf (me_buckets_evolver e) bl /\ ev_extra_tail (me_buckets_evolver e) = []
  /\ buckets_ok bl.

(** The pairs of [pairs] whose key hashes to slot [j] of [n] slots. *)
Definition group (n : Z) (pairs : list (K * V)) (j : nat) : bucket K V :=
  match filter (fun kv => Z.to_nat (hash (fst kv) mod n) = j) pairs with
  | [] => None
  | g => Some g
  end.

Definition groups (n : nat) (pairs : list (K * V)) : list (bucket K V) :=
  group (Z.of_nat n) pairs <$> seq 0 n.

Definition all_items (bl : list (bucket K V)) : list (K * V) :=
  concat (bucket_items <$> filter (fun b => truthy b = true) bl).

(** The bucket count is [8 * 2^k]. *)
Definition pow2_ge8 (n : Z) : Prop := exists k : nat, n = 8 * 2 ^ Z.of_nat k.

End MapInv.

(** ** Sequences of operations, applied directly and through an evolver *)

Inductive vec_op (A : Type) : Type :=
  | OpSet (i : Z) (x : A)
  | OpAppend (x : A).
Arguments OpSet {A} i x.
Arguments OpAppend {A} x.

Section VecOps.
Context {A : Type}.

(** [v = v.set(i, x)] or [v = v.append(x)] *)
Definition PVector_apply (v : PVector A) (op : vec_op A) : result (PVector A) :=
  match op with
  | OpSet i x => PVector_set v i x
  | OpAppend x => PVector_append v x
  end.

(** [e[i] = x] or [e.append(x)] *)
Definition Evolver_apply (e : Evolver A) (op : vec_op A) : result (Evolver A) :=
  match op with
  | OpSet i x => Evolver_setitem e i x
  | OpAppend x => Ok (Evolver_append e x)
  end.

Definition PVector_run (v : PVector A) (ops : list (vec_op A))
  : result (PVector A) :=
  foldM PVector_apply v ops.

Definition Evolver_run (v : PVector A) (ops : list (vec_op A))
  : result (PVector A) :=
  e ← foldM Evolver_apply (PVector_evolver v) ops;
  fst <$> Evolver_persistent e.

End VecOps.

Section MapOps.
Context {K V : Type} `{EqDecision K}.
Context (hash : K -> Z).
Context `{EqDecision V}.

(** [for k, v in ops: m = m.set(k, v)] *)
Definition PMap_set_all (m : PMap K V) (ops : list (K * V))
  : result (PMap K V) :=
  foldM (fun m '(k, v) => the <$> PMap_set hash m k v) m ops.

(** [e = m.evolver(); for k, v in ops: e[k] = v; e.persistent()] *)
Definition MapEvolver_set_all (m : PMap K V) (ops : list (K * V))
  : result (handle (PMap K V)) :=
  e ← foldM (fun e '(k, v) => MapEvolver_setitem hash e k v)
            (PMap_evolver m) ops;
  fst <$> MapEvolver_persistent e.

(** The maps built from the empty map by the mutation operations. *)
Inductive pm_reachable : PMap K V -> Prop :=
  | pm_reach_empty : pm_reachable _EMPTY_PMAP
  | pm_reach_set m k v h :
      pm_reachable m -> PMap_set hash m k v = Ok h -> pm_reachable (the h)
  | pm_reach_remove m k h :
      pm_reachable m -> PMap_remove hash m k = Ok h -> pm_reachable (the h)
  | pm_reach_discard m k h :
      pm_reachable m -> PMap_discard hash m k = Ok h -> pm_reachable (the h)
  | pm_reach_update m f maps h :
      pm_reachable m -> PMap_update_with hash m f maps = Ok h ->
      pm_reachable (the h).

(** The number of buckets of a map. *)
Definition bucket_count (m : PMap K V) : Z := PVector_len (pm_buckets m).

End MapOps.

(** [hash(k)] of a Python [int] of magnitude below [2^61 - 1]: the number
    itself, but [-2] for [-1].  Used for concrete runs. *)
Definition hash_int (k : Z) : Z := if k =? -1 then -2 else k.

(** [n] keys [0 .. n-1], key [k] bound to [100 + k]. *)
Definition sample_items (n : nat) : list (Z * Z) :=
  (fun k : nat => (Z.of_nat k, 100 + Z.of_nat k)) <$> seq 0 n.

(** ** The linked list (classes [_PList] and [_EmptyPList]) *)

Inductive plist (A : Type) : Type :=
  | _EmptyPList
  | _PList (first : A) (rest : plist A).
Arguments _EmptyPList {A}.
Arguments _PList {A} first rest.

Section PList.
Context {A : Type}.

(** [__bool__] *)
Definition plist_bool (self : plist A) : bool :=
  match self with _EmptyPList => false | _PList _ _ => true end.

(** The property [first]: the empty list has none. *)
Definition plist_first (self : plist A) : result A :=
  match self with
  | _EmptyPList => Raise AttributeError
  | _PList x _ => Ok x
  end.

(** The property [rest]: the empty list is its own rest. *)
Definition plist_rest (self : plist A) : plist A :=
  match self with
  | _EmptyPList => _EmptyPList
  | _PList _ r => r
  end.

(** [_PListBase.cons] *)
Definition plist_cons (self : plist A) (elem : A) : plist A := _PList elem self.

(** [_PListBase.__iter__], as the list of what it yields. *)
Fixpoint plist_iter (self : plist A) : list A :=
  match self with
  | _EmptyPList => []
  | _PList x r => x :: plist_iter r
  end.

(** [_PListBase.__len__] *)
Definition plist_len (self : plist A) : Z := len (plist_iter self).

(** The loop of [_PListBase.reverse]: [head] walks the list, [result]
    collects. *)
Fixpoint plist_reverse_loop (result head : plist A) : plist A :=
  match head with
  | _EmptyPList => result
  | _PList x r => plist_reverse_loop (plist_cons result x) r
  end.

(** [_PListBase.reverse] *)
Definition plist_reverse (self : plist A) : plist A :=
  plist_reverse_loop _EmptyPList self.

(** [plist(iterable, reverse)] *)
Definition plist_of (iterable : list A) (reverse : bool) : plist A :=
  let iterable := if reverse then iterable else rev iterable in
  fold_left plist_cons iterable _EmptyPList.

End PList.

(** ** The deque (class [_PDeque]) *)

Record PDeque (A : Type) : Type := mkPDeque {
  _left_list : plist A;
  _right_list : plist A;
  _length : Z;
  _maxlen : option Z
}.
Arguments mkPDeque {A}.
Arguments _left_list {A}.
Arguments _right_list {A}.
Arguments _length {A}.
Arguments _maxlen {A}.

Section PDeque.
Context {A : Type}.

(** [_PDeque.__new__]: [maxlen] is [None] or an integer. *)
Definition PDeque_new (left_list right_list : plist A) (length : Z)
    (maxlen : option Z) : result (PDeque A) :=
  match maxlen with
  | Some n => if n <? 0 then Raise ValueError
              else Ok (mkPDeque left_list right_list length maxlen)
  | None => Ok (mkPDeque left_list right_list length maxlen)
  end.

(** [_PDeque.__len__] *)
Definition PDeque_len (self : PDeque A) : Z := _length self.

(** [_PDeque.__iter__], as the list of what it yields. *)
Definition PDeque_iter (self : PDeque A) : list A :=
  plist_iter (_left_list self) ++ plist_iter (plist_reverse (_right_list self)).

(** [_PDeque._is_empty] *)
Definition PDeque_is_empty (self : PDeque A) : bool :=
  negb (plist_bool (_left_list self)) && negb (plist_bool (_right_list self)).

(** The [while] loop of [_PDeque._pop_lists]: it runs at most [count]
    times, [passes] counts them down. *)
Fixpoint _pop_lists_loop (passes : nat) (new_primary_list new_secondary_list : plist A)
  : plist A * plist A :=
  match passes with
  | O => (new_primary_list, new_secondary_list)
  | S passes' =>
      if plist_bool new_primary_list || plist_bool new_secondary_list then
        if plist_bool (plist_rest new_primary_list) then
          _pop_lists_loop passes' (plist_rest new_primary_list) new_secondary_list
        else if plist_bool new_primary_list then
          _pop_lists_loop passes' (plist_reverse new_secondary_list) _EmptyPList
        else
          _pop_lists_loop passes'
            (plist_rest (plist_reverse new_secondary_list)) _EmptyPList
      else (new_primary_list, new_secondary_list)
  end.

(** [_PDeque._pop_lists] *)
Definition _pop_lists (primary_list secondary_list : plist A) (count : Z)
  : plist A * plist A :=
  _pop_lists_loop (Z.to_nat count) primary_list secondary_list.

(** The body of [_PDeque.pop] after its test [count < 0]. *)
Definition PDeque_pop_right (self : PDeque A) (count : Z) : result (PDeque A) :=
  let '(new_right_list, new_left_list) :=
    _pop_lists (_right_list self) (_left_list self) count in
  PDeque_new new_left_list new_right_list (Z.max (_length self - count) 0)
             (_maxlen self).

(** The body of [_PDeque.popleft] after its test [count < 0]. *)
Definition PDeque_pop_left (self : PDeque A) (count : Z) : result (PDeque A) :=
  let '(new_left_list, new_right_list) :=
    _pop_lists (_left_list self) (_right_list self) count in
  PDeque_new new_left_list new_right_list (Z.max (_length self - count) 0)
             (_maxlen self).

(** [_PDeque.pop]: a negative [count] goes to [popleft(-count)], whose own
    test [-count < 0] then fails. *)
Definition PDeque_pop (self : PDeque A) (count : Z) : result (PDeque A) :=
  if count <? 0 then
    if - count <? 0 then PDeque_pop_right self (- - count)
    else PDeque_pop_left self (- count)
  else PDeque_pop_right self count.

(** [_PDeque.popleft] *)
Definition PDeque_popleft (self : PDeque A) (count : Z) : result (PDeque A) :=
  if count <? 0 then
    if - count <? 0 then PDeque_pop_left self (- - count)
    else PDeque_pop_right self (- count)
  else PDeque_pop_left self count.

(** [pdeque(iterable, maxlen)] *)
Definition pdeque (iterable : list A) (maxlen : option Z) : result (PDeque A) :=
  let t := match maxlen with
           | Some n => list_slice iterable (- n) (len iterable)
           | None => iterable
           end in
  let length := len t in
  let pivot := length / 2 in
  let left := plist_of (list_slice t 0 pivot) false in
  let right := plist_of (list_slice t pivot length) true in
  PDeque_new left right length maxlen.

(** The order in which [_pop_lists] consumes: the primary list from its
    head, then the secondary list from its end. *)
Definition pop_order (p s : plist A) : list A :=
  plist_iter p ++ rev (plist_iter s).

(** The invariant of the deque: the cached length is right and [maxlen]
    was accepted by [__new__]. *)
Definition dq_wf (d : PDeque A) : Prop :=
  _length d = plist_len (_left_list d) + plist_len (_right_list d)
  /\ match _maxlen d with Some n => 0 <= n | None => True end.

End PDeque.

(** ** Rich comparisons of vectors ([_comparator] and the six methods) *)

(** What a comparison method returns: a boolean or [NotImplemented]. *)
Inductive cmp_value : Type :=
  | PyBool (b : bool)
  | NotImplemented.

(** An argument of a comparison method: a vector, with the identity [is]
    tests, or an object of another type. *)
Inductive operand (A O : Type) : Type :=
  | VectorObject (id : nat) (v : PVector A)
  | OtherObject (o : O).
Arguments VectorObject {A O} id v.
Arguments OtherObject {A O} o.

Section Comparison.
Context {A O : Type}.
(** The comparisons of two elements: [x == y] (true as well when
    [x is y]), [x < y], [x <= y], [x > y] and [x >= y]. *)
Context (elem_eq elem_lt elem_le elem_gt elem_ge : A -> A -> bool).

(** [xs == ys] on Python lists. *)
Fixpoint list_eq_py (xs ys : list A) : bool :=
  match xs, ys with
  | [], [] => true
  | x :: xs', y :: ys' => elem_eq x y && list_eq_py xs' ys'
  | _, _ => false
  end.

(** An ordering of Python lists: the first pair of unequal elements
    decides, and the lengths when there is none. *)
Fixpoint list_order_py (elem_op : A -> A -> bool) (len_op : Z -> Z -> bool)
    (xs ys : list A) : bool :=
  match xs, ys with
  | x :: xs', y :: ys' =>
      if elem_eq x y then list_order_py elem_op len_op xs' ys' else elem_op x y
  | _, _ => len_op (len xs) (len ys)
  end.

(** [_comparator(f)]: [f] runs when both arguments are vectors. *)
Definition _comparator (f : nat * PVector A -> nat * PVector A -> result bool)
    (arg0 arg1 : operand A O) : result cmp_value :=
  match arg0, arg1 with
  | VectorObject i v, VectorObject j w => PyBool <$> f (i, v) (j, w)
  | _, _ => Ok NotImplemented
  end.

(** Both lists realized, then compared. *)
Definition on_lists (op : list A -> list A -> bool)
    (self other : nat * PVector A) : result bool :=
  xs ← _tolist (snd self); ys ← _tolist (snd other); Ok (op xs ys).

(** [PVector.__ne__] *)
Definition PVector_ne : operand A O -> operand A O -> result cmp_value :=
  _comparator (on_lists (fun xs ys => negb (list_eq_py xs ys))).

(** [PVector.__eq__]: [self is other or ...]. *)
Definition PVector_eq : operand A O -> operand A O -> result cmp_value :=
  _comparator (fun self other =>
    if (fst self =? fst other)%nat then Ok true
    else on_lists list_eq_py self other).

(** [PVector.__gt__] *)
Definition PVector_gt : operand A O -> operand A O -> result cmp_value :=
  _comparator (on_lists (list_order_py elem_gt Z.gtb)).

(** [PVector.__lt__] *)
Definition PVector_lt : operand A O -> operand A O -> result cmp_value :=
  _comparator (on_lists (list_order_py elem_lt Z.ltb)).

(** [PVector.__ge__] *)
Definition PVector_ge : operand A O -> operand A O -> result cmp_value :=
  _comparator (on_lists (list_order_py elem_ge Z.geb)).

(** [PVector.__le__] *)
Definition PVector_le : operand A O -> operand A O -> result cmp_value :=
  _comparator (on_lists (list_order_py elem_le Z.leb)).

Definition is_bool (r : result cmp_value) : Prop := exists b, r = Ok (PyBool b).

End Comparison.

(** ** Native dictionaries and sets

    A [dict] is given by its items and a [set] by its elements, both in
    iteration order and without repeated keys. *)

Section Native.
Context {K : Type} `{EqDecision K}.

(** [d.get(key)] *)
Definition dict_get {T} (d : list (K * T)) (key : K) : option T :=
  snd <$> List.find (fun kv => bool_decide (fst kv = key)) d.

(** [d[k] = v]: a key of [d] keeps its place, a new key goes to the end. *)
Definition dict_setitem {T} (d : list (K * T)) (kv : K * T) : list (K * T) :=
  if bool_decide (fst kv ∈ fst <$> d)
  then (fun kv' => if bool_decide (fst kv' = fst kv) then kv else kv') <$> d
  else d ++ [kv].

(** [d.update(other)] *)
Definition dict_update {T} (d other : list (K * T)) : list (K * T) :=
  fold_left dict_setitem other d.

(** [dict(pairs)] *)
Definition dict_of {T} (pairs : list (K * T)) : list (K * T) :=
  dict_update [] pairs.

(** [set(elements)] *)
Definition set_of (elements : list K) : list K :=
  fold_left (fun acc k => if bool_decide (k ∈ acc) then acc else acc ++ [k])
            elements [].

(** [d1 == d2] on dictionaries: as many items, and every key of [d1] bound
    in [d2] to an equal value. *)
Definition dict_eq_py {T} (elem_eq : T -> T -> bool) (d1 d2 : list (K * T)) : bool :=
  (length d1 =? length d2)%nat
  && forallb (fun kv => match dict_get d2 (fst kv) with
                        | Some v' => elem_eq (snd kv) v'
                        | None => false
                        end) d1.

(** [s1 == s2] on sets. *)
Definition set_eq_py (s1 s2 : list K) : bool :=
  (length s1 =? length s2)%nat && forallb (fun k => bool_decide (k ∈ s2)) s1.

End Native.

(** ** Records (classes [_PRecordField], [_PRecordMeta], [PRecord] and
       [_PRecordEvolver]) *)

(** A declared field.  [f_type] is [None] for an empty [type] set and else
    the test [any(isinstance(value, t) for t in field.type)].  Error codes
    stand for arbitrary objects and are numbered. *)
Record PRecordField (V : Type) : Type := mkPRecordField {
  f_type : option (V -> bool);
  f_invariant : V -> bool * Z;
  f_initial : option V;
  f_mandatory : bool;
  f_factory : V -> result V
}.
Arguments mkPRecordField {V}.
Arguments f_type {V}.
Arguments f_invariant {V}.
Arguments f_initial {V}.
Arguments f_mandatory {V}.
Arguments f_factory {V}.

(** A record class as [_PRecordMeta.__new__] leaves it: its name, its fields
    and its global invariants, which read the record as a map. *)
Record PRecordClass (V : Type) : Type := mkPRecordClass {
  cls_name : string;
  _precord_fields : list (string * PRecordField V);
  _precord_invariants : list (PMap string V -> bool * Z)
}.
Arguments mkPRecordClass {V}.
Arguments cls_name {V}.
Arguments _precord_fields {V}.
Arguments _precord_invariants {V}.

Record PRecordEvolver (V : Type) : Type := mkPRecordEvolver {
  re_map : MapEvolver string V;
  _destination_cls : PRecordClass V;
  _invariant_error_codes : list Z;
  _missing_fields : list string
}.
Arguments mkPRecordEvolver {V}.
Arguments re_map {V}.
Arguments _destination_cls {V}.
Arguments _invariant_error_codes {V}.
Arguments _missing_fields {V}.

Section PRecord.
Context {V : Type} `{EqDecision V}.
Context (hash : string -> Z).

(** The order in which a [set] of field names is iterated, given by what
    it does to a list of the elements.  It follows the hashes of the
    strings, which differ from one run of the interpreter to the next. *)
Context (set_iter : list string -> list string).

(** [_precord_mandatory_fields], computed by the metaclass. *)
Definition _precord_mandatory_fields (cls : PRecordClass V) : list string :=
  fst <$> filter (fun nf => f_mandatory (snd nf) = true) (_precord_fields cls).

(** [_precord_initial_values], computed by the metaclass. *)
Definition _precord_initial_values (cls : PRecordClass V) : list (string * V) :=
  omap (fun nf => match f_initial (snd nf) with
                  | Some v => Some (fst nf, v)
                  | None => None
                  end) (_precord_fields cls).

(** [_PRecordEvolver.__init__] *)
Definition PRecordEvolver_init (cls : PRecordClass V) (original : PMap string V)
  : PRecordEvolver V :=
  mkPRecordEvolver (PMap_evolver original) cls [] [].

(** [_PRecordEvolver.__setitem__] *)
Definition PRecordEvolver_setitem (self : PRecordEvolver V) (key : string)
    (original_value : V) : result (PRecordEvolver V) :=
  match dict_get (_precord_fields (_destination_cls self)) key with
  | Some field =>
      match f_factory field original_value with
      | Raise (InvariantException error_codes missing_fields) =>
          Ok (mkPRecordEvolver (re_map self) (_destination_cls self)
                (_invariant_error_codes self ++ error_codes)
                (_missing_fields self ++ missing_fields))
      | Raise e => Raise e
      | Ok value =>
          if match f_type field with
             | Some has_type => negb (has_type value)
             | None => false
             end
          then Raise TypeError
          else
            let '(is_ok, error_code) := f_invariant field value in
            let codes := if negb is_ok
                         then _invariant_error_codes self ++ [error_code]
                         else _invariant_error_codes self in
            m ← MapEvolver_setitem hash (re_map self) key value;
            Ok (mkPRecordEvolver m (_destination_cls self) codes
                                 (_missing_fields self))
      end
  | None => Raise AttributeError
  end.

(** [result.keys()] *)
Definition PMap_keys (m : PMap string V) : result (list string) :=
  (fun items : list (string * V) => fst <$> items) <$> PMap_iteritems m.

(** [_PRecordEvolver.persistent].  The difference of the two sets holds
    the mandatory fields that are no key of [result]; it is read in the
    order of [set_iter]. *)
Definition PRecordEvolver_persistent (self : PRecordEvolver V)
  : result (PMap string V) :=
  let cls := _destination_cls self in
  '(pm, _) ← MapEvolver_persistent (re_map self);
  let result := mkPMap (pm_size (the pm)) (pm_buckets (the pm)) in
  missing_fields ←
    (if negb (bool_decide (_precord_mandatory_fields cls = []))
     then
       keys ← PMap_keys result;
       Ok (_missing_fields self
           ++ ((fun f => (cls_name cls ++ "." ++ f)%string)
               <$> set_iter (filter (fun f => f ∉ keys)
                                    (_precord_mandatory_fields cls))))
     else Ok (_missing_fields self));
  if negb (bool_decide (_invariant_error_codes self = []))
     || negb (bool_decide (missing_fields = []))
  then Raise (InvariantException (_invariant_error_codes self) missing_fields)
  else
    let error_codes :=
      snd <$> filter (fun r => fst r = false)
                     ((fun invariant => invariant result)
                      <$> _precord_invariants cls) in
    if negb (bool_decide (error_codes = []))
    then Raise (InvariantException error_codes [])
    else Ok result.

(** The items [PRecord.__new__] sets: the arguments, over the initial
    values of the class when it has some. *)
Definition initial_values (cls : PRecordClass V) (kwargs : list (string * V))
  : list (string * V) :=
  match _precord_initial_values cls with
  | [] => kwargs
  | initial => dict_update initial kwargs
  end.

(** [PRecord.__new__(cls, **kwargs)], [kwargs] given by its items. *)
Definition PRecord_new (cls : PRecordClass V) (kwargs : list (string * V))
  : result (PMap string V) :=
  e ← foldM (fun e '(k, v) => PRecordEvolver_setitem e k v)
            (PRecordEvolver_init cls _EMPTY_PMAP) (initial_values cls kwargs);
  PRecordEvolver_persistent e.

(** [PMap.set] on a record: [self.evolver()] is the record's evolver. *)
Definition PRecord_super_set (cls : PRecordClass V) (self : PMap string V)
    (key : string) (val : V) : result (PMap string V) :=
  evolver ← PRecordEvolver_setitem (PRecordEvolver_init cls self) key val;
  PRecordEvolver_persistent evolver.

(** [PMap.update_with] on a record, each mapping given by its items. *)
Definition PRecord_update_with (cls : PRecordClass V) (self : PMap string V)
    (update_fn : V -> V -> V) (maps : list (list (string * V)))
  : result (PMap string V) :=
  evolver ←
    foldM (fun e '(key, value) =>
             present ← MapEvolver_contains hash (re_map e) key;
             if present : bool then
               old ← MapEvolver_getitem hash (re_map e) key;
               PRecordEvolver_setitem e key (update_fn old value)
             else PRecordEvolver_setitem e key value)
          (PRecordEvolver_init cls self) (concat maps);
  PRecordEvolver_persistent evolver.

(** [PMap.update] on a record. *)
Definition PRecord_update (cls : PRecordClass V) (self : PMap string V)
    (maps : list (list (string * V))) : result (PMap string V) :=
  PRecord_update_with cls self (fun l r => r) maps.

(** [PRecord.set]: [args] is [Some (key, val)] for the call
    [set(key, val)] and [None] for a call with keyword arguments only. *)
Definition PRecord_set (cls : PRecordClass V) (self : PMap string V)
    (args : option (string * V)) (kwargs : list (string * V))
  : result (PMap string V) :=
  match args with
  | Some (key, val) => PRecord_super_set cls self key val
  | None => PRecord_update cls self [kwargs]
  end.

(** *** What a session is to report

    The definitions below say, without the evolver, which error codes and
    which missing fields the items of a session give rise to, and which
    exception, if any, is to come of them. *)












End PRecord.

(** A hash of strings: the value of the string read in base 256. *)
Definition hash_string (s : string) : Z :=
  fold_left (fun h c => 256 * h + Z.of_N (Ascii.N_of_ascii c))
            (list_ascii_of_string s) 0.

(** ** Persistent sets (class [PSet]) *)

Record PSet (K : Type) : Type := mkPSet { _map : PMap K bool }.
Arguments mkPSet {K}.
Arguments _map {K}.

Section PSet.
Context {K : Type} `{EqDecision K}.
Context (hash : K -> Z).

Definition _EMPTY_PSET : PSet K := mkPSet _EMPTY_PMAP.

(** [PSet._from_iterable] *)
Definition PSet_from_iterable (it : list K) (pre_size : Z) : result (PSet K) :=
  mkPSet <$> pmap hash (dict_of ((fun k => (k, true)) <$> it)) pre_size.

(** [pset(iterable, pre_size=8)] *)
Definition pset (iterable : list K) (pre_size : Z) : result (PSet K) :=
  match iterable with
  | [] => Ok _EMPTY_PSET
  | _ => PSet_from_iterable iterable pre_size
  end.

(** [PSet.__iter__]: the keys of the map. *)
Definition PSet_iter (self : PSet K) : result (list K) :=
  (fun items : list (K * bool) => fst <$> items) <$> PMap_iteritems (_map self).

(** [PSet.__contains__] *)
Definition PSet_contains (self : PSet K) (element : K) : result bool :=
  PMap_contains hash (_map self) element.

End PSet.

(** ** [freeze] and [thaw] *)

(** The objects [freeze] and [thaw] tell apart: the native containers, the
    persistent ones, and [PyAtom] for an object of any other type.  Keys of
    dictionaries and elements of sets are hashable objects of a type [K]. *)
Inductive pyobj (K A : Type) : Type :=
  | PyAtom (a : A)
  | PyList (xs : list (pyobj K A))
  | PyTuple (xs : list (pyobj K A))
  | PyDict (items : list (K * pyobj K A))
  | PySet (elements : list K)
  | PyPVector (v : PVector (pyobj K A))
  | PyPMap (m : PMap K (pyobj K A))
  | PyPSet (s : PSet K).
Arguments PyAtom {K A} a.
Arguments PyList {K A} xs.
Arguments PyTuple {K A} xs.
Arguments PyDict {K A} items.
Arguments PySet {K A} elements.
Arguments PyPVector {K A} v.
Arguments PyPMap {K A} m.
Arguments PyPSet {K A} s.

Section Freeze.
Context {K A : Type} `{EqDecision K} `{EqDecision A}.
Context (hash : K -> Z).
Local Abbreviation obj := (pyobj K A).

(** [(k, f(v))] for an item [(k, v)] of a dictionary or of a map. *)
Definition on_value (f : obj -> result obj) (kv : K * obj) : result (K * obj) :=
  let '(k, v) := kv in v' ← f v; Ok (k, v').

(** [freeze(o)].  [limit] is the depth of recursion the interpreter still
    allows. *)
Fixpoint freeze (limit : nat) (o : obj) : result obj :=
  match limit with
  | O => Raise RecursionError
  | S limit' =>
      match o with
      | PyDict items =>
          pairs ← mapR (on_value (freeze limit')) items;
          PyPMap <$> pmap hash (dict_of pairs) 0
      | PyList xs => ys ← mapR (freeze limit') xs; PyPVector <$> _pvector ys
      | PyTuple xs => PyTuple <$> mapR (freeze limit') xs
      | PySet elements => PyPSet <$> pset hash elements 8
      | _ => Ok o
      end
  end.

(** [thaw(o)] *)
Fixpoint thaw (limit : nat) (o : obj) : result obj :=
  match limit with
  | O => Raise RecursionError
  | S limit' =>
      match o with
      | PyPVector v => xs ← _tolist v; PyList <$> mapR (thaw limit') xs
      | PyPMap m =>
          items ← PMap_iteritems m;
          pairs ← mapR (on_value (thaw limit')) items;
          Ok (PyDict (dict_of pairs))
      | PyTuple xs => PyTuple <$> mapR (thaw limit') xs
      | PyPSet s => (fun ks => PySet (set_of ks)) <$> PSet_iter s
      | _ => Ok o
      end
  end.

(** *** Native values and their equality *)

(** A value built from atoms with lists, tuples, dictionaries and sets
    nested at most [n] deep. *)
Fixpoint native (n : nat) (x : obj) : bool :=
  match x with
  | PyAtom _ => true
  | PyList xs | PyTuple xs =>
      match n with
      | O => false
      | S n' => forallb (native n') xs
      end
  | PyDict items =>
      match n with
      | O => false
      | S n' => bool_decide (NoDup (fst <$> items))
                && forallb (fun kv => native n' (snd kv)) items
      end
  | PySet elements =>
      match n with
      | O => false
      | S _ => bool_decide (NoDup elements)
      end
  | _ => false
  end.

(** [x == y] on native values: lists and tuples element by element,
    dictionaries and sets whatever the order.  The comparisons of
    persistent objects are their own methods and play no part here. *)
Fixpoint py_eq (x y : obj) {struct x} : bool :=
  match x, y with
  | PyAtom a, PyAtom b => bool_decide (a = b)
  | PyList xs, PyList ys => list_eq_py py_eq xs ys
  | PyTuple xs, PyTuple ys => list_eq_py py_eq xs ys
  | PyDict d1, PyDict d2 => dict_eq_py py_eq d1 d2
  | PySet s1, PySet s2 => set_eq_py s1 s2
  | _, _ => false
  end.

(** What [freeze] is to make of a native value: [y] is [x] frozen when a
    list has become a vector of the frozen elements, a tuple the tuple of
    the frozen elements, a dictionary a map that binds the keys of the
    dictionary, and only them, to the frozen values, and a set the
    persistent set of its elements. *)
Inductive frozen_of : obj -> obj -> Prop :=
  | frozen_atom a : frozen_of (PyAtom a) (PyAtom a)
  | frozen_list xs v ys :
      _tolist v = Ok ys -> Forall2 frozen_of xs ys ->
      frozen_of (PyList xs) (PyPVector v)
  | frozen_tuple xs ys :
      Forall2 frozen_of xs ys -> frozen_of (PyTuple xs) (PyTuple ys)
  | frozen_dict items m :
      PMap_len m = len items ->
      (forall k v, dict_get items k = Some v ->
         exists w, PMap_getitem hash m k = Ok w /\ frozen_of v w) ->
      (forall k, dict_get items k = None ->
         PMap_getitem hash m k = Raise KeyError) ->
      frozen_of (PyDict items) (PyPMap m)
  | frozen_set elements s :
      PMap_len (_map s) = len elements ->
      (forall k, PSet_contains hash s k = Ok (bool_decide (k ∈ elements))) ->
      frozen_of (PySet elements) (PyPSet s).

(** [thaw(freeze(x)) == x], both calls returning. *)
Definition round_trips (limit : nat) (x : obj) : Prop :=
  exists y z, freeze limit x = Ok y /\ thaw limit y = Ok z /\ py_eq z x = true.

End Freeze.

(** Keys for examples: integers and strings, with the hash of each. *)
Inductive pykey : Type :=
  | KInt (n : Z)
  | KStr (s : string).

#[global] Instance pykey_eq_dec : EqDecision pykey.
Proof. solve_decision. Defined.

Definition hash_key (k : pykey) : Z :=
  match k with
  | KInt n => hash_int n
  | KStr s => hash_string s
  end.

(** ** Concrete inputs *)

(** [pvector(range(40))]: a full leaf in the tree and eight elements in the
    tail. *)
Definition sample_vector : PVector Z :=
  Eval vm_compute in
    match _pvector ((fun k : nat => Z.of_nat k) <$> seq 0 40) with
    | Ok v => v
    | Raise _ => _EMPTY_VECTOR
    end.

(** Thirteen writes to a map evolver: twelve new keys, then the first key
    again with the value it already has. *)
Definition sample_writes : list (Z * Z) := sample_items 12 ++ [(0, 100)].

(** The map of thirteen keys built by [set] from the empty map. *)
Definition sample_map : PMap Z Z :=
  Eval vm_compute in
    match PMap_set_all hash_int _EMPTY_PMAP (sample_items 13) with
    | Ok m => m
    | Raise _ => _EMPTY_PMAP
    end.

(** [pdeque([1, 2, 3])] *)
Definition sample_deque : PDeque Z :=
  Eval vm_compute in
    match pdeque [1; 2; 3] None with
    | Ok d => d
    | Raise _ => mkPDeque _EmptyPList _EmptyPList 0 None
    end.

(** A field of a record: an integer that must not be negative, mandatory. *)
Definition sample_field (error_code : Z) : PRecordField Z :=
  mkPRecordField None (fun v => (0 <=? v, error_code)) None true (fun v => Ok v).


(** A field that is not mandatory: an integer that must not be negative,
    with an initial value when [initial] is one. *)
Definition sample_optional_field (error_code : Z) (initial : option Z)
  : PRecordField Z :=
  mkPRecordField None (fun v => (0 <=? v, error_code)) initial false
                 (fun v => Ok v).

(** A field made by a factory that refuses a negative number the way the
    factory of a nested record does: with an [InvariantException] of two
    error codes and one missing field. *)
Definition sample_nested_field : PRecordField Z :=
  mkPRecordField None (fun v => (true, 0)) None false
    (fun v => if v <? 0
              then Raise (InvariantException [7; 8] ["Item.sku"%string])
              else Ok v).

(** [class Order(PRecord)]: [a] and [b] must not be negative and [b] starts
    as 5, [c] and [d] are mandatory, [e] is made by a factory, and two
    global invariants ask for [a] and for [b] to be at least ten. *)
Definition sample_order : PRecordClass Z :=
  mkPRecordClass "Order"
    [("a"%string, sample_optional_field 1 None);
     ("b"%string, sample_optional_field 2 (Some 5));
     ("c"%string, sample_field 3);
     ("d"%string, sample_field 4);
     ("e"%string, sample_nested_field)]
    [fun r => (match PMap_getitem hash_string r "a"%string with
               | Ok v => 10 <=? v
               | Raise _ => false
               end, 9);
     fun r => (match PMap_getitem hash_string r "b"%string with
               | Ok v => 10 <=? v
               | Raise _ => false
               end, 10)].

(** A record class of twelve fields, none of them mandatory. *)
Definition sample_wide : PRecordClass Z :=
  mkPRecordClass "Wide"
    ((fun name => (name, sample_optional_field 1 None))
     <$> ["f1"; "f2"; "f3"; "f4"; "f5"; "f6"; "f7"; "f8"; "f9"; "f10"; "f11";
          "f12"]%string)
    [].

(** [{'a': {1, 2}}] *)
Definition sample_dict : pyobj pykey Z :=
  PyDict [(KStr "a", PySet [KInt 1; KInt 2])].

(** ** The vector with its lists in a store

    The lists of a vector are Python objects: [append] copies some, shares
    the others with the vector it is called on, and fills the copies in
    place.  Here a list is an address in a store, a node of the trie holds
    the addresses of its children, and the methods thread the store.  The
    methods are [__getitem__], [_node_for], [_new_path], [_push_tail],
    [_create_new_root] and [append], statement by statement. *)

Definition ref : Type := nat.

(** An item of a list object: an element of the vector or another list. *)
Inductive item (A : Type) : Type :=
  | Elem (x : A)
  | Ref (r : ref).
Arguments Elem {A} x.
Arguments Ref {A} r.

(** The list objects, by address.  A new object gets the next address. *)
Abbreviation store A := (list (list (item A))).

(** A computation on the store that returns or raises. *)
Definition heap (A T : Type) : Type := store A -> result (T * store A).

Global Instance heap_ret {A} : MRet (heap A) := fun T x s => Ok (x, s).
Global Instance heap_bind {A} : MBind (heap A) := fun T U f m s =>
  match m s with
  | Ok (x, s') => f x s'
  | Raise e => Raise e
  end.

Record HVector : Type := mkHVector {
  hv_count : Z;
  hv_shift : Z;
  hv_root : ref;
  hv_tail : ref;
  hv_tail_offset : Z
}.

Section Store.
Context {A : Type}.

(** A computation that leaves the store alone. *)
Definition lift {T} (m : result T) : heap A T :=
  fun s => match m with Ok x => Ok (x, s) | Raise e => Raise e end.

(** A list display [[...]]: a new object. *)
Definition alloc (l : list (item A)) : heap A ref :=
  fun s => Ok (length s, s ++ [l]).

(** The list at [r]. *)
Definition load (r : ref) : heap A (list (item A)) :=
  fun s => match s !! r with
           | Some l => Ok (l, s)
           | None => Raise SystemError
           end.

(** The list at [r] replaced, in place. *)
Definition store_at (r : ref) (l : list (item A)) : heap A unit :=
  fun s => if bool_decide (r < length s)%nat then Ok (tt, <[r := l]> s)
           else Raise SystemError.

(** [list(r)]: a copy, which is a new object. *)
Definition py_list (r : ref) : heap A ref := l ← load r; alloc l.

(** [r.append(x)] *)
Definition py_append (r : ref) (x : item A) : heap A unit :=
  l ← load r; store_at r (l ++ [x]).

(** [r[i] = x] *)
Definition py_setitem (r : ref) (i : Z) (x : item A) : heap A unit :=
  l ← load r; l' ← lift (list_setitem l i x); store_at r l'.

(** [r[i]] *)
Definition py_getitem (r : ref) (i : Z) : heap A (item A) :=
  l ← load r; lift (list_getitem l i).

(** [len(r)] *)
Definition py_len (r : ref) : heap A Z := l ← load r; mret (len l).

(** An item read where a node is expected, and where an element is. *)
Definition as_ref (x : item A) : heap A ref :=
  match x with Ref r => mret r | Elem _ => lift (Raise TypeError) end.

Definition as_elem (x : item A) : heap A A :=
  match x with Elem a => mret a | Ref _ => lift (Raise TypeError) end.

(** [PVector.__new__] *)
Definition HVector_new (count shift : Z) (root tail : ref) : heap A HVector :=
  n ← py_len tail; mret (mkHVector count shift root tail (count - n)).

(** [PVector.__len__] *)
Definition len_st (self : HVector) : Z := hv_count self.

(** The [for] loop of [_node_for]: from [node] down the [levels]. *)
Fixpoint descend_st (i : Z) (levels : list Z) (node : ref) : heap A ref :=
  match levels with
  | [] => mret node
  | level :: levels' =>
      s ← lift (py_rshift i level);
      x ← py_getitem node (Z.land s BIT_MASK);
      child ← as_ref x;
      descend_st i levels' child
  end.

(** [PVector._node_for] *)
Definition node_for_st (self : HVector) (i : Z) : heap A ref :=
  if (0 <=? i) && (i <? hv_count self) then
    if hv_tail_offset self <=? i then mret (hv_tail self)
    else descend_st i (py_range (hv_shift self) 0 (- SHIFT)) (hv_root self)
  else lift (Raise IndexError).

(** [PVector.__getitem__] for an integer index. *)
Definition getitem_st (self : HVector) (index : Z) : heap A A :=
  let index := if index <? 0 then index + hv_count self else index in
  node ← node_for_st self index;
  x ← py_getitem node (Z.land index BIT_MASK);
  as_elem x.

(** [PVector._new_path] *)
Fixpoint new_path_st (budget : nat) (level : Z) (node : ref) : heap A ref :=
  if level =? 0 then mret node
  else match budget with
       | O => lift (Raise RecursionError)
       | S budget' =>
           p ← new_path_st budget' (level - SHIFT) node; alloc [Ref p]
       end.

(** [PVector._push_tail]; [count] is [self._count]. *)
Fixpoint push_tail_st (budget : nat) (count level : Z) (parent tail_node : ref)
  : heap A ref :=
  ret ← py_list parent;
  if level =? SHIFT then
    _ ← py_append ret (Ref tail_node); mret ret
  else
    s ← lift (py_rshift (count - 1) level);
    let sub_index := Z.land s BIT_MASK in
    n ← py_len parent;
    if sub_index <? n then
      match budget with
      | O => lift (Raise RecursionError)
      | S budget' =>
          x ← py_getitem parent sub_index;
          child ← as_ref x;
          new_child ← push_tail_st budget' count (level - SHIFT) child tail_node;
          _ ← py_setitem ret sub_index (Ref new_child);
          mret ret
      end
    else
      p ← new_path_st (Z.to_nat (level - SHIFT)) (level - SHIFT) tail_node;
      _ ← py_append ret (Ref p);
      mret ret.

(** [PVector._create_new_root] *)
Definition create_new_root_st (self : HVector) : heap A (ref * Z) :=
  let new_shift := hv_shift self in
  high ← lift (py_rshift (hv_count self) SHIFT);
  full ← lift (py_lshift 1 (hv_shift self));
  if full <? high then
    p ← new_path_st (Z.to_nat (hv_shift self)) (hv_shift self) (hv_tail self);
    new_root ← alloc [Ref (hv_root self); Ref p];
    mret (new_root, new_shift + SHIFT)
  else
    new_root ← push_tail_st (Z.to_nat (hv_shift self)) (hv_count self)
                            (hv_shift self) (hv_root self) (hv_tail self);
    mret (new_root, new_shift).

(** [PVector.append] *)
Definition append_st (self : HVector) (val : A) : heap A HVector :=
  n ← py_len (hv_tail self);
  if n <? BRANCH_FACTOR then
    new_tail ← py_list (hv_tail self);
    _ ← py_append new_tail (Elem val);
    HVector_new (hv_count self + 1) (hv_shift self) (hv_root self) new_tail
  else
    '(new_root, new_shift) ← create_new_root_st self;
    tail ← alloc [Elem val];
    HVector_new (hv_count self + 1) new_shift new_root tail.

(** *** What a store holds *)

(** The list at [r] is the node [n], [h] levels above the leaves; [P]
    holds of every address read on the way. *)
Fixpoint node_repr (P : ref -> Prop) (s : store A) (h : nat) (r : ref) (n : node A)
  : Prop :=
  P r /\
  match h, n with
  | O, Leaf xs => s !! r = Some (Elem <$> xs)
  | S h', Branch cs =>
      exists rs, s !! r = Some (Ref <$> rs) /\ Forall2 (node_repr P s h') rs cs
  | _, _ => False
  end.

(** The vector object [hv] in store [s] is the vector [v]. *)
Definition hv_repr (s : store A) (hv : HVector) (v : PVector A) : Prop :=
  hv_count hv = pv_count v /\ hv_shift hv = pv_shift v
  /\ hv_tail_offset hv = pv_tail_offset v
  /\ (exists H : nat, (1 <= H)%nat /\ pv_shift v = 5 * Z.of_nat H
                      /\ node_repr (fun _ => True) s H (hv_root hv) (pv_root v))
  /\ s !! hv_tail hv = Some (Elem <$> pv_tail v).

End Store.

(** [sample_vector] in a store: the root at address 0, its leaf at 1 and the
    tail at 2. *)
Definition sample_store : store Z :=
  [[Ref 1%nat];
   Elem <$> ((fun k : nat => Z.of_nat k) <$> seq 0 32);
   Elem <$> ((fun k : nat => Z.of_nat k) <$> seq 32 8)].

Definition sample_hvector : HVector := mkHVector 40 5 0%nat 2%nat 32.

(** ** Well-formed maps *)

Section MapShape.
Context {K V : Type} `{EqDecision K}.
Context (hash : K -> Z).

(** No key is held twice, and [size] pairs are held. *)
Definition sized (size : Z) (bl : list (bucket K V)) : Prop :=
  NoDup (fst <$> all_items bl) /\ size = len (all_items bl).

(** Well-formed maps: the buckets are a non-empty list in which every
    pair sits in the bucket of its hash, no key is held twice, and
    [_size] is the number of pairs. *)
Definition pm_wf (m : PMap K V) : Prop :=
  exists bl, pm_ok hash m bl /\ sized (pm_size m) bl.

(** [PMap.get(key, default)], which is [Mapping.get]: [self[key]], and
    [default] on [KeyError]. *)
Definition PMap_get (self : PMap K V) (key : K) (default : V) : result V :=
  match PMap_getitem hash self key with
  | Raise KeyError => Ok default
  | r => r
  end.

(** [PMap.iterkeys], as the list of what it yields. *)
Definition PMap_iterkeys (self : PMap K V) : result (list K) :=
  (fun items : list (K * V) => fst <$> items) <$> PMap_iteritems self.

End MapShape.

(** Three writes to a vector, the first through a negative index. *)
Definition sample_ops : list (vec_op Z) := [OpSet (-1) 7; OpAppend 8; OpSet 3 9].

(** ** Persistent sets, continued (class [PSet]) *)

Section PSetOps.
Context {K : Type} `{EqDecision K}.
Context (hash : K -> Z).

(** [PSet.__len__] *)
Definition PSet_len (self : PSet K) : Z := PMap_len (_map self).

(** [PSet.add]: always a new set object, around the map [set] returns. *)
Definition PSet_add (self : PSet K) (element : K) : result (PSet K) :=
  h ← PMap_set hash (_map self) element true;
  Ok (mkPSet (the h)).

(** [PSet.remove] *)
Definition PSet_remove (self : PSet K) (element : K) : result (PSet K) :=
  present ← PMap_contains hash (_map self) element;
  if present : bool then
    h ← PMap_remove hash (_map self) element;
    Ok (mkPSet (the h))
  else Raise KeyError.

(** [PSet.discard]: the set itself when [element] is not in it. *)
Definition PSet_discard (self : PSet K) (element : K) : result (handle (PSet K)) :=
  present ← PMap_contains hash (_map self) element;
  if present : bool then
    h ← PMap_remove hash (_map self) element;
    Ok (Created (mkPSet (the h)))
  else Ok (Existing self).

(** Well-formed sets: those around a well-formed map. *)
Definition ps_wf (s : PSet K) : Prop := pm_wf hash (_map s).

End PSetOps.

(** ** Persistent bags (class [_PBag])

    The counts are Python integers.  [PMap.set] compares the old and the new
    value by identity; the bag only ever writes a count that differs from
    the one held, so that identity and equality of integers agree on every
    comparison made. *)

Record PBag (K : Type) : Type := mkPBag { _counts : PMap K Z }.
Arguments mkPBag {K}.
Arguments _counts {K}.

Section PBag.
Context {K : Type} `{EqDecision K}.
Context (hash : K -> Z).

(** [_add_to_counters] *)
Definition _add_to_counters (counters : PMap K Z) (element : K)
  : result (PMap K Z) :=
  c ← PMap_get hash counters element 0;
  the <$> PMap_set hash counters element (c + 1).

(** [_PBag.add] *)
Definition PBag_add (self : PBag K) (element : K) : result (PBag K) :=
  mkPBag <$> _add_to_counters (_counts self) element.

(** [_PBag.remove] *)
Definition PBag_remove (self : PBag K) (element : K) : result (PBag K) :=
  present ← PMap_contains hash (_counts self) element;
  if negb present then Raise KeyError
  else
    c ← PMap_getitem hash (_counts self) element;
    if c =? 1 then
      newc ← PMap_remove hash (_counts self) element;
      Ok (mkPBag (the newc))
    else
      c ← PMap_getitem hash (_counts self) element;
      newc ← PMap_set hash (_counts self) element (c - 1);
      Ok (mkPBag (the newc)).

(** [_PBag.count] *)
Definition PBag_count (self : PBag K) (element : K) : result Z :=
  PMap_get hash (_counts self) element 0.

(** [PMap.itervalues] *)
Definition PMap_itervalues {V} (self : PMap K V) : result (list V) :=
  (fun items : list (K * V) => snd <$> items) <$> PMap_iteritems self.

(** The sum of a list of integers. *)
Definition total (values : list Z) : Z := foldr Z.add 0 values.

(** [_PBag.__len__]: [sum(self._counts.itervalues())] *)
Definition PBag_len (self : PBag K) : result Z :=
  (fun values => fold_left Z.add values 0) <$> PMap_itervalues (_counts self).

(** The elements a list of counts stands for: each [elt], [range(count)]
    times. *)
Definition repeated (items : list (K * Z)) : list K :=
  items ≫= (fun '(elt, count) => replicate (Z.to_nat count) elt).

(** [_PBag.__iter__], as the list of what it yields. *)
Definition PBag_iter (self : PBag K) : result (list K) :=
  repeated <$> PMap_iteritems (_counts self).

(** [_PBag.__contains__] *)
Definition PBag_contains (self : PBag K) (elt : K) : result bool :=
  PMap_contains hash (_counts self) elt.

Definition _EMPTY_PBAG : PBag K := mkPBag _EMPTY_PMAP.

(** [pbag(elements)]; [m()] is the empty map. *)
Definition pbag (elements : list K) : result (PBag K) :=
  match elements with
  | [] => Ok _EMPTY_PBAG
  | _ => mkPBag <$> foldM _add_to_counters _EMPTY_PMAP elements
  end.

(** How often [x] occurs in a list. *)
Definition occurrences (x : K) (l : list K) : Z :=
  len (filter (fun y => y = x) l).

(** Well-formed bags: a well-formed map of counts, each at least one. *)
Definition bag_wf (b : PBag K) : Prop :=
  exists bl, pm_ok hash (_counts b) bl /\ sized (pm_size (_counts b)) bl
             /\ Forall (fun kv => 1 <= snd kv) (all_items bl).

End PBag.

(** The set and the bag of [1, 2, 2, 3]. *)
Definition sample_set : PSet Z :=
  Eval vm_compute in
    match pset hash_int [1; 2; 2; 3] 8 with
    | Ok s => s
    | Raise _ => _EMPTY_PSET
    end.

Definition sample_bag : PBag Z :=
  Eval vm_compute in
    match pbag hash_int [1; 2; 2; 3] with
    | Ok b => b
    | Raise _ => _EMPTY_PBAG
    end.

(** ** The linked list, continued (classes [_PListBuilder] and [_PListBase]) *)

(** [_PListBuilder]: [builder_head] is its [_head], the list built so far,
    and [builder_tail] its [_tail], the last node of that list.  The builder
    creates the nodes of [_head] itself and hands the list out only at the
    end, so that the assignment [self._tail.rest = ...], which changes the
    last node in place, shows through [_head] as the list with the rest of
    its last node replaced.  Both users of the builder, [split] and
    [remove], stop appending once a whole list was appended. *)
Record PListBuilder (A : Type) : Type := mkPListBuilder {
  builder_head : plist A;
  builder_tail : plist A
}.
Arguments mkPListBuilder {A}.
Arguments builder_head {A}.
Arguments builder_tail {A}.

Section PListMore.
Context {A : Type}.

(** [_PListBase.mcons] *)
Definition plist_mcons (self : plist A) (iterable : list A) : plist A :=
  fold_left plist_cons iterable self.

Definition PListBuilder_new : PListBuilder A :=
  mkPListBuilder _EmptyPList _EmptyPList.

(** The list [head] with the rest of its last node set to [node]. *)
Fixpoint set_last_rest (head node : plist A) : plist A :=
  match head with
  | _EmptyPList => node
  | _PList x r =>
      match r with
      | _EmptyPList => _PList x node
      | _PList _ _ => _PList x (set_last_rest r node)
      end
  end.

(** [_PListBuilder._append], [node] being [constructor(elem)]: the builder
    after the call, whose [builder_head] the call returns. *)
Definition PListBuilder_append (self : PListBuilder A) (node : plist A)
  : PListBuilder A :=
  if negb (plist_bool (builder_tail self)) then mkPListBuilder node node
  else mkPListBuilder (set_last_rest (builder_head self) node) node.

(** [_PListBuilder.append_elem] *)
Definition append_elem (self : PListBuilder A) (elem : A) : PListBuilder A :=
  PListBuilder_append self (_PList elem _EmptyPList).

(** [_PListBuilder.append_plist] *)
Definition append_plist (self : PListBuilder A) (pl : plist A) : PListBuilder A :=
  PListBuilder_append self pl.

(** The builder knows whether its list is empty: [_tail] is a node when
    [_head] is. *)
Definition builder_ok (b : PListBuilder A) : Prop :=
  plist_bool (builder_tail b) = plist_bool (builder_head b).

(** [_PListBuilder.build] *)
Definition build (self : PListBuilder A) : plist A := builder_head self.

(** The loop of [_PListBase.split]. *)
Fixpoint split_loop (lb : PListBuilder A) (right_list : plist A) (i index : Z)
  : PListBuilder A * plist A :=
  match right_list with
  | _EmptyPList => (lb, right_list)
  | _PList first rest =>
      if i <? index then split_loop (append_elem lb first) rest (i + 1) index
      else (lb, right_list)
  end.

(** [_PListBase.split] *)
Definition plist_split (self : plist A) (index : Z) : plist A * plist A :=
  let '(lb, right_list) := split_loop PListBuilder_new self 0 index in
  if negb (plist_bool right_list) then (self, _EmptyPList)
  else (build lb, right_list).

(** The loop of [_PListBase._drop]. *)
Fixpoint drop_loop (count : nat) (head : plist A) : plist A :=
  match count with
  | O => head
  | S count' => drop_loop count' (plist_rest head)
  end.

(** [_PListBase._drop] *)
Definition plist_drop (self : plist A) (count : Z) : result (plist A) :=
  if count <? 0 then Raise IndexError
  else Ok (drop_loop (Z.to_nat count) self).

(** [_PListBase.__getitem__] for an integer index. *)
Definition plist_getitem (self : plist A) (index : Z) : result A :=
  let index := if index <? 0 then index + plist_len self else index in
  match (head ← plist_drop self index; plist_first head) with
  | Raise AttributeError => Raise IndexError
  | r => r
  end.

(** [_PListBase.__getitem__] for the slice [start:]. *)
Definition plist_getitem_from (self : plist A) (start : Z) : result (plist A) :=
  plist_drop self start.

(** The loop of [_PListBase.remove]; [elem_eq x y] is [x == y]. *)
Fixpoint remove_loop (elem_eq : A -> A -> bool) (builder : PListBuilder A)
    (head : plist A) (elem : A) : result (plist A) :=
  match head with
  | _EmptyPList => Raise ValueError
  | _PList first rest =>
      if elem_eq first elem then Ok (builder_head (append_plist builder rest))
      else remove_loop elem_eq (append_elem builder first) rest elem
  end.

(** [_PListBase.remove] *)
Definition plist_remove (elem_eq : A -> A -> bool) (self : plist A) (elem : A)
  : result (plist A) :=
  remove_loop elem_eq PListBuilder_new self elem.

End PListMore.

(** ** The deque, continued (class [_PDeque]) *)

Section PDequeMore.
Context {A : Type}.

(** [_PDeque._tip_from_lists] *)
Definition _tip_from_lists (primary_list secondary_list : plist A) : result A :=
  if plist_bool primary_list then plist_first primary_list
  else if plist_bool secondary_list then plist_getitem secondary_list (-1)
  else Raise IndexError.

(** The property [right] *)
Definition PDeque_right (self : PDeque A) : result A :=
  _tip_from_lists (_right_list self) (_left_list self).

(** The property [left] *)
Definition PDeque_left (self : PDeque A) : result A :=
  _tip_from_lists (_left_list self) (_right_list self).

(** [_PDeque._append] *)
Definition _append (self : PDeque A) (primary_list secondary_list : plist A)
    (elem : A) : plist A * plist A * Z :=
  match _maxlen self with
  | Some maxlen =>
      if _length self =? maxlen then
        if maxlen =? 0 then (primary_list, secondary_list, 0)
        else
          let '(new_primary_list, new_secondary_list) :=
            _pop_lists primary_list secondary_list 1 in
          (new_primary_list, plist_cons new_secondary_list elem, _length self)
      else (primary_list, plist_cons secondary_list elem, _length self + 1)
  | None => (primary_list, plist_cons secondary_list elem, _length self + 1)
  end.

(** [_PDeque.append] *)
Definition PDeque_append (self : PDeque A) (elem : A) : result (PDeque A) :=
  let '(new_left_list, new_right_list, new_length) :=
    _append self (_left_list self) (_right_list self) elem in
  PDeque_new new_left_list new_right_list new_length (_maxlen self).

(** [_PDeque.appendleft] *)
Definition PDeque_appendleft (self : PDeque A) (elem : A) : result (PDeque A) :=
  let '(new_right_list, new_left_list, new_length) :=
    _append self (_right_list self) (_left_list self) elem in
  PDeque_new new_left_list new_right_list new_length (_maxlen self).

(** [_PDeque._extend_list] *)
Definition _extend_list (the_list : plist A) (iterable : list A) : plist A * Z :=
  fold_left (fun '(the_list, count) elem => (plist_cons the_list elem, count + 1))
            iterable (the_list, 0).

(** [_PDeque._extend] *)
Definition _extend (self : PDeque A) (primary_list secondary_list : plist A)
    (iterable : list A) : plist A * plist A * Z :=
  let '(new_primary_list, extend_count) := _extend_list primary_list iterable in
  let new_secondary_list := secondary_list in
  let current_len := _length self + extend_count in
  match _maxlen self with
  | Some maxlen =>
      if maxlen <? current_len then
        let pop_len := current_len - maxlen in
        let '(new_secondary_list, new_primary_list) :=
          _pop_lists new_secondary_list new_primary_list pop_len in
        (new_primary_list, new_secondary_list, extend_count - pop_len)
      else (new_primary_list, new_secondary_list, extend_count)
  | None => (new_primary_list, new_secondary_list, extend_count)
  end.

(** [_PDeque.extend] *)
Definition PDeque_extend (self : PDeque A) (iterable : list A) : result (PDeque A) :=
  let '(new_right_list, new_left_list, extend_count) :=
    _extend self (_right_list self) (_left_list self) iterable in
  PDeque_new new_left_list new_right_list (_length self + extend_count)
             (_maxlen self).

(** [_PDeque.extendleft] *)
Definition PDeque_extendleft (self : PDeque A) (iterable : list A)
  : result (PDeque A) :=
  let '(new_left_list, new_right_list, extend_count) :=
    _extend self (_left_list self) (_right_list self) iterable in
  PDeque_new new_left_list new_right_list (_length self + extend_count)
             (_maxlen self).

(** [_PDeque.reverse]: the new deque gets no [maxlen]. *)
Definition PDeque_reverse (self : PDeque A) : result (PDeque A) :=
  PDeque_new (_right_list self) (_left_list self) (_length self) None.

(** [itertools.islice(iterable, stop)] for [stop >= 0]. *)
Definition islice (iterable : list A) (stop : Z) : list A :=
  take (Z.to_nat stop) iterable.

(** [_PDeque.rotate] *)
Definition PDeque_rotate (self : PDeque A) (steps : Z) : result (PDeque A) :=
  popped_deque ← PDeque_pop self steps;
  if 0 <=? steps then
    reversed ← PDeque_reverse self;
    PDeque_extendleft popped_deque (islice (PDeque_iter reversed) steps)
  else PDeque_extend popped_deque (islice (PDeque_iter self) (- steps)).

(** [_PDeque.__getitem__] for an integer index. *)
Definition PDeque_getitem (self : PDeque A) (index : Z) : result A :=
  if 0 <=? index then d ← PDeque_popleft self index; PDeque_left d
  else d ← PDeque_pop self index; PDeque_right d.

(** [_PDeque.remove]; the new deque gets no [maxlen]. *)
Definition PDeque_remove (elem_eq : A -> A -> bool) (self : PDeque A) (elem : A)
  : result (PDeque A) :=
  match plist_remove elem_eq (_left_list self) elem with
  | Ok new_left => PDeque_new new_left (_right_list self) (_length self - 1) None
  | Raise ValueError =>
      match plist_remove elem_eq (plist_reverse (_right_list self)) elem with
      | Ok removed =>
          PDeque_new (_left_list self) (plist_reverse removed)
                     (_length self - 1) None
      | Raise err => Raise err
      end
  | Raise err => Raise err
  end.

(** The first element of [l] that [p] accepts, removed. *)
Fixpoint remove_first (p : A -> bool) (l : list A) : list A :=
  match l with
  | [] => []
  | x :: l' => if p x then l' else x :: remove_first p l'
  end.

(** A deque that holds no more than its [maxlen]. *)
Definition bounded (d : PDeque A) : Prop :=
  match _maxlen d with Some n => _length d <= n | None => True end.

End PDequeMore.

(** [plist([1, 2, 3, 2])] and [pdeque([1, 2, 3, 4, 5], maxlen=5)] *)
Definition sample_plist : plist Z := Eval vm_compute in plist_of [1; 2; 3; 2] false.

Definition sample_full_deque : PDeque Z :=
  Eval vm_compute in
    match pdeque [1; 2; 3; 4; 5] (Some 5) with
    | Ok d => d
    | Raise _ => mkPDeque _EmptyPList _EmptyPList 0 None
    end.

(** ** [set] with the lists in the store *)

Section StoreSet.
Context {A : Type}.

(** [PVector._do_set]: [ret] is a copy of [node], changed in place. *)
Fixpoint do_set_st (budget : nat) (level : Z) (node : ref) (i : Z) (val : A)
  : heap A ref :=
  ret ← py_list node;
  if level =? 0 then
    _ ← py_setitem ret (Z.land i BIT_MASK) (Elem val); mret ret
  else
    s ← lift (py_rshift i level);
    let sub_index := Z.land s BIT_MASK in
    match budget with
    | O => lift (Raise RecursionError)
    | S budget' =>
        x ← py_getitem node sub_index;
        child ← as_ref x;
        new_child ← do_set_st budget' (level - SHIFT) child i val;
        _ ← py_setitem ret sub_index (Ref new_child);
        mret ret
    end.

(** [PVector.set] for an integer index. *)
Definition set_st (self : HVector) (i : Z) (val : A) : heap A HVector :=
  let i := if i <? 0 then i + hv_count self else i in
  if (0 <=? i) && (i <? hv_count self) then
    if hv_tail_offset self <=? i then
      new_tail ← py_list (hv_tail self);
      _ ← py_setitem new_tail (Z.land i BIT_MASK) (Elem val);
      HVector_new (hv_count self) (hv_shift self) (hv_root self) new_tail
    else
      new_root ← do_set_st (Z.to_nat (hv_shift self)) (hv_shift self)
                           (hv_root self) i val;
      HVector_new (hv_count self) (hv_shift self) new_root (hv_tail self)
  else if i =? hv_count self then append_st self val
  else lift (Raise IndexError).

End StoreSet.

(** * Proofs: Python built-ins *)

Lemma SHIFT_eq : SHIFT = 5.
Proof. reflexivity. Qed.

Lemma BIT_MASK_eq : BIT_MASK = 31.
Proof. reflexivity. Qed.

Lemma BRANCH_FACTOR_eq : BRANCH_FACTOR = 32.
Proof. reflexivity. Qed.

Lemma len_app {T} (l k : list T) : len (l ++ k) = len l + len k.
Proof. unfold len. rewrite length_app. lia. Qed.

Lemma len_nonneg {T} (l : list T) : 0 <= len l.
Proof. unfold len. lia. Qed.

Lemma ret_bind {S T} (x : S) (f : S -> result T) : Ok x ≫= f = f x.
Proof. reflexivity. Qed.

Lemma fmap_ret {S T} (x : S) (f : S -> T) : f <$> Ok x = Ok (f x).
Proof. reflexivity. Qed.

Lemma raise_bind {S T} e (f : S -> result T) : Raise e ≫= f = Raise e.
Proof. reflexivity. Qed.

Ltac rsimpl :=
  repeat (rewrite ret_bind || rewrite fmap_ret || rewrite raise_bind); cbv beta.

(** Case analysis on every integer comparison of the goal. *)
Ltac zcases :=
  repeat match goal with
  | |- context [?a <? ?b] => destruct (Z.ltb_spec a b)
  | |- context [?a <=? ?b] => destruct (Z.leb_spec a b)
  | |- context [?a =? ?b] => destruct (Z.eqb_spec a b)
  end; cbn [andb orb negb]; try lia.

Lemma bind_Ok {S T} (m : result S) (f : S -> result T) y :
  m ≫= f = Ok y <-> exists x, m = Ok x /\ f x = Ok y.
Proof.
  destruct m as [x|e]; simpl.
  - split; [eauto | intros (x' & [= <-] & ?); done].
  - split; [done | intros (x' & [=] & _)].
Qed.

Lemma fmap_Ok {S T} (m : result S) (f : S -> T) y :
  f <$> m = Ok y <-> exists x, m = Ok x /\ y = f x.
Proof.
  destruct m as [x|e]; simpl.
  - split; [intros [= <-]; eauto | intros (x' & [= <-] & ->); done].
  - split; [done | intros (x' & [=] & _)].
Qed.

Lemma list_getitem_nat {T} (l : list T) (k : nat) x :
  l !! k = Some x -> list_getitem l (Z.of_nat k) = Ok x.
Proof.
  intros Hk. pose proof (lookup_lt_Some _ _ _ Hk) as Hlt.
  unfold list_getitem, len.
  destruct (Z.ltb_spec (Z.of_nat k) 0); [lia|].
  destruct (Z.leb_spec 0 (Z.of_nat k)); [|lia].
  destruct (Z.ltb_spec (Z.of_nat k) (Z.of_nat (length l))); [|lia].
  simpl. by rewrite Nat2Z.id, Hk.
Qed.

Lemma list_getitem_Ok {T} (l : list T) (i : Z) x :
  0 <= i -> list_getitem l i = Ok x <-> l !! Z.to_nat i = Some x.
Proof.
  intros Hi. split.
  - unfold list_getitem. destruct (Z.ltb_spec i 0); [lia|].
    destruct (_ && _); [|done]. by destruct (l !! Z.to_nat i); intros [= ->].
  - intros Hk. rewrite <- (Z2Nat.id i) by done. by apply list_getitem_nat.
Qed.

Lemma list_getitem_out {T} (l : list T) (i : Z) :
  len l <= i -> list_getitem l i = Raise IndexError.
Proof.
  intros Hi. pose proof (len_nonneg l). unfold list_getitem.
  destruct (Z.ltb_spec i 0); [lia|].
  destruct (Z.ltb_spec i (len l)); [lia|]. by rewrite andb_false_r.
Qed.

Lemma list_setitem_nat {T} (l : list T) (k : nat) x :
  (k < length l)%nat -> list_setitem l (Z.of_nat k) x = Ok (<[k := x]> l).
Proof.
  intros Hlt. unfold list_setitem, len.
  destruct (Z.ltb_spec (Z.of_nat k) 0); [lia|].
  destruct (Z.leb_spec 0 (Z.of_nat k)); [|lia].
  destruct (Z.ltb_spec (Z.of_nat k) (Z.of_nat (length l))); [|lia].
  simpl. by rewrite Nat2Z.id.
Qed.

Lemma list_setitem_out {T} (l : list T) (i : Z) x :
  len l <= i -> list_setitem l i x = Raise IndexError.
Proof.
  intros Hi. pose proof (len_nonneg l). unfold list_setitem.
  destruct (Z.ltb_spec i 0); [lia|].
  destruct (Z.ltb_spec i (len l)); [lia|]. by rewrite andb_false_r.
Qed.

Lemma list_slice_nat {T} (l : list T) (a b : nat) :
  list_slice l (Z.of_nat a) (Z.of_nat b) = take (b - a) (drop a l).
Proof.
  unfold list_slice, len.
  destruct (Z.ltb_spec (Z.of_nat a) 0); [lia|].
  destruct (Z.ltb_spec (Z.of_nat b) 0); [lia|].
  destruct (decide (a <= length l)%nat) as [Ha|Ha].
  - replace (Z.to_nat (Z.min _ (Z.max 0 (Z.of_nat a)))) with a by lia.
    destruct (decide (b <= length l)%nat) as [Hb|Hb].
    + f_equal. lia.
    + rewrite !take_ge; [done| |]; rewrite length_drop; lia.
  - rewrite !drop_ge by lia. by rewrite !take_nil.
Qed.

Lemma py_rshift_Ok x n : 0 <= n -> py_rshift x n = Ok (Z.shiftr x n).
Proof. intros. unfold py_rshift. by destruct (Z.ltb_spec n 0); [lia|]. Qed.

Lemma py_lshift_Ok x n : 0 <= n -> py_lshift x n = Ok (Z.shiftl x n).
Proof. intros. unfold py_lshift. by destruct (Z.ltb_spec n 0); [lia|]. Qed.

Lemma py_range_down (h : nat) :
  py_range (5 * Z.of_nat (S h)) 0 (- SHIFT)
  = 5 * Z.of_nat (S h) :: py_range (5 * Z.of_nat h) 0 (- SHIFT).
Proof.
  unfold py_range. change (- SHIFT) with (-5).
  change (0 <? -5) with false. cbv iota. change (- -5) with 5.
  replace ((5 * Z.of_nat (S h) - 0 - -5 - 1) / 5) with (Z.of_nat (S h)).
  2:{ apply Z.div_unique with (r := 4); lia. }
  replace ((5 * Z.of_nat h - 0 - -5 - 1) / 5) with (Z.of_nat h).
  2:{ apply Z.div_unique with (r := 4); lia. }
  rewrite !Nat2Z.id.
  simpl seq. rewrite fmap_cons.
  replace (5 * Z.of_nat (S h) + Z.of_nat 0 * -5) with (5 * Z.of_nat (S h)) by lia.
  f_equal.
  rewrite <- fmap_S_seq, <- list_fmap_compose.
  apply list_fmap_ext. intros _ k _. simpl. lia.
Qed.

Lemma py_range_zero : py_range 0 0 (- SHIFT) = [].
Proof. reflexivity. Qed.

Lemma foldM_cons {S T} (f : S -> T -> result S) acc x xs :
  foldM f acc (x :: xs) = (acc' ← f acc x; foldM f acc' xs).
Proof. reflexivity. Qed.

Lemma mapR_cons {S T} (f : S -> result T) x xs :
  mapR f (x :: xs) = (y ← f x; ys ← mapR f xs; Ok (y :: ys)).
Proof. reflexivity. Qed.

Lemma mapR_fmap_Ok {S T U} (g : S -> T) (f : T -> result U) (h : S -> U) xs :
  (forall x, x ∈ xs -> f (g x) = Ok (h x)) ->
  mapR f (g <$> xs) = Ok (h <$> xs).
Proof.
  induction xs as [|x xs IH]; intros Hf; [done|].
  rewrite !fmap_cons, mapR_cons, Hf by left.
  rewrite IH by (intros; apply Hf; by right). done.
Qed.

(** * Proofs: arithmetic of the trie layout *)

Lemma width_0 : width 0 = 32%nat.
Proof. reflexivity. Qed.

Lemma width_S h : width (S h) = (32 * width h)%nat.
Proof. unfold width. by rewrite (Nat.pow_succ_r' 32 (S h)). Qed.

Lemma width_pos h : (0 < width h)%nat.
Proof. induction h; [rewrite width_0 | rewrite width_S]; lia. Qed.

Lemma width_mod32 h : (width h mod 32 = 0)%nat.
Proof.
  destruct h; [done|]. rewrite width_S, Nat.mul_comm. apply Nat.Div0.mod_mul.
Qed.

Lemma width_Z h : Z.of_nat (width h) = 2 ^ (5 * Z.of_nat (S h)).
Proof.
  induction h as [|h IH]; [done|].
  rewrite width_S, Nat2Z.inj_mul, IH.
  replace (5 * Z.of_nat (S (S h))) with (5 + 5 * Z.of_nat (S h)) by lia.
  rewrite Z.pow_add_r by lia. done.
Qed.

(** The child index [(i >> level) & BIT_MASK] read as a base-32 digit. *)
Lemma digit_nat (n h : nat) :
  Z.land (Z.shiftr (Z.of_nat n) (5 * Z.of_nat (S h))) BIT_MASK
  = Z.of_nat ((n / width h) mod 32).
Proof.
  rewrite Z.shiftr_div_pow2 by lia. rewrite <- width_Z.
  change BIT_MASK with (Z.ones 5). rewrite Z.land_ones by lia.
  rewrite Nat2Z.inj_mod, Nat2Z.inj_div. done.
Qed.

Lemma digit0_nat (n : nat) :
  Z.land (Z.of_nat n) BIT_MASK = Z.of_nat (n mod 32).
Proof.
  change BIT_MASK with (Z.ones 5). rewrite Z.land_ones by lia.
  by rewrite Nat2Z.inj_mod.
Qed.

(** Digits of an index below [width (S h)]. *)
Lemma div_width_lt (n h : nat) :
  (n < width (S h))%nat -> (n / width h < 32)%nat.
Proof.
  intros Hn. rewrite width_S in Hn. pose proof (width_pos h).
  apply Nat.Div0.div_lt_upper_bound. lia.
Qed.

Lemma mod_width_S (n h : nat) :
  ((n mod width (S h)) / width h = (n / width h) mod 32)%nat.
Proof.
  pose proof (width_pos h). rewrite width_S.
  rewrite (Nat.mul_comm 32). rewrite Nat.Div0.mod_mul_r.
  rewrite (Nat.mul_comm (width h)), Nat.div_add by lia.
  rewrite Nat.div_small by (apply Nat.mod_upper_bound; lia). done.
Qed.

Lemma mod_mod_width (n h : nat) :
  ((n mod width (S h)) mod width h = n mod width h)%nat.
Proof.
  pose proof (width_pos h). rewrite width_S.
  rewrite (Nat.mul_comm 32). rewrite Nat.Div0.mod_mul_r.
  rewrite (Nat.mul_comm (width h)), Nat.Div0.mod_add.
  by rewrite Nat.Div0.mod_mod.
Qed.

(** * Proofs: [chunks] *)

Section Chunks.
Context {A : Type}.
Implicit Types (l t : list A) (n k : nat).

Lemma num_chunks_lt n m k :
  (0 < n)%nat -> (k < num_chunks n m)%nat <-> (k * n < m)%nat.
Proof.
  intros Hn. unfold num_chunks.
  pose proof (Nat.div_mod_eq (m + (n - 1)) n) as E.
  pose proof (Nat.mod_upper_bound (m + (n - 1)) n ltac:(lia)) as B.
  split; intros Hk; nia.
Qed.

Lemma num_chunks_exact n q :
  (0 < n)%nat -> num_chunks n (q * n) = q.
Proof.
  intros Hn. unfold num_chunks.
  symmetry. apply Nat.div_unique with (r := (n - 1)%nat); lia.
Qed.

Lemma length_chunks n l : length (chunks n l) = num_chunks n (length l).
Proof. unfold chunks. by rewrite length_fmap, length_seq. Qed.

Lemma lookup_chunks n l k :
  (0 < n)%nat -> (k * n < length l)%nat ->
  chunks n l !! k = Some (take n (drop (k * n) l)).
Proof.
  intros Hn Hk. unfold chunks. rewrite list_lookup_fmap.
  rewrite lookup_seq_lt by (by apply num_chunks_lt). done.
Qed.

Lemma lookup_chunks_None n l k :
  (0 < n)%nat -> (length l <= k * n)%nat -> chunks n l !! k = None.
Proof.
  intros Hn Hk. apply lookup_ge_None. rewrite length_chunks.
  pose proof (num_chunks_lt n (length l) k Hn). lia.
Qed.

Lemma lookup_chunks_Some n l k c :
  (0 < n)%nat -> chunks n l !! k = Some c ->
  (k * n < length l)%nat /\ c = take n (drop (k * n) l).
Proof.
  intros Hn Hc. destruct (decide (k * n < length l)%nat) as [Hk|Hk].
  - rewrite lookup_chunks in Hc by done. by injection Hc as <-.
  - rewrite lookup_chunks_None in Hc by lia. done.
Qed.

Lemma concat_pieces n l a c :
  concat ((fun k => take n (drop (k * n) l)) <$> seq a c)
  = take (c * n) (drop (a * n) l).
Proof.
  revert a. induction c as [|c IH]; intros a; [done|].
  simpl seq. rewrite fmap_cons. simpl concat. rewrite IH.
  replace (S a * n)%nat with (a * n + n)%nat by lia.
  rewrite <- drop_drop. rewrite take_take_drop. f_equal.
Qed.

Lemma concat_chunks n l : (0 < n)%nat -> concat (chunks n l) = l.
Proof.
  intros Hn. unfold chunks. rewrite concat_pieces. simpl. rewrite drop_0.
  apply take_ge.
  destruct (decide (length l <= num_chunks n (length l) * n)%nat); [done|].
  pose proof (num_chunks_lt n (length l) (num_chunks n (length l)) Hn). lia.
Qed.

Lemma chunks_nil n : chunks n (@nil A) = [].
Proof.
  unfold chunks, num_chunks. simpl.
  destruct n as [|n]; [done|].
  rewrite Nat.div_small by lia. done.
Qed.

Lemma chunks_single n t :
  (0 < length t <= n)%nat -> chunks n t = [t].
Proof.
  intros Ht. apply list_eq. intros [|k].
  - rewrite lookup_chunks by lia. simpl. rewrite drop_0, take_ge by lia. done.
  - rewrite lookup_chunks_None by nia. done.
Qed.

(** Writing one element changes one chunk. *)
Lemma chunks_insert n l j x :
  (0 < n)%nat -> (j < length l)%nat ->
  chunks n (<[j := x]> l)
  = <[(j / n)%nat := <[(j mod n)%nat := x]> (take n (drop (j / n * n) l))]>
      (chunks n l).
Proof.
  intros Hn Hj. pose proof (Nat.div_mod_eq j n) as E.
  pose proof (Nat.mod_upper_bound j n ltac:(lia)) as B.
  apply list_eq. intros k.
  destruct (decide (k * n < length l)%nat) as [Hk|Hk].
  - rewrite lookup_chunks by (rewrite ?length_insert; lia).
    destruct (decide (k = j / n)%nat) as [->|Hne].
    + rewrite list_lookup_insert_eq by (rewrite length_chunks; apply num_chunks_lt; lia).
      f_equal. rewrite drop_insert_ge by lia.
      replace (j - j / n * n)%nat with (j mod n)%nat by lia.
      by rewrite take_insert_lt by lia.
    + rewrite list_lookup_insert_ne by done.
      rewrite lookup_chunks by lia. f_equal.
      destruct (decide (k < j / n)%nat).
      * rewrite drop_insert_ge by nia. rewrite take_insert_ge by nia. done.
      * rewrite drop_insert_lt by nia. done.
  - rewrite lookup_chunks_None by (rewrite ?length_insert; lia).
    symmetry. apply lookup_ge_None. rewrite length_insert, length_chunks.
    pose proof (num_chunks_lt n (length l) k Hn). lia.
Qed.

(** Appending a piece after full chunks adds one chunk. *)
Lemma chunks_app_full n l t :
  (0 < n)%nat -> (length l mod n = 0)%nat -> (0 < length t <= n)%nat ->
  chunks n (l ++ t) = chunks n l ++ [t].
Proof.
  intros Hn Hl Ht. pose proof (Nat.div_mod_eq (length l) n) as E.
  set (q := (length l / n)%nat) in *.
  assert (length l = q * n)%nat as El by lia.
  assert (length (chunks n l) = q) as Lq.
  { rewrite length_chunks, El. by apply num_chunks_exact. }
  apply list_eq. intros k.
  destruct (decide (k < q)%nat) as [Hk|Hk].
  - rewrite lookup_app_l by lia.
    rewrite !lookup_chunks by (rewrite ?length_app; nia). f_equal.
    rewrite drop_app_le by nia. rewrite take_app_le; [done|].
    rewrite length_drop. nia.
  - rewrite lookup_app_r by lia. rewrite Lq.
    destruct (decide (k = q)) as [->|Hne].
    + rewrite lookup_chunks by (rewrite ?length_app; nia).
      rewrite Nat.sub_diag. simpl. f_equal.
      rewrite drop_app_length' by lia. by rewrite take_ge by lia.
    + rewrite lookup_chunks_None by (rewrite ?length_app; nia).
      destruct (k - q)%nat as [|[|m]] eqn:Ek; [lia|done|done].
Qed.

(** Appending a piece that fits in the last, partial, chunk extends it. *)
Lemma chunks_app_partial n l t :
  (0 < n)%nat -> (0 < length l mod n)%nat ->
  (length l mod n + length t <= n)%nat ->
  chunks n (l ++ t)
  = <[(length l / n)%nat := drop (length l / n * n) l ++ t]> (chunks n l).
Proof.
  intros Hn Hl Ht. pose proof (Nat.div_mod_eq (length l) n) as E.
  set (q := (length l / n)%nat) in *. set (r := (length l mod n)%nat) in *.
  apply list_eq. intros k.
  destruct (decide (k < q)%nat) as [Hk|Hk].
  - rewrite list_lookup_insert_ne by lia.
    rewrite !lookup_chunks by (rewrite ?length_app; nia). f_equal.
    rewrite drop_app_le by nia. rewrite take_app_le; [done|].
    rewrite length_drop. nia.
  - destruct (decide (k = q)) as [->|Hne].
    + rewrite list_lookup_insert_eq
        by (rewrite length_chunks; apply num_chunks_lt; lia).
      rewrite lookup_chunks by (rewrite ?length_app; nia). f_equal.
      rewrite drop_app_le by nia. apply take_ge.
      rewrite length_app, length_drop. lia.
    + rewrite list_lookup_insert_ne by lia.
      rewrite !lookup_chunks_None by (rewrite ?length_app; nia). done.
Qed.

End Chunks.

(** * Proofs: the trie operations on the canonical layout *)

Section Trie.
Context {A : Type}.
Implicit Types (l t : list A) (h n : nat) (v : PVector A).

Lemma trie_S h l : trie (S h) l = Branch (trie h <$> chunks (width h) l).
Proof. reflexivity. Qed.

Lemma do_set_rec_leaf fuel (xs : list A) i val :
  _do_set_rec fuel 0 (Leaf xs) i val
  = Leaf <$> list_setitem xs (Z.land i BIT_MASK) val.
Proof. by destruct fuel. Qed.

Lemma do_set_rec_branch fuel level (cs : list (node A)) i val :
  level <> 0 ->
  _do_set_rec (S fuel) level (Branch cs) i val
  = (s ← py_rshift i level;
     child ← list_getitem cs (Z.land s BIT_MASK);
     new_child ← _do_set_rec fuel (level - SHIFT) child i val;
     Branch <$> list_setitem cs (Z.land s BIT_MASK) new_child).
Proof. intros Hl. simpl. by destruct (Z.eqb_spec level 0). Qed.

Lemma new_path_rec_S fuel level (nd : node A) :
  level <> 0 ->
  _new_path_rec (S fuel) level nd
  = (p ← _new_path_rec fuel (level - SHIFT) nd; Ok (Branch [p])).
Proof. intros Hl. simpl. by destruct (Z.eqb_spec level 0). Qed.

Lemma push_tail_rec_base fuel count cs (tail_node : node A) :
  _push_tail_rec fuel count SHIFT (Branch cs) tail_node
  = Ok (Branch (cs ++ [tail_node])).
Proof. by destruct fuel. Qed.

Lemma push_tail_rec_step fuel count level cs (tail_node : node A) :
  level <> SHIFT ->
  _push_tail_rec fuel count level (Branch cs) tail_node
  = (s ← py_rshift (count - 1) level;
     if Z.land s BIT_MASK <? len cs then
       match fuel with
       | O => Raise RecursionError
       | S fuel' =>
           child ← list_getitem cs (Z.land s BIT_MASK);
           new_child ← _push_tail_rec fuel' count (level - SHIFT)
                                      child tail_node;
           Branch <$> list_setitem cs (Z.land s BIT_MASK) new_child
       end
     else
       p ← _new_path (level - SHIFT) tail_node;
       Ok (Branch (cs ++ [p]))).
Proof. intros Hl. destruct fuel; simpl; by destruct (Z.eqb_spec level SHIFT). Qed.

Lemma fill_list_trie h l : _fill_list (trie h l) (5 * Z.of_nat h) = Ok l.
Proof.
  revert l. induction h as [|h IH]; intros l; [done|].
  rewrite trie_S. simpl _fill_list.
  destruct (Z.eqb_spec (5 * Z.of_nat (S h)) 0) as [|_]; [lia|].
  replace (5 * Z.of_nat (S h) - SHIFT) with (5 * Z.of_nat h)
    by (rewrite SHIFT_eq; lia).
  erewrite (mapR_fmap_Ok (trie h) _ id) by (intros; apply IH).
  simpl. rewrite list_fmap_id. f_equal. apply concat_chunks, width_pos.
Qed.

Lemma chunk_child h l d :
  (d * width h < length l)%nat ->
  list_getitem (trie h <$> chunks (width h) l) (Z.of_nat d)
  = Ok (trie h (take (width h) (drop (d * width h) l))).
Proof.
  intros Hd. apply list_getitem_nat. rewrite list_lookup_fmap.
  rewrite lookup_chunks by (done || apply width_pos). done.
Qed.

(** Facts about the position [n mod width (S h)] inside a subtree. *)
Lemma local_index h n (m : nat) :
  (n mod width (S h) < m)%nat ->
  let d := ((n / width h) mod 32)%nat in
  (d * width h < m)%nat /\
  (n mod width (S h) = d * width h + n mod width h)%nat.
Proof.
  intros Hn d. pose proof (width_pos h) as Hw.
  pose proof (mod_width_S n h) as E1. pose proof (mod_mod_width n h) as E2.
  pose proof (Nat.div_mod_eq (n mod width (S h)) (width h)) as E.
  fold d in E1. rewrite E1, E2 in E. lia.
Qed.

(** The loop of [_node_for] ends at the leaf that holds the index. *)
Lemma descend_trie h l n :
  (n mod width h < length l)%nat -> (length l <= width h)%nat ->
  foldM (fun nd level => s ← py_rshift (Z.of_nat n) level;
                         node_child nd (Z.land s BIT_MASK))
        (trie h l) (py_range (5 * Z.of_nat h) 0 (- SHIFT))
  = Ok (Leaf (take 32 (drop (n mod width h / 32 * 32) l))).
Proof.
  revert l. induction h as [|h IH]; intros l Hn Hl.
  - rewrite width_0 in *. change (5 * Z.of_nat 0) with 0.
    rewrite py_range_zero. simpl foldM. simpl trie.
    rewrite (Nat.div_small _ 32) by lia.
    rewrite drop_0. by rewrite take_ge by lia.
  - rewrite py_range_down, foldM_cons.
    rewrite py_rshift_Ok by lia.
    rsimpl. rewrite digit_nat, trie_S. cbn [node_child].
    destruct (local_index h n _ Hn) as [Hd Ej].
    set (d := ((n / width h) mod 32)%nat) in *.
    rewrite chunk_child by done. rsimpl.
    pose proof (width_pos h) as Hw.
    pose proof (Nat.mod_upper_bound n (width h) ltac:(lia)) as Hlt.
    rewrite IH by (rewrite length_take, length_drop; lia).
    do 2 f_equal.
    pose proof (width_mod32 h) as H32.
    pose proof (Nat.div_mod_eq (width h) 32) as Ew. rewrite H32 in Ew.
    pose proof (Nat.div_mod_eq (n mod width h) 32) as Em.
    pose proof (Nat.mod_upper_bound (n mod width h) 32 ltac:(lia)) as Hm.
    set (a := (n mod width h / 32 * 32)%nat) in *.
    assert (a + 32 <= width h)%nat as Ha by (subst a; nia).
    assert ((n mod width (S h)) / 32 * 32 = d * width h + a)%nat as ->.
    { rewrite Ej. replace (d * width h + n mod width h)%nat
        with (n mod width h + (d * (width h / 32)) * 32)%nat by lia.
      rewrite Nat.div_add by lia. subst a. nia. }
    replace (width h) with (a + (width h - a))%nat at 1 by lia.
    rewrite <- take_drop_commute, take_take, drop_drop.
    f_equal. lia.
Qed.

Lemma do_set_trie h : forall fuel l n val,
  (h <= fuel)%nat ->
  (n mod width h < length l)%nat -> (length l <= width h)%nat ->
  _do_set_rec fuel (5 * Z.of_nat h) (trie h l) (Z.of_nat n) val
  = Ok (trie h (<[(n mod width h)%nat := val]> l)).
Proof.
  induction h as [|h IH]; intros fuel l n val Hf Hn Hl.
  - rewrite width_0 in Hn |- *. change (5 * Z.of_nat 0) with 0. cbn [trie].
    rewrite do_set_rec_leaf, digit0_nat.
    by rewrite list_setitem_nat by lia.
  - destruct fuel as [|fuel]; [lia|].
    rewrite trie_S, do_set_rec_branch by lia.
    rewrite py_rshift_Ok by lia.
    rsimpl. rewrite digit_nat.
    destruct (local_index h n _ Hn) as [Hd Ej].
    set (d := ((n / width h) mod 32)%nat) in *.
    rewrite chunk_child by done. rsimpl.
    replace (5 * Z.of_nat (S h) - SHIFT) with (5 * Z.of_nat h)
      by (rewrite SHIFT_eq; lia).
    pose proof (width_pos h) as Hw.
    pose proof (Nat.mod_upper_bound n (width h) ltac:(lia)) as Hlt.
    rewrite IH by (rewrite ?length_take, ?length_drop; lia).
    rsimpl.
    rewrite list_setitem_nat
      by (rewrite length_fmap, length_chunks; apply num_chunks_lt; lia).
    rsimpl. rewrite trie_S. f_equal.
    rewrite <- list_fmap_insert. f_equal.
    rewrite chunks_insert by lia.
    assert ((n mod width (S h)) / width h = d)%nat as ->
      by (rewrite Ej, Nat.add_comm, Nat.div_add, Nat.div_small; lia).
    assert ((n mod width (S h)) mod width h = n mod width h)%nat as ->
      by apply mod_mod_width.
    done.
Qed.

Lemma new_path_trie h : forall fuel t,
  (h <= fuel)%nat -> (0 < length t <= 32)%nat ->
  _new_path_rec fuel (5 * Z.of_nat h) (Leaf t) = Ok (trie h t).
Proof.
  induction h as [|h IH]; intros fuel t Hf Ht.
  - by destruct fuel.
  - destruct fuel as [|fuel]; [lia|]. rewrite new_path_rec_S by lia.
    replace (5 * Z.of_nat (S h) - SHIFT) with (5 * Z.of_nat h)
      by (rewrite SHIFT_eq; lia).
    rewrite IH by (done || lia). rsimpl. rewrite trie_S.
    rewrite chunks_single; [done|].
    pose proof (width_pos h). pose proof (width_mod32 h) as H32.
    pose proof (Nat.div_mod_eq (width h) 32). lia.
Qed.

Lemma new_path_height h t :
  (0 < length t <= 32)%nat ->
  _new_path (5 * Z.of_nat h) (Leaf t) = Ok (trie h t).
Proof. intros. apply new_path_trie; [lia|done]. Qed.

(** [_push_tail] stores the tail after the elements of a tree that still
    has room.  [c] is the index of the last element of the tail. *)
Lemma push_tail_trie h : forall fuel l t (c : nat),
  (1 <= h)%nat -> (h <= fuel)%nat ->
  length t = 32%nat -> (length l mod 32 = 0)%nat ->
  (length l + 32 <= width h)%nat ->
  (c mod width h = length l + 31)%nat ->
  _push_tail_rec fuel (Z.of_nat c + 1) (5 * Z.of_nat h) (trie h l) (Leaf t)
  = Ok (trie h (l ++ t)).
Proof.
  induction h as [|h IH]; intros fuel l t c Hh Hf Ht Hl Hroom Hc; [lia|].
  rewrite trie_S.
  destruct (decide (h = 0%nat)) as [->|Hh0].
  - change (5 * Z.of_nat 1) with SHIFT. rewrite push_tail_rec_base.
    rewrite trie_S, chunks_app_full by (rewrite ?width_0; lia).
    by rewrite fmap_app.
  - rewrite push_tail_rec_step by (rewrite SHIFT_eq; lia).
    rewrite py_rshift_Ok by lia.
    rsimpl. replace (Z.of_nat c + 1 - 1) with (Z.of_nat c) by lia.
    rewrite digit_nat.
    replace (5 * Z.of_nat (S h) - SHIFT) with (5 * Z.of_nat h)
      by (rewrite SHIFT_eq; lia).
    pose proof (width_pos h) as Hw. pose proof (width_mod32 h) as H32.
    pose proof (Nat.div_mod_eq (width h) 32) as Ew. rewrite H32 in Ew.
    pose proof (Nat.div_mod_eq (length l) (width h)) as El.
    pose proof (Nat.mod_upper_bound (length l) (width h) ltac:(lia)) as Hr.
    set (q := (length l / width h)%nat) in *.
    set (r := (length l mod width h)%nat) in *.
    assert (r mod 32 = 0)%nat as Hr32.
    { pose proof (Nat.div_mod_eq (length l) 32) as E32. rewrite Hl in E32.
      assert (r = (length l / 32 - width h / 32 * q) * 32)%nat as -> by nia.
      apply Nat.Div0.mod_mul. }
    pose proof (Nat.div_mod_eq r 32) as Er. rewrite Hr32 in Er.
    assert (r + 32 <= width h)%nat as Hr' by nia.
    assert ((c / width h) mod 32 = q)%nat as ->.
    { rewrite <- mod_width_S, Hc.
      replace (length l + 31)%nat with (r + 31 + q * width h)%nat by lia.
      rewrite Nat.div_add, Nat.div_small by lia. lia. }
    assert (c mod width h = r + 31)%nat as Hc'.
    { rewrite <- mod_mod_width, Hc.
      replace (length l + 31)%nat with (r + 31 + q * width h)%nat by lia.
      rewrite Nat.Div0.mod_add. apply Nat.mod_small. lia. }
    unfold len. rewrite length_fmap, length_chunks.
    destruct (decide (r = 0%nat)) as [Hr0|Hr0].
    + replace (length l) with (q * width h)%nat by lia.
      rewrite num_chunks_exact by done.
      destruct (Z.ltb_spec (Z.of_nat q) (Z.of_nat q)) as [|_]; [lia|].
      rewrite new_path_height by lia. rsimpl. rewrite trie_S.
      rewrite chunks_app_full by (fold r; rewrite ?Ht; lia).
      by rewrite fmap_app.
    + assert (q < num_chunks (width h) (length l))%nat as Hq
        by (apply num_chunks_lt; lia).
      destruct (Z.ltb_spec (Z.of_nat q)
                  (Z.of_nat (num_chunks (width h) (length l)))) as [_|]; [|lia].
      destruct fuel as [|fuel]; [lia|].
      rewrite chunk_child by lia. rsimpl.
      rewrite take_ge by (rewrite length_drop; lia).
      assert (length (drop (q * width h) l) = r) as Ed
        by (rewrite length_drop; lia).
      rewrite IH by (rewrite ?Ed; lia || done).
      rsimpl. rewrite list_setitem_nat
        by (by rewrite length_fmap, length_chunks).
      rsimpl. rewrite trie_S. f_equal. rewrite <- list_fmap_insert. f_equal.
      rewrite chunks_app_partial by (fold r; rewrite ?Ht; lia).
      done.
Qed.

End Trie.

(** * Proofs: the vector operations against the list they represent *)

Section VectorOps.
Context {A : Type}.
Implicit Types (l t : list A) (H n : nat) (v : PVector A).

Lemma tolist_inv v H l :
  tree_inv v H l -> _tolist v = Ok (l ++ pv_tail v).
Proof.
  intros (_ & Hs & Hr & _). unfold _tolist.
  by rewrite Hs, Hr, fill_list_trie.
Qed.

Lemma empty_inv : pv_inv (@_EMPTY_VECTOR A) 1 [].
Proof.
  repeat split; simpl; try done; try lia.
  all: rewrite ?width_S, ?width_0; try lia.
Qed.

Lemma empty_wf : pv_wf (@_EMPTY_VECTOR A).
Proof. exists 1%nat, []. apply empty_inv. Qed.

(** Below [tail_offset] a multiple-of-32 prefix and [width] leave room for
    a whole leaf. *)
Lemma room_for_leaf H (m : nat) :
  (m mod 32 = 0)%nat -> (m < width H)%nat -> (m + 32 <= width H)%nat.
Proof.
  intros Hm Hlt. pose proof (width_mod32 H) as H32.
  pose proof (Nat.div_mod_eq (width H) 32). pose proof (Nat.div_mod_eq m 32).
  nia.
Qed.

Lemma node_for_tree v H l n :
  pv_inv v H l -> (n < length l)%nat ->
  _node_for v (Z.of_nat n) = Ok (Leaf (take 32 (drop (n / 32 * 32) l))).
Proof.
  intros [(HH & Hs & Hr & Hw & H32 & Ht & Hc) Ho] Hn.
  unfold _node_for. cbn [_count _shift _root _tail _tail_offset PVector_like].
  rewrite Hc, Ho, Hs, Hr. unfold len.
  destruct (Z.leb_spec 0 (Z.of_nat n)); [|lia].
  destruct (Z.ltb_spec (Z.of_nat n)
              (Z.of_nat (length l) + Z.of_nat (length (pv_tail v)))); [|lia].
  destruct (Z.leb_spec (Z.of_nat (length l)) (Z.of_nat n)); [lia|].
  cbn [andb].
  rewrite descend_trie by (rewrite ?Nat.mod_small; lia).
  by rewrite Nat.mod_small by lia.
Qed.

Lemma node_for_tail v H l n :
  pv_inv v H l ->
  (length l <= n < length l + length (pv_tail v))%nat ->
  _node_for v (Z.of_nat n) = Ok (Leaf (pv_tail v)).
Proof.
  intros [(HH & Hs & Hr & Hw & H32 & Ht & Hc) Ho] Hn.
  unfold _node_for. cbn [_count _shift _root _tail _tail_offset PVector_like].
  rewrite Hc, Ho. unfold len.
  destruct (Z.leb_spec 0 (Z.of_nat n)); [|lia].
  destruct (Z.ltb_spec (Z.of_nat n)
              (Z.of_nat (length l) + Z.of_nat (length (pv_tail v)))); [|lia].
  destruct (Z.leb_spec (Z.of_nat (length l)) (Z.of_nat n)); [|lia].
  done.
Qed.

Lemma node_for_out v H l i :
  pv_inv v H l -> ~ (0 <= i < pv_count v) ->
  _node_for v i = Raise IndexError.
Proof.
  intros _ Hi. unfold _node_for.
  cbn [_count _shift _root _tail _tail_offset PVector_like].
  destruct (Z.leb_spec 0 i); destruct (Z.ltb_spec i (pv_count v)); done || lia.
Qed.

(** Position in the tail of an index at or after [tail_offset]. *)
Lemma tail_index l n :
  (length l mod 32 = 0)%nat -> (length l <= n < length l + 32)%nat ->
  (n mod 32 = n - length l)%nat.
Proof.
  intros H32 Hn. pose proof (Nat.div_mod_eq (length l) 32) as E.
  rewrite H32 in E.
  replace n with ((n - length l) + (length l / 32) * 32)%nat at 1 by lia.
  rewrite Nat.Div0.mod_add. apply Nat.mod_small. lia.
Qed.

(** Reading: [v[n]] is the [n]-th element of the represented list. *)
Lemma getitem_nat v H l n x :
  pv_inv v H l -> (l ++ pv_tail v) !! n = Some x ->
  PVector_getitem v (Z.of_nat n) = Ok x.
Proof.
  intros Hinv Hx. pose proof Hinv as [(HH & Hs & Hr & Hw & H32 & Ht & Hc) Ho].
  pose proof (lookup_lt_Some _ _ _ Hx) as Hlt. rewrite length_app in Hlt.
  unfold PVector_getitem.
  destruct (Z.ltb_spec (Z.of_nat n) 0); [lia|].
  rewrite digit0_nat.
  destruct (decide (n < length l)%nat) as [Hn|Hn].
  - rewrite (node_for_tree v H l) by done. rsimpl. cbn [node_elem].
    apply list_getitem_nat.
    pose proof (Nat.div_mod_eq n 32) as E.
    pose proof (Nat.mod_upper_bound n 32 ltac:(lia)).
    rewrite lookup_take_lt by lia. rewrite lookup_drop.
    rewrite lookup_app_l in Hx by lia.
    by replace (n / 32 * 32 + n mod 32)%nat with n by lia.
  - rewrite (node_for_tail v H l) by (done || lia). rsimpl. cbn [node_elem].
    apply list_getitem_nat.
    rewrite (tail_index l) by lia.
    by rewrite lookup_app_r in Hx by lia.
Qed.

Lemma getitem_out v H l i :
  pv_inv v H l -> ~ (0 <= i < pv_count v) -> 0 <= i ->
  PVector_getitem v i = Raise IndexError.
Proof.
  intros Hinv Hi H0. unfold PVector_getitem.
  destruct (Z.ltb_spec i 0); [lia|].
  by rewrite (node_for_out v H l).
Qed.

Lemma count_inv v H l : tree_inv v H l -> pv_count v = len (l ++ pv_tail v).
Proof. intros (_ & _ & _ & _ & _ & _ & Hc). by rewrite len_app. Qed.

(** [_create_new_root] with a full tail. *)
Lemma create_new_root_inv v H l :
  tree_inv v H l -> length (pv_tail v) = 32%nat ->
  exists H', _create_new_root v = Ok (trie H' (l ++ pv_tail v), 5 * Z.of_nat H')
    /\ (1 <= H')%nat /\ (length l + 32 <= width H')%nat.
Proof.
  intros (HH & Hs & Hr & Hw & H32 & _ & Hc) Ht.
  unfold _create_new_root, len in *. rewrite Ht in Hc.
  rewrite py_rshift_Ok by (rewrite SHIFT_eq; lia).
  rewrite py_lshift_Ok by lia. rsimpl.
  rewrite Hs, Hc, SHIFT_eq.
  rewrite Z.shiftr_div_pow2, Z.shiftl_1_l by lia.
  pose proof (Nat.div_mod_eq (length l) 32) as El. rewrite H32 in El.
  assert ((Z.of_nat (length l) + Z.of_nat 32) / 2 ^ 5
          = Z.of_nat (length l / 32) + 1) as ->.
  { symmetry. apply Z.div_unique with (r := 0); lia. }
  pose proof (width_Z H) as EW.
  replace (5 * Z.of_nat (S H)) with (5 + 5 * Z.of_nat H) in EW by lia.
  rewrite Z.pow_add_r in EW by lia. change (2 ^ 5) with 32 in EW.
  destruct (Z.ltb_spec (2 ^ (5 * Z.of_nat H)) (Z.of_nat (length l / 32) + 1))
    as [Hfull|Hroom].
  - assert (length l = width H) as El' by lia.
    rewrite new_path_height by lia. rsimpl.
    exists (S H). split; [|split; [lia|rewrite width_S; lia]].
    rewrite Hr, trie_S.
    rewrite chunks_app_full
      by (rewrite ?El', ?Nat.Div0.mod_same; pose proof (width_pos H); lia).
    rewrite chunks_single by (pose proof (width_pos H); lia).
    do 2 f_equal. lia.
  - assert (length l < width H)%nat as Hlt by lia.
    pose proof (room_for_leaf H _ H32 Hlt) as Hroom'.
    unfold _push_tail. rewrite ?Hs, ?Hr, ?Hc.
    replace (Z.of_nat (length l) + Z.of_nat 32) with (Z.of_nat (length l + 31) + 1)
      by lia.
    rewrite push_tail_trie; [|lia|lia|done|done|lia|rewrite Nat.mod_small; lia].
    rsimpl. exists H. done.
Qed.

Lemma new_inv count shift root H l t :
  (1 <= H)%nat -> shift = 5 * Z.of_nat H -> root = trie H l ->
  (length l <= width H)%nat -> (length l mod 32 = 0)%nat ->
  (length t <= 32)%nat -> count = len l + len t ->
  pv_inv (PVector_new count shift root t) H l.
Proof. intros. repeat split; simpl; done || lia. Qed.

(** [append] adds one element at the end. *)
Lemma append_inv v H l x :
  tree_inv v H l ->
  exists v' H' l', PVector_append v x = Ok v' /\ pv_inv v' H' l'
    /\ l' ++ pv_tail v' = (l ++ pv_tail v) ++ [x].
Proof.
  intros Hinv. pose proof Hinv as (HH & Hs & Hr & Hw & H32 & Ht & Hc).
  unfold PVector_append. rewrite BRANCH_FACTOR_eq. unfold len in *.
  destruct (Z.ltb_spec (Z.of_nat (length (pv_tail v))) 32) as [Hlt|Hge].
  - eexists _, H, l. split; [done|]. split.
    + apply new_inv; try done.
      * rewrite length_app. simpl. lia.
      * unfold len. rewrite length_app. simpl. lia.
    + simpl. by rewrite app_assoc.
  - assert (length (pv_tail v) = 32%nat) as Ht32 by lia.
    destruct (create_new_root_inv v H l Hinv Ht32) as (H' & -> & HH' & Hroom).
    rsimpl. eexists _, H', (l ++ pv_tail v). split; [done|]. split.
    + apply new_inv; try done.
      * rewrite length_app. lia.
      * rewrite length_app, Ht32. rewrite Nat.Div0.add_mod, H32. done.
      * simpl. lia.
      * unfold len. rewrite length_app. simpl. lia.
    + done.
Qed.

(** [set] inside the vector replaces one element. *)
Lemma set_in_range v H l n x :
  pv_inv v H l -> (n < length (l ++ pv_tail v))%nat ->
  exists v' l', PVector_set v (Z.of_nat n) x = Ok v' /\ pv_inv v' H l'
    /\ l' ++ pv_tail v' = <[n := x]> (l ++ pv_tail v).
Proof.
  intros Hinv Hn. pose proof Hinv as [(HH & Hs & Hr & Hw & H32 & Ht & Hc) Ho].
  rewrite length_app in Hn.
  unfold PVector_set. unfold len in *.
  destruct (Z.ltb_spec (Z.of_nat n) 0); [lia|].
  destruct (Z.leb_spec 0 (Z.of_nat n)); [|lia].
  destruct (Z.ltb_spec (Z.of_nat n) (pv_count v)); [|lia].
  cbn [andb]. rewrite Ho, digit0_nat.
  destruct (Z.leb_spec (Z.of_nat (length l)) (Z.of_nat n)) as [Hge|Hlt].
  - rewrite (tail_index l) by lia.
    rewrite list_setitem_nat by lia. rsimpl.
    eexists _, l. split; [done|]. split.
    + apply new_inv; try done.
      * by rewrite length_insert.
      * unfold len. rewrite length_insert. lia.
    + simpl. rewrite insert_app_r_alt by lia. done.
  - unfold _do_set. rewrite Hs, Hr.
    rewrite do_set_trie by (rewrite ?Nat.mod_small; lia).
    rsimpl. rewrite Nat.mod_small by lia.
    eexists _, (<[n := x]> l). split; [done|]. split.
    + apply new_inv; rewrite ?length_insert; try done.
      unfold len. rewrite length_insert. lia.
    + simpl. rewrite insert_app_l by lia. done.
Qed.

Lemma set_at_count v x :
  0 <= pv_count v -> PVector_set v (pv_count v) x = PVector_append v x.
Proof.
  intros Hc. unfold PVector_set.
  destruct (Z.ltb_spec (pv_count v) 0); [lia|].
  destruct (Z.ltb_spec (pv_count v) (pv_count v)); [lia|].
  rewrite andb_false_r. by rewrite Z.eqb_refl.
Qed.

Lemma set_out v i x :
  0 <= pv_count v ->
  let j := if i <? 0 then i + pv_count v else i in
  ~ (0 <= j <= pv_count v) -> PVector_set v i x = Raise IndexError.
Proof.
  intros Hc j Hj. unfold PVector_set. fold j.
  destruct (Z.leb_spec 0 j); destruct (Z.ltb_spec j (pv_count v));
    destruct (Z.eqb_spec j (pv_count v)); simpl; done || lia.
Qed.

End VectorOps.

(** * Proofs: [extend] and the list view of well-formed vectors *)

Section VectorExtend.
Context {A : Type}.
Implicit Types (l t xs : list A) (H n : nat) (v : PVector A).

Lemma take_drop_length n xs : take n xs ++ drop (length (take n xs)) xs = xs.
Proof.
  rewrite length_take. destruct (decide (n <= length xs)%nat).
  - rewrite Nat.min_l by lia. apply take_drop.
  - rewrite Nat.min_r by lia. rewrite take_ge, drop_all by lia.
    by rewrite app_nil_r.
Qed.

Lemma extend_loop_done fuel v offset xs :
  len xs <= offset -> _mutating_extend_loop fuel v offset xs = Ok v.
Proof.
  intros Hoff. destruct fuel; simpl;
    by destruct (Z.ltb_spec offset (len xs)); [lia|].
Qed.

Lemma extend_loop_step fuel v offset xs :
  offset < len xs ->
  _mutating_extend_loop (S fuel) v offset xs
  = (let '(self1, offset1) := _mutating_fill_tail v offset xs in
     self2 ← (if len (pv_tail self1) =? BRANCH_FACTOR
              then _mutating_insert_tail self1 else Ok self1);
     _mutating_extend_loop fuel self2 offset1 xs).
Proof.
  intros Hoff. simpl. by destruct (Z.ltb_spec offset (len xs)); [|lia].
Qed.

Lemma fill_tail_nat v (offset : nat) xs :
  (length (pv_tail v) <= 32)%nat ->
  let delta := take (32 - length (pv_tail v)) (drop offset xs) in
  _mutating_fill_tail v (Z.of_nat offset) xs
  = (mkPVector (pv_count v + len delta) (pv_shift v) (pv_root v)
               (pv_tail v ++ delta) (pv_tail_offset v),
     Z.of_nat (offset + length delta)).
Proof.
  intros Ht delta. unfold _mutating_fill_tail.
  rewrite BRANCH_FACTOR_eq.
  replace (Z.of_nat offset + (32 - len (pv_tail v)))
    with (Z.of_nat (offset + (32 - length (pv_tail v)))) by (unfold len; lia).
  rewrite list_slice_nat.
  replace (offset + (32 - length (pv_tail v)) - offset)%nat
    with (32 - length (pv_tail v))%nat by lia.
  fold delta. f_equal. unfold len. lia.
Qed.

Lemma mutating_extend_loop_inv (fuel : nat) : forall v H l (offset : nat) xs,
  tree_inv v H l -> (offset <= length xs)%nat ->
  (length xs - offset + (if decide (length (pv_tail v) = 32%nat) then 1 else 0)
   <= fuel)%nat ->
  exists v' H' l',
    _mutating_extend_loop fuel v (Z.of_nat offset) xs = Ok v'
    /\ tree_inv v' H' l'
    /\ l' ++ pv_tail v' = (l ++ pv_tail v) ++ drop offset xs.
Proof.
  induction fuel as [|fuel IH]; intros v H l offset xs Hinv Hoff Hfuel.
  - assert (offset = length xs) as -> by (case_decide; lia).
    exists v, H, l. rewrite extend_loop_done by (unfold len; lia).
    by rewrite drop_all, app_nil_r.
  - destruct (decide (offset < length xs)%nat) as [Hlt|Hge].
    2:{ exists v, H, l. rewrite extend_loop_done by (unfold len; lia).
        split; [done|]. split; [done|].
        rewrite drop_ge by lia. by rewrite app_nil_r. }
    pose proof Hinv as (HH & Hs & Hr & Hw & H32 & Ht & Hc).
    rewrite extend_loop_step by (unfold len; lia).
    rewrite fill_tail_nat by done.
    set (delta := take (32 - length (pv_tail v)) (drop offset xs)).
    assert (length delta = Nat.min (32 - length (pv_tail v)) (length xs - offset))
      as Hd by (subst delta; by rewrite length_take, length_drop).
    set (v1 := mkPVector (pv_count v + len delta) (pv_shift v) (pv_root v)
                         (pv_tail v ++ delta) (pv_tail_offset v)).
    assert (tree_inv v1 H l) as Hinv1.
    { repeat split; cbn [pv_count pv_shift pv_root pv_tail v1]; try done.
      - rewrite length_app. lia.
      - unfold len in *. rewrite length_app. lia. }
    assert (drop offset xs = delta ++ drop (offset + length delta) xs) as Hsplit.
    { rewrite <- drop_drop. subst delta. symmetry. apply take_drop_length. }
    assert (length (pv_tail v1) = (length (pv_tail v) + length delta)%nat) as Ht1
      by (simpl; by rewrite length_app).
    rewrite BRANCH_FACTOR_eq. unfold len at 1.
    destruct (Z.eqb_spec (Z.of_nat (length (pv_tail v1))) 32) as [Efull|Enot].
    + assert (length (pv_tail v1) = 32%nat) as Ht32 by lia.
      destruct (create_new_root_inv v1 H l Hinv1 Ht32)
        as (H' & Hroot & HH' & Hroom).
      unfold _mutating_insert_tail. rewrite Hroot. rsimpl.
      edestruct (IH (mkPVector (pv_count v1) (5 * Z.of_nat H')
                               (trie H' (l ++ pv_tail v1)) [] (pv_tail_offset v1))
                    H' (l ++ pv_tail v1) (offset + length delta)%nat xs)
        as (v' & H'' & l' & Hloop & Hinv' & Hl').
      * repeat split; cbn [pv_count pv_shift pv_root pv_tail]; try done.
        -- rewrite length_app. lia.
        -- rewrite length_app, Ht32, Nat.Div0.add_mod, H32. done.
        -- simpl. lia.
        -- rewrite len_app. unfold v1 at 1. cbn [pv_count].
           rewrite Hc. unfold len. simpl length. rewrite length_app. lia.
      * lia.
      * cbn [pv_tail]. simpl length. repeat case_decide; try done; lia.
      * exists v', H'', l'. split; [done|]. split; [done|].
        rewrite Hl'. cbn [pv_tail]. rewrite app_nil_r, Hsplit.
        unfold v1. cbn [pv_tail]. by rewrite !app_assoc.
    + rsimpl.
      edestruct (IH v1 H l (offset + length delta)%nat xs)
        as (v' & H'' & l' & Hloop & Hinv' & Hl'); [done|lia| |].
      * repeat case_decide; lia.
      * exists v', H'', l'. split; [done|]. split; [done|].
        rewrite Hl'. unfold v1. cbn [pv_tail]. rewrite Hsplit.
        by rewrite !app_assoc.
Qed.

Lemma mutating_extend_inv v H l xs :
  tree_inv v H l ->
  exists v' H' l', _mutating_extend v xs = Ok v' /\ pv_inv v' H' l'
    /\ l' ++ pv_tail v' = (l ++ pv_tail v) ++ xs.
Proof.
  intros Hinv. unfold _mutating_extend.
  destruct (mutating_extend_loop_inv (S (length xs)) v H l 0 xs)
    as (v' & H' & l' & Hloop & Hinv' & Hl'); [done|lia|case_decide; lia|].
  change 0 with (Z.of_nat 0). rewrite Hloop. rsimpl.
  eexists _, H', l'. split; [done|].
  pose proof Hinv' as (HH & Hs & Hr & Hw & H32 & Ht & Hc).
  split; [|by rewrite drop_0 in Hl'].
  repeat split; simpl; try done. lia.
Qed.

Lemma extend_inv v H l xs :
  pv_inv v H l ->
  exists v' H' l', PVector_extend v xs = Ok v' /\ pv_inv v' H' l'
    /\ l' ++ pv_tail v' = (l ++ pv_tail v) ++ xs.
Proof.
  intros Hinv. destruct xs as [|x rest].
  - exists v, H, l. by rewrite app_nil_r.
  - unfold PVector_extend.
    destruct (append_inv v H l x (proj1 Hinv)) as (v1 & H1 & l1 & -> & Hinv1 & Hl1).
    rsimpl.
    destruct (mutating_extend_inv v1 H1 l1 rest (proj1 Hinv1))
      as (v' & H' & l' & -> & Hinv' & Hl').
    exists v', H', l'. split; [done|]. split; [done|].
    rewrite Hl', Hl1. by rewrite <- app_assoc.
Qed.

(** ** The list view *)

Lemma wf_tolist v :
  pv_wf v -> exists xs, _tolist v = Ok xs /\ pv_count v = len xs.
Proof.
  intros (H & l & Hinv). exists (l ++ pv_tail v).
  split; [by eapply tolist_inv, Hinv | by eapply count_inv, Hinv].
Qed.

Lemma inv_of_tolist v xs :
  pv_wf v -> _tolist v = Ok xs ->
  exists H l, pv_inv v H l /\ xs = l ++ pv_tail v.
Proof.
  intros (H & l & Hinv) Hxs. exists H, l. split; [done|].
  rewrite (tolist_inv v H l) in Hxs by apply Hinv. by injection Hxs.
Qed.

Lemma count_tolist v xs : pv_wf v -> _tolist v = Ok xs -> pv_count v = len xs.
Proof.
  intros Hwf Hxs. destruct (inv_of_tolist v xs Hwf Hxs) as (H & l & Hinv & ->).
  eapply count_inv, Hinv.
Qed.

Lemma getitem_spec v xs n x :
  pv_wf v -> _tolist v = Ok xs -> xs !! n = Some x ->
  PVector_getitem v (Z.of_nat n) = Ok x.
Proof.
  intros Hwf Hxs Hn. destruct (inv_of_tolist v xs Hwf Hxs) as (H & l & Hinv & ->).
  by eapply getitem_nat.
Qed.

Lemma getitem_neg v i :
  i < 0 -> 0 <= i + pv_count v ->
  PVector_getitem v i = PVector_getitem v (i + pv_count v).
Proof.
  intros Hi Hc. unfold PVector_getitem.
  destruct (Z.ltb_spec i 0); [|lia].
  by destruct (Z.ltb_spec (i + pv_count v) 0); [lia|].
Qed.

Lemma append_spec v xs x :
  pv_wf v -> _tolist v = Ok xs ->
  exists v', PVector_append v x = Ok v' /\ pv_wf v'
    /\ _tolist v' = Ok (xs ++ [x]).
Proof.
  intros Hwf Hxs. destruct (inv_of_tolist v xs Hwf Hxs) as (H & l & Hinv & ->).
  destruct (append_inv v H l x (proj1 Hinv)) as (v' & H' & l' & Hv' & Hinv' & Hl').
  exists v'. split; [done|]. split; [by exists H', l'|].
  rewrite (tolist_inv v' H' l') by apply Hinv'. by rewrite Hl'.
Qed.

Lemma set_spec v xs n x :
  pv_wf v -> _tolist v = Ok xs -> (n < length xs)%nat ->
  exists v', PVector_set v (Z.of_nat n) x = Ok v' /\ pv_wf v'
    /\ _tolist v' = Ok (<[n := x]> xs).
Proof.
  intros Hwf Hxs Hn. destruct (inv_of_tolist v xs Hwf Hxs) as (H & l & Hinv & ->).
  destruct (set_in_range v H l n x Hinv Hn) as (v' & l' & Hv' & Hinv' & Hl').
  exists v'. split; [done|]. split; [by exists H, l'|].
  rewrite (tolist_inv v' H l') by apply Hinv'. by rewrite Hl'.
Qed.

Lemma extend_spec v xs ys :
  pv_wf v -> _tolist v = Ok xs ->
  exists v', PVector_extend v ys = Ok v' /\ pv_wf v'
    /\ _tolist v' = Ok (xs ++ ys).
Proof.
  intros Hwf Hxs. destruct (inv_of_tolist v xs Hwf Hxs) as (H & l & Hinv & ->).
  destruct (extend_inv v H l ys Hinv) as (v' & H' & l' & Hv' & Hinv' & Hl').
  exists v'. split; [done|]. split; [by exists H', l'|].
  rewrite (tolist_inv v' H' l') by apply Hinv'. by rewrite Hl'.
Qed.

Lemma pvector_spec xs :
  exists v, _pvector xs = Ok v /\ pv_wf v /\ _tolist v = Ok xs.
Proof.
  destruct (extend_spec _EMPTY_VECTOR [] xs empty_wf) as (v & Hv & Hwf & Hl);
    [done|].
  by exists v.
Qed.

Lemma reachable_wf v : pv_reachable v -> pv_wf v.
Proof.
  induction 1 as [|v x v' _ IH Hv'|v i x v' _ IH Hv'|v xs v' _ IH Hv'].
  - apply empty_wf.
  - destruct (wf_tolist v IH) as (l & Hl & _).
    destruct (append_spec v l x IH Hl) as (v1 & Hv1 & Hwf & _). congruence.
  - destruct (wf_tolist v IH) as (l & Hl & Hc).
    pose proof (len_nonneg l) as Hl0.
    set (j := if i <? 0 then i + pv_count v else i).
    destruct (decide (0 <= j < pv_count v)) as [Hj|Hj].
    + assert (PVector_set v i x = PVector_set v (Z.of_nat (Z.to_nat j)) x) as E.
      { unfold PVector_set. fold j. rewrite Z2Nat.id by lia.
        by destruct (Z.ltb_spec j 0); [lia|]. }
      destruct (set_spec v l (Z.to_nat j) x IH Hl) as (v1 & Hv1 & Hwf & _);
        [unfold len in *; lia|]. congruence.
    + destruct (decide (j = pv_count v)) as [Ej|Ej].
      * assert (PVector_set v i x = PVector_append v x) as E.
        { unfold PVector_set. fold j. rewrite Ej.
          destruct (Z.ltb_spec (pv_count v) (pv_count v)); [lia|].
          by rewrite andb_false_r, Z.eqb_refl. }
        destruct (append_spec v l x IH Hl) as (v1 & Hv1 & Hwf & _). congruence.
      * rewrite set_out in Hv' by (fold j; lia). done.
  - destruct (wf_tolist v IH) as (l & Hl & _).
    destruct (extend_spec v l xs IH Hl) as (v1 & Hv1 & Hwf & _). congruence.
Qed.

End VectorExtend.

(** * Proofs: the vector evolver *)

Section EvolverProofs.
Context {A : Type}.
Implicit Types (l t xs : list A) (H n : nat) (v : PVector A) (e : Evolver A).

Lemma node_for_ev_vec e i : _node_for e i = _node_for (ev_vec e) i.
Proof. reflexivity. Qed.

Lemma reset_inv v H l : pv_inv v H l -> ev_inv (Evolver_reset v) H l.
Proof.
  intros Hinv. split.
  - by destruct v.
  - intros b id Hb. simpl in Hb. by rewrite lookup_empty in Hb.
Qed.

Lemma reset_wf v xs :
  pv_wf v -> _tolist v = Ok xs -> ev_wf (Evolver_reset v) xs.
Proof.
  intros Hwf Hxs. destruct (inv_of_tolist v xs Hwf Hxs) as (H & l & Hinv & ->).
  exists H, l. split; [by apply reset_inv|].
  unfold ev_list. simpl. by rewrite app_nil_r.
Qed.

Lemma reset_clean v : Evolver_is_dirty (Evolver_reset v) = false.
Proof. reflexivity. Qed.

Lemma ev_len e xs : ev_wf e xs -> Evolver_len e = len xs.
Proof.
  intros (H & l & [[(HH & Hs & Hr & Hw & H32 & Ht & Hc) Ho] _] & ->).
  unfold Evolver_len, ev_list. simpl in Hc. rewrite Hc, !len_app. lia.
Qed.

(** Reading through an evolver. *)
Lemma ev_getitem e xs n x :
  ev_wf e xs -> xs !! n = Some x -> Evolver_getitem e (Z.of_nat n) = Ok x.
Proof.
  intros (H & l & [Hinv _] & ->) Hx.
  pose proof Hinv as [(HH & Hs & Hr & Hw & H32 & Ht & Hc) Ho].
  simpl in Hs, Hr, Ht, Hc, Ho. unfold len in Hc.
  pose proof (lookup_lt_Some _ _ _ Hx) as Hlt.
  unfold ev_list in *. rewrite !length_app in Hlt.
  unfold Evolver_getitem, len.
  destruct (Z.ltb_spec (Z.of_nat n) 0); [lia|].
  destruct (Z.leb_spec (ev_count e) (Z.of_nat n)) as [Hge|Hlt'].
  - destruct (Z.ltb_spec (Z.of_nat n)
                (ev_count e + Z.of_nat (length (ev_extra_tail e)))); [|lia].
    cbn [andb]. rewrite app_assoc in Hx.
    rewrite lookup_app_r in Hx by (rewrite length_app; lia).
    rewrite length_app in Hx.
    replace (Z.of_nat n - ev_count e)
      with (Z.of_nat (n - (length l + length (ev_tail e)))) by lia.
    by apply list_getitem_nat.
  - cbn [andb]. rewrite app_assoc in Hx.
    rewrite lookup_app_l in Hx by (rewrite length_app; lia).
    rewrite node_for_ev_vec.
    pose proof (getitem_nat (ev_vec e) H l n x Hinv Hx) as G.
    unfold PVector_getitem in G.
    by destruct (Z.ltb_spec (Z.of_nat n) 0) in G; [lia|].
Qed.

Lemma ev_do_set_rec_leaf fuel dirty cached (xs : list A) i val :
  Evolver_do_set_rec fuel dirty cached 0 (Leaf xs) i val
  = (let me := TreeId 0 (Z.shiftr i (0 + SHIFT)) in
     ret' ← list_setitem xs (Z.land i BIT_MASK) val;
     Ok (Leaf ret', if decide (me ∈ dirty) then dirty else me :: dirty,
         <[Z.shiftr i SHIFT := me]> cached)).
Proof. by destruct fuel. Qed.

Lemma ev_do_set_rec_branch fuel dirty cached level (cs : list (node A)) i val :
  level <> 0 ->
  Evolver_do_set_rec (S fuel) dirty cached level (Branch cs) i val
  = (let me := TreeId level (Z.shiftr i (level + SHIFT)) in
     s ← py_rshift i level;
     child ← list_getitem cs (Z.land s BIT_MASK);
     '(new_child, dirty', cached') ←
        Evolver_do_set_rec fuel (if decide (me ∈ dirty) then dirty else me :: dirty)
                           cached (level - SHIFT) child i val;
     ret' ← list_setitem cs (Z.land s BIT_MASK) new_child;
     Ok (Branch ret', dirty', cached')).
Proof. intros Hl. simpl. by destruct (Z.eqb_spec level 0). Qed.

(** [_Evolver._do_set] computes the tree of [PVector._do_set]. *)
Lemma ev_do_set_trie h : forall fuel dirty cached l n val,
  (h <= fuel)%nat ->
  (n mod width h < length l)%nat -> (length l <= width h)%nat ->
  exists dirty',
    Evolver_do_set_rec fuel dirty cached (5 * Z.of_nat h) (trie h l)
                       (Z.of_nat n) val
    = Ok (trie h (<[(n mod width h)%nat := val]> l), dirty',
          <[Z.shiftr (Z.of_nat n) SHIFT
              := TreeId 0 (Z.shiftr (Z.of_nat n) (0 + SHIFT))]> cached)
    /\ dirty' <> [].
Proof.
  induction h as [|h IH]; intros fuel dirty cached l n val Hf Hn Hl.
  - rewrite width_0 in Hn |- *. change (5 * Z.of_nat 0) with 0. cbn [trie].
    rewrite ev_do_set_rec_leaf. cbv zeta.
    rewrite digit0_nat, list_setitem_nat by lia. rsimpl.
    eexists. split; [done|].
    case_decide as Hin; [|done]. intros ->. by apply not_elem_of_nil in Hin.
  - destruct fuel as [|fuel]; [lia|].
    set (me := TreeId (5 * Z.of_nat (S h))
                      (Z.shiftr (Z.of_nat n) (5 * Z.of_nat (S h) + SHIFT))).
    set (dirty1 := if decide (me ∈ dirty) then dirty else me :: dirty).
    destruct (local_index h n _ Hn) as [Hd Ej].
    pose proof (width_pos h) as Hw.
    pose proof (Nat.mod_upper_bound n (width h) ltac:(lia)) as Hlt.
    destruct (IH fuel dirty1 cached
                (take (width h) (drop ((n / width h) mod 32 * width h) l)) n val)
      as (dirty' & Hrec & Hne);
      [lia|rewrite length_take, length_drop; lia|rewrite length_take; lia|].
    exists dirty'. split; [|done].
    rewrite trie_S, ev_do_set_rec_branch by lia. cbv zeta.
    rewrite py_rshift_Ok by lia. rsimpl. rewrite digit_nat.
    rewrite chunk_child by done. rsimpl.
    replace (5 * Z.of_nat (S h) - SHIFT) with (5 * Z.of_nat h)
      by (rewrite SHIFT_eq; lia).
    fold me. fold dirty1. rewrite Hrec. rsimpl.
    rewrite list_setitem_nat
      by (rewrite length_fmap, length_chunks; apply num_chunks_lt; lia).
    rsimpl. rewrite (trie_S h). do 3 f_equal. rewrite <- list_fmap_insert.
    f_equal. rewrite chunks_insert by lia.
    assert ((n mod width (S h)) / width h = (n / width h) mod 32)%nat as ->
      by (rewrite Ej, Nat.add_comm, Nat.div_add, Nat.div_small; lia).
    by rewrite mod_mod_width.
Qed.

End EvolverProofs.

Section EvolverSet.
Context {A : Type}.
Implicit Types (l t xs : list A) (H n : nat) (v : PVector A) (e : Evolver A).

Lemma shiftr5_nat n : Z.shiftr (Z.of_nat n) SHIFT = Z.of_nat (n / 32).
Proof.
  rewrite SHIFT_eq, Z.shiftr_div_pow2 by lia. change (2 ^ 5) with 32.
  by rewrite Nat2Z.inj_div.
Qed.

Lemma block_lt (m n : nat) :
  (m mod 32 = 0)%nat -> (n / 32 < m / 32)%nat <-> (n < m)%nat.
Proof.
  intros Hm. pose proof (Nat.div_mod_eq m 32). pose proof (Nat.div_mod_eq n 32).
  pose proof (Nat.mod_upper_bound n 32 ltac:(lia)). lia.
Qed.

(** Writing below [count]: in the tail or in the tree. *)
Lemma ev_setitem_low e H l n x :
  ev_inv e H l -> (n < length l + length (ev_tail e))%nat ->
  exists e' l',
    Evolver_setitem e (Z.of_nat n) x = Ok e' /\ ev_inv e' H l'
    /\ l' ++ ev_tail e' = <[n := x]> (l ++ ev_tail e)
    /\ ev_extra_tail e' = ev_extra_tail e
    /\ ev_dirty_nodes e' <> [].
Proof.
  intros [Hinv Hcache] Hn.
  pose proof Hinv as [(HH & Hs & Hr & Hw & H32 & Ht & Hc) Ho].
  simpl in Hs, Hr, Ht, Hc, Ho. unfold len in Hc, Ho.
  assert (forall dirty cached,
    dirty <> [] ->
    (forall b id, cached !! b = Some id ->
       match id with
       | TailId => b = ev_tail_offset e / 32
       | TreeId _ _ => 0 <= b < ev_tail_offset e / 32
       end) ->
    (length l <= n)%nat ->
    exists e' l',
      (new_tail ← list_setitem (ev_tail e) (Z.land (Z.of_nat n) BIT_MASK) x;
       Ok (mkEvolver (ev_count e) (ev_shift e) (ev_root e) new_tail
                     (ev_tail_offset e) dirty (ev_extra_tail e) cached))
      = Ok e' /\ ev_inv e' H l'
      /\ l' ++ ev_tail e' = <[n := x]> (l ++ ev_tail e)
      /\ ev_extra_tail e' = ev_extra_tail e
      /\ ev_dirty_nodes e' <> []) as Htail.
  { intros dirty cached Hd Hcached Hge.
    rewrite digit0_nat, (tail_index l) by lia.
    rewrite list_setitem_nat by lia. rsimpl.
    eexists _, l. split; [done|]. split; [|split; [|done]].
    - split.
      + repeat split; simpl; try done.
        * by rewrite length_insert.
        * unfold len. rewrite length_insert. lia.
      + intros b id Hb. simpl in *. split; [done|]. by apply Hcached.
    - simpl. by rewrite insert_app_r_alt by lia. }
  assert (forall root' dirty cached,
    dirty <> [] ->
    (forall b id, cached !! b = Some id ->
       match id with
       | TailId => b = ev_tail_offset e / 32
       | TreeId _ _ => 0 <= b < ev_tail_offset e / 32
       end) ->
    (n < length l)%nat ->
    root' = trie H (<[n := x]> l) ->
    let e' := mkEvolver (ev_count e) (ev_shift e) root' (ev_tail e)
                        (ev_tail_offset e) dirty (ev_extra_tail e) cached in
    ev_inv e' H (<[n := x]> l)
    /\ <[n := x]> l ++ ev_tail e' = <[n := x]> (l ++ ev_tail e)
    /\ ev_extra_tail e' = ev_extra_tail e
    /\ ev_dirty_nodes e' <> []) as Htree.
  { intros root' dirty cached Hd Hcached Hlt -> e'.
    split; [|split; [|done]].
    - split.
      + repeat split; simpl; rewrite ?length_insert; try done.
        * unfold len. rewrite length_insert. lia.
        * unfold len. rewrite length_insert. lia.
      + intros b id Hb. simpl in *. split; [done|]. by apply Hcached.
    - simpl. by rewrite insert_app_l by lia. }
  assert (forall b id, ev_cached_leafs e !! b = Some id ->
       match id with
       | TailId => b = ev_tail_offset e / 32
       | TreeId _ _ => 0 <= b < ev_tail_offset e / 32
       end) as Hcache' by (intros b id Hb; by apply Hcache).
  assert (ev_tail_offset e / 32 = Z.of_nat (length l / 32)) as Eoff
    by (rewrite Ho; by rewrite Nat2Z.inj_div).
  unfold Evolver_setitem.
  destruct (Z.ltb_spec (Z.of_nat n) 0); [lia|].
  destruct (Z.leb_spec 0 (Z.of_nat n)); [|lia].
  destruct (Z.ltb_spec (Z.of_nat n) (ev_count e)); [|lia].
  cbn [andb]. rewrite shiftr5_nat.
  assert (exists e' l',
    (if ev_tail_offset e <=? Z.of_nat n
     then
      if decide (TailId ∈ ev_dirty_nodes e)
      then
       new_tail ← list_setitem (ev_tail e) (Z.land (Z.of_nat n) BIT_MASK) x;
       Ok (mkEvolver (ev_count e) (ev_shift e) (ev_root e) new_tail
             (ev_tail_offset e) (ev_dirty_nodes e) (ev_extra_tail e)
             (ev_cached_leafs e))
      else
       new_tail ← list_setitem (ev_tail e) (Z.land (Z.of_nat n) BIT_MASK) x;
       Ok (mkEvolver (ev_count e) (ev_shift e) (ev_root e) new_tail
             (ev_tail_offset e) (TailId :: ev_dirty_nodes e) (ev_extra_tail e)
             (<[Z.of_nat (n / 32) := TailId]> (ev_cached_leafs e)))
     else
      '(new_root, dirty, cached) ←
         Evolver_do_set e (ev_shift e) (ev_root e) (Z.of_nat n) x;
      Ok (mkEvolver (ev_count e) (ev_shift e) new_root (ev_tail e)
            (ev_tail_offset e) dirty (ev_extra_tail e) cached)) = Ok e'
    /\ ev_inv e' H l' /\ l' ++ ev_tail e' = <[n := x]> (l ++ ev_tail e)
    /\ ev_extra_tail e' = ev_extra_tail e /\ ev_dirty_nodes e' <> []) as Hslow.
  { destruct (Z.leb_spec (ev_tail_offset e) (Z.of_nat n)) as [Hge|Hlt].
    - case_decide as Hin.
      + apply Htail; [|done|lia]. intros E. rewrite E in Hin.
        by apply not_elem_of_nil in Hin.
      + apply Htail; [done| |lia].
        intros b id Hb. destruct (decide (b = Z.of_nat (n / 32))) as [->|Hne].
        * rewrite lookup_insert_eq in Hb. injection Hb as <-.
          rewrite Eoff. f_equal.
          pose proof (Nat.div_mod_eq (length l) 32).
          pose proof (Nat.div_mod_eq n 32).
          pose proof (Nat.mod_upper_bound n 32 ltac:(lia)). lia.
        * rewrite lookup_insert_ne in Hb by done. by apply Hcache'.
    - unfold Evolver_do_set. rewrite Hs, Hr.
      destruct (ev_do_set_trie H (Z.to_nat (5 * Z.of_nat H)) (ev_dirty_nodes e)
                  (ev_cached_leafs e) l n x) as (dirty' & -> & Hd);
        [lia|rewrite Nat.mod_small; lia|lia|].
      rsimpl. rewrite Nat.mod_small by lia. rewrite <- Hs.
      eexists _, _. split; [done|].
      apply Htree; [done| |lia|done].
      intros b id Hb. rewrite shiftr5_nat in Hb.
      destruct (decide (b = Z.of_nat (n / 32))) as [->|Hne].
      + rewrite lookup_insert_eq in Hb. injection Hb as <-.
        rewrite Eoff. split; [lia|]. apply inj_lt. apply block_lt; [done|lia].
      + rewrite lookup_insert_ne in Hb by done. by apply Hcache'. }
  destruct (ev_cached_leafs e !! Z.of_nat (n / 32)) as [id|] eqn:Hcached;
    [|exact Hslow].
  pose proof (Hcache _ _ Hcached) as [Hd Hid].
  destruct id as [|lv bk].
  - cbn [cached_leaf]. rsimpl.
    case_bool_decide; cbn [negb]; [exact Hslow|].
    apply Htail; [done|done|].
    rewrite Eoff in Hid. apply Nat2Z.inj in Hid.
    pose proof (Nat.div_mod_eq (length l) 32).
    pose proof (Nat.div_mod_eq n 32). lia.
  - rewrite Eoff in Hid.
    assert (n < length l)%nat as Hlt by (apply block_lt; [done|lia]).
    assert (cached_leaf e (TreeId lv bk) (Z.of_nat n)
            = Ok (take 32 (drop (n / 32 * 32) l))) as ->.
    { cbn [cached_leaf]. rewrite Hs, Hr.
      rewrite descend_trie by (rewrite ?Nat.mod_small; lia). rsimpl.
      by rewrite Nat.mod_small by lia. }
    rsimpl. case_bool_decide; cbn [negb]; [exact Hslow|].
    assert (_do_set (ev_shift e) (ev_root e) (Z.of_nat n) x
            = Ok (trie H (<[n := x]> l))) as ->.
    { unfold _do_set. rewrite Hs, Hr.
      rewrite do_set_trie by (rewrite ?Nat.mod_small; lia).
      by rewrite Nat.mod_small by lia. }
    rsimpl. eexists _, _. split; [done|]. by apply Htree.
Qed.

End EvolverSet.

Section EvolverApi.
Context {A : Type}.
Implicit Types (l t xs : list A) (H n : nat) (v : PVector A) (e : Evolver A).

Lemma dirty_of_nodes e : ev_dirty_nodes e <> [] -> Evolver_is_dirty e = true.
Proof.
  intros Hd. unfold Evolver_is_dirty. by case_bool_decide.
Qed.

Lemma dirty_of_extra e :
  ev_extra_tail e <> [] -> Evolver_is_dirty e = true.
Proof.
  intros Hd. unfold Evolver_is_dirty.
  destruct (ev_extra_tail e); [done|]. simpl. by rewrite orb_true_r.
Qed.

(** [e[n] = x] inside the sequence replaces one element and leaves the
    evolver dirty. *)
Lemma ev_setitem e xs n x :
  ev_wf e xs -> (n < length xs)%nat ->
  exists e', Evolver_setitem e (Z.of_nat n) x = Ok e'
    /\ ev_wf e' (<[n := x]> xs)
    /\ Evolver_is_dirty e' = true
    /\ length (ev_extra_tail e') = length (ev_extra_tail e).
Proof.
  intros (H & l & Hinv & ->) Hn. unfold ev_list in *.
  rewrite !length_app in Hn.
  destruct (decide (n < length l + length (ev_tail e))%nat) as [Hlow|Hhigh].
  - destruct (ev_setitem_low e H l n x Hinv Hlow)
      as (e' & l' & He' & Hinv' & Hl' & Hex & Hd).
    exists e'. split; [done|]. split; [|split].
    + exists H, l'. split; [done|]. unfold ev_list.
      rewrite !app_assoc, Hl', Hex.
      by rewrite insert_app_l by (rewrite length_app; lia).
    + by apply dirty_of_nodes.
    + by rewrite Hex.
  - pose proof Hinv as [[(HH & Hs & Hr & Hw & H32 & Ht & Hc) Ho] Hcache].
    simpl in Hs, Hr, Ht, Hc, Ho. unfold len in Hc, Ho.
    unfold Evolver_setitem, len.
    destruct (Z.ltb_spec (Z.of_nat n) 0); [lia|].
    destruct (Z.ltb_spec (Z.of_nat n) (ev_count e)); [lia|].
    rewrite andb_false_r.
    destruct (Z.leb_spec (ev_count e) (Z.of_nat n)); [|lia].
    destruct (Z.ltb_spec (Z.of_nat n)
                (ev_count e + Z.of_nat (length (ev_extra_tail e)))); [|lia].
    cbn [andb].
    replace (Z.of_nat n - ev_count e)
      with (Z.of_nat (n - (length l + length (ev_tail e)))) by lia.
    rewrite list_setitem_nat by lia. rsimpl.
    eexists. split; [done|]. split; [|split].
    + exists H, l. split.
      * split; [done|]. intros b id Hb. by apply Hcache.
      * unfold ev_list. simpl. rewrite !app_assoc.
        rewrite insert_app_r_alt by (rewrite length_app; lia).
        by rewrite length_app.
    + apply dirty_of_extra. simpl.
      destruct (ev_extra_tail e); simpl in *; [lia|].
      by destruct (n - _)%nat.
    + simpl. by rewrite length_insert.
Qed.

(** [e[len(e)] = x] appends. *)
Lemma ev_setitem_end e xs x :
  ev_wf e xs ->
  Evolver_setitem e (len xs) x = Ok (Evolver_append e x)
  /\ ev_wf (Evolver_append e x) (xs ++ [x]).
Proof.
  intros (H & l & Hinv & ->).
  pose proof Hinv as [[(HH & Hs & Hr & Hw & H32 & Ht & Hc) Ho] Hcache].
  simpl in Hs, Hr, Ht, Hc, Ho. unfold len in Hc, Ho.
  unfold ev_list. split.
  - unfold Evolver_setitem, len. rewrite !length_app.
    set (i := Z.of_nat (length l + (length (ev_tail e) + length (ev_extra_tail e)))).
    destruct (Z.ltb_spec i 0); [lia|].
    destruct (Z.ltb_spec i (ev_count e)); [lia|]. rewrite andb_false_r.
    destruct (Z.ltb_spec i (ev_count e + Z.of_nat (length (ev_extra_tail e))));
      [lia|]. rewrite andb_false_r.
    destruct (Z.eqb_spec i (ev_count e + Z.of_nat (length (ev_extra_tail e))));
      [done|lia].
  - exists H, l. split.
    + split; [done|]. intros b id Hb. by apply Hcache.
    + unfold ev_list. simpl. by rewrite !app_assoc.
Qed.

Lemma ev_append_wf e xs x :
  ev_wf e xs -> ev_wf (Evolver_append e x) (xs ++ [x]).
Proof. intros Hwf. by apply ev_setitem_end. Qed.

Lemma ev_setitem_out e xs i x :
  ev_wf e xs ->
  let j := if i <? 0 then i + len xs else i in
  ~ (0 <= j <= len xs) -> Evolver_setitem e i x = Raise IndexError.
Proof.
  intros Hwf j Hj. pose proof (ev_len e xs Hwf) as El.
  destruct Hwf as (H & l & Hinv & ->).
  pose proof Hinv as [[(HH & Hs & Hr & Hw & H32 & Ht & Hc) Ho] Hcache].
  simpl in Hc. pose proof (len_nonneg l). pose proof (len_nonneg (ev_tail e)).
  pose proof (len_nonneg (ev_extra_tail e)).
  unfold Evolver_len in El.
  unfold Evolver_setitem. rewrite El. fold j.
  generalize dependent j. intros j Hj.
  destruct (Z.leb_spec 0 j); destruct (Z.ltb_spec j (ev_count e));
    destruct (Z.leb_spec (ev_count e) j);
    destruct (Z.ltb_spec j (len (ev_list e l)));
    destruct (Z.eqb_spec j (len (ev_list e l))); cbn [andb]; done || lia.
Qed.

Lemma ev_setitem_neg e xs i x :
  ev_wf e xs -> i < 0 -> 0 <= i + len xs ->
  Evolver_setitem e i x = Evolver_setitem e (i + len xs) x.
Proof.
  intros Hwf Hi Hj. pose proof (ev_len e xs Hwf) as El.
  unfold Evolver_len in El. unfold Evolver_setitem. rewrite El.
  destruct (Z.ltb_spec i 0); [|lia].
  by destruct (Z.ltb_spec (i + len xs) 0); [lia|].
Qed.

(** [persistent] publishes the sequence and resets the evolver. *)
Lemma ev_persistent e xs :
  ev_wf e xs ->
  exists v, Evolver_persistent e = Ok (v, Evolver_reset v)
    /\ pv_wf v /\ _tolist v = Ok xs.
Proof.
  intros (H & l & [Hinv _] & ->).
  pose proof Hinv as [(HH & Hs & Hr & Hw & H32 & Ht & Hc) Ho].
  simpl in Hs, Hr, Ht, Hc, Ho.
  unfold Evolver_persistent.
  assert (pv_inv (PVector_new (ev_count e) (ev_shift e) (ev_root e) (ev_tail e))
                 H l) as Hnew by (by apply new_inv).
  destruct (extend_inv _ H l (ev_extra_tail e) Hnew)
    as (v & H' & l' & -> & Hinv' & Hl').
  rsimpl. exists v. split; [done|]. split; [by exists H', l'|].
  rewrite (tolist_inv v H' l') by apply Hinv'. rewrite Hl'. simpl.
  unfold ev_list. by rewrite app_assoc.
Qed.

End EvolverApi.

(** * Proofs: bucket lists *)

Section Buckets.
Context {K V : Type} `{EqDecision K}.
Context (hash : K -> Z).
Implicit Types (bl : list (bucket K V)) (b : bucket K V) (key k : K)
               (kv : K * V) (ps qs : list (K * V)).

Lemma bucket_find_items b key :
  bucket_find b key = List.find (key_is key) (bucket_items b).
Proof. unfold bucket_find. by destruct b as [[|? ?]|]. Qed.

Lemma find_app {T} (f : T -> bool) (xs ys : list T) :
  List.find f (xs ++ ys)
  = match List.find f xs with Some x => Some x | None => List.find f ys end.
Proof. induction xs as [|x xs IH]; [done|]. simpl. by destruct (f x). Qed.

Lemma find_none_iff {T} (f : T -> bool) (xs : list T) :
  List.find f xs = None <-> forall x, x ∈ xs -> f x = false.
Proof.
  induction xs as [|x xs IH]; simpl.
  - split; [intros _ y Hy; by apply elem_of_nil in Hy|done].
  - destruct (f x) eqn:Hfx.
    + split; [done|]. intros Hall. rewrite Hall in Hfx by left. done.
    + rewrite IH. split.
      * intros Hall y Hy. apply elem_of_cons in Hy as [->|Hy]; auto.
      * intros Hall y Hy. apply Hall. by right.
Qed.

Lemma find_filter {T} (f : T -> bool) (P : T -> Prop) `{forall x, Decision (P x)}
    (xs : list T) :
  (forall x, f x = true -> P x) ->
  List.find f (filter P xs) = List.find f xs.
Proof.
  intros HfP. induction xs as [|x xs IH]; [done|].
  rewrite filter_cons. destruct (decide (P x)) as [HP|HP]; simpl.
  - by rewrite IH.
  - destruct (f x) eqn:Hfx; [by apply HfP in Hfx|done].
Qed.

Lemma elem_of_concat {T} (x : T) (ls : list (list T)) :
  x ∈ concat ls <-> exists l, x ∈ l /\ l ∈ ls.
Proof.
  induction ls as [|l ls IH]; simpl.
  - split; [intros Hx; by apply elem_of_nil in Hx|].
    intros (l & _ & Hl). by apply elem_of_nil in Hl.
  - rewrite elem_of_app, IH. split.
    + intros [Hx|(l' & Hx & Hl')]; [exists l; split; [done|left]|].
      exists l'. split; [done|by right].
    + intros (l' & Hx & Hl'). apply elem_of_cons in Hl' as [->|Hl'];
        [by left|right; eauto].
Qed.

(** Searching the concatenation when one piece only can hold a match. *)
Lemma find_concat {T} (f : T -> bool) (ls : list (list T)) (j : nat) :
  (forall i l x, ls !! i = Some l -> x ∈ l -> f x = true -> i = j) ->
  List.find f (concat ls) = List.find f (default [] (ls !! j)).
Proof.
  revert j. induction ls as [|l ls IH]; intros j Hj; [done|].
  simpl concat. rewrite find_app. destruct j as [|j]; simpl.
  - destruct (List.find f l) eqn:Hl; [done|].
    apply find_none_iff. intros x Hx.
    apply elem_of_concat in Hx as (l' & Hx & Hl').
    apply list_elem_of_lookup in Hl' as (i & Hi).
    destruct (f x) eqn:Hfx; [|done].
    by specialize (Hj (S i) l' x Hi Hx Hfx).
  - assert (List.find f l = None) as ->.
    { apply find_none_iff. intros x Hx. destruct (f x) eqn:Hfx; [|done].
      by specialize (Hj 0%nat l x eq_refl Hx Hfx). }
    apply IH. intros i l' x Hi Hx Hfx.
    specialize (Hj (S i) l' x Hi Hx Hfx). lia.
Qed.

Lemma all_items_concat bl : all_items bl = concat (bucket_items <$> bl).
Proof.
  unfold all_items. induction bl as [|b bl IH]; [done|].
  rewrite filter_cons, fmap_cons. simpl concat. rewrite <- IH.
  destruct b as [[|kv l]|]; simpl; done.
Qed.

Lemma slot_bound key (n : nat) :
  (0 < n)%nat -> (Z.to_nat (hash key mod Z.of_nat n) < n)%nat.
Proof. intros Hn. pose proof (Z.mod_pos_bound (hash key) (Z.of_nat n)). lia. Qed.

(** A map reads the first pair with the key among all its pairs. *)
Lemma lookup_in_all_items bl key :
  buckets_ok hash bl ->
  lookup_in hash bl key = snd <$> List.find (key_is key) (all_items bl).
Proof.
  intros [Hlen Hslot]. rewrite all_items_concat.
  set (j := Z.to_nat (hash key mod len bl)).
  rewrite (find_concat _ _ j).
  - unfold lookup_in. fold j. rewrite list_lookup_fmap.
    destruct (bl !! j) as [b|] eqn:Hb; simpl; [|done].
    by rewrite bucket_find_items.
  - intros i l kv Hi Hkv Hf. rewrite list_lookup_fmap in Hi.
    destruct (bl !! i) as [b|] eqn:Hb; [|done]. injection Hi as <-.
    unfold key_is in Hf. apply bool_decide_eq_true in Hf. subst key.
    symmetry. by eapply Hslot.
Qed.

(** ** [groups]: what the placing loop builds *)

Lemma length_groups n ps : length (groups hash n ps) = n.
Proof. unfold groups. by rewrite length_fmap, length_seq. Qed.

Lemma lookup_groups n ps (j : nat) :
  (j < n)%nat -> groups hash n ps !! j = Some (group hash (Z.of_nat n) ps j).
Proof.
  intros Hj. unfold groups. rewrite list_lookup_fmap.
  by rewrite lookup_seq_lt.
Qed.

Lemma groups_nil n : groups hash n (@nil (K * V)) = replicate n None.
Proof.
  apply list_eq. intros j. destruct (decide (j < n)%nat).
  - rewrite lookup_groups by done. by rewrite lookup_replicate_2.
  - rewrite !lookup_ge_None_2; [done| |]; rewrite ?length_replicate, ?length_groups; lia.
Qed.

Lemma items_group n ps j :
  bucket_items (group hash n ps j)
  = filter (fun kv => Z.to_nat (hash (fst kv) mod n) = j) ps.
Proof. unfold group. by destruct (filter _ ps). Qed.

Lemma truthy_group n ps j :
  truthy (group hash n ps j) = false -> group hash n ps j = None.
Proof. unfold group. by destruct (filter _ ps). Qed.

Lemma group_snoc n ps kv j :
  group hash n (ps ++ [kv]) j
  = if decide (Z.to_nat (hash (fst kv) mod n) = j)
    then Some (bucket_items (group hash n ps j) ++ [kv])
    else group hash n ps j.
Proof.
  rewrite items_group. unfold group. rewrite filter_app, filter_cons, filter_nil.
  case_decide.
  - by destruct (filter _ ps).
  - by rewrite app_nil_r.
Qed.

Lemma place_pair_groups (n : nat) ps kv :
  (0 < n)%nat ->
  place_pair hash (Z.of_nat n) (groups hash n ps) kv
  = Ok (groups hash n (ps ++ [kv])).
Proof.
  intros Hn. unfold place_pair, py_mod.
  destruct (Z.eqb_spec (Z.of_nat n) 0); [lia|]. rsimpl.
  pose proof (slot_bound (fst kv) n Hn) as Hj.
  pose proof (Z.mod_pos_bound (hash (fst kv)) (Z.of_nat n) ltac:(lia)) as Hm.
  set (j := Z.to_nat (hash (fst kv) mod Z.of_nat n)) in *.
  replace (hash (fst kv) mod Z.of_nat n) with (Z.of_nat j) by lia.
  rewrite (list_getitem_nat _ j (group hash (Z.of_nat n) ps j))
    by (by apply lookup_groups).
  rsimpl.
  assert (groups hash n (ps ++ [kv])
          = <[j := Some (bucket_items (group hash (Z.of_nat n) ps j) ++ [kv])]>
              (groups hash n ps)) as ->.
  { apply list_eq. intros i. destruct (decide (i < n)%nat).
    - rewrite lookup_groups by done. rewrite group_snoc. fold j.
      destruct (decide (j = i)) as [->|Hne].
      + by rewrite list_lookup_insert_eq by (by rewrite length_groups).
      + rewrite list_lookup_insert_ne by done. by rewrite lookup_groups.
    - rewrite !lookup_ge_None_2; [done| |];
        rewrite ?length_insert, length_groups; lia. }
  destruct (truthy (group hash (Z.of_nat n) ps j)) eqn:Ht.
  - by rewrite list_setitem_nat by (by rewrite length_groups).
  - rewrite list_setitem_nat by (by rewrite length_groups).
    by rewrite (truthy_group _ _ _ Ht).
Qed.

Lemma foldM_place_pair (n : nat) qs : forall ps,
  (0 < n)%nat ->
  foldM (place_pair hash (Z.of_nat n)) (groups hash n ps) qs
  = Ok (groups hash n (ps ++ qs)).
Proof.
  induction qs as [|kv qs IH]; intros ps Hn.
  - by rewrite app_nil_r.
  - rewrite foldM_cons, place_pair_groups by done. rsimpl.
    rewrite IH by done. by rewrite <- app_assoc.
Qed.

Lemma groups_ok (n : nat) ps : (0 < n)%nat -> buckets_ok hash (groups hash n ps).
Proof.
  intros Hn. split; [by rewrite length_groups|].
  intros i b kv Hi Hkv. unfold len. rewrite length_groups.
  pose proof (lookup_lt_Some _ _ _ Hi) as Hlt. rewrite length_groups in Hlt.
  rewrite lookup_groups in Hi by done. injection Hi as <-.
  rewrite items_group in Hkv. by apply list_elem_of_filter in Hkv as [? _].
Qed.

Lemma lookup_in_groups (n : nat) ps key :
  (0 < n)%nat ->
  lookup_in hash (groups hash n ps) key = snd <$> List.find (key_is key) ps.
Proof.
  intros Hn. unfold lookup_in, len. rewrite length_groups.
  rewrite lookup_groups by (by apply slot_bound).
  rewrite bucket_find_items, items_group. f_equal.
  apply find_filter. intros kv Hf.
  unfold key_is in Hf. apply bool_decide_eq_true in Hf. by subst key.
Qed.

(** Rehashing into [n] slots keeps every binding. *)
Lemma lookup_in_rehash (n : nat) bl key :
  (0 < n)%nat -> buckets_ok hash bl ->
  lookup_in hash (groups hash n (all_items bl)) key = lookup_in hash bl key.
Proof.
  intros Hn Hok. by rewrite lookup_in_groups, lookup_in_all_items.
Qed.

End Buckets.

(** * Proofs: writing one bucket *)

Section BucketWrite.
Context {K V : Type} `{EqDecision K}.
Context (hash : K -> Z).
Implicit Types (bl : list (bucket K V)) (b : bucket K V) (key k : K)
               (kv : K * V) (ps qs : list (K * V)).

Lemma slot_lt bl key : (0 < length bl)%nat -> (slot hash bl key < length bl)%nat.
Proof. intros Hn. by apply slot_bound. Qed.

Lemma lookup_in_slot bl key b :
  bl !! slot hash bl key = Some b ->
  lookup_in hash bl key = snd <$> List.find (key_is key) (bucket_items b).
Proof.
  intros Hb. unfold lookup_in. fold (slot hash bl key). rewrite Hb.
  by rewrite bucket_find_items.
Qed.

(** Replacing the bucket of [key] by one that agrees on the other keys. *)
Lemma write_bucket bl key b nb :
  buckets_ok hash bl -> bl !! slot hash bl key = Some b ->
  (forall k', k' <> key ->
     List.find (key_is k') (bucket_items nb)
     = List.find (key_is k') (bucket_items b)) ->
  (forall kv, kv ∈ bucket_items nb -> kv ∈ bucket_items b \/ fst kv = key) ->
  let bl' := <[slot hash bl key := nb]> bl in
  buckets_ok hash bl' /\
  forall k', lookup_in hash bl' k'
             = if decide (k' = key)
               then snd <$> List.find (key_is key) (bucket_items nb)
               else lookup_in hash bl k'.
Proof.
  intros [Hlen Hslot] Hb Hother Hkeys bl'.
  assert (len bl' = len bl) as El by (unfold bl', len; by rewrite length_insert).
  pose proof (slot_lt bl key Hlen) as Hj.
  split.
  - split; [unfold bl'; by rewrite length_insert|].
    intros i b' kv Hi Hkv. rewrite El.
    destruct (decide (i = slot hash bl key)) as [->|Hne].
    + unfold bl' in Hi. rewrite list_lookup_insert_eq in Hi by done.
      injection Hi as <-. destruct (Hkeys kv Hkv) as [Hold| ->]; [|done].
      by eapply Hslot.
    + unfold bl' in Hi. rewrite list_lookup_insert_ne in Hi by done.
      by eapply Hslot.
  - intros k'. unfold lookup_in at 1. rewrite El. fold (slot hash bl k').
    case_decide as Hk.
    + subst k'. unfold bl'. rewrite list_lookup_insert_eq by done.
      by rewrite bucket_find_items.
    + destruct (decide (slot hash bl k' = slot hash bl key)) as [E|Hne].
      * unfold bl'. rewrite E, list_lookup_insert_eq by done.
        rewrite bucket_find_items.
        rewrite Hother by done. symmetry. apply lookup_in_slot. by rewrite E.
      * unfold bl'. rewrite list_lookup_insert_ne by done. done.
Qed.

Lemma find_replace key (val : V) (items : list (K * V)) k' :
  k' <> key ->
  List.find (key_is k')
    ((fun '(k2, v2) => if negb (bool_decide (k2 = key)) then (k2, v2)
                       else (k2, val)) <$> items)
  = List.find (key_is k') items.
Proof.
  intros Hk. induction items as [|[k2 v2] items IH]; [done|].
  rewrite fmap_cons. cbn [List.find].
  destruct (decide (k2 = key)) as [->|E2].
  - rewrite bool_decide_eq_true_2 by done. cbn [negb].
    unfold key_is at 1 3. cbn [fst].
    rewrite !bool_decide_eq_false_2 by done. apply IH.
  - rewrite bool_decide_eq_false_2 by done. cbn [negb].
    destruct (key_is k' (k2, v2)); [done|]. apply IH.
Qed.

Lemma find_replace_key key (val : V) (items : list (K * V)) kv :
  List.find (key_is key) items = Some kv ->
  List.find (key_is key)
    ((fun '(k2, v2) => if negb (bool_decide (k2 = key)) then (k2, v2)
                       else (k2, val)) <$> items)
  = Some (key, val).
Proof.
  induction items as [|[k2 v2] items IH]; [done|].
  rewrite fmap_cons. cbn [List.find].
  destruct (decide (k2 = key)) as [->|E2].
  - rewrite bool_decide_eq_true_2 by done. cbn [negb].
    intros _. unfold key_is. cbn [fst].
    by rewrite bool_decide_eq_true_2 by done.
  - rewrite bool_decide_eq_false_2 by done. cbn [negb].
    unfold key_is at 1 3. cbn [fst].
    rewrite !bool_decide_eq_false_2 by done. apply IH.
Qed.

Lemma find_key_is key (items : list (K * V)) kv :
  List.find (key_is key) items = Some kv -> fst kv = key /\ kv ∈ items.
Proof.
  intros Hf. apply find_some in Hf as [Hin Hk].
  unfold key_is in Hk. apply bool_decide_eq_true in Hk.
  split; [done|]. by apply list_elem_of_In.
Qed.

End BucketWrite.

(** * Proofs: the map evolver *)

Section MapProofs.
Context {K V : Type} `{EqDecision K}.
Context (hash : K -> Z).
Context `{EqDecision V}.
Implicit Types (bl : list (bucket K V)) (b : bucket K V) (key k : K)
               (val : V) (e : MapEvolver K V) (m : PMap K V).

Local Abbreviation view := (lookup_in hash).

Lemma get_bucket_ev (ev : Evolver (bucket K V)) bl key :
  ev_wf ev bl -> (0 < length bl)%nat ->
  exists b, bl !! slot hash bl key = Some b
    /\ _get_bucket hash ev key = Ok (Z.of_nat (slot hash bl key), b).
Proof.
  intros Hwf Hlen. pose proof (slot_lt hash bl key Hlen) as Hj.
  destruct (lookup_lt_is_Some_2 bl _ Hj) as [b Hb].
  exists b. split; [done|].
  unfold _get_bucket. cbn [buckets_len buckets_getitem Evolver_buckets].
  rewrite (ev_len ev bl Hwf). unfold py_mod, len.
  destruct (Z.eqb_spec (Z.of_nat (length bl)) 0); [lia|]. rsimpl.
  pose proof (Z.mod_pos_bound (hash key) (Z.of_nat (length bl)) ltac:(lia)).
  replace (hash key mod Z.of_nat (length bl))
    with (Z.of_nat (slot hash bl key)) by (unfold slot, len; lia).
  by rewrite (ev_getitem ev bl _ b Hwf Hb).
Qed.

Lemma get_bucket_pv (v : PVector (bucket K V)) bl key :
  pv_wf v -> _tolist v = Ok bl -> (0 < length bl)%nat ->
  exists b, bl !! slot hash bl key = Some b
    /\ _get_bucket hash v key = Ok (Z.of_nat (slot hash bl key), b).
Proof.
  intros Hwf Hbl Hlen. pose proof (slot_lt hash bl key Hlen) as Hj.
  destruct (lookup_lt_is_Some_2 bl _ Hj) as [b Hb].
  exists b. split; [done|].
  unfold _get_bucket. cbn [buckets_len buckets_getitem PVector_buckets].
  unfold PVector_len. rewrite (count_tolist v bl Hwf Hbl). unfold py_mod, len.
  destruct (Z.eqb_spec (Z.of_nat (length bl)) 0); [lia|]. rsimpl.
  pose proof (Z.mod_pos_bound (hash key) (Z.of_nat (length bl)) ltac:(lia)).
  replace (hash key mod Z.of_nat (length bl))
    with (Z.of_nat (slot hash bl key)) by (unfold slot, len; lia).
  by rewrite (getitem_spec v bl _ b Hwf Hbl Hb).
Qed.

(** Reading a map is reading its list of buckets. *)
Lemma getitem_view m bl key :
  pm_ok hash m bl ->
  PMap_getitem hash m key
  = match view bl key with Some v => Ok v | None => Raise KeyError end.
Proof.
  intros (Hwf & Hbl & Hlen & Hslot).
  destruct (get_bucket_pv (pm_buckets m) bl key Hwf Hbl Hlen) as (b & Hb & Hg).
  unfold PMap_getitem, _getitem. rewrite Hg. rsimpl.
  unfold lookup_in. fold (slot hash bl key). rewrite Hb.
  by destruct (bucket_find b key) as [[k v]|].
Qed.

Lemma evolver_ok m bl : pm_ok hash m bl -> me_ok hash (PMap_evolver m) bl.
Proof.
  intros (Hwf & Hbl & Hok). split; [|done].
  by apply reset_wf.
Qed.

(** [_reallocate] rehashes every pair and starts a clean evolver. *)
Lemma reallocate_ok e bl :
  me_ok hash e bl ->
  exists e',
    _reallocate hash e (2 * Evolver_len (me_buckets_evolver e)) = Ok e'
    /\ me_ok hash e' (groups hash (2 * length bl) (all_items bl))
    /\ MapEvolver_is_dirty e' = false
    /\ me_original_pmap e' = me_original_pmap e
    /\ me_size e' = me_size e.
Proof.
  intros (Hwf & Hex & Hok). pose proof Hok as [Hlen _].
  unfold _reallocate. rewrite (ev_len _ bl Hwf).
  destruct (ev_persistent _ bl Hwf) as (v & -> & Hv & Hl). rsimpl.
  rewrite Hl. rsimpl. fold (all_items bl).
  replace (Z.to_nat (2 * len bl)) with (2 * length bl)%nat by (unfold len; lia).
  replace (2 * len bl) with (Z.of_nat (2 * length bl)) by (unfold len; lia).
  rewrite <- (groups_nil hash).
  rewrite foldM_place_pair by lia. rsimpl. rewrite app_nil_l.
  destruct (pvector_spec (groups hash (2 * length bl) (all_items bl)))
    as (v' & -> & Hv' & Hl').
  rsimpl. eexists. split; [done|]. split; [|done].
  split; [by apply reset_wf|]. split; [done|]. apply groups_ok. lia.
Qed.

(** Storing a bucket through the evolver. *)
Lemma store_bucket e bl key b nb size :
  me_ok hash e bl -> bl !! slot hash bl key = Some b ->
  (forall k', k' <> key ->
     List.find (key_is k') (bucket_items nb)
     = List.find (key_is k') (bucket_items b)) ->
  (forall kv, kv ∈ bucket_items nb -> kv ∈ bucket_items b \/ fst kv = key) ->
  exists ev' bl',
    Evolver_setitem (me_buckets_evolver e) (Z.of_nat (slot hash bl key)) nb
    = Ok ev'
    /\ me_ok hash (mkMapEvolver ev' size (me_original_pmap e)) bl'
    /\ (forall k', view bl' k'
                   = if decide (k' = key)
                     then snd <$> List.find (key_is key) (bucket_items nb)
                     else view bl k')
    /\ length bl' = length bl
    /\ Evolver_is_dirty ev' = true.
Proof.
  intros (Hwf & Hex & Hok) Hb Hother Hkeys.
  pose proof Hok as [Hlen _].
  destruct (ev_setitem _ bl (slot hash bl key) nb Hwf
              (slot_lt hash bl key Hlen)) as (ev' & Hev' & Hwf' & Hd & Hex').
  destruct (write_bucket hash bl key b nb Hok Hb Hother Hkeys) as [Hok' Hview].
  exists ev', (<[slot hash bl key := nb]> bl).
  split; [done|]. split; [|split; [|split]].
  - split; [done|]. split; [|done]. simpl.
    rewrite Hex in Hex'. by destruct (ev_extra_tail ev').
  - done.
  - by rewrite length_insert.
  - done.
Qed.

(** [e[key] = val]: the binding is written, the other keys keep theirs,
    and the evolver is dirty unless [key] held [val] already. *)
Lemma map_setitem e bl key val :
  me_ok hash e bl ->
  exists e' bl',
    MapEvolver_setitem hash e key val = Ok e'
    /\ me_ok hash e' bl'
    /\ (forall k', view bl' k' = if decide (k' = key) then Some val
                                 else view bl k')
    /\ (length bl' = length bl \/ length bl' = (2 * length bl)%nat)
    /\ me_original_pmap e' = me_original_pmap e
    /\ (if decide (view bl key = Some val)
        then e' = e \/ MapEvolver_is_dirty e' = false
        else MapEvolver_is_dirty e' = true).
Proof.
  intros Hok.
  assert (exists e1 bl1,
    (if load_exceeded (Evolver_len (me_buckets_evolver e)) (me_size e)
     then _reallocate hash e (2 * Evolver_len (me_buckets_evolver e))
     else Ok e) = Ok e1
    /\ me_ok hash e1 bl1
    /\ (forall k', view bl1 k' = view bl k')
    /\ (length bl1 = length bl \/ length bl1 = (2 * length bl)%nat)
    /\ me_original_pmap e1 = me_original_pmap e
    /\ (e1 = e \/ MapEvolver_is_dirty e1 = false))
    as (e1 & bl1 & Hstep & Hok1 & Hview1 & Hlen1 & Horig1 & Hclean1).
  { destruct (load_exceeded _ _).
    - destruct (reallocate_ok e bl Hok) as (e1 & He1 & Hok1 & Hd & Ho & _).
      destruct Hok as (_ & _ & Hbok). pose proof Hbok as [Hlen _].
      exists e1, (groups hash (2 * length bl) (all_items bl)).
      split; [done|]. split; [done|]. split.
      + intros k'. apply lookup_in_rehash; [lia|done].
      + split; [right; by rewrite length_groups|]. split; [done|]. by right.
    - exists e, bl. split; [done|]. split; [done|]. split; [done|].
      split; [by left|]. split; [done|by left]. }
  unfold MapEvolver_setitem. rewrite Hstep. rsimpl.
  pose proof Hok1 as (Hwf1 & Hex1 & Hbok1). pose proof Hbok1 as [Hlen1' _].
  destruct (get_bucket_ev _ bl1 key Hwf1 Hlen1') as (b & Hb & ->). rsimpl.
  rewrite <- (Hview1 key).
  pose proof (lookup_in_slot hash bl1 key b Hb) as Hv.
  destruct (truthy b) eqn:Htruthy.
  - rewrite bucket_find_items.
    destruct (List.find (key_is key) (bucket_items b)) as [[k v]|] eqn:Hfind.
    + destruct (find_key_is key _ _ Hfind) as [Hk Hin]. simpl in Hk. subst k.
      simpl in Hv.
      case_bool_decide as Hvv; cbn [negb].
      * subst v. exists e1, bl1. split; [done|]. split; [done|]. split.
        { intros k'. case_decide as Hk; [subst k'; by rewrite Hv|apply Hview1]. }
        split; [done|]. split; [done|].
        rewrite Hv. rewrite decide_True by done.
        destruct Hclean1 as [->|Hc]; [by left|by right].
      * edestruct (store_bucket e1 bl1 key b
                     (Some ((fun '(k2, v2) => if negb (bool_decide (k2 = key))
                                              then (k2, v2) else (k2, val))
                            <$> bucket_items b)) (me_size e1))
          as (ev' & bl' & -> & Hok' & Hview' & Hlen' & Hd); [done|done| | |].
        { intros k' Hk. by apply find_replace. }
        { intros kv Hkv. apply list_elem_of_fmap in Hkv as ([k2 v2] & -> & Hin2).
          destruct (decide (k2 = key)) as [->|Hne].
          - rewrite bool_decide_eq_true_2 by done. by right.
          - rewrite bool_decide_eq_false_2 by done. by left. }
        rsimpl. eexists _, bl'. split; [done|]. split; [done|]. split.
        { intros k'. rewrite Hview'. case_decide; [|apply Hview1].
          cbn [bucket_items]. by erewrite find_replace_key. }
        split; [lia|]. split; [done|].
        rewrite Hv. rewrite decide_False by congruence. done.
    + edestruct (store_bucket e1 bl1 key b (Some ([(key, val)] ++ bucket_items b))
                   (me_size e1 + 1))
        as (ev' & bl' & -> & Hok' & Hview' & Hlen' & Hd); [done|done| | |].
      { intros k' Hk. simpl. unfold key_is at 1. simpl.
        by rewrite bool_decide_eq_false_2 by done. }
      { intros kv Hkv. apply elem_of_cons in Hkv as [->|Hkv]; [by right|by left]. }
      rsimpl. eexists _, bl'. split; [done|]. split; [done|]. split.
      { intros k'. rewrite Hview'. case_decide; [|apply Hview1].
        simpl. unfold key_is at 1. simpl. by rewrite bool_decide_eq_true_2. }
      split; [lia|]. split; [done|].
      rewrite Hv. simpl. by rewrite ?decide_False by done.
  - assert (bucket_items b = [] \/ b = None) as Hempty
      by (destruct b as [[|? ?]|]; simpl in *; auto; done).
    assert (List.find (key_is key) (bucket_items b) = None) as Hfind
      by (destruct b as [[|? ?]|]; simpl in *; done).
    edestruct (store_bucket e1 bl1 key b (Some [(key, val)]) (me_size e1 + 1))
      as (ev' & bl' & -> & Hok' & Hview' & Hlen' & Hd); [done|done| | |].
    { intros k' Hk. simpl. unfold key_is at 1. simpl.
      rewrite bool_decide_eq_false_2 by done.
      by destruct b as [[|? ?]|]. }
    { intros kv Hkv. apply list_elem_of_singleton in Hkv as ->. by right. }
    rsimpl. eexists _, bl'. split; [done|]. split; [done|]. split.
    { intros k'. rewrite Hview'. case_decide; [|apply Hview1].
      simpl. unfold key_is. simpl. by rewrite bool_decide_eq_true_2. }
    split; [lia|]. split; [done|].
    rewrite Hv, Hfind. simpl. by rewrite ?decide_False by done.
Qed.

End MapProofs.

(** * Proofs: the map operations *)

Section MapOpsProofs.
Context {K V : Type} `{EqDecision K}.
Context (hash : K -> Z).
Context `{EqDecision V}.
Implicit Types (bl : list (bucket K V)) (b : bucket K V) (key k : K)
               (val : V) (e : MapEvolver K V) (m : PMap K V).

Local Abbreviation view := (lookup_in hash).

Lemma empty_pmap_ok : pm_ok hash (@_EMPTY_PMAP K V) (replicate 8 None).
Proof.
  split; [|split; [done|]].
  - exists 1%nat, []. repeat split; simpl; try done; try lia.
  - split; [simpl; lia|]. intros i b kv Hi Hkv.
    apply lookup_replicate in Hi as [-> _]. by apply elem_of_nil in Hkv.
Qed.


Lemma bucket_count_ok m bl : pm_ok hash m bl -> bucket_count m = len bl.
Proof. intros (Hwf & Hbl & _). by apply count_tolist. Qed.

(** [persistent] on a map evolver. *)
Lemma map_persistent e bl :
  me_ok hash e bl ->
  exists h e', MapEvolver_persistent e = Ok (h, e') /\
    if MapEvolver_is_dirty e
    then exists v, h = Created (mkPMap (me_size e) v)
                   /\ pm_ok hash (mkPMap (me_size e) v) bl
    else h = Existing (me_original_pmap e).
Proof.
  intros (Hwf & Hex & Hok). unfold MapEvolver_persistent.
  destruct (MapEvolver_is_dirty e).
  - destruct (ev_persistent _ bl Hwf) as (v & -> & Hv & Hl). rsimpl.
    eexists _, _. split; [done|]. exists v. split; [done|]. by split.
  - eexists _, _. split; done.
Qed.

(** [m.set(key, val)] *)
Lemma PMap_set_spec m bl key val :
  pm_ok hash m bl ->
  exists h bl',
    PMap_set hash m key val = Ok h
    /\ pm_ok hash (the h) bl'
    /\ (forall k', view bl' k' = if decide (k' = key) then Some val
                                 else view bl k')
    /\ (length bl' = length bl \/ length bl' = (2 * length bl)%nat)
    /\ (view bl key = Some val -> h = Existing m)
    /\ (view bl key <> Some val -> exists m', h = Created m').
Proof.
  intros Hok. pose proof (evolver_ok hash m bl Hok) as Heok.
  destruct (map_setitem hash _ bl key val Heok)
    as (e' & bl' & He' & Hok' & Hview & Hlen & Horig & Hdirty).
  destruct (map_persistent e' bl' Hok') as (h & e'' & Hp & Hh).
  unfold PMap_set. rewrite He'. rsimpl. rewrite Hp. rsimpl.
  simpl in Horig.
  assert (MapEvolver_is_dirty (PMap_evolver m) = false) as Hclean by done.
  destruct (decide (view bl key = Some val)) as [Hsame|Hdiff].
  - assert (MapEvolver_is_dirty e' = false) as Hc
      by (destruct Hdirty as [->|?]; done).
    rewrite Hc in Hh. subst h. rewrite Horig.
    exists (Existing m), bl. split; [done|]. split; [done|]. split.
    { intros k'. case_decide; [by subst k'|done]. }
    split; [by left|]. split; done.
  - rewrite Hdirty in Hh. destruct Hh as (v & -> & Hpm).
    eexists _, bl'. split; [done|]. split; [done|]. split; [done|].
    split; [done|]. split; [done|]. intros _. by eexists.
Qed.

(** [del e[key]] *)
Lemma map_delitem e bl key :
  me_ok hash e bl ->
  match view bl key with
  | Some _ =>
      exists e' bl',
        MapEvolver_delitem hash e key = Ok e'
        /\ me_ok hash e' bl'
        /\ (forall k', view bl' k' = if decide (k' = key) then None
                                     else view bl k')
        /\ length bl' = length bl
        /\ me_original_pmap e' = me_original_pmap e
        /\ MapEvolver_is_dirty e' = true
  | None => MapEvolver_delitem hash e key = Raise KeyError
  end.
Proof.
  intros Hok. pose proof Hok as (Hwf & Hex & Hbok). pose proof Hbok as [Hlen _].
  destruct (get_bucket_ev hash _ bl key Hwf Hlen) as (b & Hb & Hg).
  pose proof (lookup_in_slot hash bl key b Hb) as Hv.
  unfold MapEvolver_delitem. rewrite Hg. rsimpl.
  set (nb := filter (fun kv => fst kv <> key) (bucket_items b)).
  assert (forall k', k' <> key ->
            List.find (key_is k') nb = List.find (key_is k') (bucket_items b))
    as Hother.
  { intros k' Hk. apply find_filter. intros kv Hf.
    unfold key_is in Hf. apply bool_decide_eq_true in Hf. congruence. }
  assert (List.find (key_is key) nb = None) as Hgone.
  { apply find_none_iff. intros kv Hkv.
    apply list_elem_of_filter in Hkv as [Hne _].
    unfold key_is. by rewrite bool_decide_eq_false_2. }
  assert (forall kv, kv ∈ nb -> kv ∈ bucket_items b) as Hsub
    by (intros kv Hkv; by apply list_elem_of_filter in Hkv as [_ ?]).
  assert (length nb = length (bucket_items b)
          <-> List.find (key_is key) (bucket_items b) = None) as Hlen_iff.
  { subst nb. clear. induction (bucket_items b) as [|[k v] items IH]; [done|].
    rewrite filter_cons. cbn [List.find]. unfold key_is at 1. cbn [fst].
    pose proof (length_filter (fun kv : K * V => fst kv <> key) items) as Hle.
    destruct (decide (k <> key)) as [Hne|Heq].
    - rewrite bool_decide_eq_false_2 by done. simpl. rewrite <- IH. lia.
    - rewrite bool_decide_eq_true_2 by (by destruct (decide (k = key))).
      simpl. split; [lia|done]. }
  pose proof (length_filter (fun kv : K * V => fst kv <> key) (bucket_items b))
    as Hle. fold nb in Hle.
  destruct (List.find (key_is key) (bucket_items b)) as [[k v]|] eqn:Hfind.
  - rewrite Hv. simpl.
    assert (truthy b = true) as ->
      by (destruct b as [[|? ?]|]; simpl in *; done).
    assert (length nb <> length (bucket_items b)) as Hne
      by (intros E; by apply Hlen_iff in E).
    unfold len. destruct (Z.ltb_spec (Z.of_nat (length nb))
                            (Z.of_nat (length (bucket_items b)))); [|lia].
    set (nbk := if negb (bool_decide (length nb = 0%nat)) then _ else _).
    assert (bucket_items nbk = nb) as Enb.
    { subst nbk. case_bool_decide as E; simpl; [|done].
      by destruct nb. }
    edestruct (store_bucket hash e bl key b nbk (me_size e - 1))
      as (ev' & bl' & -> & Hok' & Hview' & Hlen' & Hd); [done|done| | |].
    { intros k' Hk. rewrite Enb. by apply Hother. }
    { intros kv Hkv. rewrite Enb in Hkv. left. by apply Hsub. }
    rsimpl. eexists _, bl'. split; [done|]. split; [done|]. split.
    { intros k'. rewrite Hview', Enb, Hgone. done. }
    split; [done|]. split; done.
  - rewrite Hv. simpl.
    destruct (truthy b); [|done].
    assert (length nb = length (bucket_items b)) as E by (by apply Hlen_iff).
    unfold len. rewrite E.
    by destruct (Z.ltb_spec (Z.of_nat (length (bucket_items b)))
                   (Z.of_nat (length (bucket_items b)))); [lia|].
Qed.

(** [m.remove(key)] *)
Lemma PMap_remove_spec m bl key :
  pm_ok hash m bl ->
  match view bl key with
  | Some _ =>
      exists m' bl',
        PMap_remove hash m key = Ok (Created m')
        /\ pm_ok hash m' bl'
        /\ (forall k', view bl' k' = if decide (k' = key) then None
                                     else view bl k')
        /\ length bl' = length bl
  | None => PMap_remove hash m key = Raise KeyError
  end.
Proof.
  intros Hok. pose proof (evolver_ok hash m bl Hok) as Heok.
  pose proof (map_delitem _ bl key Heok) as Hdel.
  unfold PMap_remove. destruct (view bl key) as [v|].
  - destruct Hdel as (e' & bl' & -> & Hok' & Hview & Hlen & Horig & Hdirty).
    destruct (map_persistent e' bl' Hok') as (h & e'' & Hp & Hh).
    rsimpl. rewrite Hp. rsimpl. rewrite Hdirty in Hh.
    destruct Hh as (v' & -> & Hpm). by eexists _, bl'.
  - by rewrite Hdel.
Qed.

(** [m.discard(key)] *)
Lemma PMap_discard_spec m bl key :
  pm_ok hash m bl ->
  exists h bl',
    PMap_discard hash m key = Ok h /\ pm_ok hash (the h) bl'
    /\ (forall k', view bl' k' = if decide (k' = key) then None
                                 else view bl k')
    /\ length bl' = length bl.
Proof.
  intros Hok. pose proof (PMap_remove_spec m bl key Hok) as Hrem.
  unfold PMap_discard. destruct (view bl key) as [v|] eqn:Hv.
  - destruct Hrem as (m' & bl' & -> & Hok' & Hview & Hlen).
    by exists (Created m'), bl'.
  - rewrite Hrem. exists (Existing m), bl. split; [done|]. split; [done|].
    split; [|done]. intros k'. case_decide; [by subst k'|done].
Qed.

End MapOpsProofs.

(** * Proofs: sequences of map operations *)

Section MapSequences.
Context {K V : Type} `{EqDecision K}.
Context (hash : K -> Z).
Context `{EqDecision V}.
Implicit Types (bl : list (bucket K V)) (b : bucket K V) (key k : K)
               (val : V) (e : MapEvolver K V) (m : PMap K V)
               (kvs : list (K * V)).

Local Abbreviation view := (lookup_in hash).

Lemma last_binding_cons k0 v0 kvs k :
  last_binding ((k0, v0) :: kvs) k
  = match last_binding kvs k with
    | Some v => Some v
    | None => if decide (k = k0) then Some v0 else None
    end.
Proof.
  unfold last_binding. rewrite reverse_cons, find_app.
  destruct (List.find (key_is k) (reverse kvs)) as [[k1 v1]|]; [done|].
  simpl. unfold key_is. simpl.
  case_decide.
  - by rewrite bool_decide_eq_true_2.
  - by rewrite bool_decide_eq_false_2.
Qed.

Lemma set_all_spec kvs : forall m bl,
  pm_ok hash m bl ->
  exists m' bl',
    PMap_set_all hash m kvs = Ok m' /\ pm_ok hash m' bl'
    /\ (forall k, view bl' k = match last_binding kvs k with
                               | Some v => Some v
                               | None => view bl k
                               end)
    /\ exists j : nat, length bl' = (2 ^ j * length bl)%nat.
Proof.
  induction kvs as [|[k0 v0] kvs IH]; intros m bl Hok.
  - exists m, bl. split; [done|]. split; [done|]. split; [done|].
    exists 0%nat. simpl. lia.
  - destruct (PMap_set_spec hash m bl k0 v0 Hok)
      as (h & bl1 & Hset & Hok1 & Hview1 & Hlen1 & _).
    destruct (IH (the h) bl1 Hok1) as (m' & bl' & Hall & Hok' & Hview' & j & Hlen').
    exists m', bl'. split.
    { unfold PMap_set_all in *. rewrite foldM_cons. cbv beta iota.
      rewrite Hset. by rsimpl. }
    split; [done|]. split.
    + intros k. rewrite Hview', last_binding_cons, Hview1.
      destruct (last_binding kvs k); [done|]. by case_decide.
    + destruct Hlen1 as [E|E]; [exists j|exists (S j)]; rewrite Hlen', E;
        [done|]. rewrite Nat.pow_succ_r'. lia.
Qed.

Lemma NoDup_fst_eq kvs k v v' :
  NoDup (fst <$> kvs) -> (k, v) ∈ kvs -> (k, v') ∈ kvs -> v = v'.
Proof.
  induction kvs as [|[k1 v1] kvs IH]; intros Hnd Hv Hv'.
  - by apply elem_of_nil in Hv.
  - rewrite fmap_cons in Hnd. apply NoDup_cons in Hnd as [Hnotin Hnd].
    apply elem_of_cons in Hv as [Hv|Hv]; apply elem_of_cons in Hv' as [Hv'|Hv'].
    + congruence.
    + injection Hv as -> ->. exfalso. apply Hnotin.
      by apply (list_elem_of_fmap_2 fst) in Hv'.
    + injection Hv' as -> ->. exfalso. apply Hnotin.
      by apply (list_elem_of_fmap_2 fst) in Hv.
    + by apply IH.
Qed.

Lemma last_binding_NoDup kvs k v :
  NoDup (fst <$> kvs) -> (k, v) ∈ kvs -> last_binding kvs k = Some v.
Proof.
  intros Hnd Hin. unfold last_binding.
  destruct (List.find (key_is k) (reverse kvs)) as [[k1 v1]|] eqn:Hfind.
  - destruct (find_key_is k _ _ Hfind) as [Hk Hin1]. simpl in Hk. subst k1.
    rewrite elem_of_reverse in Hin1. simpl. f_equal.
    exact (NoDup_fst_eq kvs k v1 v Hnd Hin1 Hin).
  - exfalso. pose proof (proj1 (find_none_iff _ _) Hfind (k, v)) as Hf.
    unfold key_is in Hf. simpl in Hf.
    rewrite bool_decide_eq_true_2 in Hf by done.
    by specialize (Hf ltac:(by apply elem_of_reverse)).
Qed.

(** ** Bucket counts *)

Lemma pow2_ge8_8 : pow2_ge8 8.
Proof. by exists 0%nat. Qed.

Lemma pow2_ge8_double n : pow2_ge8 n -> pow2_ge8 (2 * n).
Proof.
  intros [k ->]. exists (S k).
  rewrite Nat2Z.inj_succ, Z.pow_succ_r by lia. lia.
Qed.

Lemma pow2_ge8_mul n (j : nat) : pow2_ge8 n -> pow2_ge8 (2 ^ Z.of_nat j * n).
Proof.
  intros Hn. induction j as [|j IH].
  - by replace (2 ^ Z.of_nat 0 * n) with n by (simpl; lia).
  - replace (2 ^ Z.of_nat (S j) * n) with (2 * (2 ^ Z.of_nat j * n))
      by (rewrite Nat2Z.inj_succ, Z.pow_succ_r by lia; lia).
    by apply pow2_ge8_double.
Qed.

(** The loop of [update_with] keeps the evolver well-formed. *)
Lemma update_loop (f : V -> V -> V) items : forall e bl,
  me_ok hash e bl ->
  exists e' bl' (j : nat),
    foldM (fun e '(key, value) =>
             present ← MapEvolver_contains hash e key;
             if present : bool then
               old ← MapEvolver_getitem hash e key;
               MapEvolver_setitem hash e key (f old value)
             else MapEvolver_setitem hash e key value) e items = Ok e'
    /\ me_ok hash e' bl'
    /\ length bl' = (2 ^ j * length bl)%nat
    /\ me_original_pmap e' = me_original_pmap e.
Proof.
  induction items as [|[key value] items IH]; intros e bl Hok.
  - exists e, bl, 0%nat. split; [done|]. split; [done|]. simpl. split; [lia|done].
  - pose proof Hok as (Hwf & Hex & Hbok). pose proof Hbok as [Hlen _].
    destruct (get_bucket_ev hash _ bl key Hwf Hlen) as (b & Hb & Hg).
    assert (exists e1 bl1,
      (present ← MapEvolver_contains hash e key;
       if present : bool then
         old ← MapEvolver_getitem hash e key;
         MapEvolver_setitem hash e key (f old value)
       else MapEvolver_setitem hash e key value) = Ok e1
      /\ me_ok hash e1 bl1
      /\ (length bl1 = length bl \/ length bl1 = (2 * length bl)%nat)
      /\ me_original_pmap e1 = me_original_pmap e)
      as (e1 & bl1 & Hstep & Hok1 & Hlen1 & Horig1).
    { unfold MapEvolver_contains, MapEvolver_getitem, _contains, _getitem.
      rewrite Hg. rsimpl.
      destruct (bucket_find b key) as [[k0 v0]|]; rsimpl.
      - destruct (map_setitem hash e bl key (f v0 value) Hok)
          as (e1 & bl1 & -> & Hok1 & _ & Hlen1 & Horig1 & _).
        by exists e1, bl1.
      - destruct (map_setitem hash e bl key value Hok)
          as (e1 & bl1 & -> & Hok1 & _ & Hlen1 & Horig1 & _).
        by exists e1, bl1. }
    destruct (IH e1 bl1 Hok1) as (e' & bl' & j & Hloop & Hok' & Hlen' & Horig').
    rewrite foldM_cons. cbv beta iota. rewrite Hstep. rsimpl.
    destruct Hlen1 as [E|E]; [exists e', bl', j|exists e', bl', (S j)];
      (split; [done|]); (split; [done|]); (split; [|congruence]);
      rewrite Hlen', E; [done|]. rewrite Nat.pow_succ_r'. lia.
Qed.

Lemma reachable_ok m :
  pm_reachable hash m -> exists bl, pm_ok hash m bl /\ pow2_ge8 (len bl).
Proof.
  induction 1 as [|m k v h _ (bl & Hok & Hp) Hset
                  |m k h _ (bl & Hok & Hp) Hrem
                  |m k h _ (bl & Hok & Hp) Hdis
                  |m f maps h _ (bl & Hok & Hp) Hupd].
  - exists (replicate 8 None). split; [apply empty_pmap_ok|]. apply pow2_ge8_8.
  - destruct (PMap_set_spec hash m bl k v Hok)
      as (h' & bl' & Hset' & Hok' & _ & Hlen & _).
    rewrite Hset in Hset'. injection Hset' as <-.
    exists bl'. split; [done|]. unfold len.
    destruct Hlen as [->| ->]; [done|].
    rewrite Nat2Z.inj_mul. by apply pow2_ge8_double.
  - pose proof (PMap_remove_spec hash m bl k Hok) as Hspec.
    destruct (lookup_in hash bl k).
    + destruct Hspec as (m' & bl' & Hrem' & Hok' & _ & Hlen).
      rewrite Hrem in Hrem'. injection Hrem' as ->.
      exists bl'. split; [done|]. unfold len in *. by rewrite Hlen.
    + rewrite Hrem in Hspec. done.
  - destruct (PMap_discard_spec hash m bl k Hok)
      as (h' & bl' & Hdis' & Hok' & _ & Hlen).
    rewrite Hdis in Hdis'. injection Hdis' as <-.
    exists bl'. split; [done|]. unfold len in *. by rewrite Hlen.
  - pose proof (evolver_ok hash m bl Hok) as Heok.
    destruct (update_loop f (concat maps) _ bl Heok)
      as (e' & bl' & j & Hloop & Hok' & Hlen & Horig).
    destruct (map_persistent hash e' bl' Hok') as (h' & e'' & Hp' & Hh).
    unfold PMap_update_with in Hupd. rewrite Hloop in Hupd.
    rewrite ret_bind, Hp' in Hupd. injection Hupd as <-.
    destruct (MapEvolver_is_dirty e').
    + destruct Hh as (v & -> & Hpm). exists bl'. split; [done|].
      unfold len. rewrite Hlen, Nat2Z.inj_mul, Nat2Z.inj_pow.
      by apply pow2_ge8_mul.
    + subst h'. rewrite Horig. by exists bl.
Qed.

Lemma set_all_reachable kvs : forall m m',
  pm_reachable hash m -> PMap_set_all hash m kvs = Ok m' -> pm_reachable hash m'.
Proof.
  induction kvs as [|[k v] kvs IH]; intros m m' Hreach Hall.
  - injection Hall as <-. done.
  - unfold PMap_set_all in Hall. rewrite foldM_cons in Hall. cbv beta iota in Hall.
    destruct (PMap_set hash m k v) as [h|err] eqn:Hset; [|done].
    rewrite fmap_ret, ret_bind in Hall.
    apply (IH (the h)); [|done]. by apply (pm_reach_set hash m k v h).
Qed.

(** Writes of new, distinct keys through one evolver: every write leaves
    the evolver dirty, and [persistent] builds the map of all of them. *)
Lemma evolver_loop_fresh kvs : forall e bl,
  me_ok hash e bl -> NoDup (fst <$> kvs) ->
  (forall kv, kv ∈ kvs -> view bl (fst kv) = None) ->
  exists e' bl',
    foldM (fun e '(k, v) => MapEvolver_setitem hash e k v) e kvs = Ok e'
    /\ me_ok hash e' bl'
    /\ (forall k, view bl' k = match last_binding kvs k with
                               | Some v => Some v
                               | None => view bl k
                               end)
    /\ (kvs <> [] -> MapEvolver_is_dirty e' = true)
    /\ (kvs = [] -> e' = e).
Proof.
  induction kvs as [|[k0 v0] kvs IH]; intros e bl Hok Hnd Hnew.
  - by exists e, bl.
  - rewrite fmap_cons in Hnd. apply NoDup_cons in Hnd as [Hnotin Hnd].
    destruct (map_setitem hash e bl k0 v0 Hok)
      as (e1 & bl1 & Hset & Hok1 & Hview1 & _ & _ & Hdirty1).
    pose proof (Hnew (k0, v0) ltac:(by left)) as Hk0. cbn [fst] in Hk0.
    rewrite Hk0 in Hdirty1. rewrite decide_False in Hdirty1 by done.
    assert (forall kv, kv ∈ kvs -> view bl1 (fst kv) = None) as Hnew1.
    { intros kv Hin. rewrite Hview1.
      destruct (decide (fst kv = k0)) as [Hk|Hk].
      - exfalso. apply Hnotin. cbn [fst]. rewrite <- Hk.
        by apply (list_elem_of_fmap_2 fst).
      - apply Hnew. by right. }
    destruct (IH e1 bl1 Hok1 Hnd Hnew1) as (e' & bl' & Hloop & Hok' & Hview' & Hd' & Hn').
    exists e', bl'. split.
    { rewrite foldM_cons. cbv beta iota. rewrite Hset. by rsimpl. }
    split; [done|]. split.
    + intros k. rewrite Hview', last_binding_cons, Hview1.
      destruct (last_binding kvs k); [done|]. by destruct (decide (k = k0)).
    + split; [|done]. intros _. destruct kvs as [|kv kvs'].
      * by rewrite (Hn' eq_refl).
      * by apply Hd'.
Qed.

(** For new, distinct keys the evolver and the direct calls agree. *)
Lemma evolver_set_all_fresh m bl kvs :
  pm_ok hash m bl -> NoDup (fst <$> kvs) ->
  (forall kv, kv ∈ kvs -> view bl (fst kv) = None) ->
  exists h bl1 m2 bl2,
    MapEvolver_set_all hash m kvs = Ok h /\ pm_ok hash (the h) bl1
    /\ PMap_set_all hash m kvs = Ok m2 /\ pm_ok hash m2 bl2
    /\ forall k, view bl1 k = view bl2 k.
Proof.
  intros Hok Hnd Hnew.
  destruct (evolver_loop_fresh kvs _ bl (evolver_ok hash m bl Hok) Hnd Hnew)
    as (e' & bl1 & Hloop & Hok1 & Hview1 & Hd & Hn).
  destruct (set_all_spec kvs m bl Hok) as (m2 & bl2 & Hall & Hok2 & Hview2 & _).
  destruct (map_persistent hash e' bl1 Hok1) as (h & e'' & Hp & Hh).
  unfold MapEvolver_set_all. rewrite Hloop. rsimpl. rewrite Hp. rsimpl.
  destruct kvs as [|kv kvs'].
  - rewrite (Hn eq_refl) in Hh. change (h = Existing m) in Hh. subst h.
    exists (Existing m), bl, m2, bl2. split; [done|]. split; [done|].
    split; [done|]. split; [done|]. intros k. by rewrite Hview2.
  - rewrite (Hd ltac:(done)) in Hh. destruct Hh as (v & -> & Hpm).
    eexists _, bl1, m2, bl2. split; [done|]. split; [exact Hpm|].
    split; [done|]. split; [done|]. intros k. by rewrite Hview1, Hview2.
Qed.

End MapSequences.

(** * Proofs: the deque *)

Section DequeProofs.
Context {A : Type}.
Implicit Types (p s : plist A) (d : PDeque A).

Lemma plist_reverse_loop_iter s p :
  plist_iter (plist_reverse_loop s p) = rev (plist_iter p) ++ plist_iter s.
Proof.
  revert s. induction p as [|x r IH]; intros s; [done|].
  simpl. rewrite IH. simpl. by rewrite <- app_assoc.
Qed.

Lemma plist_reverse_iter p : plist_iter (plist_reverse p) = rev (plist_iter p).
Proof.
  unfold plist_reverse. rewrite plist_reverse_loop_iter. by rewrite app_nil_r.
Qed.

Lemma plist_bool_iter p : plist_bool p = negb (bool_decide (plist_iter p = [])).
Proof. by destruct p. Qed.

Lemma plist_rest_iter p : plist_iter (plist_rest p) = drop 1 (plist_iter p).
Proof. destruct p; [done|]. simpl. by rewrite drop_0. Qed.

Lemma plist_of_iter (xs : list A) (r : bool) :
  plist_iter (plist_of xs r) = if r then rev xs else xs.
Proof.
  assert (forall (ys : list A) acc, plist_iter (fold_left plist_cons ys acc)
                         = rev ys ++ plist_iter acc) as Hfold.
  { induction ys as [|y ys IH]; intros acc; [done|].
    simpl. rewrite IH. simpl. by rewrite <- app_assoc. }
  unfold plist_of. rewrite Hfold. simpl. rewrite app_nil_r.
  destruct r; [done|]. apply rev_involutive.
Qed.

Lemma pop_loop_S (n : nat) p s :
  _pop_lists_loop (S n) p s
  = if plist_bool p || plist_bool s then
      if plist_bool (plist_rest p) then _pop_lists_loop n (plist_rest p) s
      else if plist_bool p then _pop_lists_loop n (plist_reverse s) _EmptyPList
      else _pop_lists_loop n (plist_rest (plist_reverse s)) _EmptyPList
    else (p, s).
Proof. reflexivity. Qed.

Lemma pop_lists_loop_order (n : nat) : forall p s,
  pop_order (_pop_lists_loop n p s).1 (_pop_lists_loop n p s).2
  = drop n (pop_order p s).
Proof.
  induction n as [|n IH]; intros p s; [done|].
  rewrite pop_loop_S.
  destruct p as [|x [|x2 r]]; cbn [plist_bool plist_rest orb].
  - destruct s as [|y t]; [done|].
    cbn [plist_bool]. rewrite IH. unfold pop_order.
    rewrite plist_rest_iter, plist_reverse_iter. cbn [plist_iter rev].
    rewrite !app_nil_r, app_nil_l. by rewrite drop_drop.
  - rewrite IH. unfold pop_order.
    rewrite plist_reverse_iter. cbn [plist_iter rev]. by rewrite app_nil_r.
  - rewrite IH. done.
Qed.

Lemma length_pop_order p s :
  Z.of_nat (length (pop_order p s)) = plist_len p + plist_len s.
Proof.
  unfold pop_order, plist_len, len. rewrite length_app, length_rev. lia.
Qed.

Lemma pop_lists_len p s (count : Z) :
  let r := _pop_lists p s count in
  plist_len r.1 + plist_len r.2
  = Z.max (plist_len p + plist_len s - Z.max count 0) 0.
Proof.
  intros r. subst r. unfold _pop_lists.
  rewrite <- !length_pop_order, pop_lists_loop_order, length_drop. lia.
Qed.

Lemma plist_of_len (xs : list A) (r : bool) : plist_len (plist_of xs r) = len xs.
Proof.
  unfold plist_len, len. rewrite plist_of_iter. destruct r; [|done].
  by rewrite length_rev.
Qed.

(** What [pdeque] builds is well-formed. *)
Lemma pdeque_wf (xs : list A) maxlen d : pdeque xs maxlen = Ok d -> dq_wf d.
Proof.
  unfold pdeque.
  set (t := match maxlen with
            | Some n => list_slice xs (- n) (len xs)
            | None => xs
            end).
  intros Hd.
  assert (d = mkPDeque (plist_of (list_slice t 0 (len t / 2)) false)
                       (plist_of (list_slice t (len t / 2) (len t)) true)
                       (len t) maxlen
          /\ match maxlen with Some n => 0 <= n | None => True end) as [-> Hm].
  { unfold PDeque_new in Hd. destruct maxlen as [n|]; [|by injection Hd as <-].
    destruct (Z.ltb_spec n 0); [done|]. by injection Hd as <-. }
  split; [|done]. cbn [_length _left_list _right_list].
  rewrite !plist_of_len.
  assert (len t / 2 = Z.of_nat (length t / 2)) as ->
    by (unfold len; by rewrite Nat2Z.inj_div).
  change 0 with (Z.of_nat 0). unfold len at 4. rewrite !list_slice_nat.
  unfold len. rewrite !length_take, !length_drop.
  pose proof (Nat.Div0.div_le_upper_bound (length t) 2 (length t)). lia.
Qed.

Lemma PDeque_new_ok (l r : plist A) len maxlen :
  match maxlen with Some n => 0 <= n | None => True end ->
  PDeque_new l r len maxlen = Ok (mkPDeque l r len maxlen).
Proof.
  intros Hm. unfold PDeque_new. destruct maxlen as [n|]; [|done].
  by destruct (Z.ltb_spec n 0); [lia|].
Qed.

Lemma iter_as_pop_order_left d :
  PDeque_iter d = pop_order (_left_list d) (_right_list d).
Proof. unfold PDeque_iter, pop_order. by rewrite plist_reverse_iter. Qed.

Lemma iter_as_pop_order_right d :
  PDeque_iter d = rev (pop_order (_right_list d) (_left_list d)).
Proof.
  unfold PDeque_iter, pop_order.
  by rewrite plist_reverse_iter, rev_app_distr, rev_involutive.
Qed.

Lemma is_empty_iter d : PDeque_is_empty d = bool_decide (PDeque_iter d = []).
Proof.
  unfold PDeque_is_empty, PDeque_iter.
  destruct d as [[|x l] [|y r] n m]; simpl; try done.
  - rewrite plist_reverse_iter. simpl.
    case_bool_decide as E; [|done]. by destruct (rev (plist_iter r)).
Qed.

(** [popleft(count)] for [count >= 0] drops [count] elements on the left. *)
Lemma pop_left_spec d (count : Z) :
  dq_wf d -> 0 <= count ->
  exists d', PDeque_pop_left d count = Ok d' /\ dq_wf d'
    /\ PDeque_len d' = Z.max (PDeque_len d - count) 0
    /\ PDeque_iter d' = drop (Z.to_nat count) (PDeque_iter d).
Proof.
  intros [Hlen Hmax] Hc. unfold PDeque_pop_left.
  pose proof (pop_lists_len (_left_list d) (_right_list d) count) as Hl.
  pose proof (pop_lists_loop_order (Z.to_nat count) (_left_list d) (_right_list d))
    as Ho.
  unfold _pop_lists in *.
  destruct (_pop_lists_loop (Z.to_nat count) (_left_list d) (_right_list d))
    as [l' r'].
  simpl in Hl, Ho. rewrite PDeque_new_ok by done.
  eexists. split; [done|]. split; [|split].
  - split; simpl; [lia|done].
  - done.
  - by rewrite !iter_as_pop_order_left.
Qed.

(** [pop(count)] for [count >= 0] drops [count] elements on the right. *)
Lemma pop_right_spec d (count : Z) :
  dq_wf d -> 0 <= count ->
  exists d', PDeque_pop_right d count = Ok d' /\ dq_wf d'
    /\ PDeque_len d' = Z.max (PDeque_len d - count) 0
    /\ PDeque_iter d'
       = take (Z.to_nat (PDeque_len d - count)) (PDeque_iter d).
Proof.
  intros [Hlen Hmax] Hc. unfold PDeque_pop_right.
  pose proof (pop_lists_len (_right_list d) (_left_list d) count) as Hl.
  pose proof (pop_lists_loop_order (Z.to_nat count) (_right_list d) (_left_list d))
    as Ho.
  unfold _pop_lists in *.
  destruct (_pop_lists_loop (Z.to_nat count) (_right_list d) (_left_list d))
    as [r' l'].
  simpl in Hl, Ho. rewrite PDeque_new_ok by done.
  eexists. split; [done|]. split; [|split].
  - split; simpl; [lia|done].
  - done.
  - rewrite !iter_as_pop_order_right. cbn [_left_list _right_list].
    rewrite Ho. unfold PDeque_len. rewrite Hlen.
    pose proof (length_pop_order (_right_list d) (_left_list d)) as HL.
    set (xs := pop_order (_right_list d) (_left_list d)) in *.
    replace (Z.to_nat (plist_len (_left_list d) + plist_len (_right_list d) - count))
      with (length xs - Z.to_nat count)%nat by lia.
    rewrite firstn_rev. f_equal.
    destruct (decide (Z.to_nat count <= length xs)%nat).
    + f_equal. lia.
    + by rewrite !drop_ge by lia.
Qed.

Lemma pop_neg d (count : Z) :
  0 <= count -> PDeque_pop d (- count) = PDeque_popleft d count.
Proof.
  intros Hc. unfold PDeque_pop, PDeque_popleft.
  destruct (Z.ltb_spec (- count) 0) as [Hn|Hn].
  - destruct (Z.ltb_spec (- - count) 0); [lia|].
    destruct (Z.ltb_spec count 0); [lia|]. by rewrite Z.opp_involutive.
  - assert (count = 0) as -> by lia. simpl.
    unfold PDeque_pop_right, PDeque_pop_left. done.
Qed.

Lemma popleft_neg d (count : Z) :
  0 <= count -> PDeque_popleft d (- count) = PDeque_pop d count.
Proof.
  intros Hc. unfold PDeque_pop, PDeque_popleft.
  destruct (Z.ltb_spec (- count) 0) as [Hn|Hn].
  - destruct (Z.ltb_spec (- - count) 0); [lia|].
    destruct (Z.ltb_spec count 0); [lia|]. by rewrite Z.opp_involutive.
  - assert (count = 0) as -> by lia. simpl.
    unfold PDeque_pop_right, PDeque_pop_left. done.
Qed.

End DequeProofs.

(** * Proofs: comparisons *)

Section ComparisonProofs.
Context {A O : Type}.

Lemma comparator_vectors (f : nat * PVector A -> nat * PVector A -> result bool)
    i v j w b :
  f (i, v) (j, w) = Ok b ->
  @_comparator A O f (VectorObject i v) (VectorObject j w) = Ok (PyBool b).
Proof. intros Hf. unfold _comparator. by rewrite Hf. Qed.

Lemma on_lists_Ok (op : list A -> list A -> bool) i v j w :
  pv_wf v -> pv_wf w -> exists b, on_lists op (i, v) (j, w) = Ok b.
Proof.
  intros Hv Hw. destruct (wf_tolist v Hv) as (xs & Hxs & _).
  destruct (wf_tolist w Hw) as (ys & Hys & _). unfold on_lists. cbn [snd].
  rewrite Hxs, Hys. rsimpl. by eexists.
Qed.

End ComparisonProofs.

(** * Proofs: native dictionaries and the map constructor *)

Section NativeProofs.
Context {K : Type} `{EqDecision K}.

Lemma dict_update_fresh {T} (other : list (K * T)) : forall d,
  NoDup (fst <$> d ++ other) -> dict_update d other = d ++ other.
Proof.
  unfold dict_update.
  induction other as [|kv other IH]; intros d Hnd; [by rewrite app_nil_r|].
  cbn [fold_left]. unfold dict_setitem at 2.
  rewrite bool_decide_eq_false_2.
  - rewrite IH; rewrite <- app_assoc; done.
  - rewrite fmap_app, fmap_cons in Hnd. apply NoDup_app in Hnd as (_ & Hd & _).
    intros Hin. apply (Hd _ Hin). by left.
Qed.

Lemma dict_of_NoDup {T} (pairs : list (K * T)) :
  NoDup (fst <$> pairs) -> dict_of pairs = pairs.
Proof. intros Hnd. unfold dict_of. by rewrite dict_update_fresh. Qed.

Lemma set_of_fresh (elements : list K) : forall acc,
  NoDup (acc ++ elements) ->
  fold_left (fun acc k => if bool_decide (k ∈ acc) then acc else acc ++ [k])
            elements acc = acc ++ elements.
Proof.
  induction elements as [|k elements IH]; intros acc Hnd; [by rewrite app_nil_r|].
  cbn [fold_left]. rewrite bool_decide_eq_false_2.
  - rewrite IH; rewrite <- app_assoc; done.
  - apply NoDup_app in Hnd as (_ & Hd & _). intros Hin. apply (Hd _ Hin). by left.
Qed.

Lemma set_of_NoDup (elements : list K) : NoDup elements -> set_of elements = elements.
Proof. intros Hnd. unfold set_of. by rewrite set_of_fresh. Qed.

(** Under distinct keys a lookup finds the pair that is there. *)
Lemma dict_get_NoDup {T} (d : list (K * T)) k v :
  NoDup (fst <$> d) -> (k, v) ∈ d -> dict_get d k = Some v.
Proof.
  intros Hnd Hin. unfold dict_get.
  destruct (List.find (fun kv => bool_decide (fst kv = k)) d) as [[k1 v1]|] eqn:Hf.
  - destruct (find_key_is k _ _ Hf) as [Hk Hin1]. cbn in Hk. subst k1.
    cbn. f_equal. exact (NoDup_fst_eq d k v1 v Hnd Hin1 Hin).
  - exfalso. pose proof (proj1 (find_none_iff _ _) Hf (k, v) Hin) as Hn.
    cbn in Hn. by rewrite bool_decide_eq_true_2 in Hn.
Qed.

Lemma dict_get_Some {T} (d : list (K * T)) k v :
  dict_get d k = Some v -> (k, v) ∈ d.
Proof.
  unfold dict_get. intros Hg.
  destruct (List.find (fun kv => bool_decide (fst kv = k)) d) as [[k1 v1]|] eqn:Hf;
    [|done].
  destruct (find_key_is k _ _ Hf) as [Hk Hin1]. cbn in Hk, Hg. congruence.
Qed.

Lemma dict_get_perm {T} (d d' : list (K * T)) k :
  d ≡ₚ d' -> NoDup (fst <$> d) -> dict_get d k = dict_get d' k.
Proof.
  intros Hp Hnd.
  assert (NoDup (fst <$> d')) as Hnd' by by rewrite <- Hp.
  destruct (dict_get d k) as [v|] eqn:Hg.
  - apply dict_get_Some in Hg. rewrite Hp in Hg. symmetry.
    by apply dict_get_NoDup.
  - destruct (dict_get d' k) as [v'|] eqn:Hg'; [|done].
    apply dict_get_Some in Hg'. rewrite <- Hp in Hg'.
    rewrite (dict_get_NoDup d k v' Hnd Hg') in Hg. done.
Qed.

(** ** The slots partition the pairs *)

Lemma filter_none {T} (P : T -> Prop) `{forall x, Decision (P x)} (l : list T) :
  (forall x, ~ P x) -> filter P l = [].
Proof.
  intros Hn. induction l as [|x l IH]; [done|].
  rewrite filter_cons. by destruct (decide (P x)) as [HP|_]; [destruct (Hn x)|].
Qed.

Lemma filter_all {T} (P : T -> Prop) `{forall x, Decision (P x)} (l : list T) :
  (forall x, P x) -> filter P l = l.
Proof.
  intros Hn. induction l as [|x l IH]; [done|].
  rewrite filter_cons. destruct (decide (P x)) as [_|HP]; [by rewrite IH|].
  by destruct HP.
Qed.

Lemma filter_split {T} (P Q : T -> Prop) `{forall x, Decision (P x)}
    `{forall x, Decision (Q x)} (l : list T) :
  (forall x, P x -> Q x -> False) ->
  filter P l ++ filter Q l ≡ₚ filter (fun x => P x \/ Q x) l.
Proof.
  intros Hdisj. induction l as [|x l IH]; [done|].
  rewrite !filter_cons.
  destruct (decide (P x)) as [HP|HP]; destruct (decide (Q x)) as [HQ|HQ].
  - destruct (Hdisj x HP HQ).
  - rewrite decide_True by by left. cbn. by rewrite IH.
  - rewrite decide_True by by right. rewrite <- Permutation_middle. by rewrite IH.
  - rewrite decide_False by by intros [?|?]. done.
Qed.

Lemma concat_slots {T} (f : T -> nat) (ps : list T) (n : nat) : forall lo : nat,
  concat ((fun j => filter (fun x => f x = j) ps) <$> seq lo n)
  ≡ₚ filter (fun x => (lo <= f x < lo + n)%nat) ps.
Proof.
  induction n as [|n IH]; intros lo.
  - cbn. rewrite filter_none; [done|]. intros x. lia.
  - cbn [seq fmap list_fmap concat]. rewrite IH.
    rewrite filter_split by (intros x; lia).
    erewrite list_filter_iff; [done|]. intros x. cbn. lia.
Qed.

End NativeProofs.

Section PMapConstructor.
Context {K V : Type} `{EqDecision K}.
Context (hash : K -> Z).
Implicit Types (bl : list (bucket K V)) (items : list (K * V)).

Lemma all_items_groups (n : nat) items :
  (0 < n)%nat -> all_items (groups hash n items) ≡ₚ items.
Proof.
  intros Hn. rewrite all_items_concat. unfold groups.
  rewrite <- list_fmap_compose.
  rewrite (list_fmap_ext _
             (fun j => filter (fun kv => Z.to_nat (hash (fst kv) mod Z.of_nat n) = j)
                              items)).
  2: { intros i j _. cbn. apply items_group. }
  rewrite (concat_slots (fun kv => Z.to_nat (hash (fst kv) mod Z.of_nat n))).
  apply reflexive_eq, filter_all. intros kv.
  pose proof (Z.mod_pos_bound (hash (fst kv)) (Z.of_nat n) ltac:(lia)). lia.
Qed.

Lemma iteritems_ok (m : PMap K V) bl :
  pm_ok hash m bl -> PMap_iteritems m = Ok (all_items bl).
Proof. intros (_ & Hbl & _). unfold PMap_iteritems. by rewrite Hbl. Qed.

(** [pmap(initial, pre_size)] holds the items of [initial]. *)
Lemma pmap_spec items pre_size :
  0 <= pre_size ->
  exists m bl, pmap hash items pre_size = Ok m /\ pm_ok hash m bl
               /\ all_items bl ≡ₚ items.
Proof.
  intros Hpre. destruct items as [|kv items'] eqn:Hitems.
  - exists _EMPTY_PMAP, (replicate 8 None). split; [done|].
    split; [apply empty_pmap_ok|done].
  - rewrite <- Hitems. assert (0 < len items) as Hlen
      by (rewrite Hitems; unfold len; rewrite length_cons; lia).
    assert (pmap hash items pre_size = _turbo_mapping hash items pre_size) as ->
      by by rewrite Hitems.
    unfold _turbo_mapping.
    set (size := if negb (pre_size =? 0) then pre_size
                 else if negb (2 * len items =? 0) then 2 * len items else 8).
    assert (0 < size) as Hsize.
    { unfold size. destruct (Z.eqb_spec pre_size 0); cbn; [|lia].
      destruct (Z.eqb_spec (2 * len items) 0); cbn; lia. }
    set (n := Z.to_nat size).
    rewrite <- (groups_nil hash n).
    replace size with (Z.of_nat n) by lia.
    rewrite (foldM_place_pair hash n items []) by lia. rsimpl. cbn [app].
    destruct (pvector_spec (groups hash n items)) as (v & -> & Hwf & Hl). rsimpl.
    eexists _, (groups hash n items). split; [done|]. split.
    + split; [done|]. split; [done|]. apply groups_ok. lia.
    + apply all_items_groups. lia.
Qed.

End PMapConstructor.

(** * Proofs: [freeze] and [thaw] *)

Section MapRProofs.
Context {S T : Type}.

Lemma mapR_Forall2 (f : S -> result T) (xs : list S) :
  (forall x, x ∈ xs -> exists y, f x = Ok y) ->
  exists ys, mapR f xs = Ok ys /\ Forall2 (fun x y => f x = Ok y) xs ys.
Proof.
  induction xs as [|x xs IH]; intros Hall.
  - exists []. split; [done|constructor].
  - destruct (Hall x ltac:(by left)) as [y Hy].
    destruct IH as (ys & Hm & HF); [intros x' Hx'; apply Hall; by right|].
    exists (y :: ys). split; [|by constructor].
    rewrite mapR_cons, Hy. rsimpl. rewrite Hm. by rsimpl.
Qed.

Lemma Forall2_elem_l {X Y} (R : X -> Y -> Prop) xs ys x :
  Forall2 R xs ys -> x ∈ xs -> exists y, y ∈ ys /\ R x y.
Proof.
  induction 1 as [|x0 y0 xs ys HR _ IH]; intros Hin.
  - by apply elem_of_nil in Hin.
  - apply elem_of_cons in Hin as [->|Hin].
    + exists y0. split; [by left|done].
    + destruct (IH Hin) as (y & Hy & HRy). exists y. split; [by right|done].
Qed.

Lemma Forall2_elem_r {X Y} (R : X -> Y -> Prop) xs ys y :
  Forall2 R xs ys -> y ∈ ys -> exists x, x ∈ xs /\ R x y.
Proof.
  induction 1 as [|x0 y0 xs ys HR _ IH]; intros Hin.
  - by apply elem_of_nil in Hin.
  - apply elem_of_cons in Hin as [->|Hin].
    + exists x0. split; [by left|done].
    + destruct (IH Hin) as (x & Hx & HRx). exists x. split; [by right|done].
Qed.

End MapRProofs.

Section FreezeProofs.
Context {K A : Type} `{EqDecision K} `{EqDecision A}.
Context (hash : K -> Z).
Local Abbreviation obj := (pyobj K A).
Implicit Types (x y z : obj) (xs ys zs : list obj) (items : list (K * obj))
               (f g : obj -> result obj) (kv : K * obj).

Lemma on_value_Ok f kv (kv' : K * obj) :
  on_value f kv = Ok kv' -> fst kv' = fst kv /\ f (snd kv) = Ok (snd kv').
Proof.
  destruct kv as [k v]. unfold on_value. cbn [fst snd].
  destruct (f v) as [v'|e]; [|done].
  rsimpl. intros Hk. injection Hk as <-. by split.
Qed.

Lemma on_value_fst f (d d' : list (K * obj)) :
  Forall2 (fun kv kv' => on_value f kv = Ok kv') d d' -> fst <$> d' = fst <$> d.
Proof.
  induction 1 as [|kv kv' d d' Hkv _ IH]; [done|].
  rewrite !fmap_cons, IH. f_equal. by apply on_value_Ok in Hkv as [-> _].
Qed.

Lemma py_eq_lists zs xs :
  Forall2 (fun z x => py_eq z x = true) zs xs -> list_eq_py py_eq zs xs = true.
Proof.
  induction 1 as [|z x zs xs Hzx _ IH]; [done|].
  cbn [list_eq_py]. by rewrite Hzx, IH.
Qed.

Lemma dict_eq_items (d1 d2 : list (K * obj)) :
  length d1 = length d2 ->
  (forall kv, kv ∈ d1 ->
     exists v, dict_get d2 (fst kv) = Some v /\ py_eq (snd kv) v = true) ->
  dict_eq_py py_eq d1 d2 = true.
Proof.
  intros Hlen Hall. unfold dict_eq_py. rewrite Hlen, Nat.eqb_refl. cbn [andb].
  apply forallb_forall. intros kv Hin. apply list_elem_of_In in Hin.
  destruct (Hall kv Hin) as (v & -> & Hv). done.
Qed.

Lemma set_eq_perm (s1 s2 : list K) : s1 ≡ₚ s2 -> set_eq_py s1 s2 = true.
Proof.
  intros Hp. unfold set_eq_py. rewrite (Permutation_length Hp), Nat.eqb_refl.
  cbn [andb]. apply forallb_forall. intros k Hin. apply list_elem_of_In in Hin.
  apply bool_decide_eq_true. by rewrite <- Hp.
Qed.

Lemma native_elem n xs x : forallb (native n) xs = true -> x ∈ xs -> native n x = true.
Proof.
  intros Hall Hin. apply list_elem_of_In in Hin.
  by apply (proj1 (forallb_forall _ _) Hall).
Qed.

Lemma native_value n items kv :
  forallb (fun kv => native n (snd kv)) items = true -> kv ∈ items ->
  native n (snd kv) = true.
Proof.
  intros Hall Hin. apply list_elem_of_In in Hin.
  by apply (proj1 (forallb_forall _ _) Hall).
Qed.

Lemma keys_of_elements (elements : list K) :
  fst <$> ((fun k => (k, true)) <$> elements) = elements.
Proof. rewrite <- list_fmap_compose. apply list_fmap_id. Qed.

Lemma pset_unfold (elements : list K) pre_size :
  pset hash elements pre_size
  = mkPSet <$> pmap hash (dict_of ((fun k => (k, true)) <$> elements)) pre_size.
Proof. by destruct elements. Qed.

Lemma round_trip_seq limit xs :
  (forall x, x ∈ xs -> round_trips hash limit x) ->
  exists ys zs, mapR (freeze hash limit) xs = Ok ys
                /\ mapR (thaw limit) ys = Ok zs
                /\ Forall2 (fun z x => py_eq z x = true) zs xs.
Proof.
  induction xs as [|x xs IH]; intros Hall.
  - exists [], []. split; [done|]. split; [done|constructor].
  - destruct (Hall x ltac:(by left)) as (y & z & Hy & Hz & Hzx).
    destruct IH as (ys & zs & Hys & Hzs & HF); [intros x' Hx'; apply Hall; by right|].
    exists (y :: ys), (z :: zs). rewrite !mapR_cons, Hy, Hz. rsimpl.
    rewrite Hys, Hzs. rsimpl. split; [done|]. split; [done|]. by constructor.
Qed.

Lemma round_trip_dict limit items :
  NoDup (fst <$> items) ->
  (forall kv, kv ∈ items -> round_trips hash limit (snd kv)) ->
  round_trips hash (S limit) (PyDict items).
Proof.
  intros Hnd Hall.
  destruct (mapR_Forall2 (on_value (freeze hash limit)) items) as (ys & Hf & HFf).
  { intros [k v] Hin. destruct (Hall _ Hin) as (y & z & Hy & _). cbn in Hy.
    exists (k, y). unfold on_value. rewrite Hy. by rsimpl. }
  pose proof (on_value_fst _ _ _ HFf) as Hkeys.
  destruct (pmap_spec hash ys 0 ltac:(lia)) as (m & bl & Hm & Hok & Hperm).
  assert (forall ky, ky ∈ all_items bl ->
            exists kv z, kv ∈ items /\ fst ky = fst kv
                         /\ thaw limit (snd ky) = Ok z /\ py_eq z (snd kv) = true)
    as Hback.
  { intros ky Hin. rewrite Hperm in Hin.
    destruct (Forall2_elem_r _ _ _ _ HFf Hin) as (kv & Hin0 & Hkv).
    apply on_value_Ok in Hkv as [Hk Hy].
    destruct (Hall _ Hin0) as (y' & z & Hy' & Hz & Hzx).
    rewrite Hy in Hy'. injection Hy' as <-. by exists kv, z. }
  destruct (mapR_Forall2 (on_value (thaw limit)) (all_items bl)) as (zs & Ht & HFt).
  { intros [k y] Hin. destruct (Hback _ Hin) as (kv & z & _ & _ & Hz & _).
    cbn in Hz. exists (k, z). unfold on_value. rewrite Hz. by rsimpl. }
  pose proof (on_value_fst _ _ _ HFt) as Hkeys'.
  assert (NoDup (fst <$> zs)) as Hnd'.
  { by rewrite Hkeys', Hperm, Hkeys. }
  exists (PyPMap m), (PyDict zs). cbn [freeze thaw]. rewrite Hf. rsimpl.
  rewrite dict_of_NoDup by by rewrite Hkeys. rewrite Hm. rsimpl.
  split; [done|]. rewrite (iteritems_ok hash m bl Hok). rsimpl. rewrite Ht. rsimpl.
  rewrite dict_of_NoDup by done. split; [done|].
  cbn [py_eq]. apply dict_eq_items.
  - rewrite <- (Forall2_length _ _ _ HFt), (Permutation_length Hperm).
    symmetry. by eapply Forall2_length.
  - intros kz Hin.
    destruct (Forall2_elem_r _ _ _ _ HFt Hin) as (ky & Hin1 & Hkz).
    apply on_value_Ok in Hkz as [Hk Hz].
    destruct (Hback _ Hin1) as ([k v] & z & Hin0 & Hk0 & Hz' & Hzx).
    rewrite Hz in Hz'. injection Hz' as <-.
    exists v. split; [|done]. apply dict_get_NoDup; [done|].
    rewrite Hk, Hk0. done.
Qed.

Lemma round_trip_set limit (elements : list K) :
  NoDup elements -> round_trips hash (S limit) (PySet elements : obj).
Proof.
  intros Hnd. unfold round_trips. cbn [freeze]. rewrite pset_unfold.
  rewrite dict_of_NoDup by by rewrite keys_of_elements.
  destruct (pmap_spec hash ((fun k => (k, true)) <$> elements) 8 ltac:(lia))
    as (m & bl & -> & Hok & Hperm). rsimpl.
  eexists _, _. split; [done|]. cbn [thaw]. unfold PSet_iter. cbn [_map].
  rewrite (iteritems_ok hash m bl Hok). rsimpl.
  assert (fst <$> all_items bl ≡ₚ elements) as Hp
    by by rewrite Hperm, keys_of_elements.
  rewrite set_of_NoDup by by rewrite Hp.
  split; [done|]. cbn [py_eq]. by apply set_eq_perm.
Qed.

(** [thaw] undoes [freeze] on native values. *)
Lemma round_trip limit : forall n x,
  native n x = true -> (n < limit)%nat -> round_trips hash limit x.
Proof.
  induction limit as [|limit IH]; intros n x Hnat Hn; [lia|].
  destruct x as [a|xs|xs|items|elements|v|m|s]; try (by destruct n).
  - exists (PyAtom a), (PyAtom a). split; [done|]. split; [done|].
    cbn. by apply bool_decide_eq_true.
  - destruct n as [|n]; [done|]. cbn [native] in Hnat.
    destruct (round_trip_seq limit xs) as (ys & zs & Hf & Ht & HF).
    { intros x Hx. apply (IH n); [by eapply native_elem|lia]. }
    destruct (pvector_spec ys) as (v & Hv & Hwf & Hl).
    exists (PyPVector v), (PyList zs). cbn [freeze thaw]. rewrite Hf. rsimpl.
    rewrite Hv. rsimpl. split; [done|]. rewrite Hl. rsimpl. rewrite Ht. rsimpl.
    split; [done|]. cbn [py_eq]. by apply py_eq_lists.
  - destruct n as [|n]; [done|]. cbn [native] in Hnat.
    destruct (round_trip_seq limit xs) as (ys & zs & Hf & Ht & HF).
    { intros x Hx. apply (IH n); [by eapply native_elem|lia]. }
    exists (PyTuple ys), (PyTuple zs). cbn [freeze thaw]. rewrite Hf, Ht. rsimpl.
    split; [done|]. split; [done|]. cbn [py_eq]. by apply py_eq_lists.
  - destruct n as [|n]; [done|]. cbn [native] in Hnat.
    apply andb_true_iff in Hnat as [Hnd Hvals]. apply bool_decide_eq_true in Hnd.
    apply round_trip_dict; [done|].
    intros kv Hin. apply (IH n); [by eapply native_value|lia].
  - destruct n as [|n]; [done|]. cbn [native] in Hnat.
    apply bool_decide_eq_true in Hnat. by apply round_trip_set.
Qed.

(** The frozen dictionary binds each key of the dictionary, as it is, to
    its frozen value. *)
Lemma freeze_dict limit items :
  NoDup (fst <$> items) ->
  (forall kv, kv ∈ items -> exists y, freeze hash limit (snd kv) = Ok y) ->
  exists m, freeze hash (S limit) (PyDict items) = Ok (PyPMap m)
    /\ forall k, PMap_getitem hash m k
                 = match dict_get items k with
                   | Some v => freeze hash limit v
                   | None => Raise KeyError
                   end.
Proof.
  intros Hnd Hall.
  destruct (mapR_Forall2 (on_value (freeze hash limit)) items) as (ys & Hf & HFf).
  { intros [k v] Hin. destruct (Hall _ Hin) as (y & Hy). cbn in Hy.
    exists (k, y). unfold on_value. rewrite Hy. by rsimpl. }
  pose proof (on_value_fst _ _ _ HFf) as Hkeys.
  destruct (pmap_spec hash ys 0 ltac:(lia)) as (m & bl & Hm & Hok & Hperm).
  exists m. cbn [freeze]. rewrite Hf. rsimpl.
  rewrite dict_of_NoDup by by rewrite Hkeys. rewrite Hm. rsimpl.
  split; [done|]. intros k. rewrite (getitem_view hash m bl k Hok).
  rewrite (lookup_in_all_items hash bl k (proj2 (proj2 Hok))).
  change (snd <$> List.find (key_is k) (all_items bl)) with (dict_get (all_items bl) k).
  rewrite (dict_get_perm _ ys k Hperm) by by rewrite Hperm, Hkeys.
  clear Hm Hok Hperm Hf Hall Hnd Hkeys.
  induction HFf as [|[k0 v0] [k1 y1] items ys Hkv _ IH]; [done|].
  apply on_value_Ok in Hkv as [Hk Hy]. cbn in Hk, Hy. subst k1.
  unfold dict_get in *. cbn [List.find fst].
  destruct (decide (k0 = k)) as [->|Hne].
  - rewrite !bool_decide_eq_true_2 by done. cbn. by rewrite Hy.
  - rewrite !bool_decide_eq_false_2 by done. apply IH.
Qed.

End FreezeProofs.

(** [freeze({'a': {1, 2}})['a']] is the persistent set of 1 and 2, and
    thawing the frozen dictionary gives the dictionary back. *)
Example freeze_sample_dict :
  (y ← freeze hash_key 3 sample_dict;
   match y with
   | PyPMap m =>
       v ← PMap_getitem hash_key m (KStr "a");
       match v with
       | PyPSet s => PSet_iter s
       | _ => Raise TypeError
       end
   | _ => Raise TypeError
   end) = Ok [KInt 1; KInt 2]
  /\ (y ← freeze hash_key 3 sample_dict; thaw 3 y) = Ok sample_dict.
Proof. split; vm_compute; reflexivity. Qed.

(** * Proofs: a vector evolver against direct calls *)

Section VectorSessions.
Context {A : Type}.
Implicit Types (v : PVector A) (e : Evolver A) (xs : list A) (x : A)
               (op : vec_op A) (ops : list (vec_op A)).

Lemma set_neg v i x :
  i < 0 -> 0 <= i + pv_count v ->
  PVector_set v i x = PVector_set v (i + pv_count v) x.
Proof.
  intros Hi Hj. unfold PVector_set.
  destruct (Z.ltb_spec i 0); [|lia].
  by destruct (Z.ltb_spec (i + pv_count v) 0); [lia|].
Qed.

(** One operation, on a vector and on an evolver that hold the same
    elements. *)
Lemma apply_sim v e xs op :
  pv_wf v -> _tolist v = Ok xs -> ev_wf e xs ->
  match PVector_apply v op with
  | Ok v' => exists e' xs', Evolver_apply e op = Ok e' /\ pv_wf v'
                            /\ _tolist v' = Ok xs' /\ ev_wf e' xs'
  | Raise err => Evolver_apply e op = Raise err
  end.
Proof.
  intros Hwf Hxs Hev. pose proof (count_tolist v xs Hwf Hxs) as Hc.
  destruct op as [i x|x]; cbn [PVector_apply Evolver_apply].
  - set (j := if i <? 0 then i + len xs else i).
    destruct (decide (0 <= j < len xs)) as [Hin|Hout].
    + assert (PVector_set v i x = PVector_set v (Z.of_nat (Z.to_nat j)) x) as ->.
      { unfold j in *. destruct (Z.ltb_spec i 0).
        - rewrite set_neg by lia. f_equal. lia.
        - f_equal. lia. }
      assert (Evolver_setitem e i x = Evolver_setitem e (Z.of_nat (Z.to_nat j)) x)
        as ->.
      { unfold j in *. destruct (Z.ltb_spec i 0).
        - rewrite (ev_setitem_neg e xs) by (done || lia). f_equal. lia.
        - f_equal. lia. }
      assert (Z.to_nat j < length xs)%nat as Hn by (unfold len in Hin; lia).
      destruct (set_spec v xs _ x Hwf Hxs Hn) as (v' & -> & Hwf' & Hxs').
      destruct (ev_setitem e xs _ x Hev Hn) as (e' & He' & Hev' & _).
      by exists e', (<[Z.to_nat j := x]> xs).
    + destruct (decide (j = len xs)) as [Hend|Hne].
      * assert (i = len xs) as -> by (unfold j in *; destruct (Z.ltb_spec i 0); lia).
        replace (PVector_set v (len xs) x) with (PVector_set v (pv_count v) x)
          by by rewrite Hc.
        rewrite set_at_count by (rewrite Hc; apply len_nonneg).
        destruct (append_spec v xs x Hwf Hxs) as (v' & -> & Hwf' & Hxs').
        destruct (ev_setitem_end e xs x Hev) as [-> Hev'].
        by exists (Evolver_append e x), (xs ++ [x]).
      * rewrite set_out; [|rewrite Hc; apply len_nonneg|rewrite Hc; fold j; lia].
        apply (ev_setitem_out e xs); [done|]. fold j. lia.
  - destruct (append_spec v xs x Hwf Hxs) as (v' & -> & Hwf' & Hxs').
    exists (Evolver_append e x), (xs ++ [x]).
    split; [done|]. split; [done|]. split; [done|]. by apply ev_append_wf.
Qed.

Lemma run_sim ops : forall v e xs,
  pv_wf v -> _tolist v = Ok xs -> ev_wf e xs ->
  match foldM PVector_apply v ops with
  | Ok v' => exists e' xs', foldM Evolver_apply e ops = Ok e' /\ pv_wf v'
                            /\ _tolist v' = Ok xs' /\ ev_wf e' xs'
  | Raise err => foldM Evolver_apply e ops = Raise err
  end.
Proof.
  induction ops as [|op ops IH]; intros v e xs Hwf Hxs Hev.
  - by exists e, xs.
  - rewrite !foldM_cons. pose proof (apply_sim v e xs op Hwf Hxs Hev) as Hop.
    destruct (PVector_apply v op) as [v1|err].
    + destruct Hop as (e1 & xs1 & -> & Hwf1 & Hxs1 & Hev1). rsimpl.
      by apply (IH v1 e1 xs1).
    + by rewrite Hop.
Qed.

(** A session of [set] and [append] through an evolver ends as the direct
    calls do: with the same elements, or with the same error. *)
Lemma evolver_run_spec v ops :
  pv_wf v ->
  match PVector_run v ops with
  | Ok v1 => exists v2 xs, Evolver_run v ops = Ok v2
                           /\ _tolist v1 = Ok xs /\ _tolist v2 = Ok xs
  | Raise err => Evolver_run v ops = Raise err
  end.
Proof.
  intros Hwf. destruct (wf_tolist v Hwf) as (xs & Hxs & _).
  pose proof (run_sim ops v (PVector_evolver v) xs Hwf Hxs
                (reset_wf v xs Hwf Hxs)) as Hrun.
  unfold PVector_run, Evolver_run.
  destruct (foldM PVector_apply v ops) as [v1|err].
  - destruct Hrun as (e' & xs' & -> & Hwf1 & Hxs1 & Hev1). rsimpl.
    destruct (ev_persistent e' xs' Hev1) as (v2 & -> & Hwf2 & Hxs2). rsimpl.
    by exists v2, xs'.
  - by rewrite Hrun.
Qed.

End VectorSessions.

(** * Proofs: the vector in the store *)

Section StoreProofs.
Context {A : Type}.
Implicit Types (s : store A) (r : ref) (l : list (item A)) (n : node A)
               (P Q : ref -> Prop) (h : nat).

Lemma heap_bind_Ok {T U} (m : heap A T) (f : T -> heap A U) s x s1 :
  m s = Ok (x, s1) -> (m ≫= f) s = f x s1.
Proof. intros Hm. unfold mbind, heap_bind. by rewrite Hm. Qed.

Lemma lift_Ok {T} (x : T) s : lift (Ok x) s = Ok (x, s).
Proof. reflexivity. Qed.

Lemma load_Ok s r l : s !! r = Some l -> load r s = Ok (l, s).
Proof. intros Hr. unfold load. by rewrite Hr. Qed.

Lemma store_at_Ok s r l :
  (r < length s)%nat -> store_at r l s = Ok (tt, <[r := l]> s).
Proof. intros Hr. unfold store_at. by rewrite bool_decide_eq_true_2. Qed.

Lemma py_list_Ok s r l : s !! r = Some l -> py_list r s = Ok (length s, s ++ [l]).
Proof. intros Hr. unfold py_list. by rewrite (heap_bind_Ok _ _ s l s (load_Ok s r l Hr)). Qed.

Lemma py_len_Ok s r l : s !! r = Some l -> py_len r s = Ok (len l, s).
Proof. intros Hr. unfold py_len. by rewrite (heap_bind_Ok _ _ s l s (load_Ok s r l Hr)). Qed.

Lemma py_append_Ok s r l x :
  s !! r = Some l -> py_append r x s = Ok (tt, <[r := l ++ [x]]> s).
Proof.
  intros Hr. unfold py_append.
  rewrite (heap_bind_Ok _ _ s l s (load_Ok s r l Hr)).
  apply store_at_Ok. apply lookup_lt_is_Some. by eexists.
Qed.

Lemma py_setitem_Ok s r l i x l' :
  s !! r = Some l -> list_setitem l i x = Ok l' ->
  py_setitem r i x s = Ok (tt, <[r := l']> s).
Proof.
  intros Hr Hset. unfold py_setitem.
  rewrite (heap_bind_Ok _ _ s l s (load_Ok s r l Hr)), Hset.
  rewrite (heap_bind_Ok _ _ s l' s (lift_Ok l' s)).
  apply store_at_Ok. apply lookup_lt_is_Some. by eexists.
Qed.

Lemma py_getitem_Ok s r l i x :
  s !! r = Some l -> list_getitem l i = Ok x -> py_getitem r i s = Ok (x, s).
Proof.
  intros Hr Hget. unfold py_getitem.
  by rewrite (heap_bind_Ok _ _ s l s (load_Ok s r l Hr)), Hget.
Qed.

(** ** Lists of items *)

Lemma list_getitem_fmap {S T} (f : S -> T) (xs : list S) i x :
  list_getitem xs i = Ok x -> list_getitem (f <$> xs) i = Ok (f x).
Proof.
  unfold list_getitem, len. rewrite length_fmap.
  destruct ((0 <=? _) && _); [|done].
  rewrite list_lookup_fmap. destruct (xs !! _); [|done]. by intros [= ->].
Qed.

Lemma list_setitem_fmap {S T} (f : S -> T) (xs xs' : list S) i x :
  list_setitem xs i x = Ok xs' -> list_setitem (f <$> xs) i (f x) = Ok (f <$> xs').
Proof.
  unfold list_setitem, len. rewrite length_fmap.
  destruct ((0 <=? _) && _); [|done]. intros [= <-]. by rewrite list_fmap_insert.
Qed.

Lemma list_getitem_Forall2 {S T} (R : S -> T -> Prop) (rs : list S) (cs : list T) i c :
  Forall2 R rs cs -> list_getitem cs i = Ok c ->
  exists y, list_getitem rs i = Ok y /\ R y c.
Proof.
  intros HF. unfold list_getitem, len. rewrite (Forall2_length _ _ _ HF).
  destruct ((0 <=? _) && _); [|done].
  destruct (cs !! _) as [c'|] eqn:Hc; [|done]. intros [= ->].
  destruct (Forall2_lookup_r _ _ _ _ _ HF Hc) as (y & Hy & HR).
  exists y. by rewrite Hy.
Qed.

Lemma list_setitem_Forall2 {S T} (R : S -> T -> Prop) (rs : list S) (cs cs' : list T)
    i (y : S) c :
  Forall2 R rs cs -> R y c -> list_setitem cs i c = Ok cs' ->
  exists rs', list_setitem rs i y = Ok rs' /\ Forall2 R rs' cs'.
Proof.
  intros HF HR. unfold list_setitem, len. rewrite (Forall2_length _ _ _ HF).
  destruct ((0 <=? _) && _); [|done]. intros [= <-].
  eexists. split; [done|]. by apply Forall2_insert.
Qed.

(** ** The representation under a change of store *)

Lemma repr_mono P Q s s' h : forall r n,
  (forall r', P r' -> Q r') ->
  (forall r' l, P r' -> s !! r' = Some l -> s' !! r' = Some l) ->
  node_repr P s h r n -> node_repr Q s' h r n.
Proof.
  induction h as [|h IH]; intros r n HPQ Hs [HP Hn].
  - split; [by apply HPQ|]. destruct n as [xs|cs]; [|done]. cbn in *. by apply Hs.
  - split; [by apply HPQ|]. destruct n as [xs|cs]; [done|].
    destruct Hn as (rs & Hr & HF). exists rs. split; [by apply Hs|].
    eapply Forall2_impl; [exact HF|]. intros r' n' Hr'. by apply IH.
Qed.

Lemma repr_valid P s h : forall r n,
  node_repr P s h r n -> node_repr (fun r' => P r' /\ (r' < length s)%nat) s h r n.
Proof.
  induction h as [|h IH]; intros r n [HP Hn].
  - destruct n as [xs|cs]; [|done]. cbn in *.
    split; [|done]. split; [done|]. apply lookup_lt_is_Some. by eexists.
  - destruct n as [xs|cs]; [done|]. destruct Hn as (rs & Hr & HF).
    split; [split; [done|apply lookup_lt_is_Some; by eexists]|].
    exists rs. split; [done|].
    eapply Forall2_impl; [exact HF|]. intros r' n' Hr'. by apply IH.
Qed.

Lemma repr_prefix P s s' h r n :
  s `prefix_of` s' -> node_repr P s h r n -> node_repr P s' h r n.
Proof.
  intros Hpre. apply repr_mono; [done|].
  intros r' l _ Hr'. by eapply prefix_lookup_Some.
Qed.

Lemma prefix_insert s s' (a : nat) l :
  s `prefix_of` s' -> (length s <= a)%nat -> s `prefix_of` <[a := l]> s'.
Proof.
  intros [k ->] Ha. rewrite insert_app_r_alt by done. by eexists.
Qed.

Lemma lookup_new s l : (s ++ [l]) !! length s = Some l.
Proof. by rewrite lookup_app_r, Nat.sub_diag by lia. Qed.

(** What [s] held below [b] it still holds in a store that extends it. *)
Lemma repr_old (b : nat) s s' (c : nat) h r n :
  s `prefix_of` s' ->
  node_repr (fun r' => (r' < b)%nat) s h r n ->
  node_repr (fun r' => (r' < b)%nat \/ (c <= r')%nat) s' h r n.
Proof.
  intros Hpre. apply repr_mono; [by left|].
  intros r' l _ Hr'. by eapply prefix_lookup_Some.
Qed.

(** A node built after the list at [a] was made does not read it. *)
Lemma repr_skip (b a : nat) s h r n l :
  (b <= a)%nat ->
  node_repr (fun r' => (r' < b)%nat \/ (S a <= r')%nat) s h r n ->
  node_repr (fun r' => (r' < b)%nat \/ (a <= r')%nat) (<[a := l]> s) h r n.
Proof.
  intros Hb. apply repr_mono; [intros r' [?|?]; [by left|right; lia]|].
  intros r' l' Hr' Hl'. rewrite list_lookup_insert_ne; [done|]. lia.
Qed.

(** ** [_new_path] *)

Lemma new_path_st_0 budget r s : new_path_st budget 0 r s = Ok (r, s).
Proof. by destruct budget. Qed.

Lemma new_path_st_S budget level r :
  level <> 0 ->
  new_path_st (A:=A) (S budget) level r
  = (p ← new_path_st budget (level - SHIFT) r; alloc [Ref p]).
Proof. intros Hl. cbn [new_path_st]. by destruct (Z.eqb_spec level 0). Qed.

Lemma new_path_rec_0 budget n : _new_path_rec budget 0 n = Ok n.
Proof. by destruct budget. Qed.

Lemma new_path_sim (k : nat) : forall budget s r n h (b : nat) p,
  node_repr (fun r' => (r' < b)%nat) s h r n -> (b <= length s)%nat ->
  _new_path_rec budget (5 * Z.of_nat k) n = Ok p ->
  exists r' s',
    new_path_st budget (5 * Z.of_nat k) r s = Ok (r', s')
    /\ s `prefix_of` s'
    /\ node_repr (fun r' => (r' < b)%nat \/ (length s <= r')%nat) s' (k + h) r' p.
Proof.
  induction k as [|k IH]; intros budget s r n h b p Hn Hb Hp.
  - change (5 * Z.of_nat 0) with 0 in *. rewrite new_path_rec_0 in Hp.
    injection Hp as <-. exists r, s. rewrite new_path_st_0.
    split; [done|]. split; [done|]. by apply (repr_old b s s).
  - assert (5 * Z.of_nat (S k) <> 0) as Hl by lia.
    assert (5 * Z.of_nat (S k) - SHIFT = 5 * Z.of_nat k) as El
      by (rewrite SHIFT_eq; lia).
    destruct budget as [|budget].
    { cbn [_new_path_rec] in Hp. by destruct (Z.eqb_spec (5 * Z.of_nat (S k)) 0). }
    rewrite new_path_rec_S in Hp by done. rewrite El in Hp.
    destruct (_new_path_rec budget (5 * Z.of_nat k) n) as [p0|e] eqn:Hp0; [|done].
    rewrite ret_bind in Hp. injection Hp as <-.
    destruct (IH budget s r n h b p0 Hn Hb Hp0) as (r0 & s0 & Hr0 & Hpre & Hrep).
    exists (length s0), (s0 ++ [[Ref r0]]).
    rewrite new_path_st_S by done. rewrite El.
    rewrite (heap_bind_Ok _ _ s r0 s0 Hr0).
    split; [done|]. split; [by apply prefix_app_r|].
    split; [right; by apply prefix_length|].
    exists [r0]. split; [apply lookup_new|].
    constructor; [|constructor].
    eapply repr_prefix; [|exact Hrep]. by apply prefix_app_r.
Qed.

(** ** [_push_tail] *)

Lemma push_tail_st_eq budget count level (parent tail_node : ref) :
  push_tail_st (A:=A) budget count level parent tail_node
  = (ret ← py_list parent;
     if level =? SHIFT then
       _ ← py_append ret (Ref tail_node); mret ret
     else
       s ← lift (py_rshift (count - 1) level);
       let sub_index := Z.land s BIT_MASK in
       n ← py_len parent;
       if sub_index <? n then
         match budget with
         | O => lift (Raise RecursionError)
         | S budget' =>
             x ← py_getitem parent sub_index;
             child ← as_ref x;
             new_child ← push_tail_st budget' count (level - SHIFT) child tail_node;
             _ ← py_setitem ret sub_index (Ref new_child);
             mret ret
         end
       else
         p ← new_path_st (Z.to_nat (level - SHIFT)) (level - SHIFT) tail_node;
         _ ← py_append ret (Ref p);
         mret ret).
Proof. by destruct budget. Qed.

Lemma list_setitem_inv {T} (xs xs' : list T) i x :
  list_setitem xs i x = Ok xs' ->
  exists j : nat, (j < length xs)%nat /\ xs' = <[j := x]> xs
    /\ forall U (ys : list U) y,
         length ys = length xs -> list_setitem ys i y = Ok (<[j := y]> ys).
Proof.
  unfold list_setitem, len.
  destruct ((0 <=? _) && _) eqn:Hin; [|done]. intros [= <-].
  apply andb_true_iff in Hin as [H0 H1].
  apply Z.leb_le in H0. apply Z.ltb_lt in H1.
  eexists. split; [|split; [done|]]; [lia|].
  intros U ys y Hlen. rewrite Hlen.
  assert ((0 <=? (if i <? 0 then i + Z.of_nat (length xs) else i))
          && ((if i <? 0 then i + Z.of_nat (length xs) else i)
              <? Z.of_nat (length xs)) = true) as ->; [|done].
  apply andb_true_iff. split; [by apply Z.leb_le|by apply Z.ltb_lt].
Qed.

Lemma push_tail_sim (h : nat) :
  forall budget s (pr tr : ref) parent tail_node count (b : nat) p,
  node_repr (fun r' => (r' < b)%nat) s (S h) pr parent ->
  node_repr (fun r' => (r' < b)%nat) s 0 tr tail_node ->
  (b <= length s)%nat ->
  _push_tail_rec budget count (5 * Z.of_nat (S h)) parent tail_node = Ok p ->
  exists r' s',
    push_tail_st budget count (5 * Z.of_nat (S h)) pr tr s = Ok (r', s')
    /\ s `prefix_of` s'
    /\ node_repr (fun r' => (r' < b)%nat \/ (length s <= r')%nat) s' (S h) r' p.
Proof.
  induction h as [|h IH];
    intros budget s pr tr parent tail_node count b p [Hpb Hpar] Htail Hb Hp;
    (destruct parent as [xs|cs]; [done|]); destruct Hpar as (rs & Hpr & HF);
    rewrite push_tail_st_eq, (heap_bind_Ok _ _ s _ _ (py_list_Ok s pr _ Hpr));
    pose proof (lookup_new s (Ref <$> rs)) as Hnew;
    assert (s `prefix_of` s ++ [Ref <$> rs]) as Hpre1 by by apply prefix_app_r.
  - change (5 * Z.of_nat 1) with SHIFT in *.
    rewrite push_tail_rec_base in Hp. injection Hp as <-.
    rewrite Z.eqb_refl.
    rewrite (heap_bind_Ok _ _ _ tt _ (py_append_Ok _ _ _ (Ref tr) Hnew)).
    eexists _, _. split; [done|].
    assert (s `prefix_of` <[length s := (Ref <$> rs) ++ [Ref tr]]> (s ++ [Ref <$> rs]))
      as Hpre by by apply prefix_insert.
    split; [done|]. split; [by right|].
    exists (rs ++ [tr]). split.
    + rewrite list_lookup_insert_eq by (rewrite length_app; cbn; lia).
      by rewrite fmap_app.
    + apply Forall2_app; [|constructor; [|constructor]].
      * eapply Forall2_impl; [exact HF|]. intros r' n' Hr'. by eapply repr_old.
      * by eapply repr_old.
  - set (level := 5 * Z.of_nat (S (S h))) in *.
    assert (level <> SHIFT) as Hne by (rewrite SHIFT_eq; lia).
    assert (level - SHIFT = 5 * Z.of_nat (S h)) as El by (rewrite SHIFT_eq; lia).
    rewrite push_tail_rec_step in Hp by done.
    rewrite py_rshift_Ok in Hp by lia. rewrite ret_bind in Hp.
    destruct (Z.eqb_spec level SHIFT) as [|_]; [done|].
    rewrite py_rshift_Ok by lia.
    rewrite (heap_bind_Ok _ _ _ _ _ (lift_Ok _ _)). cbv zeta.
    set (sub_index := Z.land (Z.shiftr (count - 1) level) BIT_MASK) in *.
    assert ((s ++ [Ref <$> rs]) !! pr = Some (Ref <$> rs)) as Hpr1
      by by eapply prefix_lookup_Some.
    rewrite (heap_bind_Ok _ _ _ _ _ (py_len_Ok _ pr _ Hpr1)).
    replace (len (Ref <$> rs)) with (len cs)
      by (unfold len; by rewrite length_fmap, (Forall2_length _ _ _ HF)).
    destruct (sub_index <? len cs).
    + destruct budget as [|budget]; [done|].
      destruct (list_getitem cs sub_index) as [child|e] eqn:Hchild; [|done].
      rewrite ret_bind, El in Hp.
      destruct (_push_tail_rec budget count (5 * Z.of_nat (S h)) child tail_node)
        as [new_child|e] eqn:Hrec; [|done].
      rewrite ret_bind in Hp.
      destruct (list_setitem cs sub_index new_child) as [cs'|e] eqn:Hset; [|done].
      rewrite fmap_ret in Hp. injection Hp as <-.
      destruct (list_getitem_Forall2 _ rs cs _ _ HF Hchild) as (cr & Hcr & Hcrep).
      rewrite (heap_bind_Ok _ _ _ _ _
                 (py_getitem_Ok _ pr _ _ _ Hpr1 (list_getitem_fmap Ref _ _ _ Hcr))).
      rewrite (heap_bind_Ok _ _ _ cr _ eq_refl), El.
      destruct (IH budget (s ++ [Ref <$> rs]) cr tr child tail_node count b new_child)
        as (r0 & s2 & Hr0 & Hpre2 & Hrep2);
        [by eapply repr_prefix|by eapply repr_prefix|rewrite length_app; lia|done|].
      rewrite (heap_bind_Ok _ _ _ _ _ Hr0).
      destruct (list_setitem_inv _ _ _ _ Hset) as (j & Hj & -> & Hany).
      assert (s2 !! length s = Some (Ref <$> rs)) as Hret
        by by eapply prefix_lookup_Some.
      rewrite (heap_bind_Ok _ _ _ tt _
                 (py_setitem_Ok _ _ _ _ (Ref r0) _ Hret
                    (Hany _ (Ref <$> rs) (Ref r0)
                       ltac:(by rewrite length_fmap, (Forall2_length _ _ _ HF))))).
      eexists _, _. split; [done|].
      assert (s `prefix_of` <[length s := <[j := Ref r0]> (Ref <$> rs)]> s2) as Hpre.
      { apply prefix_insert; [|done]. by etrans. }
      split; [done|]. split; [by right|].
      exists (<[j := r0]> rs). split.
      * rewrite list_lookup_insert_eq
          by (apply lookup_lt_is_Some; by eexists).
        by rewrite list_fmap_insert.
      * apply Forall2_insert.
        -- eapply Forall2_impl; [exact HF|]. intros r' n' Hr'. by eapply repr_old.
        -- apply repr_skip; [done|].
           replace (S (length s)) with (length (s ++ [Ref <$> rs]))
             by (rewrite length_app; cbn; lia).
           done.
    + destruct (_new_path (level - SHIFT) tail_node) as [p0|e] eqn:Hp0; [|done].
      rewrite ret_bind in Hp. injection Hp as <-.
      unfold _new_path in Hp0. rewrite El in Hp0 |- *.
      destruct (new_path_sim (S h) (Z.to_nat (5 * Z.of_nat (S h)))
                  (s ++ [Ref <$> rs]) tr tail_node 0%nat b p0)
        as (r0 & s2 & Hr0 & Hpre2 & Hrep2);
        [by eapply repr_prefix|rewrite length_app; lia|done|].
      rewrite (heap_bind_Ok _ _ _ _ _ Hr0).
      assert (s2 !! length s = Some (Ref <$> rs)) as Hret
        by by eapply prefix_lookup_Some.
      rewrite (heap_bind_Ok _ _ _ tt _ (py_append_Ok _ _ _ (Ref r0) Hret)).
      eexists _, _. split; [done|].
      assert (s `prefix_of` <[length s := (Ref <$> rs) ++ [Ref r0]]> s2) as Hpre.
      { apply prefix_insert; [|done]. by etrans. }
      split; [done|]. split; [by right|].
      exists (rs ++ [r0]). split.
      * rewrite list_lookup_insert_eq
          by (apply lookup_lt_is_Some; by eexists).
        by rewrite fmap_app.
      * apply Forall2_app; [|constructor; [|constructor]].
        -- eapply Forall2_impl; [exact HF|]. intros r' n' Hr'. by eapply repr_old.
        -- apply repr_skip; [done|].
           replace (S (length s)) with (length (s ++ [Ref <$> rs]))
             by (rewrite length_app; cbn; lia).
           by rewrite Nat.add_0_r in Hrep2.
Qed.

(** ** [_create_new_root] and [append] *)

Lemma repr_bound s h r n :
  node_repr (fun _ => True) s h r n ->
  node_repr (fun r' => (r' < length s)%nat) s h r n.
Proof.
  intros Hn. apply repr_valid in Hn.
  eapply repr_mono; [| |exact Hn]; [by intros r' [_ ?]|done].
Qed.

Lemma repr_any P s h r n : node_repr P s h r n -> node_repr (fun _ => True) s h r n.
Proof. by apply repr_mono. Qed.

Lemma create_new_root_sim s hv v new_root new_shift :
  hv_repr s hv v ->
  _create_new_root v = Ok (new_root, new_shift) ->
  exists r' s' (H' : nat),
    create_new_root_st hv s = Ok ((r', new_shift), s')
    /\ s `prefix_of` s' /\ (1 <= H')%nat /\ new_shift = 5 * Z.of_nat H'
    /\ node_repr (fun _ => True) s' H' r' new_root.
Proof.
  intros (Hc & Hs & Ho & (H & HH & Hshift & Hroot) & Htail) Hp.
  apply repr_bound in Hroot.
  assert (node_repr (fun r' => (r' < length s)%nat) s 0 (hv_tail hv)
                    (Leaf (pv_tail v))) as Htl.
  { split; [apply lookup_lt_is_Some; by eexists|done]. }
  unfold _create_new_root in Hp. unfold create_new_root_st.
  rewrite Hc, Hs.
  rewrite py_rshift_Ok in Hp |- * by (rewrite SHIFT_eq; lia).
  rewrite py_lshift_Ok in Hp |- * by lia.
  rewrite !ret_bind in Hp.
  rewrite (heap_bind_Ok _ _ _ _ _ (lift_Ok _ _)).
  rewrite (heap_bind_Ok _ _ _ _ _ (lift_Ok _ _)).
  destruct (Z.shiftl 1 (pv_shift v) <? Z.shiftr (pv_count v) SHIFT).
  - destruct (_new_path (pv_shift v) (Leaf (pv_tail v))) as [p|e] eqn:Hpath; [|done].
    rewrite ret_bind in Hp. injection Hp as <- <-.
    unfold _new_path in Hpath. rewrite Hshift in Hpath |- *.
    destruct (new_path_sim H _ s (hv_tail hv) _ 0%nat (length s) p Htl
                ltac:(done) Hpath) as (r0 & s2 & Hr0 & Hpre2 & Hrep2).
    rewrite (heap_bind_Ok _ _ _ _ _ Hr0).
    rewrite (heap_bind_Ok _ _ _ (length s2) (s2 ++ [[Ref (hv_root hv); Ref r0]])
               eq_refl).
    exists (length s2), (s2 ++ [[Ref (hv_root hv); Ref r0]]), (S H).
    split; [done|].
    assert (s `prefix_of` s2 ++ [[Ref (hv_root hv); Ref r0]]) as Hpre
      by by apply prefix_app_r.
    split; [done|]. split; [lia|]. split; [rewrite SHIFT_eq; lia|].
    split; [done|]. exists [hv_root hv; r0]. split; [apply lookup_new|].
    constructor; [|constructor; [|constructor]].
    + eapply repr_any, repr_prefix; [exact Hpre|exact Hroot].
    + rewrite Nat.add_0_r in Hrep2.
      eapply repr_any, (repr_prefix _ s2); [by apply prefix_app_r|exact Hrep2].
  - destruct (_push_tail v (pv_shift v) (pv_root v) (Leaf (pv_tail v)))
      as [nr|e] eqn:Hpush; [|done].
    rewrite ret_bind in Hp. injection Hp as <- <-.
    unfold _push_tail in Hpush. rewrite Hshift in Hpush |- *.
    destruct H as [|h]; [lia|].
    destruct (push_tail_sim h _ s (hv_root hv) (hv_tail hv) _ _ _ (length s) nr
                Hroot Htl ltac:(done) Hpush) as (r0 & s2 & Hr0 & Hpre2 & Hrep2).
    rewrite (heap_bind_Ok _ _ _ _ _ Hr0).
    exists r0, s2, (S h). split; [done|]. split; [done|]. split; [lia|].
    split; [done|]. by eapply repr_any.
Qed.

Lemma HVector_new_Ok s count shift (root tail : ref) l :
  s !! tail = Some l ->
  HVector_new count shift root tail s
  = Ok (mkHVector count shift root tail (count - len l), s).
Proof.
  intros Ht. unfold HVector_new.
  by rewrite (heap_bind_Ok _ _ _ _ _ (py_len_Ok _ _ _ Ht)).
Qed.

(** [append] on the store does what [append] on the tree does, and the
    store only grows. *)
Lemma append_sim s hv v x v' :
  hv_repr s hv v -> PVector_append v x = Ok v' ->
  exists hv' s',
    append_st hv x s = Ok (hv', s') /\ s `prefix_of` s' /\ hv_repr s' hv' v'.
Proof.
  intros Hrep Hp. pose proof Hrep as (Hc & Hs & Ho & (H & HH & Hshift & Hroot) & Htail).
  unfold PVector_append in Hp. unfold append_st.
  rewrite (heap_bind_Ok _ _ _ _ _ (py_len_Ok _ _ _ Htail)).
  replace (len (Elem <$> pv_tail v)) with (len (pv_tail v))
    by (unfold len; by rewrite length_fmap).
  destruct (len (pv_tail v) <? BRANCH_FACTOR).
  - injection Hp as <-.
    rewrite (heap_bind_Ok _ _ _ _ _ (py_list_Ok _ _ _ Htail)).
    rewrite (heap_bind_Ok _ _ _ tt _ (py_append_Ok _ _ _ (Elem x) (lookup_new _ _))).
    set (s2 := <[length s := (Elem <$> pv_tail v) ++ [Elem x]]>
                 (s ++ [Elem <$> pv_tail v])).
    assert (s `prefix_of` s2) as Hpre
      by (apply prefix_insert; [by apply prefix_app_r|done]).
    assert (s2 !! length s = Some (Elem <$> (pv_tail v ++ [x]))) as Hnt.
    { unfold s2. rewrite list_lookup_insert_eq by (rewrite length_app; cbn; lia).
      by rewrite fmap_app. }
    rewrite (HVector_new_Ok s2 _ _ _ _ _ Hnt).
    eexists _, _. split; [done|]. split; [done|].
    unfold hv_repr, PVector_new. cbn.
    split; [by rewrite Hc|]. split; [done|].
    split; [rewrite Hc; unfold len; by rewrite length_fmap|].
    split; [|done]. exists H. split; [done|]. split; [done|].
    by eapply repr_prefix.
  - destruct (_create_new_root v) as [[new_root new_shift]|e] eqn:Hroot'; [|done].
    rewrite ret_bind in Hp. injection Hp as <-.
    destruct (create_new_root_sim s hv v new_root new_shift Hrep Hroot')
      as (r' & s1 & H' & Hcr & Hpre1 & HH' & Hshift' & Hrep').
    rewrite (heap_bind_Ok _ _ _ _ _ Hcr). cbv beta iota.
    rewrite (heap_bind_Ok _ _ _ (length s1) (s1 ++ [[Elem x]]) eq_refl).
    rewrite (HVector_new_Ok (s1 ++ [[Elem x]]) _ _ _ _ _ (lookup_new _ _)).
    eexists _, _. split; [done|].
    split; [etrans; [exact Hpre1|by apply prefix_app_r]|].
    unfold hv_repr, PVector_new. cbn.
    split; [by rewrite Hc|]. split; [done|]. split; [by rewrite Hc|].
    split; [|apply lookup_new]. exists H'. split; [done|]. split; [done|].
    eapply (repr_prefix _ s1); [by apply prefix_app_r|done].
Qed.

(** ** [__getitem__] *)

Lemma descend_sim P s i (levels : list Z) : forall r n h n',
  node_repr P s h r n ->
  foldM (fun nd level => sh ← py_rshift i level;
                         node_child nd (Z.land sh BIT_MASK)) n levels = Ok n' ->
  exists r', descend_st i levels r s = Ok (r', s)
             /\ node_repr P s (h - length levels) r' n'.
Proof.
  induction levels as [|level levels IH]; intros r n h n' Hn Hp.
  - injection Hp as <-. exists r. split; [done|]. by rewrite Nat.sub_0_r.
  - rewrite foldM_cons in Hp. cbn [descend_st].
    destruct (py_rshift i level) as [sh|e]; [|done]. rewrite ret_bind in Hp.
    rewrite (heap_bind_Ok _ _ _ _ _ (lift_Ok _ _)).
    destruct n as [xs|cs]; [done|]. cbn [node_child] in Hp.
    destruct (list_getitem cs (Z.land sh BIT_MASK)) as [child|e] eqn:Hchild; [|done].
    rewrite ret_bind in Hp.
    destruct h as [|h]; [by destruct Hn|]. destruct Hn as [_ (rs & Hr & HF)].
    destruct (list_getitem_Forall2 _ rs cs _ _ HF Hchild) as (cr & Hcr & Hcrep).
    rewrite (heap_bind_Ok _ _ _ _ _
               (py_getitem_Ok _ r _ _ _ Hr (list_getitem_fmap Ref _ _ _ Hcr))).
    rewrite (heap_bind_Ok _ _ _ cr _ eq_refl).
    destruct (IH cr child h n' Hcrep Hp) as (r' & Hr' & Hrep').
    exists r'. split; [done|]. done.
Qed.

Lemma leaf_elem P s h r n k y :
  node_repr P s h r n -> node_elem n k = Ok y ->
  exists x, py_getitem r k s = Ok (x, s) /\ as_elem x s = Ok (y, s).
Proof.
  intros Hn Hy. destruct n as [xs|cs]; [|done]. cbn [node_elem] in Hy.
  destruct h as [|h]; destruct Hn as [_ Hn]; [|done].
  exists (Elem y). split; [|done].
  by apply (py_getitem_Ok s r _ k _ Hn), list_getitem_fmap.
Qed.

Lemma getitem_sim s hv v i y :
  hv_repr s hv v -> PVector_getitem v i = Ok y -> getitem_st hv i s = Ok (y, s).
Proof.
  intros (Hc & Hs & Ho & (H & HH & Hshift & Hroot) & Htail) Hp.
  unfold PVector_getitem in Hp. unfold getitem_st. rewrite Hc.
  set (j := if i <? 0 then i + pv_count v else i) in *.
  destruct (_node_for v j) as [nd|e] eqn:Hnode; [|done]. rewrite ret_bind in Hp.
  unfold _node_for in Hnode. cbn [_count _tail_offset _tail _root _shift PVector_like]
    in Hnode.
  unfold node_for_st. rewrite Hc, Ho, Hs.
  destruct ((0 <=? j) && (j <? pv_count v)); [|done].
  destruct (pv_tail_offset v <=? j).
  - injection Hnode as <-.
    rewrite (heap_bind_Ok _ _ _ (hv_tail hv) s eq_refl).
    destruct (leaf_elem (fun _ => True) s 0 (hv_tail hv) (Leaf (pv_tail v))
                (Z.land j BIT_MASK) y) as (x & Hx & Hy); [by split|done|].
    by rewrite (heap_bind_Ok _ _ _ _ _ Hx).
  - destruct (descend_sim _ s j _ (hv_root hv) _ H nd Hroot Hnode) as (r' & Hr' & Hrep').
    rewrite (heap_bind_Ok _ _ _ _ _ Hr').
    destruct (leaf_elem _ s _ r' nd _ y Hrep' Hp) as (x & Hx & Hy).
    by rewrite (heap_bind_Ok _ _ _ _ _ Hx).
Qed.

Lemma hv_repr_prefix s s' hv v : s `prefix_of` s' -> hv_repr s hv v -> hv_repr s' hv v.
Proof.
  intros Hpre (Hc & Hs & Ho & (H & HH & Hshift & Hroot) & Htail).
  split; [done|]. split; [done|]. split; [done|]. split.
  - exists H. split; [done|]. split; [done|]. by eapply repr_prefix.
  - by eapply prefix_lookup_Some.
Qed.

(** [append] on the tree: the length and the elements of the result. *)
Lemma append_elements (v1 : PVector A) x :
  pv_wf v1 ->
  exists v2,
    PVector_append v1 x = Ok v2 /\ pv_wf v2
    /\ PVector_len v2 = PVector_len v1 + 1
    /\ (forall i, 0 <= i < PVector_len v1 ->
          exists y, PVector_getitem v1 i = Ok y /\ PVector_getitem v2 i = Ok y)
    /\ PVector_getitem v2 (PVector_len v1) = Ok x.
Proof.
  intros Hwf. destruct (wf_tolist v1 Hwf) as (xs & Hxs & Hc).
  destruct (append_spec v1 xs x Hwf Hxs) as (v2 & Happ & Hwf2 & Hxs2).
  exists v2. split; [done|]. split; [done|]. unfold PVector_len.
  pose proof (count_tolist v2 _ Hwf2 Hxs2) as Hc2.
  split; [rewrite Hc2, Hc; unfold len; rewrite length_app; cbn [length]; lia|].
  split.
  - intros i Hi. rewrite Hc in Hi. unfold len in Hi.
    destruct (lookup_lt_is_Some_2 xs (Z.to_nat i) ltac:(lia)) as [y Hy].
    exists y. replace i with (Z.of_nat (Z.to_nat i)) by lia. split.
    + by apply (getitem_spec v1 xs).
    + apply (getitem_spec v2 (xs ++ [x])); [done|done|].
      by rewrite lookup_app_l by (apply lookup_lt_is_Some; by eexists).
  - rewrite Hc. apply (getitem_spec v2 (xs ++ [x])); [done|done|].
    by rewrite lookup_app_r, Nat.sub_diag by lia.
Qed.

End StoreProofs.

(** * Proofs: reading vectors, evolvers and maps *)

Section VectorReads.
Context {A : Type}.
Implicit Types (v : PVector A) (e : Evolver A) (xs : list A) (x : A).

(** [v[i]] is [list(v)[i]], errors included. *)
Lemma getitem_list v xs i :
  pv_wf v -> _tolist v = Ok xs -> PVector_getitem v i = list_getitem xs i.
Proof.
  intros Hwf Hxs. pose proof (count_tolist v xs Hwf Hxs) as Hc.
  destruct (inv_of_tolist v xs Hwf Hxs) as (H & l & Hinv & El).
  unfold list_getitem.
  set (j := if i <? 0 then i + len xs else i).
  assert (PVector_getitem v i = PVector_getitem v j \/ j < 0) as Hj.
  { unfold j. destruct (Z.ltb_spec i 0); [|by left].
    destruct (Z_lt_ge_dec (i + len xs) 0); [by right|left].
    rewrite getitem_neg by lia. by rewrite Hc. }
  destruct (Z.leb_spec 0 j) as [H0|H0]; cbn [andb].
  - destruct Hj as [->|]; [|lia].
    destruct (Z.ltb_spec j (len xs)) as [H1|H1].
    + unfold len in H1.
      assert (Z.to_nat j < length xs)%nat as Hlt by lia.
      destruct (lookup_lt_is_Some_2 xs _ Hlt) as [x Hx].
      rewrite Hx. replace j with (Z.of_nat (Z.to_nat j)) by lia.
      by apply (getitem_spec v xs).
    + apply (getitem_out v H l); [done|lia|done].
  - unfold PVector_getitem.
    assert ((if i <? 0 then i + pv_count v else i) = j) as ->
      by (unfold j; by rewrite Hc).
    rewrite (node_for_out v H l); [done|done|lia].
Qed.

(** [e[i]] is [list(e)[i]], errors included. *)
Lemma ev_getitem_list e xs i :
  ev_wf e xs -> Evolver_getitem e i = list_getitem xs i.
Proof.
  intros Hwf. pose proof (ev_len e xs Hwf) as Hlen. unfold Evolver_len in Hlen.
  pose proof (len_nonneg (ev_extra_tail e)) as Hex.
  assert (0 <= ev_count e) as Hc0.
  { destruct Hwf as (H & l & [[(_ & _ & _ & _ & _ & _ & Hc) _] _] & _).
    simpl in Hc. unfold len in Hc. lia. }
  unfold list_getitem.
  assert (exists j, j = (if i <? 0 then i + len xs else i)) as [j Ej] by eauto.
  rewrite <- Ej.
  destruct (Z.leb_spec 0 j) as [H0|H0];
    [destruct (Z.ltb_spec j (len xs)) as [H1|H1]|]; cbn [andb].
  - unfold len in H1.
    assert (Z.to_nat j < length xs)%nat as Hlt by lia.
    destruct (lookup_lt_is_Some_2 xs _ Hlt) as [x Hx].
    rewrite Hx. rewrite <- (ev_getitem e xs _ x Hwf Hx).
    rewrite Z2Nat.id by done.
    destruct (Z.ltb_spec i 0) as [Hi|Hi]; [|by subst j].
    unfold Evolver_getitem.
    destruct (Z.ltb_spec i 0); [|lia].
    rewrite Hlen, <- Ej.
    by destruct (Z.ltb_spec j 0); [lia|].
  - unfold Evolver_getitem. rewrite Hlen, <- Ej.
    destruct (Z.leb_spec (ev_count e) j); destruct (Z.ltb_spec j (len xs));
      cbn [andb]; try lia.
    unfold _node_for. cbn [_count Evolver_like].
    destruct (Z.leb_spec 0 j); destruct (Z.ltb_spec j (ev_count e));
      cbn [andb]; done || lia.
  - unfold Evolver_getitem. rewrite Hlen, <- Ej.
    destruct (Z.leb_spec (ev_count e) j); cbn [andb]; [lia|].
    unfold _node_for. cbn [_count Evolver_like].
    by destruct (Z.leb_spec 0 j); [lia|].
Qed.

(** A session that returns is matched by the direct calls. *)
Lemma run_sim_back v ops e :
  pv_wf v -> foldM Evolver_apply (PVector_evolver v) ops = Ok e ->
  exists v' xs, PVector_run v ops = Ok v' /\ pv_wf v' /\ _tolist v' = Ok xs
                /\ ev_wf e xs.
Proof.
  intros Hwf He. destruct (wf_tolist v Hwf) as (xs & Hxs & _).
  pose proof (run_sim ops v (PVector_evolver v) xs Hwf Hxs
                (reset_wf v xs Hwf Hxs)) as Hrun.
  unfold PVector_run. destruct (foldM PVector_apply v ops) as [v1|err].
  - destruct Hrun as (e' & xs' & He' & Hwf1 & Hxs1 & Hev1).
    rewrite He in He'. injection He' as <-. by exists v1, xs'.
  - by rewrite He in Hrun.
Qed.

End VectorReads.

Section MapReads.
Context {K V : Type} `{EqDecision K}.
Context (hash : K -> Z).
Implicit Types (bl : list (bucket K V)) (m : PMap K V) (key k : K).

Local Abbreviation view := (lookup_in hash).

Lemma contains_view m bl key :
  pm_ok hash m bl ->
  PMap_contains hash m key
  = Ok (match view bl key with Some _ => true | None => false end).
Proof.
  intros (Hwf & Hbl & Hlen & Hslot).
  destruct (get_bucket_pv hash (pm_buckets m) bl key Hwf Hbl Hlen) as (b & Hb & Hg).
  unfold PMap_contains, _contains. rewrite Hg. rsimpl.
  unfold lookup_in. fold (slot hash bl key). rewrite Hb.
  by destruct (bucket_find b key) as [[k v]|].
Qed.

Lemma view_dict_get bl key :
  buckets_ok hash bl -> view bl key = dict_get (all_items bl) key.
Proof. intros Hok. by rewrite (lookup_in_all_items hash bl key Hok). Qed.

End MapReads.

Section Samples.

Lemma sample_vector_wf : pv_wf sample_vector.
Proof.
  apply reachable_wf.
  apply (reach_extend _EMPTY_VECTOR ((fun k : nat => Z.of_nat k) <$> seq 0 40));
    [apply reach_empty|].
  vm_compute. reflexivity.
Qed.

Lemma sample_vector_tolist :
  _tolist sample_vector = Ok ((fun k : nat => Z.of_nat k) <$> seq 0 40).
Proof. vm_compute. reflexivity. Qed.

Lemma sample_map_reachable : pm_reachable hash_int sample_map.
Proof.
  apply (set_all_reachable hash_int (sample_items 13) _EMPTY_PMAP);
    [apply pm_reach_empty|].
  vm_compute. reflexivity.
Qed.

End Samples.

Section MsetAsOps.
Context {A : Type}.

Lemma foldM_fmap {S T U} (f : S -> U -> result S) (g : T -> U) (l : list T) :
  forall s, foldM f s (g <$> l) = foldM (fun s x => f s (g x)) s l.
Proof.
  induction l as [|x l IH]; intros s; [done|].
  rewrite fmap_cons, !foldM_cons. destruct (f s (g x)) as [s'|err]; [|done].
  rsimpl. apply IH.
Qed.

Lemma foldM_ext {S T} (f g : S -> T -> result S) (l : list T) :
  (forall s x, f s x = g s x) -> forall s, foldM f s l = foldM g s l.
Proof.
  intros Hfg. induction l as [|x l IH]; intros s; [done|].
  rewrite !foldM_cons, Hfg. destruct (g s x) as [s'|err]; [|done].
  rsimpl. apply IH.
Qed.

Lemma mset_as_run (v : PVector A) (args : list (Z * A)) :
  PVector_mset v args = Evolver_run v ((fun '(i, x) => OpSet i x) <$> args)
  /\ foldM (fun v '(i, x) => PVector_set v i x) v args
     = PVector_run v ((fun '(i, x) => OpSet i x) <$> args).
Proof.
  unfold PVector_mset, Evolver_run, PVector_run. rewrite !foldM_fmap. split.
  - f_equal. apply foldM_ext. by intros s [i x].
  - apply foldM_ext. by intros s [i x].
Qed.

End MsetAsOps.

(** * Proofs: the size of a map and the keys it holds *)

Section Concat.
Context {K V : Type}.

Lemma concat_insert_length {T} (ll : list (list T)) (i : nat) l nl :
  ll !! i = Some l ->
  (length (concat (<[i := nl]> ll)) + length l
   = length (concat ll) + length nl)%nat.
Proof.
  revert i. induction ll as [|l0 ll IH]; intros i Hi; [done|].
  destruct i as [|i]; simpl in *.
  - injection Hi as ->. rewrite !length_app. lia.
  - rewrite !length_app. specialize (IH i Hi). lia.
Qed.

(** Lists of pairs whose keys tell the position of the list they are in:
    no key occurs twice overall when none does within a list. *)
Lemma NoDup_concat_keys (g : K -> nat) (ll : list (list (K * V))) : forall o : nat,
  (forall (i : nat) l kv, ll !! i = Some l -> kv ∈ l -> g (fst kv) = (o + i)%nat) ->
  NoDup (fst <$> concat ll) <-> Forall (fun l => NoDup (fst <$> l)) ll.
Proof.
  induction ll as [|l ll IH]; intros o Hg.
  - split; [constructor|]. intros _. constructor.
  - simpl. rewrite fmap_app, NoDup_app, Forall_cons.
    rewrite (IH (S o)).
    2:{ intros i l' kv Hl' Hkv. rewrite (Hg (S i) l' kv Hl' Hkv). lia. }
    split; [intros (? & _ & ?); by split|].
    intros [Hl Hll]. split; [done|]. split; [|done].
    intros k Hk1 Hk2.
    apply list_elem_of_fmap in Hk1 as (kv1 & -> & Hkv1).
    apply list_elem_of_fmap in Hk2 as (kv2 & E & Hkv2).
    apply list_elem_of_In, in_concat in Hkv2 as (l2 & Hl2 & Hkv2).
    apply list_elem_of_In in Hl2, Hkv2.
    apply list_elem_of_lookup in Hl2 as [i Hi].
    pose proof (Hg 0%nat l kv1 eq_refl Hkv1) as G1.
    pose proof (Hg (S i) l2 kv2 Hi Hkv2) as G2.
    rewrite <- E in G2. lia.
Qed.

End Concat.

Section Sized.
Context {K V : Type} `{EqDecision K} `{EqDecision V}.
Context (hash : K -> Z).
Implicit Types (bl : list (bucket K V)) (m : PMap K V) (key k : K).

Local Abbreviation view := (lookup_in hash).

Lemma keys_NoDup_iff bl :
  buckets_ok hash bl ->
  NoDup (fst <$> all_items bl)
  <-> forall (i : nat) b, bl !! i = Some b -> NoDup (fst <$> bucket_items b).
Proof.
  intros [Hlen Hslot]. rewrite all_items_concat.
  rewrite (NoDup_concat_keys (fun k => Z.to_nat (hash k mod len bl)) _ 0).
  - rewrite Forall_fmap, Forall_lookup. done.
  - intros i l kv Hl Hkv. apply list_lookup_fmap_Some in Hl as (b & -> & Hb).
    by apply (Hslot i b kv).
Qed.

(** Replacing one bucket. *)
Lemma insert_sized bl (i : nat) b nb size :
  buckets_ok hash bl -> buckets_ok hash (<[i := nb]> bl) ->
  bl !! i = Some b -> NoDup (fst <$> bucket_items nb) ->
  sized size bl ->
  sized (size - len (bucket_items b) + len (bucket_items nb)) (<[i := nb]> bl).
Proof.
  intros Hok Hok' Hb Hnb [Hnd Hsize]. split.
  - apply (keys_NoDup_iff _ Hok'). intros j b' Hb'.
    destruct (decide (j = i)) as [->|Hne].
    + rewrite list_lookup_insert_eq in Hb' by (by eapply lookup_lt_Some).
      by injection Hb' as <-.
    + rewrite list_lookup_insert_ne in Hb' by done.
      by apply (proj1 (keys_NoDup_iff _ Hok) Hnd j).
  - rewrite !all_items_concat in *. rewrite list_fmap_insert.
    pose proof (concat_insert_length (bucket_items <$> bl) i (bucket_items b)
                  (bucket_items nb)) as Hl.
    rewrite list_lookup_fmap, Hb in Hl. specialize (Hl eq_refl).
    unfold len in *. lia.
Qed.

Lemma rehash_sized (n : nat) bl size :
  (0 < n)%nat -> sized size bl -> sized size (groups hash n (all_items bl)).
Proof.
  intros Hn [Hnd Hsize]. pose proof (all_items_groups hash n (all_items bl) Hn) as Hp.
  split.
  - by rewrite Hp.
  - unfold len. by rewrite Hp.
Qed.

(** The list an evolver stands for is determined by the evolver. *)
Lemma ev_wf_unique {A} (e : Evolver A) xs ys : ev_wf e xs -> ev_wf e ys -> xs = ys.
Proof.
  intros Hx Hy.
  destruct (ev_persistent e xs Hx) as (v & Hv & _ & Hl).
  destruct (ev_persistent e ys Hy) as (v' & Hv' & _ & Hl').
  rewrite Hv in Hv'. injection Hv' as <-. congruence.
Qed.

Lemma me_ok_unique (e : MapEvolver K V) bl bl' :
  me_ok hash e bl -> me_ok hash e bl' -> bl = bl'.
Proof. intros (H1 & _) (H2 & _). by apply (ev_wf_unique _ _ _ H1 H2). Qed.

Lemma pm_ok_unique m bl bl' : pm_ok hash m bl -> pm_ok hash m bl' -> bl = bl'.
Proof. intros (_ & H1 & _) (_ & H2 & _). congruence. Qed.

(** Writing a bucket through the evolver keeps the count right. *)
Lemma store_sized (e : MapEvolver K V) bl key b nb size e' bl' ev' :
  me_ok hash e bl -> sized (me_size e) bl ->
  bl !! slot hash bl key = Some b ->
  Evolver_setitem (me_buckets_evolver e) (Z.of_nat (slot hash bl key)) nb = Ok ev' ->
  e' = mkMapEvolver ev' size (me_original_pmap e) ->
  me_ok hash e' bl' ->
  NoDup (fst <$> bucket_items nb) ->
  size = me_size e - len (bucket_items b) + len (bucket_items nb) ->
  sized (me_size e') bl'.
Proof.
  intros Hok Hsz Hb Hset -> Hok' Hnb ->.
  pose proof Hok as (Hwf & _ & Hbok). pose proof Hbok as [Hlen _].
  destruct (ev_setitem _ bl (slot hash bl key) nb Hwf
              (slot_lt hash bl key Hlen)) as (ev2 & Hev2 & Hwf2 & _).
  rewrite Hset in Hev2. injection Hev2 as <-.
  pose proof Hok' as (Hwf' & _ & Hbok'). simpl in Hwf'.
  rewrite (ev_wf_unique _ _ _ Hwf' Hwf2) in *. simpl.
  by apply (insert_sized bl _ b nb).
Qed.

Lemma reallocate_step_sized (e : MapEvolver K V) bl e1 :
  me_ok hash e bl -> sized (me_size e) bl ->
  (if load_exceeded (Evolver_len (me_buckets_evolver e)) (me_size e)
   then _reallocate hash e (2 * Evolver_len (me_buckets_evolver e))
   else Ok e) = Ok e1 ->
  exists bl1, me_ok hash e1 bl1 /\ sized (me_size e1) bl1
              /\ me_size e1 = me_size e
              /\ forall k, view bl1 k = view bl k.
Proof.
  intros Hok Hsz Hstep. destruct (load_exceeded _ _).
  - destruct (reallocate_ok hash e bl Hok) as (e2 & He2 & Hok2 & _ & _ & Hsize).
    rewrite Hstep in He2. injection He2 as <-.
    destruct Hok as (_ & _ & Hbok). pose proof Hbok as [Hlen _].
    exists (groups hash (2 * length bl) (all_items bl)).
    split; [done|]. split; [|split; [done|]].
    + rewrite Hsize. apply rehash_sized; [lia|done].
    + intros k. apply lookup_in_rehash; [lia|done].
  - injection Hstep as <-. by exists bl.
Qed.

Lemma keys_replace key (val : V) (items : list (K * V)) :
  fst <$> ((fun '(k2, v2) => if negb (bool_decide (k2 = key)) then (k2, v2)
                             else (k2, val)) <$> items)
  = fst <$> items.
Proof.
  rewrite <- list_fmap_compose. apply list_fmap_ext. intros i [k v] _. simpl.
  by destruct (negb (bool_decide (k = key))).
Qed.

Lemma bucket_keys_NoDup bl (i : nat) b size :
  buckets_ok hash bl -> sized size bl -> bl !! i = Some b ->
  NoDup (fst <$> bucket_items b).
Proof. intros Hok [Hnd _] Hb. by apply (proj1 (keys_NoDup_iff bl Hok) Hnd i). Qed.

(** [e[key] = val] keeps the count right: one more for a new key. *)
Lemma setitem_sized (e : MapEvolver K V) bl key val e' :
  me_ok hash e bl -> sized (me_size e) bl ->
  MapEvolver_setitem hash e key val = Ok e' ->
  exists bl', me_ok hash e' bl' /\ sized (me_size e') bl'
              /\ me_size e' = match view bl key with
                              | Some _ => me_size e
                              | None => me_size e + 1
                              end.
Proof.
  intros Hok Hsz Hset.
  destruct (map_setitem hash e bl key val Hok) as (e2 & bl' & He2 & Hok' & _).
  rewrite Hset in He2. injection He2 as <-.
  exists bl'. split; [done|].
  unfold MapEvolver_setitem in Hset.
  destruct (if load_exceeded _ _ then _ else _) as [e1|err] eqn:Hstep; [|done].
  destruct (reallocate_step_sized e bl e1 Hok Hsz Hstep)
    as (bl1 & Hok1 & Hsz1 & Hsize1 & Hview1).
  rewrite ret_bind in Hset.
  pose proof Hok1 as (Hwf1 & Hex1 & Hbok1). pose proof Hbok1 as [Hlen1 _].
  destruct (get_bucket_ev hash _ bl1 key Hwf1 Hlen1) as (b & Hb & Hg).
  rewrite Hg in Hset. rewrite ret_bind in Hset. cbv beta iota in Hset.
  rewrite <- (Hview1 key), (lookup_in_slot hash bl1 key b Hb), <- Hsize1.
  pose proof (bucket_keys_NoDup bl1 _ b _ Hbok1 Hsz1 Hb) as Hbnd.
  destruct (truthy b) eqn:Htruthy.
  - rewrite bucket_find_items in Hset.
    destruct (List.find (key_is key) (bucket_items b)) as [[k v]|] eqn:Hfind.
    + destruct (find_key_is key _ _ Hfind) as [Hk Hin]. simpl in Hk. subst k.
      simpl. case_bool_decide as Hvv; cbn [negb] in Hset.
      * injection Hset as <-.
        by rewrite (me_ok_unique e1 bl' bl1 Hok' Hok1).
      * destruct (Evolver_setitem _ _ _) as [ev'|err] eqn:Hev; [|done].
        rewrite ret_bind in Hset. injection Hset as <-. split; [|done].
        eapply (store_sized e1 bl1 key b); try done.
        { cbn [bucket_items]. by rewrite keys_replace. }
        { cbn [bucket_items]. unfold len. rewrite length_fmap. lia. }
    + destruct (Evolver_setitem _ _ _) as [ev'|err] eqn:Hev; [|done].
      rewrite ret_bind in Hset. injection Hset as <-. split; [|done].
      eapply (store_sized e1 bl1 key b); try done.
      { cbn [bucket_items]. simpl. apply NoDup_cons. split; [|done].
        intros Hin. apply list_elem_of_fmap in Hin as ([k v] & E & Hin).
        simpl in E. subst k.
        pose proof (proj1 (find_none_iff _ _) Hfind (key, v) Hin) as Hf.
        unfold key_is in Hf. simpl in Hf.
        by rewrite bool_decide_eq_true_2 in Hf. }
      { cbn [bucket_items]. unfold len. simpl. lia. }
  - assert (bucket_items b = []) as Hempty
      by (destruct b as [[|? ?]|]; simpl in *; done).
    rewrite Hempty. simpl.
    destruct (Evolver_setitem _ _ _) as [ev'|err] eqn:Hev; [|done].
    rewrite ret_bind in Hset. injection Hset as <-. split; [|done].
    eapply (store_sized e1 bl1 key b); try done.
    { cbn [bucket_items]. simpl. apply NoDup_cons. split; [set_solver|constructor]. }
    { rewrite Hempty. cbn [bucket_items]. unfold len. simpl. lia. }
Qed.

Lemma filter_id {T} (P : T -> Prop) `{forall x, Decision (P x)} (l : list T) :
  Forall P l -> filter P l = l.
Proof.
  induction 1 as [|x l Hx _ IH]; [done|].
  rewrite filter_cons, decide_True by done. by rewrite IH.
Qed.

Lemma filter_key_length key (l : list (K * V)) :
  NoDup (fst <$> l) ->
  (length (filter (fun kv => fst kv <> key) l) < length l)%nat ->
  (length (filter (fun kv => fst kv <> key) l) + 1 = length l)%nat.
Proof.
  induction l as [|[k v] l IH]; intros Hnd Hlt; [simpl in Hlt; lia|].
  rewrite fmap_cons in Hnd. apply NoDup_cons in Hnd as [Hk Hnd].
  rewrite filter_cons in *. simpl in *.
  destruct (decide (k <> key)) as [Hne|Heq].
  - simpl in *. rewrite <- IH; [lia|done|lia].
  - assert (k = key) as -> by (by destruct (decide (k = key))).
    rewrite (filter_id (fun kv : K * V => fst kv <> key) l); [lia|].
    apply Forall_forall. intros [k' v'] Hin E. simpl in E. subst k'.
    apply Hk. apply list_elem_of_fmap. by exists (key, v').
Qed.

(** [del e[key]] keeps the count right. *)
Lemma delitem_sized (e : MapEvolver K V) bl key e' :
  me_ok hash e bl -> sized (me_size e) bl ->
  MapEvolver_delitem hash e key = Ok e' ->
  exists bl', me_ok hash e' bl' /\ sized (me_size e') bl'
              /\ me_size e' = me_size e - 1.
Proof.
  intros Hok Hsz Hdel.
  pose proof (map_delitem hash e bl key Hok) as Hspec.
  destruct (view bl key); [|by rewrite Hdel in Hspec].
  destruct Hspec as (e2 & bl' & He2 & Hok' & _).
  rewrite Hdel in He2. injection He2 as <-.
  exists bl'. split; [done|].
  pose proof Hok as (Hwf & Hex & Hbok). pose proof Hbok as [Hlen _].
  destruct (get_bucket_ev hash _ bl key Hwf Hlen) as (b & Hb & Hg).
  unfold MapEvolver_delitem in Hdel. rewrite Hg, ret_bind in Hdel.
  cbv beta iota in Hdel.
  pose proof (bucket_keys_NoDup bl _ b _ Hbok Hsz Hb) as Hbnd.
  destruct (truthy b); [|done].
  set (nb := filter (fun kv => fst kv <> key) (bucket_items b)) in *.
  destruct (Z.ltb_spec (len nb) (len (bucket_items b))) as [Hlt|]; [|done].
  destruct (Evolver_setitem _ _ _) as [ev'|err] eqn:Hev; [|done].
  rewrite ret_bind in Hdel. injection Hdel as <-. split; [|done].
  assert (bucket_items (if negb (bool_decide (length nb = 0%nat))
                        then Some nb else None) = nb) as Enb.
  { case_bool_decide as E; simpl; [|done]. by destruct nb. }
  eapply (store_sized e bl key b); try done.
  - rewrite Enb. eapply sublist_NoDup; [exact Hbnd|].
    apply fmap_sublist, sublist_filter.
  - rewrite Enb. unfold len in *.
    pose proof (filter_key_length key (bucket_items b) Hbnd ltac:(fold nb; lia)).
    fold nb in H. lia.
Qed.

Lemma persistent_sized (e : MapEvolver K V) bl h e2 :
  me_ok hash e bl -> sized (me_size e) bl ->
  MapEvolver_persistent e = Ok (h, e2) ->
  if MapEvolver_is_dirty e
  then pm_ok hash (the h) bl /\ sized (pm_size (the h)) bl
       /\ pm_size (the h) = me_size e /\ exists m', h = Created m'
  else h = Existing (me_original_pmap e).
Proof.
  intros Hok Hsz Hp.
  destruct (map_persistent hash e bl Hok) as (h' & e' & Hp' & Hh).
  rewrite Hp in Hp'. injection Hp' as <- <-.
  destruct (MapEvolver_is_dirty e); [|done].
  destruct Hh as (v & -> & Hpm). simpl. split; [done|]. split; [done|].
  split; [done|]. by eexists.
Qed.

Lemma wf_ok m : pm_wf hash m -> exists bl, pm_ok hash m bl.
Proof. intros (bl & Hok & _). by exists bl. Qed.

(** [m.set(key, val)] *)
Lemma PMap_set_sized m bl key val :
  pm_ok hash m bl -> sized (pm_size m) bl ->
  exists h bl',
    PMap_set hash m key val = Ok h
    /\ pm_ok hash (the h) bl' /\ sized (pm_size (the h)) bl'
    /\ (forall k', view bl' k' = if decide (k' = key) then Some val
                                 else view bl k')
    /\ pm_size (the h) = match view bl key with
                         | Some _ => pm_size m
                         | None => pm_size m + 1
                         end
    /\ (view bl key = Some val -> h = Existing m)
    /\ (view bl key <> Some val -> exists m', h = Created m').
Proof.
  intros Hok Hsz.
  destruct (PMap_set_spec hash m bl key val Hok)
    as (h & bl' & Hset & Hok' & Hview & _ & Hsame & Hnew).
  exists h, bl'. split; [done|]. split; [done|].
  assert (sized (pm_size (the h)) bl'
          /\ pm_size (the h) = match view bl key with
                               | Some _ => pm_size m
                               | None => pm_size m + 1
                               end) as [? ?]; [|done].
  pose proof (evolver_ok hash m bl Hok) as Heok.
  unfold PMap_set in Hset.
  destruct (MapEvolver_setitem hash (PMap_evolver m) key val) as [e'|err] eqn:He;
    [|done].
  rewrite ret_bind in Hset.
  destruct (setitem_sized _ bl key val e' Heok Hsz He) as (bl1 & Hok1 & Hsz1 & Hsize1).
  destruct (MapEvolver_persistent e') as [[h' e2]|err] eqn:Hp; [|done].
  injection Hset as ->.
  pose proof (persistent_sized e' bl1 h e2 Hok1 Hsz1 Hp) as Hh.
  destruct (decide (view bl key = Some val)) as [Hv|Hv].
  - rewrite (Hsame Hv) in *. simpl in *.
    rewrite (pm_ok_unique m bl' bl Hok' Hok). split; [done|]. by rewrite Hv.
  - destruct (map_setitem hash _ bl key val Heok) as (e3 & bl3 & He3 & _ & _ & _ & _ & Hd).
    rewrite He in He3. injection He3 as <-.
    rewrite decide_False in Hd by done. rewrite Hd in Hh.
    destruct Hh as (Hok2 & Hsz2 & Hsize2 & _).
    rewrite (pm_ok_unique _ bl' bl1 Hok' Hok2). split; [done|].
    by rewrite Hsize2, Hsize1.
Qed.

(** [m.remove(key)] *)
Lemma PMap_remove_sized m bl key :
  pm_ok hash m bl -> sized (pm_size m) bl ->
  match view bl key with
  | Some _ =>
      exists m' bl',
        PMap_remove hash m key = Ok (Created m')
        /\ pm_ok hash m' bl' /\ sized (pm_size m') bl'
        /\ (forall k', view bl' k' = if decide (k' = key) then None
                                     else view bl k')
        /\ pm_size m' = pm_size m - 1
  | None => PMap_remove hash m key = Raise KeyError
  end.
Proof.
  intros Hok Hsz. pose proof (PMap_remove_spec hash m bl key Hok) as Hspec.
  pose proof (map_delitem hash _ bl key (evolver_ok hash m bl Hok)) as Hdspec.
  destruct (view bl key); [|done].
  destruct Hspec as (m' & bl' & Hrem & Hok' & Hview & _).
  destruct Hdspec as (e3 & bl3 & He3 & _ & _ & _ & _ & Hd).
  exists m', bl'. split; [done|]. split; [done|].
  assert (sized (pm_size m') bl' /\ pm_size m' = pm_size m - 1) as [? ?]; [|done].
  pose proof (evolver_ok hash m bl Hok) as Heok.
  unfold PMap_remove in Hrem. rewrite He3, ret_bind in Hrem.
  destruct (delitem_sized _ bl key e3 Heok Hsz He3) as (bl1 & Hok1 & Hsz1 & Hsize1).
  destruct (MapEvolver_persistent e3) as [[h' e2]|err] eqn:Hp; [|done].
  injection Hrem as ->.
  pose proof (persistent_sized e3 bl1 _ e2 Hok1 Hsz1 Hp) as Hh.
  rewrite Hd in Hh. destruct Hh as (Hok2 & Hsz2 & Hsize2 & _). simpl in *.
  rewrite (pm_ok_unique _ bl' bl1 Hok' Hok2). split; [done|].
  by rewrite Hsize2, Hsize1.
Qed.

(** [m.discard(key)] *)
Lemma PMap_discard_sized m bl key :
  pm_ok hash m bl -> sized (pm_size m) bl ->
  exists h bl',
    PMap_discard hash m key = Ok h
    /\ pm_ok hash (the h) bl' /\ sized (pm_size (the h)) bl'
    /\ (forall k', view bl' k' = if decide (k' = key) then None
                                 else view bl k')
    /\ match view bl key with
       | Some _ => pm_size (the h) = pm_size m - 1 /\ exists m', h = Created m'
       | None => h = Existing m
       end.
Proof.
  intros Hok Hsz. pose proof (PMap_remove_sized m bl key Hok Hsz) as Hspec.
  unfold PMap_discard. destruct (view bl key) as [v|] eqn:Hv.
  - destruct Hspec as (m' & bl' & -> & Hok' & Hsz' & Hview & Hsize).
    exists (Created m'), bl'. split; [done|]. split; [done|]. split; [done|].
    split; [done|]. split; [done|]. by exists m'.
  - rewrite Hspec. exists (Existing m), bl. split; [done|]. split; [done|].
    split; [done|]. split; [|done].
    intros k'. case_decide as Hk; [by subst k'|done].
Qed.

(** The loop of [update_with] keeps the count right. *)
Lemma update_loop_sized (f : V -> V -> V) items : forall (e : MapEvolver K V) bl,
  me_ok hash e bl -> sized (me_size e) bl ->
  exists e' bl',
    foldM (fun e '(key, value) =>
             present ← MapEvolver_contains hash e key;
             if present : bool then
               old ← MapEvolver_getitem hash e key;
               MapEvolver_setitem hash e key (f old value)
             else MapEvolver_setitem hash e key value) e items = Ok e'
    /\ me_ok hash e' bl' /\ sized (me_size e') bl'
    /\ me_original_pmap e' = me_original_pmap e.
Proof.
  induction items as [|[key value] items IH]; intros e bl Hok Hsz.
  - by exists e, bl.
  - pose proof Hok as (Hwf & Hex & Hbok). pose proof Hbok as [Hlen _].
    destruct (get_bucket_ev hash _ bl key Hwf Hlen) as (b & Hb & Hg).
    assert (exists e1 bl1,
      (present ← MapEvolver_contains hash e key;
       if present : bool then
         old ← MapEvolver_getitem hash e key;
         MapEvolver_setitem hash e key (f old value)
       else MapEvolver_setitem hash e key value) = Ok e1
      /\ me_ok hash e1 bl1 /\ sized (me_size e1) bl1
      /\ me_original_pmap e1 = me_original_pmap e)
      as (e1 & bl1 & Hstep & Hok1 & Hsz1 & Horig1).
    { unfold MapEvolver_contains, MapEvolver_getitem, _contains, _getitem.
      rewrite Hg. rsimpl.
      destruct (bucket_find b key) as [[k0 v0]|]; rsimpl.
      - destruct (map_setitem hash e bl key (f v0 value) Hok)
          as (e1 & bl1 & He1 & _ & _ & _ & Horig1 & _).
        destruct (setitem_sized e bl key _ e1 Hok Hsz He1) as (bl2 & ? & ? & _).
        by exists e1, bl2.
      - destruct (map_setitem hash e bl key value Hok)
          as (e1 & bl1 & He1 & _ & _ & _ & Horig1 & _).
        destruct (setitem_sized e bl key _ e1 Hok Hsz He1) as (bl2 & ? & ? & _).
        by exists e1, bl2. }
    destruct (IH e1 bl1 Hok1 Hsz1) as (e' & bl' & Hloop & Hok' & Hsz' & Horig').
    rewrite foldM_cons. cbv beta iota. rewrite Hstep. rsimpl.
    exists e', bl'. split; [done|]. split; [done|]. split; [done|]. congruence.
Qed.

Lemma empty_pmap_wf : pm_wf hash (@_EMPTY_PMAP K V).
Proof.
  exists (replicate 8 None). split; [apply empty_pmap_ok|].
  split; [constructor|reflexivity].
Qed.

(** Every map built from the empty map is well-formed. *)
Lemma reachable_pm_wf m : pm_reachable hash m -> pm_wf hash m.
Proof.
  induction 1 as [|m k v h _ (bl & Hok & Hsz) Hset
                  |m k h _ (bl & Hok & Hsz) Hrem
                  |m k h _ (bl & Hok & Hsz) Hdis
                  |m f maps h _ (bl & Hok & Hsz) Hupd].
  - apply empty_pmap_wf.
  - destruct (PMap_set_sized m bl k v Hok Hsz) as (h' & bl' & Hset' & Hok' & Hsz' & _).
    rewrite Hset in Hset'. injection Hset' as <-. by exists bl'.
  - pose proof (PMap_remove_sized m bl k Hok Hsz) as Hspec.
    destruct (view bl k); [|by rewrite Hrem in Hspec].
    destruct Hspec as (m' & bl' & Hrem' & Hok' & Hsz' & _).
    rewrite Hrem in Hrem'. injection Hrem' as ->. by exists bl'.
  - destruct (PMap_discard_sized m bl k Hok Hsz)
      as (h' & bl' & Hdis' & Hok' & Hsz' & _).
    rewrite Hdis in Hdis'. injection Hdis' as <-. by exists bl'.
  - pose proof (evolver_ok hash m bl Hok) as Heok.
    destruct (update_loop_sized f (concat maps) _ bl Heok Hsz)
      as (e' & bl' & Hloop & Hok' & Hsz' & Horig).
    unfold PMap_update_with in Hupd. rewrite Hloop, ret_bind in Hupd.
    destruct (MapEvolver_persistent e') as [[h' e2]|err] eqn:Hp; [|done].
    injection Hupd as ->.
    pose proof (persistent_sized e' bl' h e2 Hok' Hsz' Hp) as Hh.
    destruct (MapEvolver_is_dirty e').
    + destruct Hh as (? & ? & _). by exists bl'.
    + subst h. rewrite Horig. by exists bl.
Qed.

Lemma turbo_size (items : list (K * V)) pre_size m :
  _turbo_mapping hash items pre_size = Ok m -> pm_size m = len items.
Proof.
  unfold _turbo_mapping.
  destruct (foldM _ _ _) as [bs|err]; [|done]. rewrite ret_bind.
  destruct (_pvector bs) as [v|err]; [|done]. rewrite ret_bind.
  by intros [= <-].
Qed.

(** [pmap(items)], the keys of [items] being distinct. *)
Lemma pmap_wf (items : list (K * V)) pre_size :
  NoDup (fst <$> items) -> 0 <= pre_size ->
  exists m bl, pmap hash items pre_size = Ok m /\ pm_ok hash m bl
               /\ sized (pm_size m) bl /\ all_items bl ≡ₚ items.
Proof.
  intros Hnd Hpre.
  destruct (pmap_spec hash items pre_size Hpre) as (m & bl & Hm & Hok & Hperm).
  exists m, bl. split; [done|]. split; [done|]. split; [|done]. split.
  - by rewrite Hperm.
  - unfold len. rewrite Hperm. unfold pmap in Hm. destruct items as [|kv items].
    + by injection Hm as <-.
    + by apply turbo_size in Hm.
Qed.

(** What a well-formed map yields, and what it holds. *)
Lemma items_view bl k v :
  buckets_ok hash bl -> NoDup (fst <$> all_items bl) ->
  (k, v) ∈ all_items bl <-> view bl k = Some v.
Proof.
  intros Hok Hnd. rewrite (view_dict_get hash bl k Hok). split.
  - by apply dict_get_NoDup.
  - apply dict_get_Some.
Qed.

End Sized.

Lemma sample_map_wf : pm_wf hash_int sample_map.
Proof. apply reachable_pm_wf. apply sample_map_reachable. Qed.

(** * Proofs: the items of a map, sets and bags *)

Section Items.
Context {K : Type} `{EqDecision K}.

(** Two lists of pairs without repeated keys that bind every key alike
    hold the same pairs. *)
Lemma perm_of_lookups {T} (l1 l2 : list (K * T)) :
  NoDup (fst <$> l1) -> NoDup (fst <$> l2) ->
  (forall k, dict_get l1 k = dict_get l2 k) -> l1 ≡ₚ l2.
Proof.
  intros H1 H2 Hget. apply NoDup_Permutation.
  - by apply (NoDup_fmap_1 fst).
  - by apply (NoDup_fmap_1 fst).
  - intros [k v]. split; intros Hin.
    + apply dict_get_Some. rewrite <- Hget. by apply dict_get_NoDup.
    + apply dict_get_Some. rewrite Hget. by apply dict_get_NoDup.
Qed.

Lemma dict_get_filter {T} (l : list (K * T)) key k :
  k <> key -> dict_get (filter (fun kv => fst kv <> key) l) k = dict_get l k.
Proof.
  intros Hk. unfold dict_get. f_equal. apply find_filter.
  intros kv Hf. apply bool_decide_eq_true in Hf. congruence.
Qed.

Lemma dict_get_filter_key {T} (l : list (K * T)) key :
  dict_get (filter (fun kv => fst kv <> key) l) key = None.
Proof.
  unfold dict_get. destruct (List.find _ _) as [kv|] eqn:Hf; [|done].
  apply find_some in Hf as [Hin Hk]. apply bool_decide_eq_true in Hk.
  apply list_elem_of_In, list_elem_of_filter in Hin as [Hne _]. done.
Qed.

Lemma dict_get_None {T} (l : list (K * T)) key :
  dict_get l key = None <-> key ∉ fst <$> l.
Proof.
  unfold dict_get. split.
  - intros Hn Hin. apply list_elem_of_fmap in Hin as ([k v] & E & Hin).
    simpl in E. subst k.
    destruct (List.find _ l) as [kv|] eqn:Hf; [done|].
    pose proof (proj1 (find_none_iff _ _) Hf (key, v) Hin) as Hb.
    simpl in Hb. by rewrite bool_decide_eq_true_2 in Hb.
  - intros Hnin. destruct (List.find _ l) as [[k v]|] eqn:Hf; [|done].
    apply find_some in Hf as [Hin Hk]. apply bool_decide_eq_true in Hk.
    simpl in Hk. subst k. exfalso. apply Hnin.
    apply list_elem_of_fmap. exists (key, v). split; [done|].
    by apply list_elem_of_In.
Qed.

Lemma filter_absent {T} (l : list (K * T)) key :
  key ∉ fst <$> l -> filter (fun kv => fst kv <> key) l = l.
Proof.
  intros Hnin. apply filter_id. apply Forall_forall. intros [k v] Hin E.
  simpl in E. subst k. apply Hnin. apply list_elem_of_fmap. by exists (key, v).
Qed.

Lemma keys_filter_NoDup {T} (l : list (K * T)) key :
  NoDup (fst <$> l) -> NoDup (key :: (fst <$> filter (fun kv => fst kv <> key) l)).
Proof.
  intros Hnd. apply NoDup_cons. split.
  - intros Hin. apply list_elem_of_fmap in Hin as ([k v] & E & Hin).
    simpl in E. subst k. by apply list_elem_of_filter in Hin as [Hne _].
  - eapply sublist_NoDup; [exact Hnd|]. apply fmap_sublist, sublist_filter.
Qed.

(** A list of pairs without repeated keys, seen from one of its keys. *)
Lemma items_split {T} (l : list (K * T)) key v :
  NoDup (fst <$> l) -> dict_get l key = Some v ->
  l ≡ₚ (key, v) :: filter (fun kv => fst kv <> key) l.
Proof.
  intros Hnd Hget. apply perm_of_lookups; [done|by apply keys_filter_NoDup|].
  intros k. destruct (decide (k = key)) as [->|Hne].
  - rewrite Hget. unfold dict_get. simpl. by rewrite bool_decide_eq_true_2.
  - unfold dict_get at 2. simpl. rewrite bool_decide_eq_false_2 by done.
    symmetry. by apply dict_get_filter.
Qed.

(** [set(elements)] holds the elements, each once. *)
Lemma set_of_loop (elements : list K) : forall acc,
  NoDup acc ->
  let s := fold_left (fun acc k => if bool_decide (k ∈ acc) then acc else acc ++ [k])
                     elements acc in
  NoDup s /\ forall x, x ∈ s <-> x ∈ acc \/ x ∈ elements.
Proof.
  induction elements as [|k elements IH]; intros acc Hnd; simpl.
  - split; [done|]. intros x. rewrite elem_of_nil. tauto.
  - case_bool_decide as Hk.
    + destruct (IH acc Hnd) as [Hs Hin]. split; [done|].
      intros x. rewrite Hin, elem_of_cons. split; [tauto|].
      intros [?|[->|?]]; auto.
    + destruct (IH (acc ++ [k])) as [Hs Hin].
      { apply NoDup_app. split; [done|]. split; [|apply NoDup_singleton].
        intros x Hx Hx'. apply list_elem_of_singleton in Hx'. by subst x. }
      split; [done|]. intros x.
      rewrite Hin, elem_of_app, list_elem_of_singleton, elem_of_cons. tauto.
Qed.

Lemma set_of_spec (elements : list K) :
  NoDup (set_of elements) /\ forall x, x ∈ set_of elements <-> x ∈ elements.
Proof.
  destruct (set_of_loop elements [] (NoDup_nil_2)) as [Hnd Hin].
  split; [done|]. intros x. unfold set_of. rewrite Hin, elem_of_nil. tauto.
Qed.

Lemma dict_setitem_keys {T} (d : list (K * T)) kv :
  fst <$> dict_setitem d kv
  = if bool_decide (fst kv ∈ fst <$> d) then fst <$> d else (fst <$> d) ++ [fst kv].
Proof.
  unfold dict_setitem. case_bool_decide as Hk.
  - rewrite <- list_fmap_compose. apply list_fmap_ext. intros i kv' _. simpl.
    by case_bool_decide.
  - by rewrite fmap_app.
Qed.

Lemma dict_update_keys {T} (pairs : list (K * T)) : forall d,
  fst <$> dict_update d pairs
  = fold_left (fun acc k => if bool_decide (k ∈ acc) then acc else acc ++ [k])
              (fst <$> pairs) (fst <$> d).
Proof.
  unfold dict_update. induction pairs as [|kv pairs IH]; intros d; [done|].
  simpl. rewrite IH. by rewrite dict_setitem_keys.
Qed.

Lemma dict_of_keys {T} (pairs : list (K * T)) :
  fst <$> dict_of pairs = set_of (fst <$> pairs).
Proof. apply dict_update_keys. Qed.

End Items.

Section MapItems.
Context {K V : Type} `{EqDecision K}.
Context (hash : K -> Z).
Implicit Types (bl : list (bucket K V)) (m : PMap K V) (key k : K).

Local Abbreviation view := (lookup_in hash).

(** The pairs held after a key was written. *)
Lemma set_items_perm bl bl' key val :
  buckets_ok hash bl -> buckets_ok hash bl' ->
  NoDup (fst <$> all_items bl) -> NoDup (fst <$> all_items bl') ->
  (forall k', view bl' k' = if decide (k' = key) then Some val else view bl k') ->
  all_items bl' ≡ₚ (key, val) :: filter (fun kv => fst kv <> key) (all_items bl).
Proof.
  intros Hok Hok' Hnd Hnd' Hview.
  apply perm_of_lookups; [done|by apply keys_filter_NoDup|].
  intros k. rewrite <- (view_dict_get hash bl' k Hok'), Hview.
  unfold dict_get at 1. simpl. case_decide as Hk.
  - subst k. by rewrite bool_decide_eq_true_2.
  - rewrite bool_decide_eq_false_2 by done.
    fold (dict_get (filter (fun kv : K * V => fst kv <> key) (all_items bl)) k).
    rewrite dict_get_filter by done. by apply view_dict_get.
Qed.

(** The pairs held after a key was removed. *)
Lemma remove_items_perm bl bl' key :
  buckets_ok hash bl -> buckets_ok hash bl' ->
  NoDup (fst <$> all_items bl) -> NoDup (fst <$> all_items bl') ->
  (forall k', view bl' k' = if decide (k' = key) then None else view bl k') ->
  all_items bl' ≡ₚ filter (fun kv => fst kv <> key) (all_items bl).
Proof.
  intros Hok Hok' Hnd Hnd' Hview.
  apply perm_of_lookups; [done| |].
  { eapply sublist_NoDup; [exact Hnd|]. apply fmap_sublist, sublist_filter. }
  intros k. rewrite <- (view_dict_get hash bl' k Hok'), Hview.
  case_decide as Hk.
  - subst k. by rewrite dict_get_filter_key.
  - rewrite dict_get_filter by done. by apply view_dict_get.
Qed.

Lemma contains_items m bl key :
  pm_ok hash m bl ->
  PMap_contains hash m key = Ok (bool_decide (key ∈ fst <$> all_items bl)).
Proof.
  intros Hok. rewrite (contains_view hash m bl key Hok).
  destruct Hok as (_ & _ & Hbok). rewrite (view_dict_get hash bl key Hbok).
  destruct (dict_get (all_items bl) key) as [v|] eqn:Hget.
  - rewrite bool_decide_eq_true_2; [done|].
    apply dict_get_Some in Hget. apply list_elem_of_fmap. by exists (key, v).
  - rewrite bool_decide_eq_false_2; [done|]. by apply dict_get_None.
Qed.

Lemma get_items m bl key default :
  pm_ok hash m bl ->
  PMap_get hash m key default
  = Ok (match dict_get (all_items bl) key with Some v => v | None => default end).
Proof.
  intros Hok. unfold PMap_get. rewrite (getitem_view hash m bl key Hok).
  destruct Hok as (_ & _ & Hbok). rewrite (view_dict_get hash bl key Hbok).
  by destruct (dict_get (all_items bl) key).
Qed.

End MapItems.

Section SetProofs.
Context {K : Type} `{EqDecision K}.
Context (hash : K -> Z).
Implicit Types (s : PSet K) (x y : K).

Lemma pset_spec (xs : list K) pre_size :
  0 <= pre_size ->
  exists s bl, pset hash xs pre_size = Ok s /\ pm_ok hash (_map s) bl
               /\ sized (pm_size (_map s)) bl
               /\ fst <$> all_items bl ≡ₚ set_of xs.
Proof.
  intros Hpre. rewrite pset_unfold.
  set (d := dict_of ((fun k => (k, true)) <$> xs)).
  assert (fst <$> d = set_of xs) as Hkeys
    by (unfold d; by rewrite dict_of_keys, keys_of_elements).
  destruct (pmap_wf hash d pre_size) as (m & bl & -> & Hok & Hsz & Hperm).
  { rewrite Hkeys. apply set_of_spec. }
  { done. }
  exists (mkPSet m), bl. split; [done|]. split; [done|]. split; [done|].
  by rewrite Hperm, Hkeys.
Qed.

End SetProofs.

Section BagProofs.
Context {K : Type} `{EqDecision K}.
Context (hash : K -> Z).
Implicit Types (b : PBag K) (x y : K) (its : list (K * Z)).

Lemma sum_fold (values : list Z) : forall a, fold_left Z.add values a = a + total values.
Proof.
  induction values as [|v values IH]; intros a; simpl; [lia|].
  rewrite IH. lia.
Qed.

Lemma total_perm (l1 l2 : list Z) : l1 ≡ₚ l2 -> total l1 = total l2.
Proof. induction 1; simpl; lia. Qed.

Lemma repeated_cons x c its :
  repeated ((x, c) :: its) = replicate (Z.to_nat c) x ++ repeated its.
Proof. done. Qed.

Lemma repeated_perm its its' : its ≡ₚ its' -> repeated its ≡ₚ repeated its'.
Proof. intros Hp. unfold repeated. by rewrite Hp. Qed.

Lemma len_repeated its :
  Forall (fun kv => 1 <= snd kv) its -> len (repeated its) = total (snd <$> its).
Proof.
  induction 1 as [|[x c] its Hc _ IH]; [done|].
  rewrite repeated_cons, len_app, IH. cbn [fmap list_fmap total foldr snd] in *.
  unfold len, total. rewrite length_replicate. lia.
Qed.

Lemma occurrences_app x (l1 l2 : list K) :
  occurrences x (l1 ++ l2) = occurrences x l1 + occurrences x l2.
Proof. unfold occurrences. by rewrite filter_app, len_app. Qed.

Lemma occurrences_replicate x y (n : nat) :
  occurrences x (replicate n y) = if decide (y = x) then Z.of_nat n else 0.
Proof.
  unfold occurrences, len. induction n as [|n IH]; simpl.
  - by case_decide.
  - rewrite filter_cons. case_decide; simpl; lia.
Qed.

Lemma occurrences_perm x (l1 l2 : list K) :
  l1 ≡ₚ l2 -> occurrences x l1 = occurrences x l2.
Proof. intros Hp. unfold occurrences, len. by rewrite Hp. Qed.

Lemma occurrences_absent x its :
  x ∉ fst <$> its -> occurrences x (repeated its) = 0.
Proof.
  induction its as [|[y c] its IH]; intros Hnin; [done|].
  rewrite repeated_cons, occurrences_app, occurrences_replicate.
  rewrite fmap_cons, not_elem_of_cons in Hnin. destruct Hnin as [Hne Hnin].
  simpl in Hne. rewrite decide_False by done. by rewrite IH.
Qed.

Lemma occurrences_repeated x its :
  NoDup (fst <$> its) -> Forall (fun kv => 1 <= snd kv) its ->
  occurrences x (repeated its)
  = match dict_get its x with Some c => c | None => 0 end.
Proof.
  intros Hnd Hpos. destruct (dict_get its x) as [c|] eqn:Hget.
  - pose proof (items_split its x c Hnd Hget) as Hp.
    rewrite (occurrences_perm x _ _ (repeated_perm _ _ Hp)).
    rewrite repeated_cons, occurrences_app, occurrences_replicate.
    rewrite decide_True by done. rewrite occurrences_absent.
    + apply dict_get_Some in Hget.
      pose proof (proj1 (Forall_forall _ _) Hpos (x, c) Hget) as Hc.
      simpl in Hc. lia.
    + intros Hin. apply list_elem_of_fmap in Hin as ([k v] & E & Hin).
      simpl in E. subst k. by apply list_elem_of_filter in Hin as [Hne _].
  - apply occurrences_absent. by apply dict_get_None.
Qed.

Lemma elem_of_repeated x its :
  Forall (fun kv => 1 <= snd kv) its ->
  x ∈ repeated its <-> x ∈ fst <$> its.
Proof.
  induction 1 as [|[y c] its Hc _ IH].
  - unfold repeated. simpl. by rewrite !elem_of_nil.
  - rewrite repeated_cons, elem_of_app, IH, fmap_cons, elem_of_cons. simpl in *.
    split.
    + intros [Hin|Hin]; [|by right].
      apply elem_of_replicate in Hin as [-> _]. by left.
    + intros [->|Hin]; [|by right].
      left. apply elem_of_replicate. split; [done|lia].
Qed.

(** What a bag yields, and what its other methods report. *)
Lemma bag_reads b :
  bag_wf hash b ->
  exists ys,
    PBag_iter b = Ok ys /\ PBag_len b = Ok (len ys)
    /\ (forall x, PBag_count hash b x = Ok (occurrences x ys))
    /\ (forall x, PBag_contains hash b x = Ok (bool_decide (x ∈ ys))).
Proof.
  intros (bl & Hok & [Hnd Hsize] & Hpos).
  pose proof (iteritems_ok hash _ bl Hok) as Hit.
  exists (repeated (all_items bl)).
  unfold PBag_iter, PBag_len, PMap_itervalues, PBag_count, PBag_contains.
  rewrite Hit. rsimpl. split; [done|]. split; [|split].
  - by rewrite sum_fold, len_repeated.
  - intros x. rewrite (get_items hash _ bl) by done.
    by rewrite occurrences_repeated.
  - intros x. rewrite (contains_items hash _ bl) by done.
    f_equal. apply bool_decide_ext. symmetry. by apply elem_of_repeated.
Qed.

(** [_add_to_counters] *)
Lemma add_to_counters_spec (m : PMap K Z) bl x :
  pm_ok hash m bl -> sized (pm_size m) bl ->
  Forall (fun kv => 1 <= snd kv) (all_items bl) ->
  exists m' bl',
    _add_to_counters hash m x = Ok m'
    /\ pm_ok hash m' bl' /\ sized (pm_size m') bl'
    /\ Forall (fun kv => 1 <= snd kv) (all_items bl')
    /\ repeated (all_items bl') ≡ₚ x :: repeated (all_items bl).
Proof.
  intros Hok Hsz Hpos. pose proof Hsz as [Hnd _].
  pose proof Hok as (_ & _ & Hbok).
  unfold _add_to_counters. rewrite (get_items hash m bl) by done. rsimpl.
  set (c := match dict_get (all_items bl) x with Some v => v | None => 0 end).
  destruct (PMap_set_sized hash m bl x (c + 1) Hok Hsz)
    as (h & bl' & -> & Hok' & Hsz' & Hview & _).
  rsimpl. exists (the h), bl'. split; [done|]. split; [done|]. split; [done|].
  pose proof Hsz' as [Hnd' _]. pose proof Hok' as (_ & _ & Hbok').
  pose proof (set_items_perm hash bl bl' x (c + 1) Hbok Hbok' Hnd Hnd' Hview) as Hp.
  assert (0 <= c) as Hc.
  { unfold c. destruct (dict_get (all_items bl) x) as [v|] eqn:Hget; [|lia].
    apply dict_get_Some in Hget.
    pose proof (proj1 (Forall_forall _ _) Hpos (x, v) Hget) as Hv. simpl in Hv. lia. }
  split.
  - rewrite Hp. apply Forall_cons. split; [simpl; lia|].
    apply Forall_forall. intros kv Hin. apply list_elem_of_filter in Hin as [_ Hin].
    by apply (proj1 (Forall_forall _ _) Hpos).
  - rewrite (repeated_perm _ _ Hp), repeated_cons.
    replace (Z.to_nat (c + 1)) with (S (Z.to_nat c)) by lia. simpl.
    apply Permutation_skip.
    unfold c. destruct (dict_get (all_items bl) x) as [v|] eqn:Hget.
    + symmetry.
      rewrite (repeated_perm _ _ (items_split (all_items bl) x v Hnd Hget)).
      by rewrite repeated_cons.
    + simpl. rewrite filter_absent; [done|]. by apply dict_get_None.
Qed.

Lemma empty_bag_wf : bag_wf hash (@_EMPTY_PBAG K).
Proof.
  exists (replicate 8 None). split; [apply empty_pmap_ok|].
  split; [split; [constructor|reflexivity]|constructor].
Qed.

Lemma add_loop (xs : list K) : forall (m : PMap K Z) bl,
  pm_ok hash m bl -> sized (pm_size m) bl ->
  Forall (fun kv => 1 <= snd kv) (all_items bl) ->
  exists m' bl',
    foldM (_add_to_counters hash) m xs = Ok m'
    /\ pm_ok hash m' bl' /\ sized (pm_size m') bl'
    /\ Forall (fun kv => 1 <= snd kv) (all_items bl')
    /\ repeated (all_items bl') ≡ₚ repeated (all_items bl) ++ xs.
Proof.
  induction xs as [|x xs IH]; intros m bl Hok Hsz Hpos.
  - exists m, bl. rewrite app_nil_r. done.
  - destruct (add_to_counters_spec m bl x Hok Hsz Hpos)
      as (m1 & bl1 & Hadd & Hok1 & Hsz1 & Hpos1 & Hp1).
    destruct (IH m1 bl1 Hok1 Hsz1 Hpos1) as (m' & bl' & Hloop & Hok' & Hsz' & Hpos' & Hp').
    exists m', bl'. rewrite foldM_cons, Hadd. rsimpl.
    split; [done|]. split; [done|]. split; [done|]. split; [done|].
    rewrite Hp', Hp1. by rewrite <- Permutation_middle.
Qed.

(** [pbag(xs)] *)
Lemma pbag_spec (xs : list K) :
  exists b ys, pbag hash xs = Ok b /\ bag_wf hash b
               /\ PBag_iter b = Ok ys /\ ys ≡ₚ xs.
Proof.
  destruct xs as [|x xs].
  - exists _EMPTY_PBAG, []. split; [done|]. split; [apply empty_bag_wf|]. done.
  - destruct (add_loop (x :: xs) _EMPTY_PMAP (replicate 8 None))
      as (m & bl & Hloop & Hok & Hsz & Hpos & Hp).
    { apply empty_pmap_ok. }
    { split; [constructor|reflexivity]. }
    { constructor. }
    exists (mkPBag m), (repeated (all_items bl)).
    unfold pbag. rewrite Hloop. rsimpl. split; [done|].
    split; [by exists bl|]. split; [|done].
    unfold PBag_iter. simpl. by rewrite (iteritems_ok hash m bl Hok).
Qed.

End BagProofs.

Lemma sample_set_wf : ps_wf hash_int sample_set.
Proof.
  destruct (pset_spec hash_int [1; 2; 2; 3] 8 ltac:(lia)) as (s & bl & Hs & Hok & Hsz & _).
  assert (pset hash_int [1; 2; 2; 3] 8 = Ok sample_set) as Hs'
    by (vm_compute; reflexivity).
  rewrite Hs' in Hs. injection Hs as <-.
  by exists bl.
Qed.

Lemma sample_bag_wf : bag_wf hash_int sample_bag.
Proof.
  destruct (pbag_spec hash_int [1; 2; 2; 3]) as (b & ys & Hb & Hwf & _).
  assert (pbag hash_int [1; 2; 2; 3] = Ok sample_bag) as Hb'
    by (vm_compute; reflexivity).
  rewrite Hb' in Hb. injection Hb as <-.
  done.
Qed.

(** * Proofs: linked lists and deques *)

Section PListProofs.
Context {A : Type}.
Implicit Types (l r : plist A) (b : PListBuilder A) (xs ys : list A).

(** A list is what it yields. *)
Lemma plist_iter_inj l r : plist_iter l = plist_iter r -> l = r.
Proof.
  revert r. induction l as [|x l IH]; intros [|y r] E; try done.
  simpl in E. injection E as -> E. by rewrite (IH r E).
Qed.

Lemma plist_mcons_iter ys : forall l,
  plist_iter (plist_mcons l ys) = rev ys ++ plist_iter l.
Proof.
  unfold plist_mcons. induction ys as [|y ys IH]; intros l; [done|].
  simpl. rewrite IH. simpl. by rewrite <- app_assoc.
Qed.

Lemma set_last_rest_iter l node :
  plist_iter (set_last_rest l node) = plist_iter l ++ plist_iter node.
Proof.
  induction l as [|x l IH]; [done|].
  destruct l as [|y l]; [done|].
  change (set_last_rest (_PList x (_PList y l)) node)
    with (_PList x (set_last_rest (_PList y l) node)).
  simpl in *. by rewrite IH.
Qed.

Lemma builder_new_ok : builder_ok (@PListBuilder_new A).
Proof. done. Qed.

Lemma builder_append_iter b node :
  builder_ok b ->
  plist_iter (builder_head (PListBuilder_append b node))
  = plist_iter (builder_head b) ++ plist_iter node.
Proof.
  intros Hok. unfold PListBuilder_append, builder_ok in *.
  destruct (plist_bool (builder_tail b)); simpl.
  - apply set_last_rest_iter.
  - by destruct (builder_head b).
Qed.

Lemma append_elem_ok b x : builder_ok b -> builder_ok (append_elem b x).
Proof.
  intros Hok. unfold append_elem, PListBuilder_append, builder_ok in *.
  destruct (plist_bool (builder_tail b)); simpl; [|done].
  destruct (builder_head b) as [|y [|z l]]; done.
Qed.

Lemma split_loop_spec l : forall b (i index : Z),
  builder_ok b ->
  let r := split_loop b l i index in
  builder_ok r.1
  /\ plist_iter (builder_head r.1)
     = plist_iter (builder_head b) ++ take (Z.to_nat (index - i)) (plist_iter l)
  /\ plist_iter r.2 = drop (Z.to_nat (index - i)) (plist_iter l).
Proof.
  induction l as [|x l IH]; intros b i index Hok; simpl.
  - rewrite take_nil, drop_nil, app_nil_r. done.
  - destruct (Z.ltb_spec i index) as [Hlt|Hge].
    + destruct (IH (append_elem b x) (i + 1) index (append_elem_ok b x Hok))
        as (Hok' & Hhead & Hrest).
      split; [done|].
      replace (Z.to_nat (index - i)) with (S (Z.to_nat (index - (i + 1)))) by lia.
      simpl. rewrite Hhead, Hrest. split; [|done].
      unfold append_elem. rewrite builder_append_iter by done.
      simpl. by rewrite <- app_assoc.
    + replace (Z.to_nat (index - i)) with 0%nat by lia.
      simpl. by rewrite app_nil_r.
Qed.

(** [l.split(index)] *)
Lemma plist_split_spec l index :
  let r := plist_split l index in
  plist_iter r.1 = take (Z.to_nat index) (plist_iter l)
  /\ plist_iter r.2 = drop (Z.to_nat index) (plist_iter l)
  /\ (plist_len l <= index -> r = (l, _EmptyPList)).
Proof.
  unfold plist_split.
  pose proof (split_loop_spec l PListBuilder_new 0 index builder_new_ok) as Hloop.
  destruct (split_loop PListBuilder_new l 0 index) as [lb right_list].
  simpl in Hloop. destruct Hloop as (_ & Hhead & Hrest).
  rewrite Z.sub_0_r in *.
  destruct right_list as [|y right_list]; simpl in *.
  - assert (length (plist_iter l) <= Z.to_nat index)%nat as Hle.
    { destruct (decide (length (plist_iter l) <= Z.to_nat index)%nat); [done|].
      assert (length (drop (Z.to_nat index) (plist_iter l)) = 0%nat) as E
        by (by rewrite <- Hrest).
      rewrite length_drop in E. lia. }
    rewrite take_ge, drop_ge by done. done.
  - split; [done|]. split; [done|]. intros Hlen.
    assert (length (drop (Z.to_nat index) (plist_iter l)) = 0%nat) as E.
    { rewrite length_drop. unfold plist_len, len in Hlen. lia. }
    by rewrite <- Hrest in E.
Qed.

Lemma drop_loop_iter (n : nat) : forall l,
  plist_iter (drop_loop n l) = drop n (plist_iter l).
Proof.
  induction n as [|n IH]; intros l; [done|].
  simpl. rewrite IH, plist_rest_iter. rewrite drop_drop. done.
Qed.

Lemma plist_first_iter l :
  plist_first l = match plist_iter l with
                  | x :: _ => Ok x
                  | [] => Raise AttributeError
                  end.
Proof. by destruct l. Qed.

(** [l[index]] is [list(l)[index]]. *)
Lemma plist_getitem_spec l index :
  plist_getitem l index = list_getitem (plist_iter l) index.
Proof.
  unfold plist_getitem, list_getitem, plist_drop, plist_len.
  set (j := if index <? 0 then index + len (plist_iter l) else index).
  destruct (Z.ltb_spec j 0) as [Hneg|Hpos].
  - by destruct (Z.leb_spec 0 j); [lia|].
  - destruct (Z.leb_spec 0 j); [|lia]. rsimpl.
    rewrite plist_first_iter, drop_loop_iter. cbn [andb].
    destruct (Z.ltb_spec j (len (plist_iter l))) as [Hlt|Hge].
    + unfold len in Hlt.
      assert (Z.to_nat j < length (plist_iter l))%nat as Hn by lia.
      destruct (lookup_lt_is_Some_2 _ _ Hn) as [x Hx]. rewrite Hx.
      by rewrite (drop_S _ x _ Hx).
    + unfold len in Hge. rewrite drop_ge by lia. done.
Qed.

Lemma remove_loop_spec (elem_eq : A -> A -> bool) elem l : forall b,
  builder_ok b ->
  if existsb (fun y => elem_eq y elem) (plist_iter l)
  then exists l', remove_loop elem_eq b l elem = Ok l'
                  /\ plist_iter l'
                     = plist_iter (builder_head b)
                       ++ remove_first (fun y => elem_eq y elem) (plist_iter l)
  else remove_loop elem_eq b l elem = Raise ValueError.
Proof.
  induction l as [|x l IH]; intros b Hok; simpl; [done|].
  destruct (elem_eq x elem); simpl.
  - eexists. split; [done|]. unfold append_plist.
    by rewrite builder_append_iter.
  - specialize (IH (append_elem b x) (append_elem_ok b x Hok)).
    destruct (existsb _ _); [|done].
    destruct IH as (l' & -> & Hl'). exists l'. split; [done|].
    rewrite Hl'. unfold append_elem. rewrite builder_append_iter by done.
    simpl. by rewrite <- app_assoc.
Qed.

Lemma plist_remove_spec (elem_eq : A -> A -> bool) l elem :
  if existsb (fun y => elem_eq y elem) (plist_iter l)
  then exists l', plist_remove elem_eq l elem = Ok l'
                  /\ plist_iter l'
                     = remove_first (fun y => elem_eq y elem) (plist_iter l)
  else plist_remove elem_eq l elem = Raise ValueError.
Proof. apply (remove_loop_spec elem_eq elem l PListBuilder_new builder_new_ok). Qed.

Lemma remove_first_app_l (p : A -> bool) xs ys :
  existsb p xs = true -> remove_first p (xs ++ ys) = remove_first p xs ++ ys.
Proof.
  induction xs as [|x xs IH]; simpl; [done|].
  destruct (p x); [done|]. simpl. intros H. by rewrite IH.
Qed.

Lemma remove_first_app_r (p : A -> bool) xs ys :
  existsb p xs = false -> remove_first p (xs ++ ys) = xs ++ remove_first p ys.
Proof.
  induction xs as [|x xs IH]; simpl; [done|].
  destruct (p x); [done|]. simpl. intros H. by rewrite IH.
Qed.

Lemma remove_first_length (p : A -> bool) xs :
  existsb p xs = true -> (length (remove_first p xs) + 1 = length xs)%nat.
Proof.
  induction xs as [|x xs IH]; simpl; [done|].
  destruct (p x); simpl; [lia|]. intros H. rewrite <- IH by done. lia.
Qed.

End PListProofs.

Section PDequeProofs.
Context {A : Type}.
Implicit Types (d : PDeque A) (p s : plist A) (xs : list A) (x : A).

Lemma pop_order_rev p s : pop_order p s = rev (pop_order s p).
Proof. unfold pop_order. by rewrite rev_app_distr, rev_involutive. Qed.

(** The tip of a deque side: the element [_pop_lists] would take first. *)
Lemma tip_from_lists_spec p s :
  _tip_from_lists p s = match pop_order p s with
                        | x :: _ => Ok x
                        | [] => Raise IndexError
                        end.
Proof.
  unfold _tip_from_lists, pop_order.
  destruct p as [|x p]; simpl; [|done].
  destruct s as [|y s]; [done|]. cbn [plist_bool].
  rewrite plist_getitem_spec. unfold list_getitem.
  set (l := plist_iter (_PList y s)).
  assert (0 < len l) as Hl by (unfold l, len; simpl; lia).
  destruct (Z.ltb_spec (-1) 0); [|lia].
  destruct (Z.leb_spec 0 (-1 + len l)); [|lia].
  destruct (Z.ltb_spec (-1 + len l) (len l)); [|lia]. cbn [andb].
  destruct (rev l) as [|z zs] eqn:Hrev.
  - apply (f_equal (@length A)) in Hrev. rewrite length_rev in Hrev.
    unfold len in Hl. simpl in Hrev. lia.
  - assert (l = rev zs ++ [z]) as ->.
    { rewrite <- (rev_involutive l), Hrev. done. }
    unfold len. rewrite length_app. simpl.
    replace (Z.to_nat (-1 + Z.of_nat (length (rev zs) + 1))) with (length (rev zs))
      by lia.
    by rewrite list_lookup_middle.
Qed.

Lemma left_spec d :
  PDeque_left d = match PDeque_iter d with
                  | x :: _ => Ok x
                  | [] => Raise IndexError
                  end.
Proof.
  unfold PDeque_left. by rewrite tip_from_lists_spec, iter_as_pop_order_left.
Qed.

Lemma right_spec d :
  PDeque_right d = match rev (PDeque_iter d) with
                   | x :: _ => Ok x
                   | [] => Raise IndexError
                   end.
Proof.
  unfold PDeque_right.
  by rewrite tip_from_lists_spec, iter_as_pop_order_right, rev_involutive.
Qed.

Lemma iter_length d : dq_wf d -> PDeque_len d = len (PDeque_iter d).
Proof.
  intros [Hlen _]. unfold PDeque_len. rewrite Hlen, iter_as_pop_order_left.
  unfold len. by rewrite length_pop_order.
Qed.

Lemma extend_list_spec xs : forall p (n : Z),
  fold_left (fun '(the_list, count) elem => (plist_cons the_list elem, count + 1))
            xs (p, n)
  = (plist_mcons p xs, n + len xs).
Proof.
  induction xs as [|x xs IH]; intros p n; simpl.
  - f_equal. unfold len. simpl. lia.
  - rewrite IH. f_equal. unfold len. simpl. lia.
Qed.

Lemma pop_lists_spec p s (count : Z) :
  let r := _pop_lists p s count in
  pop_order r.1 r.2 = drop (Z.to_nat count) (pop_order p s).
Proof. apply pop_lists_loop_order. Qed.

Lemma plist_len_cons p x : plist_len (plist_cons p x) = plist_len p + 1.
Proof. unfold plist_len, len. simpl. lia. Qed.

Lemma plist_len_mcons p xs : plist_len (plist_mcons p xs) = plist_len p + len xs.
Proof.
  unfold plist_len. rewrite plist_mcons_iter. unfold len.
  rewrite length_app, length_rev. lia.
Qed.

Lemma pop_order_cons p s x : pop_order p (plist_cons s x) = pop_order p s ++ [x].
Proof. unfold pop_order. simpl. by rewrite app_assoc. Qed.

Lemma pop_order_mcons p s xs :
  pop_order p (plist_mcons s xs) = pop_order p s ++ xs.
Proof.
  unfold pop_order. rewrite plist_mcons_iter, rev_app_distr, rev_involutive.
  by rewrite app_assoc.
Qed.

Lemma new_fields (l r : plist A) (n : Z) maxlen d :
  PDeque_new l r n maxlen = Ok d -> d = mkPDeque l r n maxlen.
Proof.
  unfold PDeque_new. destruct maxlen as [m|]; [|by intros [= <-]].
  destruct (m <? 0); [done|]. by intros [= <-].
Qed.

Lemma pop_left_maxlen d (count : Z) d' :
  PDeque_pop_left d count = Ok d' -> _maxlen d' = _maxlen d.
Proof.
  unfold PDeque_pop_left. destruct (_pop_lists _ _ _) as [a b].
  intros Hd. by rewrite (new_fields _ _ _ _ _ Hd).
Qed.

Lemma pop_right_maxlen d (count : Z) d' :
  PDeque_pop_right d count = Ok d' -> _maxlen d' = _maxlen d.
Proof.
  unfold PDeque_pop_right. destruct (_pop_lists _ _ _) as [a b].
  intros Hd. by rewrite (new_fields _ _ _ _ _ Hd).
Qed.

(** [xs[-n:]] *)
Lemma slice_tail xs (n : Z) :
  0 <= n ->
  list_slice xs (- n) (len xs)
  = if n =? 0 then xs else drop (length xs - Z.to_nat n) xs.
Proof.
  intros Hn. destruct (Z.eqb_spec n 0) as [->|Hne].
  - change (- 0) with (Z.of_nat 0). unfold len. rewrite list_slice_nat.
    rewrite drop_0, Nat.sub_0_r. by rewrite take_ge.
  - unfold list_slice. pose proof (len_nonneg xs) as Hl.
    destruct (Z.ltb_spec (- n) 0); [|lia].
    destruct (Z.ltb_spec (len xs) 0); [lia|].
    assert (Z.min (len xs) (Z.max 0 (len xs)) = len xs) as -> by lia.
    assert (Z.to_nat (Z.min (len xs) (Z.max 0 (- n + len xs)))
            = (length xs - Z.to_nat n)%nat) as Ha by (unfold len in *; lia).
    rewrite Ha. apply take_ge. rewrite length_drop. unfold len in *. lia.
Qed.

(** [pdeque(xs, maxlen)] *)
Lemma pdeque_iter xs maxlen d :
  pdeque xs maxlen = Ok d ->
  PDeque_iter d = match maxlen with
                  | Some n => list_slice xs (- n) (len xs)
                  | None => xs
                  end
  /\ _maxlen d = maxlen.
Proof.
  unfold pdeque.
  set (t := match maxlen with
            | Some n => list_slice xs (- n) (len xs)
            | None => xs
            end).
  intros Hd. rewrite (new_fields _ _ _ _ _ Hd). split; [|done].
  unfold PDeque_iter. cbn [_left_list _right_list].
  rewrite plist_reverse_iter, !plist_of_iter, rev_involutive.
  assert (len t / 2 = Z.of_nat (length t / 2)) as ->
    by (unfold len; by rewrite Nat2Z.inj_div).
  change 0 with (Z.of_nat 0). unfold len. rewrite !list_slice_nat.
  rewrite drop_0, Nat.sub_0_r.
  rewrite (take_ge (drop _ _)) by (rewrite length_drop; lia).
  apply take_drop.
Qed.

(** [d.extend(xs)] *)
Lemma dq_extend_spec d xs :
  dq_wf d ->
  let all := PDeque_iter d ++ xs in
  exists d',
    PDeque_extend d xs = Ok d' /\ dq_wf d' /\ _maxlen d' = _maxlen d
    /\ PDeque_iter d' = match _maxlen d with
                        | Some n => drop (Z.to_nat (len all - n)) all
                        | None => all
                        end.
Proof.
  intros [Hlen Hmax] all. unfold PDeque_extend, _extend, _extend_list.
  rewrite extend_list_spec, Z.add_0_l.
  assert (len all = _length d + len xs) as Hall.
  { unfold all. rewrite len_app, iter_as_pop_order_left.
    unfold len at 1. by rewrite length_pop_order, Hlen. }
  assert (pop_order (_left_list d) (plist_mcons (_right_list d) xs) = all) as Hord
    by (by rewrite pop_order_mcons, <- iter_as_pop_order_left).
  assert (exists d', PDeque_new (_left_list d) (plist_mcons (_right_list d) xs)
                       (_length d + len xs) (_maxlen d) = Ok d'
                     /\ dq_wf d' /\ _maxlen d' = _maxlen d
                     /\ PDeque_iter d' = all) as Hplain.
  { rewrite PDeque_new_ok by done. eexists. split; [done|].
    split; [|split; [done|]].
    - split; [|done]. simpl. rewrite plist_len_mcons. lia.
    - by rewrite iter_as_pop_order_left. }
  destruct (_maxlen d) as [n|] eqn:Hn; [|exact Hplain].
  destruct (Z.ltb_spec n (_length d + len xs)) as [Hlt|Hge].
  - pose proof (pop_lists_spec (_left_list d) (plist_mcons (_right_list d) xs)
                  (_length d + len xs - n)) as Hpop.
    pose proof (pop_lists_len (_left_list d) (plist_mcons (_right_list d) xs)
                  (_length d + len xs - n)) as Hpl.
    destruct (_pop_lists _ _ _) as [ns np]. simpl in Hpop, Hpl.
    rewrite PDeque_new_ok by done. eexists. split; [done|].
    split; [|split; [done|]].
    + split; [|done]. simpl.
      rewrite Hpl, plist_len_mcons. lia.
    + rewrite iter_as_pop_order_left. simpl. by rewrite Hpop, Hord, Hall.
  - destruct Hplain as (d' & Hd' & Hwf' & Hm' & Hit').
    exists d'. split; [done|]. split; [done|]. split; [done|].
    rewrite Hit'. replace (Z.to_nat (len all - n)) with 0%nat by lia. done.
Qed.

(** [d.extendleft(xs)] *)
Lemma dq_extendleft_spec d xs :
  dq_wf d ->
  let all := rev xs ++ PDeque_iter d in
  exists d',
    PDeque_extendleft d xs = Ok d' /\ dq_wf d' /\ _maxlen d' = _maxlen d
    /\ PDeque_iter d' = match _maxlen d with
                        | Some n => take (Z.to_nat n) all
                        | None => all
                        end.
Proof.
  intros [Hlen Hmax] all. unfold PDeque_extendleft, _extend, _extend_list.
  rewrite extend_list_spec, Z.add_0_l.
  assert (len all = _length d + len xs) as Hall.
  { unfold all. rewrite len_app, iter_as_pop_order_left.
    unfold len at 2. rewrite length_pop_order, Hlen.
    unfold len. rewrite length_rev. lia. }
  assert (pop_order (_right_list d) (plist_mcons (_left_list d) xs) = rev all)
    as Hord.
  { rewrite pop_order_mcons. unfold all.
    rewrite rev_app_distr, rev_involutive, iter_as_pop_order_right.
    by rewrite rev_involutive. }
  assert (exists d', PDeque_new (plist_mcons (_left_list d) xs) (_right_list d)
                       (_length d + len xs) (_maxlen d) = Ok d'
                     /\ dq_wf d' /\ _maxlen d' = _maxlen d
                     /\ PDeque_iter d' = all) as Hplain.
  { rewrite PDeque_new_ok by done. eexists. split; [done|].
    split; [|split; [done|]].
    - split; [|done]. simpl. rewrite plist_len_mcons. lia.
    - rewrite iter_as_pop_order_right. simpl.
      by rewrite Hord, rev_involutive. }
  destruct (_maxlen d) as [n|] eqn:Hn; [|exact Hplain].
  destruct (Z.ltb_spec n (_length d + len xs)) as [Hlt|Hge].
  - pose proof (pop_lists_spec (_right_list d) (plist_mcons (_left_list d) xs)
                  (_length d + len xs - n)) as Hpop.
    pose proof (pop_lists_len (_right_list d) (plist_mcons (_left_list d) xs)
                  (_length d + len xs - n)) as Hpl.
    destruct (_pop_lists _ _ _) as [ns np]. simpl in Hpop, Hpl.
    rewrite PDeque_new_ok by done. eexists. split; [done|].
    split; [|split; [done|]].
    + split; [|done]. simpl.
      rewrite (Z.add_comm (plist_len np)), Hpl, plist_len_mcons. lia.
    + rewrite iter_as_pop_order_right. simpl. rewrite Hpop, Hord.
      rewrite skipn_rev, rev_involutive. f_equal.
      unfold len in *. simpl in Hmax. lia.
  - destruct Hplain as (d' & Hd' & Hwf' & Hm' & Hit').
    exists d'. split; [done|]. split; [done|]. split; [done|].
    rewrite Hit'. rewrite take_ge; [done|]. unfold len in *. simpl in Hmax. lia.
Qed.

(** [d.reverse()] *)
Lemma dq_reverse_spec d :
  dq_wf d ->
  exists d',
    PDeque_reverse d = Ok d' /\ dq_wf d' /\ _maxlen d' = None
    /\ PDeque_iter d' = rev (PDeque_iter d) /\ PDeque_len d' = PDeque_len d.
Proof.
  intros [Hlen Hmax]. unfold PDeque_reverse. simpl. eexists. split; [done|].
  split; [|split; [done|split; [|done]]].
  - split; [|done]. simpl. lia.
  - rewrite (iter_as_pop_order_right d), rev_involutive.
    by rewrite iter_as_pop_order_left.
Qed.

End PDequeProofs.

(** * Proofs: [set] in the store *)

Section StoreSetProofs.
Context {A : Type}.
Implicit Types (s : store A) (r : ref) (n : node A) (h : nat).

Lemma do_set_st_eq budget level (node : ref) i (val : A) :
  do_set_st budget level node i val
  = (ret ← py_list node;
     if level =? 0 then
       _ ← py_setitem ret (Z.land i BIT_MASK) (Elem val); mret ret
     else
       s ← lift (py_rshift i level);
       let sub_index := Z.land s BIT_MASK in
       match budget with
       | O => lift (Raise RecursionError)
       | S budget' =>
           x ← py_getitem node sub_index;
           child ← as_ref x;
           new_child ← do_set_st budget' (level - SHIFT) child i val;
           _ ← py_setitem ret sub_index (Ref new_child);
           mret ret
       end).
Proof. by destruct budget. Qed.

(** [_do_set] copies the nodes on the path and changes the copies. *)
Lemma do_set_sim h :
  forall budget s (r : ref) n i (val : A) (b : nat) n',
  node_repr (fun r' => (r' < b)%nat) s h r n ->
  (b <= length s)%nat ->
  _do_set_rec budget (5 * Z.of_nat h) n i val = Ok n' ->
  exists r' s',
    do_set_st budget (5 * Z.of_nat h) r i val s = Ok (r', s')
    /\ s `prefix_of` s'
    /\ node_repr (fun r' => (r' < b)%nat \/ (length s <= r')%nat) s' h r' n'.
Proof.
  induction h as [|h IH]; intros budget s r n i val b n' [Hrb Hn] Hb Hp;
    rewrite do_set_st_eq.
  - destruct n as [xs|cs]; [|done].
    rewrite (heap_bind_Ok _ _ s _ _ (py_list_Ok s r _ Hn)).
    change (5 * Z.of_nat 0) with 0 in *. rewrite do_set_rec_leaf in Hp.
    destruct (list_setitem xs (Z.land i BIT_MASK) val) as [xs'|e] eqn:Hset; [|done].
    rewrite fmap_ret in Hp. injection Hp as <-. cbn [Z.eqb].
    rewrite (heap_bind_Ok _ _ _ tt _
               (py_setitem_Ok _ _ _ _ (Elem val) _ (lookup_new _ _)
                  (list_setitem_fmap Elem _ _ _ _ Hset))).
    eexists _, _. split; [done|].
    split; [apply prefix_insert; [by apply prefix_app_r|done]|].
    split; [by right|].
    by rewrite list_lookup_insert_eq by (rewrite length_app; cbn; lia).
  - destruct n as [xs|cs]; [done|]. destruct Hn as (rs & Hr & HF).
    rewrite (heap_bind_Ok _ _ s _ _ (py_list_Ok s r _ Hr)).
    set (level := 5 * Z.of_nat (S h)) in *.
    assert (level <> 0) as Hne by (unfold level; lia).
    assert (level - SHIFT = 5 * Z.of_nat h) as El by (rewrite SHIFT_eq; lia).
    destruct (Z.eqb_spec level 0) as [|_]; [done|].
    destruct budget as [|budget].
    { simpl in Hp. by destruct (Z.eqb_spec level 0). }
    rewrite do_set_rec_branch in Hp by done.
    rewrite py_rshift_Ok in Hp by lia. rewrite ret_bind in Hp.
    rewrite py_rshift_Ok by lia.
    rewrite (heap_bind_Ok _ _ _ _ _ (lift_Ok _ _)). cbv zeta.
    set (sub_index := Z.land (Z.shiftr i level) BIT_MASK) in *.
    assert (s `prefix_of` s ++ [Ref <$> rs]) as Hpre1 by by apply prefix_app_r.
    assert ((s ++ [Ref <$> rs]) !! r = Some (Ref <$> rs)) as Hr1
      by by eapply prefix_lookup_Some.
    destruct (list_getitem cs sub_index) as [child|e] eqn:Hchild; [|done].
    rewrite ret_bind, El in Hp.
    destruct (_do_set_rec budget (5 * Z.of_nat h) child i val)
      as [new_child|e] eqn:Hrec; [|done].
    rewrite ret_bind in Hp.
    destruct (list_setitem cs sub_index new_child) as [cs'|e] eqn:Hset; [|done].
    rewrite fmap_ret in Hp. injection Hp as <-.
    destruct (list_getitem_Forall2 _ rs cs _ _ HF Hchild) as (cr & Hcr & Hcrep).
    rewrite (heap_bind_Ok _ _ _ _ _
               (py_getitem_Ok _ r _ _ _ Hr1 (list_getitem_fmap Ref _ _ _ Hcr))).
    rewrite (heap_bind_Ok _ _ _ cr _ eq_refl), El.
    destruct (IH budget (s ++ [Ref <$> rs]) cr child i val b new_child)
      as (r0 & s2 & Hr0 & Hpre2 & Hrep2);
      [by eapply repr_prefix|rewrite length_app; lia|done|].
    rewrite (heap_bind_Ok _ _ _ _ _ Hr0).
    destruct (list_setitem_inv _ _ _ _ Hset) as (j & Hj & -> & Hany).
    assert (s2 !! length s = Some (Ref <$> rs)) as Hret.
    { eapply prefix_lookup_Some; [apply lookup_new|done]. }
    rewrite (heap_bind_Ok _ _ _ tt _
               (py_setitem_Ok _ _ _ _ (Ref r0) _ Hret
                  (Hany _ (Ref <$> rs) (Ref r0)
                     ltac:(by rewrite length_fmap, (Forall2_length _ _ _ HF))))).
    eexists _, _. split; [done|].
    assert (s `prefix_of` <[length s := <[j := Ref r0]> (Ref <$> rs)]> s2) as Hpre.
    { apply prefix_insert; [|done]. by etrans. }
    split; [done|]. split; [by right|].
    exists (<[j := r0]> rs). split.
    + rewrite list_lookup_insert_eq by (apply lookup_lt_is_Some; by eexists).
      by rewrite list_fmap_insert.
    + apply Forall2_insert.
      * eapply Forall2_impl; [exact HF|]. intros r' n' Hr'. by eapply repr_old.
      * apply repr_skip; [done|].
        replace (S (length s)) with (length (s ++ [Ref <$> rs]))
          by (rewrite length_app; cbn; lia).
        done.
Qed.

(** [set] in the store builds what [set] on the trie builds, and only
    adds lists. *)
Lemma set_sim s hv v i (val : A) v' :
  hv_repr s hv v -> PVector_set v i val = Ok v' ->
  exists hv' s',
    set_st hv i val s = Ok (hv', s') /\ s `prefix_of` s' /\ hv_repr s' hv' v'.
Proof.
  intros Hrep Hp. pose proof Hrep as (Hc & Hs & Ho & (H & HH & Hshift & Hroot) & Htail).
  unfold PVector_set in Hp. unfold set_st. rewrite Hc, Ho, Hs.
  set (j := if i <? 0 then i + pv_count v else i) in *.
  destruct ((0 <=? j) && (j <? pv_count v)).
  - destruct (pv_tail_offset v <=? j).
    + destruct (list_setitem (pv_tail v) (Z.land j BIT_MASK) val)
        as [new_tail|e] eqn:Hset; [|done].
      rewrite ret_bind in Hp. injection Hp as <-.
      rewrite (heap_bind_Ok _ _ _ _ _ (py_list_Ok _ _ _ Htail)).
      rewrite (heap_bind_Ok _ _ _ tt _
                 (py_setitem_Ok _ _ _ _ (Elem val) _ (lookup_new _ _)
                    (list_setitem_fmap Elem _ _ _ _ Hset))).
      set (s2 := <[length s := Elem <$> new_tail]> (s ++ [Elem <$> pv_tail v])).
      assert (s `prefix_of` s2) as Hpre
        by (apply prefix_insert; [by apply prefix_app_r|done]).
      assert (s2 !! length s = Some (Elem <$> new_tail)) as Hnt.
      { unfold s2. by rewrite list_lookup_insert_eq by (rewrite length_app; cbn; lia). }
      rewrite (HVector_new_Ok s2 _ _ _ _ _ Hnt).
      eexists _, _. split; [done|]. split; [done|].
      unfold hv_repr, PVector_new. cbn.
      split; [done|]. split; [done|].
      split; [unfold len; by rewrite length_fmap|].
      split; [|done]. exists H. split; [done|]. split; [done|].
      by eapply repr_prefix.
    + destruct (_do_set (pv_shift v) (pv_root v) j val) as [new_root|e] eqn:Hset;
        [|done].
      rewrite ret_bind in Hp. injection Hp as <-.
      unfold _do_set in Hset. rewrite Hshift in Hset |- *.
      destruct (do_set_sim H _ s (hv_root hv) (pv_root v) j val (length s) new_root
                  (repr_bound _ _ _ _ Hroot) ltac:(lia) Hset)
        as (r' & s' & Hst & Hpre & Hrep').
      rewrite (heap_bind_Ok _ _ _ _ _ Hst).
      assert (s' !! hv_tail hv = Some (Elem <$> pv_tail v)) as Htail'
        by by eapply prefix_lookup_Some.
      rewrite (HVector_new_Ok s' _ _ _ _ _ Htail').
      eexists _, _. split; [done|]. split; [done|].
      unfold hv_repr, PVector_new. cbn.
      split; [done|]. split; [done|].
      split; [unfold len; by rewrite length_fmap|].
      split; [|done]. exists H. split; [done|]. split; [done|].
      by eapply repr_any.
  - destruct (j =? pv_count v); [|done].
    by apply (append_sim s hv v val v').
Qed.

End StoreSetProofs.

Lemma sample_hvector_repr : hv_repr sample_store sample_hvector sample_vector.
Proof.
  split; [reflexivity|]. split; [reflexivity|]. split; [reflexivity|].
  split; [|reflexivity].
  exists 1%nat. split; [lia|]. split; [reflexivity|].
  split; [exact I|]. exists [1%nat]. split; [reflexivity|].
  constructor; [|constructor]. split; [exact I|reflexivity].
Qed.

(** * Proofs: what [freeze] returns *)

Section FrozenProofs.
Context {K A : Type} `{EqDecision K} `{EqDecision A}.
Context (hash : K -> Z).
Local Abbreviation obj := (pyobj K A).
Implicit Types (x y z : obj) (xs ys zs : list obj) (items : list (K * obj)).

Lemma frozen_seq limit xs :
  (forall x, x ∈ xs ->
     exists y, freeze hash limit x = Ok y /\ frozen_of hash x y) ->
  exists ys, mapR (freeze hash limit) xs = Ok ys
             /\ Forall2 (frozen_of hash) xs ys.
Proof.
  induction xs as [|x xs IH]; intros Hall.
  - exists []. split; [done|constructor].
  - destruct (Hall x ltac:(by left)) as (y & Hy & Hxy).
    destruct IH as (ys & Hys & HF); [intros x' Hx'; apply Hall; by right|].
    exists (y :: ys). rewrite mapR_cons, Hy. rsimpl. rewrite Hys. rsimpl.
    split; [done|]. by constructor.
Qed.

Lemma frozen_dict_spec limit items :
  NoDup (fst <$> items) ->
  (forall kv, kv ∈ items ->
     exists y, freeze hash limit (snd kv) = Ok y /\ frozen_of hash (snd kv) y) ->
  exists m, freeze hash (S limit) (PyDict items) = Ok (PyPMap m)
            /\ frozen_of hash (PyDict items) (PyPMap m).
Proof.
  intros Hnd Hall.
  destruct (mapR_Forall2 (on_value (freeze hash limit)) items) as (ys & Hf & HFf).
  { intros [k v] Hin. destruct (Hall _ Hin) as (y & Hy & _). cbn in Hy.
    exists (k, y). unfold on_value. rewrite Hy. by rsimpl. }
  pose proof (on_value_fst _ _ _ HFf) as Hkeys.
  assert (NoDup (fst <$> ys)) as Hnd' by by rewrite Hkeys.
  destruct (pmap_wf hash ys 0 Hnd' ltac:(lia)) as (m & bl & Hm & Hok & [_ Hsz] & Hperm).
  exists m. cbn [freeze]. rewrite Hf. rsimpl.
  rewrite dict_of_NoDup by done. rewrite Hm. rsimpl. split; [done|].
  assert (forall k, PMap_getitem hash m k
                    = match dict_get ys k with
                      | Some w => Ok w
                      | None => Raise KeyError
                      end) as Hget.
  { intros k. rewrite (getitem_view hash m bl k Hok).
    rewrite (view_dict_get hash bl k (proj2 (proj2 Hok))).
    rewrite (dict_get_perm _ ys k Hperm) by by rewrite Hperm. done. }
  constructor.
  - unfold PMap_len. rewrite Hsz. unfold len. rewrite Hperm.
    by rewrite <- (Forall2_length _ _ _ HFf).
  - intros k v Hk. apply dict_get_Some in Hk.
    destruct (Forall2_elem_l _ _ _ _ HFf Hk) as ([k' w] & Hin & Hkw).
    apply on_value_Ok in Hkw as [Hfst Hw]. cbn in Hfst, Hw. subst k'.
    destruct (Hall _ Hk) as (y & Hy & Hxy). cbn in Hy, Hxy.
    rewrite Hw in Hy. injection Hy as <-.
    exists w. split; [|done]. rewrite Hget.
    by rewrite (dict_get_NoDup ys k w Hnd' Hin).
  - intros k Hk. rewrite Hget.
    destruct (dict_get ys k) as [w|] eqn:Hw; [|done].
    apply dict_get_Some in Hw.
    assert (k ∈ fst <$> items) as Hin.
    { rewrite <- Hkeys. apply list_elem_of_fmap. by exists (k, w). }
    by apply dict_get_None in Hk.
Qed.

Lemma frozen_set_spec limit (elements : list K) :
  NoDup elements ->
  exists s, freeze hash (S limit) (PySet elements : obj) = Ok (PyPSet s)
            /\ frozen_of hash (PySet elements : obj) (PyPSet s).
Proof.
  intros Hnd.
  destruct (pset_spec hash elements 8 ltac:(lia)) as (s & bl & Hs & Hok & [_ Hsz] & Hp).
  rewrite set_of_NoDup in Hp by done.
  exists s. cbn [freeze]. rewrite Hs. rsimpl. split; [done|]. constructor.
  - unfold PMap_len. rewrite Hsz. unfold len.
    by rewrite <- (length_fmap fst), Hp.
  - intros k. unfold PSet_contains. rewrite (contains_items hash _ bl k Hok).
    f_equal. apply bool_decide_ext. by rewrite Hp.
Qed.

(** On a native value [freeze] returns the value frozen. *)
Lemma freeze_frozen limit : forall n x,
  native n x = true -> (n < limit)%nat ->
  exists y, freeze hash limit x = Ok y /\ frozen_of hash x y.
Proof.
  induction limit as [|limit IH]; intros n x Hnat Hn; [lia|].
  destruct x as [a|xs|xs|items|elements|v|m|s]; try (by destruct n).
  - exists (PyAtom a). split; [done|constructor].
  - destruct n as [|n]; [done|]. cbn [native] in Hnat.
    destruct (frozen_seq limit xs) as (ys & Hf & HF).
    { intros x Hx. apply (IH n); [by eapply native_elem|lia]. }
    destruct (pvector_spec ys) as (v & Hv & Hwf & Hl).
    exists (PyPVector v). cbn [freeze]. rewrite Hf. rsimpl. rewrite Hv. rsimpl.
    split; [done|]. by econstructor.
  - destruct n as [|n]; [done|]. cbn [native] in Hnat.
    destruct (frozen_seq limit xs) as (ys & Hf & HF).
    { intros x Hx. apply (IH n); [by eapply native_elem|lia]. }
    exists (PyTuple ys). cbn [freeze]. rewrite Hf. rsimpl.
    split; [done|]. by constructor.
  - destruct n as [|n]; [done|]. cbn [native] in Hnat.
    apply andb_true_iff in Hnat as [Hnd Hvals]. apply bool_decide_eq_true in Hnd.
    destruct (frozen_dict_spec limit items Hnd) as (m & Hm & Hfro).
    { intros kv Hin. apply (IH n); [by eapply native_value|lia]. }
    by exists (PyPMap m).
  - destruct n as [|n]; [done|]. cbn [native] in Hnat.
    apply bool_decide_eq_true in Hnat.
    destruct (frozen_set_spec limit elements Hnat) as (s & Hs & Hfro).
    by exists (PyPSet s).
Qed.

End FrozenProofs.

(** * Proofs: records *)

Section DictOver.
Context {K T : Type} `{EqDecision K}.
Implicit Types (d other : list (K * T)) (kv : K * T).




End DictOver.

Section RecordProofs.
Context {V : Type} `{EqDecision V}.
Context (hash : string -> Z).
Context (set_iter : list string -> list string).
Implicit Types (bl : list (bucket string V)) (e : PRecordEvolver V)
               (cls : PRecordClass V) (kv : string * V)
               (items kwargs : list (string * V)).

Local Abbreviation view := (lookup_in hash).

(** *** The items of a construction *)




(** *** The lists of the report are complete *)





(** *** What [persistent] computes *)




(** *** The writes *)





(** *** The three operations *)





End RecordProofs.

(** [Order(a=-1, e=-3, b=-2)]: the initial value of [b] is replaced, both
    field invariants fail, the factory of [e] raises, and [c] and [d] are
    missing.  One exception carries all of it; the two missing mandatory
    fields come in the order in which the set is read. *)
Example order_field_checks :
  let kwargs := [("a"%string, -1); ("e"%string, -3); ("b"%string, -2)] in
  PRecord_new hash_string (fun l => l) sample_order kwargs
  = Raise (InvariantException [2; 1; 7; 8]
             ["Item.sku"; "Order.c"; "Order.d"]%string)
  /\ PRecord_new hash_string reverse sample_order kwargs
     = Raise (InvariantException [2; 1; 7; 8]
                ["Item.sku"; "Order.d"; "Order.c"]%string).
Proof. split; vm_compute; reflexivity. Qed.

(** [Order(a=1, c=1, d=1)] passes the field checks and fails both global
    invariants; [Order(a=10, b=10, c=1, d=1)] is a record, on which
    [set(a=3, b=4)] fails both global invariants and [set('a', -1)] the
    invariant of [a]. *)
Example order_global_checks :
  PRecord_new hash_string (fun l => l) sample_order
              [("a"%string, 1); ("c"%string, 1); ("d"%string, 1)]
  = Raise (InvariantException [9; 10] [])
  /\ (r ← PRecord_new hash_string (fun l => l) sample_order
            [("a"%string, 10); ("b"%string, 10); ("c"%string, 1); ("d"%string, 1)];
      Ok (PMap_len r,
          PRecord_set hash_string (fun l => l) sample_order r None
                      [("a"%string, 3); ("b"%string, 4)],
          PRecord_set hash_string (fun l => l) sample_order r
                      (Some ("a"%string, -1)) []))
     = Ok (4, Raise (InvariantException [9; 10] []),
           Raise (InvariantException [1] [])).
Proof. split; vm_compute; reflexivity. Qed.

(** On a record of eleven fields [set(f12=1, f1=0)], [f1] being 0 already,
    returns a record of eleven fields without [f12]: the second write
    follows a reallocation and leaves the evolver clean, so [persistent]
    hands back the record the call started from. *)
Example record_set_keeps_original :
  (r ← PRecord_new hash_string (fun l => l) sample_wide
         ((fun name => (name, 0))
          <$> ["f1"; "f2"; "f3"; "f4"; "f5"; "f6"; "f7"; "f8"; "f9"; "f10";
               "f11"]%string);
   r' ← PRecord_set hash_string (fun l => l) sample_wide r None
          [("f12"%string, 1); ("f1"%string, 0)];
   present ← PMap_contains hash_string r' "f12"%string;
   Ok (PMap_len r, PMap_len r', present))
  = Ok (11, 11, false).
Proof. vm_compute. reflexivity. Qed.

(** * The properties, claim by claim *)

(** C1, evaluated where it fails.  Twelve new keys and then the first key
    again with the value it has, written through one evolver of the empty
    map: the write that finds nothing to change is also the one that
    reallocates, the reallocation leaves a clean bucket evolver, and
    [persistent] returns the empty original.  The same writes as direct
    [set] calls give the map of twelve keys. *)
Theorem C1_map_evolver_differs_from_direct_calls :
  (h ← MapEvolver_set_all hash_int _EMPTY_PMAP sample_writes;
   Ok (PMap_len (the h), PMap_getitem hash_int (the h) 5))
  = Ok (0, Raise KeyError)
  /\ (m ← PMap_set_all hash_int _EMPTY_PMAP sample_writes;
      Ok (PMap_len m, PMap_getitem hash_int m 5))
     = Ok (12, Ok 105).
Proof. split; vm_compute; reflexivity. Qed.

(** C2: [v2 = v1.append(x)] returns; [v2] is one longer than [v1], holds
    at every index of [v1] what [v1] holds there and [x] at index
    [len(v1)]; and [v1] is unchanged: the store after the call extends the
    store before it, so no list that existed is modified, and every [v1[i]]
    reads after the call what it read before.  [v1] is any vector object
    [hv1] whose lists in the store [s] make up a well-formed trie. *)
Theorem C2_append {A : Type} (s : store A) (hv1 : HVector) (v1 : PVector A) (x : A) :
  hv_repr s hv1 v1 -> pv_wf v1 ->
  exists hv2 s',
    append_st hv1 x s = Ok (hv2, s')
    /\ len_st hv2 = len_st hv1 + 1
    /\ (forall i, 0 <= i < len_st hv1 ->
          exists y, getitem_st hv1 i s = Ok (y, s)
                    /\ getitem_st hv2 i s' = Ok (y, s')
                    /\ getitem_st hv1 i s' = Ok (y, s'))
    /\ getitem_st hv2 (len_st hv1) s' = Ok (x, s')
    /\ s `prefix_of` s'
    /\ exists v2, PVector_append v1 x = Ok v2 /\ hv_repr s' hv2 v2.
Proof.
  intros Hrep Hwf.
  destruct (append_elements v1 x Hwf) as (v2 & Happ & Hwf2 & Hlen & Hold & Hlast).
  destruct (append_sim s hv1 v1 x v2 Hrep Happ) as (hv2 & s' & Hst & Hpre & Hrep2).
  pose proof (hv_repr_prefix s s' hv1 v1 Hpre Hrep) as Hrep1.
  assert (len_st hv1 = PVector_len v1) as E1 by exact (proj1 Hrep).
  assert (len_st hv2 = PVector_len v2) as E2 by exact (proj1 Hrep2).
  exists hv2, s'. split; [done|]. split; [by rewrite E1, E2|]. split.
  - intros i Hi. rewrite E1 in Hi. destruct (Hold i Hi) as (y & Hy1 & Hy2).
    exists y. split; [by apply (getitem_sim s hv1 v1)|].
    split; [by apply (getitem_sim s' hv2 v2)|by apply (getitem_sim s' hv1 v1)].
  - split; [rewrite E1; by apply (getitem_sim s' hv2 v2)|].
    split; [done|]. by exists v2.
Qed.

Lemma C2_append_witness :
  exists hv2 s',
    append_st sample_hvector 7 sample_store = Ok (hv2, s')
    /\ len_st hv2 = len_st sample_hvector + 1
    /\ (forall i, 0 <= i < len_st sample_hvector ->
          exists y, getitem_st sample_hvector i sample_store = Ok (y, sample_store)
                    /\ getitem_st hv2 i s' = Ok (y, s')
                    /\ getitem_st sample_hvector i s' = Ok (y, s'))
    /\ getitem_st hv2 (len_st sample_hvector) s' = Ok (7, s')
    /\ sample_store `prefix_of` s'
    /\ exists v2, PVector_append sample_vector 7 = Ok v2 /\ hv_repr s' hv2 v2.
Proof.
  apply (C2_append sample_store sample_hvector sample_vector 7).
  - split; [reflexivity|]. split; [reflexivity|]. split; [reflexivity|].
    split; [|reflexivity].
    exists 1%nat. split; [lia|]. split; [reflexivity|].
    split; [exact I|]. exists [1%nat]. split; [reflexivity|].
    constructor; [|constructor]. split; [exact I|reflexivity].
  - apply reachable_wf.
    apply (reach_extend _EMPTY_VECTOR ((fun k : nat => Z.of_nat k) <$> seq 0 40));
      [apply reach_empty|].
    vm_compute. reflexivity.
Defined.

(** C3: the keys of [kvs] being distinct, after each of the insertions
    [m = m.set(k, v)] into the empty map of 8 buckets every key inserted so
    far is bound to its value, whatever the reallocations, which only double
    the number of buckets. *)
Theorem C3_distinct_keys_kept {K V : Type} `{EqDecision K} `{EqDecision V}
    (hash : K -> Z) (kvs : list (K * V)) (n : nat) :
  NoDup (fst <$> kvs) ->
  bucket_count (@_EMPTY_PMAP K V) = 8
  /\ exists m,
       PMap_set_all hash _EMPTY_PMAP (take n kvs) = Ok m
       /\ (forall k v, (k, v) ∈ take n kvs -> PMap_getitem hash m k = Ok v)
       /\ exists j : nat, bucket_count m = 8 * 2 ^ Z.of_nat j.
Proof.
  intros Hnd. split; [reflexivity|].
  assert (NoDup (fst <$> take n kvs)) as Hnd'.
  { rewrite fmap_take. exact (sublist_NoDup _ _ Hnd (sublist_take _ n)). }
  destruct (set_all_spec hash (take n kvs) _EMPTY_PMAP _ (empty_pmap_ok hash))
    as (m & bl & Hall & Hok & Hview & j & Hlen).
  exists m. split; [done|]. split.
  - intros k v Hin. rewrite (getitem_view hash m bl k Hok), Hview.
    by rewrite (last_binding_NoDup _ k v Hnd' Hin).
  - exists j. rewrite (bucket_count_ok hash m bl Hok). unfold len.
    rewrite Hlen, length_replicate, Nat2Z.inj_mul, Nat2Z.inj_pow. cbn. lia.
Qed.

Lemma C3_distinct_keys_kept_witness :
  bucket_count (@_EMPTY_PMAP Z Z) = 8
  /\ exists m,
       PMap_set_all hash_int _EMPTY_PMAP (take 13 (sample_items 20)) = Ok m
       /\ (forall k v, (k, v) ∈ take 13 (sample_items 20) ->
             PMap_getitem hash_int m k = Ok v)
       /\ exists j : nat, bucket_count m = 8 * 2 ^ Z.of_nat j.
Proof.
  apply (C3_distinct_keys_kept hash_int (sample_items 20) 13).
  apply (bool_decide_unpack _). vm_compute. exact I.
Defined.

(** C4: with [j] the index [i] resolved ([i + count] when [i] is negative),
    [v.set(i, val)] is [v.append(val)] when [j = count], returns [v] with
    [val] at [j] when [0 <= j < count], and raises [IndexError] in every
    other case. *)
Theorem C4_set_index {A : Type} (v : PVector A) (xs : list A) (i : Z) (val : A) :
  pv_wf v -> _tolist v = Ok xs ->
  let count := PVector_len v in
  let j := if i <? 0 then i + count else i in
  (j = count -> PVector_set v i val = PVector_append v val)
  /\ (0 <= j < count ->
      exists v', PVector_set v i val = Ok v' /\ pv_wf v'
                 /\ _tolist v' = Ok (<[Z.to_nat j := val]> xs))
  /\ (~ (0 <= j <= count) -> PVector_set v i val = Raise IndexError).
Proof.
  intros Hwf Hxs count j. pose proof (count_tolist v xs Hwf Hxs) as Hc.
  unfold PVector_len in count. pose proof (len_nonneg xs) as Hpos.
  split; [|split].
  - intros Hj. assert (i = pv_count v) as ->
      by (unfold j, count in *; destruct (Z.ltb_spec i 0); lia).
    apply set_at_count. lia.
  - intros Hj.
    assert (PVector_set v i val = PVector_set v (Z.of_nat (Z.to_nat j)) val) as ->.
    { unfold j, count in *. destruct (Z.ltb_spec i 0).
      - rewrite set_neg by lia. f_equal. lia.
      - f_equal. lia. }
    apply set_spec; [done|done|]. unfold count, len in *. lia.
  - intros Hj. apply set_out; [lia|]. exact Hj.
Qed.

Lemma C4_set_index_witness :
  let count := PVector_len sample_vector in
  let j := if -3 <? 0 then -3 + count else -3 in
  (j = count -> PVector_set sample_vector (-3) 7 = PVector_append sample_vector 7)
  /\ (0 <= j < count ->
      exists v', PVector_set sample_vector (-3) 7 = Ok v' /\ pv_wf v'
                 /\ _tolist v'
                    = Ok (<[Z.to_nat j := 7]> ((fun k : nat => Z.of_nat k) <$> seq 0 40)))
  /\ (~ (0 <= j <= count) -> PVector_set sample_vector (-3) 7 = Raise IndexError).
Proof.
  apply (C4_set_index sample_vector ((fun k : nat => Z.of_nat k) <$> seq 0 40) (-3) 7).
  - apply reachable_wf.
    apply (reach_extend _EMPTY_VECTOR ((fun k : nat => Z.of_nat k) <$> seq 0 40));
      [apply reach_empty|].
    vm_compute. reflexivity.
  - vm_compute. reflexivity.
Defined.

(** C5, evaluated where it fails.  After the thirteen writes the evolver
    holds twelve keys, yet it is not dirty and [persistent] returns the
    original, empty map: writes occurred during the session and no new map
    is built. *)
Theorem C5_persistent_returns_original_after_writes :
  (e ← foldM (fun e '(k, v) => MapEvolver_setitem hash_int e k v)
             (PMap_evolver _EMPTY_PMAP) sample_writes;
   h ← fst <$> MapEvolver_persistent e;
   Ok (MapEvolver_len e, MapEvolver_getitem hash_int e 5,
       MapEvolver_is_dirty e, h))
  = Ok (12, Ok 105, false, Existing _EMPTY_PMAP).
Proof. vm_compute. reflexivity. Qed.

(** C6: for a native value [x] nested at most [n] deep and a recursion limit
    above [n], [freeze(x)] returns [x] frozen: a list has become the vector
    of its elements frozen, a tuple the tuple of its elements frozen, a
    dictionary a map of its values frozen and a set the persistent set of
    its elements; and [thaw(freeze(x)) == x].  When [x] is a dictionary,
    [freeze(x)] is a map of as many keys as [x] that binds each key of [x],
    unconverted, to the value of the key frozen, and no other key. *)
Theorem C6_thaw_freeze {K A : Type} `{EqDecision K} `{EqDecision A}
    (hash : K -> Z) (n limit : nat) (x : pyobj K A) :
  native n x = true -> (n < limit)%nat ->
  exists y z,
    freeze hash limit x = Ok y /\ frozen_of hash x y
    /\ thaw limit y = Ok z /\ py_eq z x = true
    /\ forall items, x = PyDict items ->
         exists m, y = PyPMap m /\ PMap_len m = len items
           /\ (forall k, PMap_getitem hash m k
                         = match dict_get items k with
                           | Some v => freeze hash (pred limit) v
                           | None => Raise KeyError
                           end)
           /\ (forall k v, dict_get items k = Some v ->
                 exists w, PMap_getitem hash m k = Ok w /\ frozen_of hash v w).
Proof.
  intros Hnat Hn.
  destruct (round_trip hash limit n x Hnat Hn) as (y & z & Hy & Hz & Heq).
  destruct (freeze_frozen hash limit n x Hnat Hn) as (y' & Hy' & Hfro).
  rewrite Hy in Hy'. injection Hy' as <-.
  exists y, z. split; [done|]. split; [done|]. split; [done|]. split; [done|].
  intros items ->. inversion Hfro as [| | |items' m Hlen Hsome Hnone|]; subst.
  exists m. split; [done|]. split; [done|]. split; [|done].
  destruct limit as [|limit]; [lia|]. cbn [pred].
  destruct n as [|n]; [done|]. cbn [native] in Hnat.
  apply andb_true_iff in Hnat as [Hnd Hvals]. apply bool_decide_eq_true in Hnd.
  destruct (freeze_dict hash limit items Hnd) as (m' & Hm' & Hget).
  { intros kv Hin.
    destruct (round_trip hash limit n (snd kv)) as (w & _ & Hw & _);
      [by eapply native_value|lia|].
    by exists w. }
  rewrite Hy in Hm'. by injection Hm' as <-.
Qed.

Lemma C6_thaw_freeze_witness :
  exists m s z,
    freeze hash_key 3 sample_dict = Ok (PyPMap m)
    /\ PMap_len m = 1
    /\ PMap_getitem hash_key m (KStr "a") = Ok (PyPSet s)
    /\ PMap_len (_map s) = 2
    /\ PSet_contains hash_key s (KInt 1) = Ok true
    /\ PSet_contains hash_key s (KInt 2) = Ok true
    /\ (forall k, PSet_contains hash_key s k
                  = Ok (bool_decide (k ∈ [KInt 1; KInt 2])))
    /\ (forall k, k <> KStr "a" -> PMap_getitem hash_key m k = Raise KeyError)
    /\ thaw 3 (PyPMap m) = Ok z
    /\ py_eq z sample_dict = true.
Proof.
  destruct (C6_thaw_freeze hash_key 2 3 sample_dict)
    as (y & z & Hy & Hfro & Hz & Heq & Hdict).
  - vm_compute. reflexivity.
  - lia.
  - destruct (Hdict _ eq_refl) as (m & -> & Hlen & Hget & Hvals).
    destruct (Hvals (KStr "a") _ eq_refl) as (w & Hw & Hfw).
    inversion Hfw as [| | | |elements s Hslen Hcont]; subst.
    exists m, s, z. split; [exact Hy|]. split; [exact Hlen|].
    split; [exact Hw|]. split; [exact Hslen|].
    split; [exact (Hcont (KInt 1))|]. split; [exact (Hcont (KInt 2))|].
    split; [exact Hcont|]. split; [|split; [exact Hz|exact Heq]].
    intros k Hk. rewrite Hget. unfold dict_get. cbn.
    by rewrite bool_decide_eq_false_2 by congruence.
Defined.

(** C7 fails for a map built from a dictionary: [pmap({1: 2})] has two
    buckets. *)
Lemma C7_counterexample :
  exists m, pmap hash_int [(1, 2)] 0 = Ok m
            /\ bucket_count m = 2 /\ ~ pow2_ge8 (bucket_count m).
Proof.
  eexists. split; [vm_compute; reflexivity|]. split; [reflexivity|].
  intros [k Hk]. pose proof (Z.pow_pos_nonneg 2 (Z.of_nat k)).
  change (2 = 8 * 2 ^ Z.of_nat k) in Hk. lia.
Qed.

(** C7, amended: every map built from the empty map by [set], [remove],
    [discard], [update] and [update_with] has [8 * 2^k] buckets. *)
Theorem C7_bucket_count {K V : Type} `{EqDecision K} `{EqDecision V}
    (hash : K -> Z) (m : PMap K V) :
  pm_reachable hash m -> pow2_ge8 (bucket_count m).
Proof.
  intros Hreach. destruct (reachable_ok hash m Hreach) as (bl & Hok & Hp).
  by rewrite (bucket_count_ok hash m bl Hok).
Qed.

Lemma C7_bucket_count_witness : pow2_ge8 (bucket_count sample_map).
Proof.
  apply (C7_bucket_count hash_int sample_map).
  apply (set_all_reachable hash_int (sample_items 13) _EMPTY_PMAP);
    [apply pm_reach_empty|].
  vm_compute. reflexivity.
Defined.




(** C9 fails for [__eq__] and [__ne__]: they are wrapped by [_comparator]
    like the orderings, and against an object that is no vector they return
    [NotImplemented], not a boolean. *)
Lemma C9_counterexample :
  ~ is_bool (PVector_eq Z.eqb (VectorObject 0 sample_vector) (OtherObject tt))
  /\ ~ is_bool (PVector_ne Z.eqb (VectorObject 0 sample_vector) (OtherObject tt)).
Proof. split; intros [b Hb]; vm_compute in Hb; discriminate. Qed.

(** C9, amended: against an object that is no vector each of the six
    comparison methods returns [NotImplemented]; between two vectors each
    returns a boolean. *)
Theorem C9_comparisons {A O : Type} (elem_eq elem_lt elem_le elem_gt elem_ge : A -> A -> bool)
    (i j : nat) (v w : PVector A) (o : O) :
  pv_wf v -> pv_wf w ->
  let self := @VectorObject A O i v in
  (PVector_lt elem_eq elem_lt self (OtherObject o) = Ok NotImplemented
   /\ PVector_le elem_eq elem_le self (OtherObject o) = Ok NotImplemented
   /\ PVector_gt elem_eq elem_gt self (OtherObject o) = Ok NotImplemented
   /\ PVector_ge elem_eq elem_ge self (OtherObject o) = Ok NotImplemented
   /\ PVector_eq elem_eq self (OtherObject o) = Ok NotImplemented
   /\ PVector_ne elem_eq self (OtherObject o) = Ok NotImplemented)
  /\ (is_bool (PVector_lt elem_eq elem_lt self (VectorObject j w))
      /\ is_bool (PVector_le elem_eq elem_le self (VectorObject j w))
      /\ is_bool (PVector_gt elem_eq elem_gt self (VectorObject j w))
      /\ is_bool (PVector_ge elem_eq elem_ge self (VectorObject j w))
      /\ is_bool (PVector_eq elem_eq self (VectorObject j w))
      /\ is_bool (PVector_ne elem_eq self (VectorObject j w))).
Proof.
  intros Hv Hw self. split; [by repeat split|].
  assert (forall op : list A -> list A -> bool,
            is_bool (@_comparator A O (on_lists op) self (VectorObject j w))) as Hop.
  { intros op. destruct (on_lists_Ok op i v j w Hv Hw) as [b Hb].
    exists b. by apply comparator_vectors. }
  repeat split; try apply Hop.
  unfold PVector_eq. destruct (on_lists_Ok (list_eq_py elem_eq) i v j w Hv Hw) as [b Hb].
  destruct (Nat.eqb i j) eqn:Hij.
  - exists true. apply comparator_vectors. cbn [fst]. by rewrite Hij.
  - exists b. apply comparator_vectors. cbn [fst]. by rewrite Hij.
Qed.

Lemma C9_comparisons_witness :
  let self := @VectorObject Z unit 0 sample_vector in
  (PVector_lt Z.eqb Z.ltb self (OtherObject tt) = Ok NotImplemented
   /\ PVector_le Z.eqb Z.leb self (OtherObject tt) = Ok NotImplemented
   /\ PVector_gt Z.eqb Z.gtb self (OtherObject tt) = Ok NotImplemented
   /\ PVector_ge Z.eqb Z.geb self (OtherObject tt) = Ok NotImplemented
   /\ PVector_eq Z.eqb self (OtherObject tt) = Ok NotImplemented
   /\ PVector_ne Z.eqb self (OtherObject tt) = Ok NotImplemented)
  /\ (is_bool (PVector_lt Z.eqb Z.ltb self (VectorObject 1 _EMPTY_VECTOR))
      /\ is_bool (PVector_le Z.eqb Z.leb self (VectorObject 1 _EMPTY_VECTOR))
      /\ is_bool (PVector_gt Z.eqb Z.gtb self (VectorObject 1 _EMPTY_VECTOR))
      /\ is_bool (PVector_ge Z.eqb Z.geb self (VectorObject 1 _EMPTY_VECTOR))
      /\ is_bool (PVector_eq Z.eqb self (VectorObject 1 _EMPTY_VECTOR))
      /\ is_bool (PVector_ne Z.eqb self (VectorObject 1 _EMPTY_VECTOR))).
Proof.
  apply (C9_comparisons Z.eqb Z.ltb Z.leb Z.gtb Z.geb 0%nat 1%nat sample_vector
           _EMPTY_VECTOR tt).
  - apply reachable_wf.
    apply (reach_extend _EMPTY_VECTOR ((fun k : nat => Z.of_nat k) <$> seq 0 40));
      [apply reach_empty|].
    vm_compute. reflexivity.
  - apply reachable_wf, reach_empty.
Defined.

(** C10: for a count [n >= 0], [d.pop(n)] and [d.popleft(n)] return: a deque
    of length [max(len(d) - n, 0)] that holds the elements of [d] but the
    last, respectively the first, [n]; the result is empty when [d] holds no
    more than [n] elements, so when [d] is empty; and [d.pop(-n)] is
    [d.popleft(n)], [d.popleft(-n)] is [d.pop(n)]. *)
Theorem C10_pop_never_fails {A : Type} (d : PDeque A) (n : Z) :
  dq_wf d -> 0 <= n ->
  (exists d1 d2,
     PDeque_pop d n = Ok d1 /\ PDeque_popleft d n = Ok d2
     /\ PDeque_len d1 = Z.max (PDeque_len d - n) 0
     /\ PDeque_len d2 = Z.max (PDeque_len d - n) 0
     /\ PDeque_iter d1 = take (Z.to_nat (PDeque_len d - n)) (PDeque_iter d)
     /\ PDeque_iter d2 = drop (Z.to_nat n) (PDeque_iter d)
     /\ (PDeque_len d <= n ->
         PDeque_is_empty d1 = true /\ PDeque_is_empty d2 = true))
  /\ PDeque_pop d (- n) = PDeque_popleft d n
  /\ PDeque_popleft d (- n) = PDeque_pop d n.
Proof.
  intros Hwf Hn. split; [|split; [by apply pop_neg|by apply popleft_neg]].
  destruct (pop_right_spec d n Hwf Hn) as (d1 & Hd1 & _ & Hl1 & Hi1).
  destruct (pop_left_spec d n Hwf Hn) as (d2 & Hd2 & _ & Hl2 & Hi2).
  exists d1, d2. unfold PDeque_pop, PDeque_popleft.
  destruct (Z.ltb_spec n 0); [lia|].
  split; [done|]. split; [done|]. split; [done|]. split; [done|].
  split; [done|]. split; [done|]. intros Hle.
  rewrite !is_empty_iter, Hi1, Hi2.
  assert (Z.of_nat (length (PDeque_iter d)) = PDeque_len d) as Hlen.
  { rewrite iter_as_pop_order_left, length_pop_order. unfold PDeque_len.
    by destruct Hwf as [-> _]. }
  split; apply bool_decide_eq_true.
  - by replace (Z.to_nat (PDeque_len d - n)) with 0%nat by lia.
  - apply drop_ge. lia.
Qed.

Lemma C10_pop_never_fails_witness :
  (exists d1 d2,
     PDeque_pop sample_deque 5 = Ok d1 /\ PDeque_popleft sample_deque 5 = Ok d2
     /\ PDeque_len d1 = Z.max (PDeque_len sample_deque - 5) 0
     /\ PDeque_len d2 = Z.max (PDeque_len sample_deque - 5) 0
     /\ PDeque_iter d1
        = take (Z.to_nat (PDeque_len sample_deque - 5)) (PDeque_iter sample_deque)
     /\ PDeque_iter d2 = drop (Z.to_nat 5) (PDeque_iter sample_deque)
     /\ (PDeque_len sample_deque <= 5 ->
         PDeque_is_empty d1 = true /\ PDeque_is_empty d2 = true))
  /\ PDeque_pop sample_deque (- 5) = PDeque_popleft sample_deque 5
  /\ PDeque_popleft sample_deque (- 5) = PDeque_pop sample_deque 5.
Proof.
  apply (C10_pop_never_fails sample_deque 5).
  - apply (pdeque_wf [1; 2; 3] None). reflexivity.
  - lia.
Defined.

(** * Further properties of the code *)

(** ** Vectors *)

(** X1: indexing a vector is indexing the list of its elements: [v[i]] is
    element [i] for [0 <= i < len(v)], [v[i]] is [v[i + len(v)]] for
    [-len(v) <= i < 0], and every other index raises [IndexError]. *)
Theorem X1_getitem_index {A : Type} (v : PVector A) :
  pv_wf v ->
  exists xs,
    _tolist v = Ok xs /\ PVector_len v = len xs
    /\ (forall i, PVector_getitem v i = list_getitem xs i)
    /\ (forall i, 0 <= i < len xs ->
          exists x, xs !! Z.to_nat i = Some x /\ PVector_getitem v i = Ok x)
    /\ (forall i, - len xs <= i < 0 ->
          PVector_getitem v i = PVector_getitem v (i + len xs))
    /\ (forall i, ~ (- len xs <= i < len xs) ->
          PVector_getitem v i = Raise IndexError).
Proof.
  intros Hwf. destruct (wf_tolist v Hwf) as (xs & Hxs & Hc).
  exists xs. split; [done|]. split; [done|].
  pose proof (getitem_list v xs) as Hg. split; [intros i; by apply Hg|].
  split; [|split].
  - intros i Hi. unfold len in Hi.
    assert (Z.to_nat i < length xs)%nat as Hlt by lia.
    destruct (lookup_lt_is_Some_2 xs _ Hlt) as [x Hx]. exists x. split; [done|].
    replace i with (Z.of_nat (Z.to_nat i)) at 1 by lia.
    by apply (getitem_spec v xs).
  - intros i Hi. rewrite !Hg by done. unfold list_getitem.
    destruct (Z.ltb_spec i 0); [|lia].
    by destruct (Z.ltb_spec (i + len xs) 0); [lia|].
  - intros i Hi. rewrite Hg by done. unfold list_getitem.
    pose proof (len_nonneg xs).
    destruct (Z.ltb_spec i 0).
    + by destruct (Z.leb_spec 0 (i + len xs)); [lia|].
    + destruct (Z.leb_spec 0 i); [|lia].
      by destruct (Z.ltb_spec i (len xs)); [lia|].
Qed.

Lemma X1_getitem_index_witness :
  exists xs,
    _tolist sample_vector = Ok xs /\ PVector_len sample_vector = len xs
    /\ (forall i, PVector_getitem sample_vector i = list_getitem xs i)
    /\ (forall i, 0 <= i < len xs ->
          exists x, xs !! Z.to_nat i = Some x /\ PVector_getitem sample_vector i = Ok x)
    /\ (forall i, - len xs <= i < 0 ->
          PVector_getitem sample_vector i = PVector_getitem sample_vector (i + len xs))
    /\ (forall i, ~ (- len xs <= i < len xs) ->
          PVector_getitem sample_vector i = Raise IndexError).
Proof. apply (X1_getitem_index sample_vector). apply sample_vector_wf. Defined.

(** X2: [pvector(ys)] returns a vector of length [len(ys)] whose elements
    are those of [ys], in order; [v.extend(ys)], which is also [v + ys],
    returns a vector whose elements are those of [v] followed by those of
    [ys], of length [len(v) + len(ys)]. *)
Theorem X2_extend_concatenates {A : Type} (v : PVector A) (xs ys : list A) :
  pv_wf v -> _tolist v = Ok xs ->
  (exists v0, _pvector ys = Ok v0 /\ pv_wf v0 /\ _tolist v0 = Ok ys
              /\ PVector_len v0 = len ys)
  /\ exists v',
       PVector_extend v ys = Ok v' /\ pv_wf v'
       /\ _tolist v' = Ok (xs ++ ys)
       /\ PVector_len v' = PVector_len v + len ys.
Proof.
  intros Hwf Hxs. split.
  - destruct (pvector_spec ys) as (v0 & Hv0 & Hwf0 & Hys).
    exists v0. split; [done|]. split; [done|]. split; [done|].
    by apply count_tolist.
  - destruct (extend_spec v xs ys Hwf Hxs) as (v' & Hv' & Hwf' & Hxs').
    exists v'. split; [done|]. split; [done|]. split; [done|].
    unfold PVector_len.
    rewrite (count_tolist v' _ Hwf' Hxs'), (count_tolist v xs Hwf Hxs).
    unfold len. rewrite length_app. lia.
Qed.

Lemma X2_extend_concatenates_witness :
  (exists v0, _pvector [7; 8] = Ok v0 /\ pv_wf v0 /\ _tolist v0 = Ok [7; 8]
              /\ PVector_len v0 = len [7; 8])
  /\ exists v',
       PVector_extend sample_vector [7; 8] = Ok v' /\ pv_wf v'
       /\ _tolist v' = Ok (((fun k : nat => Z.of_nat k) <$> seq 0 40) ++ [7; 8])
       /\ PVector_len v' = PVector_len sample_vector + len [7; 8].
Proof.
  apply (X2_extend_concatenates sample_vector).
  - apply sample_vector_wf.
  - vm_compute. reflexivity.
Defined.

(** X3: a session of [e[i] = x] and [e.append(x)] on an evolver of [v],
    closed by [e.persistent()], ends as the same operations applied one by
    one as [v.set(i, x)] and [v.append(x)]: with a vector of the same
    elements, or with the same exception. *)
Theorem X3_evolver_session_as_direct_calls {A : Type} (v : PVector A)
    (ops : list (vec_op A)) :
  pv_wf v ->
  match PVector_run v ops with
  | Ok v1 => exists v2 xs,
      Evolver_run v ops = Ok v2 /\ _tolist v1 = Ok xs /\ _tolist v2 = Ok xs
  | Raise err => Evolver_run v ops = Raise err
  end.
Proof. apply evolver_run_spec. Qed.

Lemma X3_evolver_session_as_direct_calls_witness :
  match PVector_run sample_vector sample_ops with
  | Ok v1 => exists v2 xs,
      Evolver_run sample_vector sample_ops = Ok v2
      /\ _tolist v1 = Ok xs /\ _tolist v2 = Ok xs
  | Raise err => Evolver_run sample_vector sample_ops = Raise err
  end.
Proof.
  apply (X3_evolver_session_as_direct_calls sample_vector sample_ops).
  apply sample_vector_wf.
Defined.

(** X4: in the middle of a session, an evolver reads as the vector the
    operations so far would have built by direct calls: [len(e)] is its
    length and [e[i]] its element [i], for every integer [i], the negative
    ones counted from the end and [IndexError] outside. *)
Theorem X4_evolver_reads_its_writes {A : Type} (v : PVector A)
    (ops : list (vec_op A)) (e : Evolver A) :
  pv_wf v -> foldM Evolver_apply (PVector_evolver v) ops = Ok e ->
  exists v' xs,
    PVector_run v ops = Ok v' /\ _tolist v' = Ok xs
    /\ Evolver_len e = len xs
    /\ forall i, Evolver_getitem e i = list_getitem xs i
                 /\ Evolver_getitem e i = PVector_getitem v' i.
Proof.
  intros Hwf He.
  destruct (run_sim_back v ops e Hwf He) as (v' & xs & Hrun & Hwf' & Hxs & Hev).
  exists v', xs. split; [done|]. split; [done|]. split; [by apply ev_len|].
  intros i. rewrite (getitem_list v' xs i Hwf' Hxs).
  split; by apply ev_getitem_list.
Qed.

Lemma X4_evolver_reads_its_writes_witness :
  exists e v' xs,
    foldM Evolver_apply (PVector_evolver sample_vector) sample_ops = Ok e
    /\ PVector_run sample_vector sample_ops = Ok v' /\ _tolist v' = Ok xs
    /\ Evolver_len e = len xs
    /\ forall i, Evolver_getitem e i = list_getitem xs i
                 /\ Evolver_getitem e i = PVector_getitem v' i.
Proof.
  destruct (foldM Evolver_apply (PVector_evolver sample_vector) sample_ops)
    as [e|err] eqn:He; [|vm_compute in He; discriminate].
  exists e.
  destruct (X4_evolver_reads_its_writes sample_vector sample_ops e sample_vector_wf He)
    as (v' & xs & H).
  exists v', xs. split; [reflexivity|exact H].
Defined.

(** X5: [v.mset(i1, x1, i2, x2, ...)] ends as the chain
    [v.set(i1, x1).set(i2, x2)...]: with a vector of the same elements, or
    with the same exception. *)
Theorem X5_mset_as_sets {A : Type} (v : PVector A) (args : list (Z * A)) :
  pv_wf v ->
  match foldM (fun v '(i, x) => PVector_set v i x) v args with
  | Ok v1 => exists v2 xs,
      PVector_mset v args = Ok v2 /\ _tolist v1 = Ok xs /\ _tolist v2 = Ok xs
  | Raise err => PVector_mset v args = Raise err
  end.
Proof.
  intros Hwf. destruct (mset_as_run v args) as [-> ->].
  by apply evolver_run_spec.
Qed.

Lemma X5_mset_as_sets_witness :
  match foldM (fun v '(i, x) => PVector_set v i x) sample_vector [(-1, 7); (40, 8)] with
  | Ok v1 => exists v2 xs,
      PVector_mset sample_vector [(-1, 7); (40, 8)] = Ok v2
      /\ _tolist v1 = Ok xs /\ _tolist v2 = Ok xs
  | Raise err => PVector_mset sample_vector [(-1, 7); (40, 8)] = Raise err
  end.
Proof. apply (X5_mset_as_sets sample_vector). apply sample_vector_wf. Defined.

(** X6: [v2 = v.set(i, val)] for an index within [v] returns; [v2] is as
    long as [v], holds [val] at the index and at every other index what [v]
    holds there; and [v] is unchanged: the store after the call extends the
    store before it, so no list that existed is modified, and every [v[k]]
    reads after the call what it read before.  [v] is any vector object
    [hv] whose lists in the store [s] make up a well-formed trie. *)
Theorem X6_set_keeps_original {A : Type} (s : store A) (hv : HVector)
    (v : PVector A) (i : Z) (val : A) :
  hv_repr s hv v -> pv_wf v ->
  let j := if i <? 0 then i + len_st hv else i in
  0 <= j < len_st hv ->
  exists hv2 s',
    set_st hv i val s = Ok (hv2, s')
    /\ len_st hv2 = len_st hv
    /\ getitem_st hv2 j s' = Ok (val, s')
    /\ (forall k, 0 <= k < len_st hv ->
          exists y, getitem_st hv k s = Ok (y, s)
                    /\ getitem_st hv k s' = Ok (y, s')
                    /\ (k <> j -> getitem_st hv2 k s' = Ok (y, s')))
    /\ s `prefix_of` s'
    /\ exists v2, PVector_set v i val = Ok v2 /\ hv_repr s' hv2 v2.
Proof.
  intros Hrep Hwf j Hj.
  assert (len_st hv = pv_count v) as E1 by exact (proj1 Hrep).
  destruct (wf_tolist v Hwf) as (xs & Hxs & Hc).
  rewrite E1, Hc in Hj. unfold len in Hj.
  assert (PVector_set v i val = PVector_set v (Z.of_nat (Z.to_nat j)) val) as Eset.
  { unfold j in *. rewrite E1 in *. destruct (Z.ltb_spec i 0).
    - rewrite set_neg by lia. f_equal. lia.
    - f_equal. lia. }
  destruct (set_spec v xs (Z.to_nat j) val Hwf Hxs ltac:(lia))
    as (v2 & Hv2 & Hwf2 & Hxs2).
  rewrite <- Eset in Hv2.
  destruct (set_sim s hv v i val v2 Hrep Hv2) as (hv2 & s' & Hst & Hpre & Hrep2).
  pose proof (hv_repr_prefix s s' hv v Hpre Hrep) as Hrep1.
  assert (len_st hv2 = pv_count v2) as E2 by exact (proj1 Hrep2).
  pose proof (count_tolist v2 _ Hwf2 Hxs2) as Hc2.
  exists hv2, s'. split; [done|].
  split; [rewrite E1, E2, Hc, Hc2; unfold len; by rewrite length_insert|].
  split; [|split; [|split; [done|by exists v2]]].
  - apply (getitem_sim s' hv2 v2); [done|].
    replace j with (Z.of_nat (Z.to_nat j)) by lia.
    apply (getitem_spec v2 _ _ val Hwf2 Hxs2).
    apply list_lookup_insert_eq. lia.
  - intros k Hk. rewrite E1, Hc in Hk. unfold len in Hk.
    assert (Z.to_nat k < length xs)%nat as Hlt by lia.
    destruct (lookup_lt_is_Some_2 xs _ Hlt) as [y Hy]. exists y.
    assert (PVector_getitem v k = Ok y) as Hg.
    { replace k with (Z.of_nat (Z.to_nat k)) by lia. by apply (getitem_spec v xs). }
    split; [by apply (getitem_sim s hv v)|].
    split; [by apply (getitem_sim s' hv v)|].
    intros Hne. apply (getitem_sim s' hv2 v2); [done|].
    replace k with (Z.of_nat (Z.to_nat k)) by lia.
    apply (getitem_spec v2 _ _ y Hwf2 Hxs2).
    rewrite list_lookup_insert_ne by lia. done.
Qed.

Lemma X6_set_keeps_original_witness :
  let j := if -3 <? 0 then -3 + len_st sample_hvector else -3 in
  exists hv2 s',
    set_st sample_hvector (-3) 7 sample_store = Ok (hv2, s')
    /\ len_st hv2 = len_st sample_hvector
    /\ getitem_st hv2 j s' = Ok (7, s')
    /\ (forall k, 0 <= k < len_st sample_hvector ->
          exists y, getitem_st sample_hvector k sample_store = Ok (y, sample_store)
                    /\ getitem_st sample_hvector k s' = Ok (y, s')
                    /\ (k <> j -> getitem_st hv2 k s' = Ok (y, s')))
    /\ sample_store `prefix_of` s'
    /\ exists v2, PVector_set sample_vector (-3) 7 = Ok v2 /\ hv_repr s' hv2 v2.
Proof.
  apply (X6_set_keeps_original sample_store sample_hvector sample_vector (-3) 7).
  - apply sample_hvector_repr.
  - apply sample_vector_wf.
  - vm_compute. split; [discriminate|reflexivity].
Defined.

(** ** Maps *)

(** X7: [m.set(key, val)] returns a map that binds [key] to [val] and every
    other key as [m] does; it is one longer than [m] when [key] is new and
    as long as [m] otherwise; and it is [m] itself when [m] already binds
    [key] to that very [val]. *)
Theorem X7_map_set_get {K V : Type} `{EqDecision K} `{EqDecision V}
    (hash : K -> Z) (m : PMap K V) (key : K) (val : V) :
  pm_wf hash m ->
  exists h,
    PMap_set hash m key val = Ok h /\ pm_wf hash (the h)
    /\ PMap_getitem hash (the h) key = Ok val
    /\ (forall k, k <> key -> PMap_getitem hash (the h) k = PMap_getitem hash m k)
    /\ PMap_len (the h) = match PMap_getitem hash m key with
                          | Ok _ => PMap_len m
                          | Raise _ => PMap_len m + 1
                          end
    /\ (PMap_getitem hash m key = Ok val -> h = Existing m).
Proof.
  intros (bl & Hok & Hsz).
  destruct (PMap_set_sized hash m bl key val Hok Hsz)
    as (h & bl' & Hset & Hok' & Hsz' & Hview & Hsize & Hsame & _).
  exists h. split; [done|]. split; [by exists bl'|].
  rewrite !(getitem_view hash m bl) by done.
  split; [|split; [|split]].
  - rewrite (getitem_view hash _ bl') by done. by rewrite Hview, decide_True.
  - intros k Hk. rewrite (getitem_view hash _ bl'), (getitem_view hash m bl) by done.
    by rewrite Hview, decide_False.
  - unfold PMap_len. rewrite Hsize. by destruct (lookup_in hash bl key).
  - intros Hv. apply Hsame. by destruct (lookup_in hash bl key) as [v|]; [injection Hv as ->|].
Qed.

Lemma X7_map_set_get_witness :
  exists h,
    PMap_set hash_int sample_map 20 7 = Ok h /\ pm_wf hash_int (the h)
    /\ PMap_getitem hash_int (the h) 20 = Ok 7
    /\ (forall k, k <> 20 -> PMap_getitem hash_int (the h) k
                             = PMap_getitem hash_int sample_map k)
    /\ PMap_len (the h) = match PMap_getitem hash_int sample_map 20 with
                          | Ok _ => PMap_len sample_map
                          | Raise _ => PMap_len sample_map + 1
                          end
    /\ (PMap_getitem hash_int sample_map 20 = Ok 7 -> h = Existing sample_map).
Proof. apply (X7_map_set_get hash_int sample_map 20 7). apply sample_map_wf. Defined.

(** X8: [m.remove(key)] raises [KeyError] when [m] does not hold [key];
    otherwise it returns a new map, one shorter, in which [key] is not
    found and every other key is bound as in [m]. *)
Theorem X8_map_remove {K V : Type} `{EqDecision K} `{EqDecision V}
    (hash : K -> Z) (m : PMap K V) (key : K) :
  pm_wf hash m ->
  match PMap_getitem hash m key with
  | Ok _ =>
      exists m',
        PMap_remove hash m key = Ok (Created m') /\ pm_wf hash m'
        /\ PMap_getitem hash m' key = Raise KeyError
        /\ (forall k, k <> key -> PMap_getitem hash m' k = PMap_getitem hash m k)
        /\ PMap_len m' = PMap_len m - 1
  | Raise _ => PMap_remove hash m key = Raise KeyError
  end.
Proof.
  intros (bl & Hok & Hsz). pose proof (PMap_remove_sized hash m bl key Hok Hsz) as Hspec.
  rewrite (getitem_view hash m bl) by done.
  destruct (lookup_in hash bl key); [|done].
  destruct Hspec as (m' & bl' & Hrem & Hok' & Hsz' & Hview & Hsize).
  exists m'. split; [done|]. split; [by exists bl'|]. split; [|split; [|done]].
  - rewrite (getitem_view hash _ bl') by done. by rewrite Hview, decide_True.
  - intros k Hk. rewrite (getitem_view hash _ bl'), (getitem_view hash m bl) by done.
    by rewrite Hview, decide_False.
Qed.

Lemma X8_map_remove_witness :
  match PMap_getitem hash_int sample_map 5 with
  | Ok _ =>
      exists m',
        PMap_remove hash_int sample_map 5 = Ok (Created m') /\ pm_wf hash_int m'
        /\ PMap_getitem hash_int m' 5 = Raise KeyError
        /\ (forall k, k <> 5 -> PMap_getitem hash_int m' k
                                = PMap_getitem hash_int sample_map k)
        /\ PMap_len m' = PMap_len sample_map - 1
  | Raise _ => PMap_remove hash_int sample_map 5 = Raise KeyError
  end.
Proof. apply (X8_map_remove hash_int sample_map 5). apply sample_map_wf. Defined.

(** X9: [m.discard(key)] never raises: it returns [m] itself when [m] does
    not hold [key], and otherwise a map one shorter; in the result [key] is
    not found and every other key is bound as in [m]. *)
Theorem X9_map_discard {K V : Type} `{EqDecision K} `{EqDecision V}
    (hash : K -> Z) (m : PMap K V) (key : K) :
  pm_wf hash m ->
  exists h,
    PMap_discard hash m key = Ok h /\ pm_wf hash (the h)
    /\ PMap_getitem hash (the h) key = Raise KeyError
    /\ (forall k, k <> key -> PMap_getitem hash (the h) k = PMap_getitem hash m k)
    /\ match PMap_getitem hash m key with
       | Ok _ => PMap_len (the h) = PMap_len m - 1
       | Raise _ => h = Existing m
       end.
Proof.
  intros (bl & Hok & Hsz).
  destruct (PMap_discard_sized hash m bl key Hok Hsz)
    as (h & bl' & Hdis & Hok' & Hsz' & Hview & Hcase).
  exists h. split; [done|]. split; [by exists bl'|]. split; [|split].
  - rewrite (getitem_view hash _ bl') by done. by rewrite Hview, decide_True.
  - intros k Hk. rewrite (getitem_view hash _ bl'), (getitem_view hash m bl) by done.
    by rewrite Hview, decide_False.
  - rewrite (getitem_view hash m bl) by done.
    destruct (lookup_in hash bl key); [by destruct Hcase|done].
Qed.

Lemma X9_map_discard_witness :
  exists h,
    PMap_discard hash_int sample_map 20 = Ok h /\ pm_wf hash_int (the h)
    /\ PMap_getitem hash_int (the h) 20 = Raise KeyError
    /\ (forall k, k <> 20 -> PMap_getitem hash_int (the h) k
                             = PMap_getitem hash_int sample_map k)
    /\ match PMap_getitem hash_int sample_map 20 with
       | Ok _ => PMap_len (the h) = PMap_len sample_map - 1
       | Raise _ => h = Existing sample_map
       end.
Proof. apply (X9_map_discard hash_int sample_map 20). apply sample_map_wf. Defined.

(** X10: [key in m] is true exactly when [m[key]] returns, the only exception
    [m[key]] raises is [KeyError], and [m.get(key, default)] is [m[key]]
    when that returns and [default] otherwise. *)
Theorem X10_map_membership {K V : Type} `{EqDecision K}
    (hash : K -> Z) (m : PMap K V) (key : K) (default : V) :
  pm_wf hash m ->
  match PMap_getitem hash m key with
  | Ok v => PMap_contains hash m key = Ok true
            /\ PMap_get hash m key default = Ok v
  | Raise err => err = KeyError
                 /\ PMap_contains hash m key = Ok false
                 /\ PMap_get hash m key default = Ok default
  end.
Proof.
  intros (bl & Hok & _). unfold PMap_get.
  rewrite (getitem_view hash m bl), (contains_view hash m bl) by done.
  by destruct (lookup_in hash bl key).
Qed.

Lemma X10_map_membership_witness :
  match PMap_getitem hash_int sample_map 5 with
  | Ok v => PMap_contains hash_int sample_map 5 = Ok true
            /\ PMap_get hash_int sample_map 5 0 = Ok v
  | Raise err => err = KeyError
                 /\ PMap_contains hash_int sample_map 5 = Ok false
                 /\ PMap_get hash_int sample_map 5 0 = Ok 0
  end.
Proof. apply (X10_map_membership hash_int sample_map 5 0). apply sample_map_wf. Defined.

(** X11: iterating a map yields each of its keys once: [m.iteritems()] is a
    list of [len(m)] pairs with pairwise different keys, and it holds
    [(k, v)] exactly when [m[k]] is [v]. *)
Theorem X11_map_items {K V : Type} `{EqDecision K} (hash : K -> Z) (m : PMap K V) :
  pm_wf hash m ->
  exists items,
    PMap_iteritems m = Ok items
    /\ PMap_iterkeys m = Ok (fst <$> items)
    /\ NoDup (fst <$> items)
    /\ PMap_len m = len items
    /\ forall k v, (k, v) ∈ items <-> PMap_getitem hash m k = Ok v.
Proof.
  intros (bl & Hok & Hnd & Hsize). exists (all_items bl).
  pose proof (iteritems_ok hash m bl Hok) as Hit.
  split; [done|]. split; [unfold PMap_iterkeys; by rewrite Hit|].
  split; [done|]. split; [done|].
  intros k v. rewrite (getitem_view hash m bl) by done.
  destruct Hok as (_ & _ & Hbok).
  rewrite (items_view hash bl k v Hbok Hnd).
  destruct (lookup_in hash bl k); split; congruence.
Qed.

Lemma X11_map_items_witness :
  exists items,
    PMap_iteritems sample_map = Ok items
    /\ PMap_iterkeys sample_map = Ok (fst <$> items)
    /\ NoDup (fst <$> items)
    /\ PMap_len sample_map = len items
    /\ forall k v, (k, v) ∈ items <-> PMap_getitem hash_int sample_map k = Ok v.
Proof. apply (X11_map_items hash_int sample_map). apply sample_map_wf. Defined.

(** X12: every map built from the empty map by [set], [remove], [discard],
    [update] and [update_with] is well-formed: each pair sits in the bucket
    its key hashes to, no key is held twice, and [len(m)] is the number of
    pairs held. *)
Theorem X12_reachable_maps_well_formed {K V : Type} `{EqDecision K} `{EqDecision V}
    (hash : K -> Z) (m : PMap K V) :
  pm_reachable hash m ->
  pm_wf hash m
  /\ exists items, PMap_iteritems m = Ok items /\ PMap_len m = len items
                   /\ NoDup (fst <$> items).
Proof.
  intros Hreach. pose proof (reachable_pm_wf hash m Hreach) as Hwf.
  split; [done|]. destruct Hwf as (bl & Hok & Hnd & Hsize).
  exists (all_items bl). split; [by apply (iteritems_ok hash)|]. by split.
Qed.

Lemma X12_reachable_maps_well_formed_witness :
  pm_wf hash_int sample_map
  /\ exists items, PMap_iteritems sample_map = Ok items
                   /\ PMap_len sample_map = len items
                   /\ NoDup (fst <$> items).
Proof.
  apply (X12_reachable_maps_well_formed hash_int sample_map).
  apply (set_all_reachable hash_int (sample_items 13) _EMPTY_PMAP);
    [apply pm_reach_empty|].
  vm_compute. reflexivity.
Defined.

(** X13: [pmap(d)] for a dictionary [d], given by its items, whose keys
    differ, and a bucket count [pre_size >= 0] ([0] for the default):
    the map has [len(d)] pairs, [m[k]] is [d[k]] for the keys of [d] and
    [KeyError] for every other key, and iterating it yields the items of
    [d] in some order. *)
Theorem X13_pmap_round_trip {K V : Type} `{EqDecision K} `{EqDecision V}
    (hash : K -> Z) (items : list (K * V)) (pre_size : Z) :
  NoDup (fst <$> items) -> 0 <= pre_size ->
  exists m,
    pmap hash items pre_size = Ok m /\ pm_wf hash m
    /\ PMap_len m = len items
    /\ (forall k, PMap_getitem hash m k = match dict_get items k with
                                           | Some v => Ok v
                                           | None => Raise KeyError
                                           end)
    /\ exists its, PMap_iteritems m = Ok its /\ its ≡ₚ items.
Proof.
  intros Hnd Hpre.
  destruct (pmap_wf hash items pre_size Hnd Hpre) as (m & bl & Hm & Hok & Hsz & Hperm).
  exists m. split; [done|]. split; [by exists bl|]. split; [|split].
  - destruct Hsz as [_ Hsize]. unfold PMap_len. rewrite Hsize.
    unfold len. by rewrite Hperm.
  - intros k. rewrite (getitem_view hash m bl) by done.
    destruct Hok as (_ & _ & Hbok). rewrite (view_dict_get hash bl k Hbok).
    rewrite (dict_get_perm (all_items bl) items k Hperm); [done|].
    by rewrite Hperm.
  - exists (all_items bl). split; [by apply (iteritems_ok hash)|done].
Qed.

Lemma X13_pmap_round_trip_witness :
  exists m,
    pmap hash_int [(1, 10); (9, 90); (17, 170)] 0 = Ok m /\ pm_wf hash_int m
    /\ PMap_len m = len [(1, 10); (9, 90); (17, 170)]
    /\ (forall k, PMap_getitem hash_int m k
                  = match dict_get [(1, 10); (9, 90); (17, 170)] k with
                    | Some v => Ok v
                    | None => Raise KeyError
                    end)
    /\ exists its, PMap_iteritems m = Ok its /\ its ≡ₚ [(1, 10); (9, 90); (17, 170)].
Proof.
  apply (X13_pmap_round_trip hash_int [(1, 10); (9, 90); (17, 170)] 0); [|lia].
  apply (bool_decide_unpack _). vm_compute. exact I.
Defined.

(** X14: writing keys that are new and differ from each other through one
    evolver and calling [persistent] gives a map that binds every key as
    the map built by the same writes as [m = m.set(k, v)] does. *)
Theorem X14_map_evolver_new_keys {K V : Type} `{EqDecision K} `{EqDecision V}
    (hash : K -> Z) (m : PMap K V) (kvs : list (K * V)) :
  pm_wf hash m -> NoDup (fst <$> kvs) ->
  (forall kv, kv ∈ kvs -> PMap_getitem hash m (fst kv) = Raise KeyError) ->
  exists h m2,
    MapEvolver_set_all hash m kvs = Ok h /\ PMap_set_all hash m kvs = Ok m2
    /\ forall k, PMap_getitem hash (the h) k = PMap_getitem hash m2 k.
Proof.
  intros (bl & Hok & _) Hnd Hnew.
  destruct (evolver_set_all_fresh hash m bl kvs Hok Hnd)
    as (h & bl1 & m2 & bl2 & Hev & Hok1 & Hdir & Hok2 & Hview).
  { intros kv Hkv. specialize (Hnew kv Hkv).
    rewrite (getitem_view hash m bl) in Hnew by done.
    by destruct (lookup_in hash bl (fst kv)). }
  exists h, m2. split; [done|]. split; [done|].
  intros k. rewrite (getitem_view hash _ bl1), (getitem_view hash _ bl2) by done.
  by rewrite Hview.
Qed.

Lemma X14_map_evolver_new_keys_witness :
  exists h m2,
    MapEvolver_set_all hash_int sample_map [(20, 1); (21, 2)] = Ok h
    /\ PMap_set_all hash_int sample_map [(20, 1); (21, 2)] = Ok m2
    /\ forall k, PMap_getitem hash_int (the h) k = PMap_getitem hash_int m2 k.
Proof.
  apply (X14_map_evolver_new_keys hash_int sample_map [(20, 1); (21, 2)]).
  - apply sample_map_wf.
  - apply (bool_decide_unpack _). vm_compute. exact I.
  - intros kv Hkv. apply list_elem_of_In in Hkv. simpl in Hkv.
    destruct Hkv as [<-|[<-|[]]]; vm_compute; reflexivity.
Defined.

(** ** Sets *)

(** X15: [pset(xs, pre_size)], for [pre_size >= 0]: the set holds exactly the
    elements of [xs], iterating it yields each of them once, and [len] is
    the number of different elements. *)
Theorem X15_pset_round_trip {K : Type} `{EqDecision K} (hash : K -> Z)
    (xs : list K) (pre_size : Z) :
  0 <= pre_size ->
  exists s ks,
    pset hash xs pre_size = Ok s /\ ps_wf hash s
    /\ PSet_iter s = Ok ks /\ NoDup ks /\ (forall x, x ∈ ks <-> x ∈ xs)
    /\ PSet_len s = len ks
    /\ forall x, PSet_contains hash s x = Ok (bool_decide (x ∈ xs)).
Proof.
  intros Hpre.
  destruct (pset_spec hash xs pre_size Hpre) as (s & bl & Hs & Hok & Hsz & Hp).
  destruct (set_of_spec xs) as [Hnd Hin].
  exists s, (fst <$> all_items bl). split; [done|]. split; [by exists bl|].
  split; [|split; [|split; [|split]]].
  - unfold PSet_iter. by rewrite (iteritems_ok hash _ bl Hok).
  - by rewrite Hp.
  - intros x. by rewrite Hp.
  - destruct Hsz as [_ Hsize]. unfold PSet_len, PMap_len. rewrite Hsize.
    unfold len. by rewrite length_fmap.
  - intros x. unfold PSet_contains. rewrite (contains_items hash _ bl) by done.
    f_equal. apply bool_decide_ext. by rewrite Hp.
Qed.

Lemma X15_pset_round_trip_witness :
  exists s ks,
    pset hash_int [1; 2; 2; 3] 8 = Ok s /\ ps_wf hash_int s
    /\ PSet_iter s = Ok ks /\ NoDup ks /\ (forall x, x ∈ ks <-> x ∈ [1; 2; 2; 3])
    /\ PSet_len s = len ks
    /\ forall x, PSet_contains hash_int s x = Ok (bool_decide (x ∈ [1; 2; 2; 3])).
Proof. apply (X15_pset_round_trip hash_int [1; 2; 2; 3] 8). lia. Defined.

(** X16: [s.add(x)] returns a set that holds [x] and otherwise the elements
    of [s]; it is one longer than [s] when [x] is new and as long as [s]
    when [s] holds [x]. *)
Theorem X16_pset_add {K : Type} `{EqDecision K} (hash : K -> Z) (s : PSet K) (x : K) :
  ps_wf hash s ->
  exists s',
    PSet_add hash s x = Ok s' /\ ps_wf hash s'
    /\ PSet_contains hash s' x = Ok true
    /\ (forall y, y <> x -> PSet_contains hash s' y = PSet_contains hash s y)
    /\ PSet_len s' = match PSet_contains hash s x with
                     | Ok true => PSet_len s
                     | _ => PSet_len s + 1
                     end.
Proof.
  intros (bl & Hok & Hsz).
  destruct (PMap_set_sized hash (_map s) bl x true Hok Hsz)
    as (h & bl' & Hset & Hok' & Hsz' & Hview & Hsize & _).
  exists (mkPSet (the h)). unfold PSet_add, PSet_contains, PSet_len, PMap_len.
  rewrite Hset. rsimpl. split; [done|]. split; [by exists bl'|]. cbn [_map].
  split; [|split].
  - rewrite (contains_view hash _ bl') by done. by rewrite Hview, decide_True.
  - intros y Hy.
    rewrite (contains_view hash _ bl'), (contains_view hash (_map s) bl) by done.
    by rewrite Hview, decide_False.
  - rewrite (contains_view hash (_map s) bl) by done.
    rewrite Hsize. by destruct (lookup_in hash bl x).
Qed.

Lemma X16_pset_add_witness :
  exists s',
    PSet_add hash_int sample_set 5 = Ok s' /\ ps_wf hash_int s'
    /\ PSet_contains hash_int s' 5 = Ok true
    /\ (forall y, y <> 5 -> PSet_contains hash_int s' y
                            = PSet_contains hash_int sample_set y)
    /\ PSet_len s' = match PSet_contains hash_int sample_set 5 with
                     | Ok true => PSet_len sample_set
                     | _ => PSet_len sample_set + 1
                     end.
Proof. apply (X16_pset_add hash_int sample_set 5). apply sample_set_wf. Defined.

(** X17: when [s] holds [x], [s.remove(x)] and [s.discard(x)] return a new
    set, one shorter, that does not hold [x] and otherwise holds the
    elements of [s]; when [s] does not hold [x], [s.remove(x)] raises
    [KeyError] and [s.discard(x)] returns [s] itself. *)
Theorem X17_pset_remove {K : Type} `{EqDecision K} (hash : K -> Z) (s : PSet K) (x : K) :
  ps_wf hash s ->
  match PSet_contains hash s x with
  | Ok true =>
      exists s',
        PSet_remove hash s x = Ok s' /\ PSet_discard hash s x = Ok (Created s')
        /\ ps_wf hash s'
        /\ PSet_contains hash s' x = Ok false
        /\ (forall y, y <> x -> PSet_contains hash s' y = PSet_contains hash s y)
        /\ PSet_len s' = PSet_len s - 1
  | _ => PSet_remove hash s x = Raise KeyError
         /\ PSet_discard hash s x = Ok (Existing s)
  end.
Proof.
  intros (bl & Hok & Hsz).
  pose proof (PMap_remove_sized hash (_map s) bl x Hok Hsz) as Hspec.
  unfold PSet_remove, PSet_discard, PSet_contains, PSet_len, PMap_len.
  rewrite (contains_view hash _ bl) by done.
  destruct (lookup_in hash bl x); [|by rsimpl].
  destruct Hspec as (m' & bl' & Hrem & Hok' & Hsz' & Hview & Hsize).
  exists (mkPSet m'). rsimpl. rewrite Hrem. rsimpl.
  split; [done|]. split; [done|]. split; [by exists bl'|]. cbn [_map].
  split; [|split; [|done]].
  - rewrite (contains_view hash _ bl') by done. by rewrite Hview, decide_True.
  - intros y Hy.
    rewrite (contains_view hash _ bl'), (contains_view hash (_map s) bl) by done.
    by rewrite Hview, decide_False.
Qed.

Lemma X17_pset_remove_witness :
  match PSet_contains hash_int sample_set 2 with
  | Ok true =>
      exists s',
        PSet_remove hash_int sample_set 2 = Ok s'
        /\ PSet_discard hash_int sample_set 2 = Ok (Created s')
        /\ ps_wf hash_int s'
        /\ PSet_contains hash_int s' 2 = Ok false
        /\ (forall y, y <> 2 -> PSet_contains hash_int s' y
                                = PSet_contains hash_int sample_set y)
        /\ PSet_len s' = PSet_len sample_set - 1
  | _ => PSet_remove hash_int sample_set 2 = Raise KeyError
         /\ PSet_discard hash_int sample_set 2 = Ok (Existing sample_set)
  end.
Proof. apply (X17_pset_remove hash_int sample_set 2). apply sample_set_wf. Defined.

(** ** Bags *)

(** X18: [pbag(xs)] returns a bag that yields the elements of [xs], each as
    often as it occurs in [xs], in some order. *)
Theorem X18_pbag_round_trip {K : Type} `{EqDecision K} (hash : K -> Z) (xs : list K) :
  exists b ys,
    pbag hash xs = Ok b /\ bag_wf hash b /\ PBag_iter b = Ok ys /\ ys ≡ₚ xs
    /\ PBag_len b = Ok (len xs)
    /\ forall x, PBag_count hash b x = Ok (occurrences x xs).
Proof.
  destruct (pbag_spec hash xs) as (b & ys & Hb & Hwf & Hit & Hp).
  destruct (bag_reads hash b Hwf) as (ys' & Hit' & Hlen & Hcount & _).
  rewrite Hit in Hit'. injection Hit' as <-.
  exists b, ys. split; [done|]. split; [done|]. split; [done|]. split; [done|].
  split.
  - rewrite Hlen. unfold len. by rewrite Hp.
  - intros x. rewrite Hcount. f_equal. by apply occurrences_perm.
Qed.

(** X19: the methods of a bag agree with its iteration: [len(b)] is the
    number of elements [b] yields, [b.count(x)] the number of times it
    yields [x], and [x in b] is true exactly when it yields [x]. *)
Theorem X19_bag_reads_as_iteration {K : Type} `{EqDecision K} (hash : K -> Z)
    (b : PBag K) :
  bag_wf hash b ->
  exists ys,
    PBag_iter b = Ok ys /\ PBag_len b = Ok (len ys)
    /\ (forall x, PBag_count hash b x = Ok (occurrences x ys))
    /\ (forall x, PBag_contains hash b x = Ok (bool_decide (x ∈ ys))).
Proof. apply bag_reads. Qed.

Lemma X19_bag_reads_as_iteration_witness :
  exists ys,
    PBag_iter sample_bag = Ok ys /\ PBag_len sample_bag = Ok (len ys)
    /\ (forall x, PBag_count hash_int sample_bag x = Ok (occurrences x ys))
    /\ (forall x, PBag_contains hash_int sample_bag x = Ok (bool_decide (x ∈ ys))).
Proof. apply (X19_bag_reads_as_iteration hash_int sample_bag). apply sample_bag_wf. Defined.

(** X20: [b.add(x)] returns a bag that yields what [b] yields and [x] once
    more. *)
Theorem X20_bag_add {K : Type} `{EqDecision K} (hash : K -> Z) (b : PBag K) (x : K) :
  bag_wf hash b ->
  exists b' ys ys',
    PBag_add hash b x = Ok b' /\ bag_wf hash b'
    /\ PBag_iter b = Ok ys /\ PBag_iter b' = Ok ys' /\ ys' ≡ₚ x :: ys
    /\ PBag_count hash b' x = Ok (occurrences x ys + 1)
    /\ (forall y, y <> x -> PBag_count hash b' y = PBag_count hash b y).
Proof.
  intros Hwf. pose proof Hwf as (bl & Hok & Hsz & Hpos).
  destruct (add_to_counters_spec hash _ bl x Hok Hsz Hpos)
    as (m' & bl' & Hadd & Hok' & Hsz' & Hpos' & Hp).
  assert (bag_wf hash (mkPBag m')) as Hwf' by (by exists bl').
  destruct (bag_reads hash b Hwf) as (ys & Hit & _ & Hcount & _).
  destruct (bag_reads hash _ Hwf') as (ys' & Hit' & _ & Hcount' & _).
  exists (mkPBag m'), ys, ys'. unfold PBag_add. rewrite Hadd. rsimpl.
  split; [done|]. split; [done|]. split; [done|]. split; [done|].
  assert (ys' ≡ₚ x :: ys) as Hperm.
  { unfold PBag_iter in Hit, Hit'. simpl in Hit'.
    rewrite (iteritems_ok hash _ bl Hok) in Hit.
    rewrite (iteritems_ok hash _ bl' Hok') in Hit'.
    injection Hit as <-. injection Hit' as <-. done. }
  split; [done|]. split.
  - rewrite Hcount'. f_equal. rewrite (occurrences_perm x _ _ Hperm).
    unfold occurrences. rewrite filter_cons, decide_True by done.
    unfold len. simpl. lia.
  - intros y Hy. rewrite Hcount', Hcount. f_equal.
    rewrite (occurrences_perm y _ _ Hperm).
    unfold occurrences. by rewrite filter_cons, decide_False.
Qed.

Lemma X20_bag_add_witness :
  exists b' ys ys',
    PBag_add hash_int sample_bag 2 = Ok b' /\ bag_wf hash_int b'
    /\ PBag_iter sample_bag = Ok ys /\ PBag_iter b' = Ok ys' /\ ys' ≡ₚ 2 :: ys
    /\ PBag_count hash_int b' 2 = Ok (occurrences 2 ys + 1)
    /\ (forall y, y <> 2 -> PBag_count hash_int b' y = PBag_count hash_int sample_bag y).
Proof. apply (X20_bag_add hash_int sample_bag 2). apply sample_bag_wf. Defined.

(** X21: [b.remove(x)] raises [KeyError] when [b] does not yield [x];
    otherwise it returns a bag that yields what [b] yields but [x] once
    less. *)
Theorem X21_bag_remove {K : Type} `{EqDecision K} (hash : K -> Z) (b : PBag K) (x : K) :
  bag_wf hash b ->
  exists ys,
    PBag_iter b = Ok ys
    /\ if bool_decide (x ∈ ys)
       then exists b' ys',
              PBag_remove hash b x = Ok b' /\ bag_wf hash b'
              /\ PBag_iter b' = Ok ys' /\ ys ≡ₚ x :: ys'
       else PBag_remove hash b x = Raise KeyError.
Proof.
  intros (bl & Hok & Hsz & Hpos). pose proof Hsz as [Hnd _].
  pose proof Hok as (_ & _ & Hbok).
  exists (repeated (all_items bl)). unfold PBag_iter at 1.
  rewrite (iteritems_ok hash _ bl Hok). split; [done|].
  unfold PBag_remove. rewrite (contains_items hash _ bl) by done. rsimpl.
  rewrite (bool_decide_ext _ _ (elem_of_repeated x _ Hpos)).
  case_bool_decide as Hin; cbn [negb]; [|done].
  rewrite (getitem_view hash _ bl), (view_dict_get hash bl x Hbok) by done.
  destruct (dict_get (all_items bl) x) as [c|] eqn:Hget;
    [|by apply dict_get_None in Hget].
  pose proof (items_split _ x c Hnd Hget) as Hsplit.
  assert (1 <= c) as Hc.
  { apply dict_get_Some in Hget.
    by pose proof (proj1 (Forall_forall _ _) Hpos (x, c) Hget). }
  assert (Forall (fun kv : K * Z => 1 <= snd kv)
            (filter (fun kv => fst kv <> x) (all_items bl))) as Hpos_rest.
  { apply Forall_forall. intros kv Hkv. apply list_elem_of_filter in Hkv as [_ Hkv].
    by apply (proj1 (Forall_forall _ _) Hpos). }
  rsimpl. destruct (Z.eqb_spec c 1) as [->|Hne].
  - pose proof (PMap_remove_sized hash _ bl x Hok Hsz) as Hspec.
    rewrite (view_dict_get hash bl x Hbok), Hget in Hspec.
    destruct Hspec as (m' & bl' & -> & Hok' & Hsz' & Hview & _). rsimpl.
    pose proof Hsz' as [Hnd' _]. pose proof Hok' as (_ & _ & Hbok').
    pose proof (remove_items_perm hash bl bl' x Hbok Hbok' Hnd Hnd' Hview) as Hp.
    exists (mkPBag m'), (repeated (all_items bl')). split; [done|].
    split; [|split].
    + exists bl'. split; [done|]. split; [done|]. by rewrite Hp.
    + unfold PBag_iter. simpl. by rewrite (iteritems_ok hash _ bl' Hok').
    + rewrite (repeated_perm _ _ Hsplit), (repeated_perm _ _ Hp). done.
  - destruct (PMap_set_sized hash _ bl x (c - 1) Hok Hsz)
      as (h & bl' & -> & Hok' & Hsz' & Hview & _). rsimpl.
    pose proof Hsz' as [Hnd' _]. pose proof Hok' as (_ & _ & Hbok').
    pose proof (set_items_perm hash bl bl' x (c - 1) Hbok Hbok' Hnd Hnd' Hview) as Hp.
    exists (mkPBag (the h)), (repeated (all_items bl')). split; [done|].
    split; [|split].
    + exists bl'. split; [done|]. split; [done|]. rewrite Hp.
      apply Forall_cons. split; [simpl; lia|done].
    + unfold PBag_iter. simpl. by rewrite (iteritems_ok hash _ bl' Hok').
    + rewrite (repeated_perm _ _ Hsplit), (repeated_perm _ _ Hp).
      rewrite !repeated_cons.
      by replace (Z.to_nat c) with (S (Z.to_nat (c - 1))) by lia.
Qed.

Lemma X21_bag_remove_witness :
  exists ys,
    PBag_iter sample_bag = Ok ys
    /\ if bool_decide (2 ∈ ys)
       then exists b' ys',
              PBag_remove hash_int sample_bag 2 = Ok b' /\ bag_wf hash_int b'
              /\ PBag_iter b' = Ok ys' /\ ys ≡ₚ 2 :: ys'
       else PBag_remove hash_int sample_bag 2 = Raise KeyError.
Proof. apply (X21_bag_remove hash_int sample_bag 2). apply sample_bag_wf. Defined.

(** ** Linked lists *)

(** X22: [plist(xs)] yields the elements of [xs] in order and
    [plist(xs, reverse=True)] yields them in reverse; [l.cons(x)] puts [x] in
    front, [l.mcons(ys)] puts the elements of [ys] in front in reverse order,
    [l.reverse()] yields the elements of [l] in reverse, and reversing twice
    gives [l] back. *)
Theorem X22_plist_construction {A : Type} (l : plist A) (xs ys : list A) (x : A) :
  plist_iter (plist_of xs false) = xs
  /\ plist_iter (plist_of xs true) = rev xs
  /\ plist_len (plist_of xs false) = len xs
  /\ plist_iter (plist_cons l x) = x :: plist_iter l
  /\ plist_iter (plist_mcons l ys) = rev ys ++ plist_iter l
  /\ plist_iter (plist_reverse l) = rev (plist_iter l)
  /\ plist_reverse (plist_reverse l) = l.
Proof.
  split; [apply (plist_of_iter xs false)|].
  split; [apply (plist_of_iter xs true)|].
  split; [apply plist_of_len|]. split; [done|].
  split; [apply plist_mcons_iter|]. split; [apply plist_reverse_iter|].
  apply plist_iter_inj. by rewrite !plist_reverse_iter, rev_involutive.
Qed.

(** X23: [l.split(index)] returns two lists that yield the first
    [max(index, 0)] elements of [l] and the remaining ones; together they
    yield what [l] yields.  When [index >= len(l)] the first is [l] itself
    and the second is empty. *)
Theorem X23_plist_split_halves {A : Type} (l : plist A) (index : Z) :
  let halves := plist_split l index in
  plist_iter halves.1 = take (Z.to_nat index) (plist_iter l)
  /\ plist_iter halves.2 = drop (Z.to_nat index) (plist_iter l)
  /\ plist_iter halves.1 ++ plist_iter halves.2 = plist_iter l
  /\ (plist_len l <= index -> halves = (l, _EmptyPList)).
Proof.
  intros halves. destruct (plist_split_spec l index) as (H1 & H2 & H3).
  fold halves in H1, H2, H3. split; [done|]. split; [done|]. split; [|done].
  rewrite H1, H2. apply take_drop.
Qed.

(** X24: indexing a linked list is indexing the list of its elements,
    negative indices and [IndexError] included; the slice [l[start:]] is
    [l] without its first [start] elements for [start >= 0], and raises
    [IndexError] for a negative [start]. *)
Theorem X24_plist_indexing {A : Type} (l : plist A) (index : Z) :
  plist_getitem l index = list_getitem (plist_iter l) index
  /\ (0 <= index ->
      exists l', plist_getitem_from l index = Ok l'
                 /\ plist_iter l' = drop (Z.to_nat index) (plist_iter l))
  /\ (index < 0 -> plist_getitem_from l index = Raise IndexError).
Proof.
  split; [apply plist_getitem_spec|]. unfold plist_getitem_from, plist_drop.
  split; intros Hi.
  - destruct (Z.ltb_spec index 0); [lia|]. eexists. split; [done|].
    apply drop_loop_iter.
  - by destruct (Z.ltb_spec index 0); [|lia].
Qed.

Lemma X24_plist_indexing_witness :
  plist_getitem sample_plist (-1) = list_getitem (plist_iter sample_plist) (-1)
  /\ (0 <= 2 ->
      exists l', plist_getitem_from sample_plist 2 = Ok l'
                 /\ plist_iter l' = drop (Z.to_nat 2) (plist_iter sample_plist))
  /\ (-1 < 0 -> plist_getitem_from sample_plist (-1) = Raise IndexError).
Proof.
  destruct (X24_plist_indexing sample_plist (-1)) as (H1 & _ & H3).
  destruct (X24_plist_indexing sample_plist 2) as (_ & H2 & _).
  split; [exact H1|]. split; [exact H2|exact H3].
Defined.

(** ** Deques *)

(** X25: [pdeque(xs, maxlen)] raises [ValueError] for a negative [maxlen];
    otherwise it returns a deque with that [maxlen] whose length is the
    number of elements it yields: all of [xs] when [maxlen] is [None], the
    last [maxlen] elements of [xs] when [maxlen > 0], and, [xs[-0:]] being
    all of [xs], again all of [xs] when [maxlen] is [0]. *)
Theorem X25_pdeque_round_trip {A : Type} (xs : list A) (maxlen : option Z) :
  match maxlen with
  | Some n =>
      if n <? 0 then pdeque xs maxlen = Raise ValueError
      else exists d,
          pdeque xs maxlen = Ok d /\ dq_wf d /\ _maxlen d = maxlen
          /\ PDeque_len d = len (PDeque_iter d)
          /\ PDeque_iter d = if n =? 0 then xs
                             else drop (length xs - Z.to_nat n) xs
  | None =>
      exists d, pdeque xs maxlen = Ok d /\ dq_wf d /\ _maxlen d = maxlen
                /\ PDeque_len d = len xs /\ PDeque_iter d = xs
  end.
Proof.
  destruct maxlen as [n|].
  - destruct (Z.ltb_spec n 0) as [Hneg|Hpos].
    + unfold pdeque, PDeque_new. by destruct (Z.ltb_spec n 0); [|lia].
    + destruct (pdeque xs (Some n)) as [d|err] eqn:Hd.
      2:{ unfold pdeque in Hd. by rewrite PDeque_new_ok in Hd. }
      pose proof (pdeque_wf xs _ d Hd) as Hwf.
      destruct (pdeque_iter xs _ d Hd) as [Hit Hm].
      exists d. split; [done|]. split; [done|]. split; [done|].
      split; [by apply iter_length|]. rewrite Hit. by apply slice_tail.
  - destruct (pdeque xs None) as [d|err] eqn:Hd; [|done].
    pose proof (pdeque_wf xs _ d Hd) as Hwf.
    destruct (pdeque_iter xs _ d Hd) as [Hit Hm].
    exists d. split; [done|]. split; [done|]. split; [done|].
    split; [|done]. by rewrite (iter_length d Hwf), Hit.
Qed.

(** X26: [d.append(x)] and [d.appendleft(x)] return a deque with the
    [maxlen] of [d].  When [d] has no [maxlen] or is shorter, it yields the
    elements of [d] followed, respectively preceded, by [x]; when
    [len(d) == maxlen > 0] the element at the other end is dropped to make
    room; when [len(d) == maxlen == 0] the result yields what [d]
    yields. *)
Theorem X26_deque_append {A : Type} (d : PDeque A) (x : A) :
  dq_wf d ->
  exists d1 d2,
    PDeque_append d x = Ok d1 /\ PDeque_appendleft d x = Ok d2
    /\ dq_wf d1 /\ dq_wf d2 /\ _maxlen d1 = _maxlen d /\ _maxlen d2 = _maxlen d
    /\ let l := PDeque_iter d in
       let full := match _maxlen d with
                   | Some n => PDeque_len d =? n
                   | None => false
                   end in
       if full then
         if PDeque_len d =? 0
         then PDeque_iter d1 = l /\ PDeque_iter d2 = l
         else PDeque_iter d1 = drop 1 l ++ [x]
              /\ PDeque_iter d2 = x :: take (length l - 1) l
       else PDeque_iter d1 = l ++ [x] /\ PDeque_iter d2 = x :: l.
Proof.
  intros Hwf. pose proof Hwf as [Hlen Hmax].
  pose proof (iter_length d Hwf) as Hil. unfold PDeque_len in *.
  assert (exists d1 d2,
    PDeque_new (_left_list d) (plist_cons (_right_list d) x) (_length d + 1)
               (_maxlen d) = Ok d1
    /\ PDeque_new (plist_cons (_left_list d) x) (_right_list d) (_length d + 1)
                  (_maxlen d) = Ok d2
    /\ dq_wf d1 /\ dq_wf d2 /\ _maxlen d1 = _maxlen d /\ _maxlen d2 = _maxlen d
    /\ PDeque_iter d1 = PDeque_iter d ++ [x]
    /\ PDeque_iter d2 = x :: PDeque_iter d) as Hplain.
  { rewrite !PDeque_new_ok by done. eexists _, _. split; [done|]. split; [done|].
    split; [|split; [|split; [done|split; [done|split]]]].
    - split; [|done]. simpl. rewrite plist_len_cons. lia.
    - split; [|done]. simpl. rewrite plist_len_cons. lia.
    - rewrite !iter_as_pop_order_left. simpl. apply pop_order_cons.
    - done. }
  unfold PDeque_append, PDeque_appendleft, _append.
  destruct (_maxlen d) as [n|] eqn:Hn.
  2:{ destruct Hplain as (d1 & d2 & ? & ? & ? & ? & ? & ? & ? & ?).
      exists d1, d2. by repeat (split; [done|]). }
  destruct (Z.eqb_spec (_length d) n) as [Hfull|Hroom].
  2:{ destruct Hplain as (d1 & d2 & ? & ? & ? & ? & ? & ? & ? & ?).
      exists d1, d2. by repeat (split; [done|]). }
  subst n. destruct (Z.eqb_spec (_length d) 0) as [Hzero|Hpos].
  - rewrite !PDeque_new_ok by done. eexists _, _. split; [done|]. split; [done|].
    split; [split; [simpl; lia|done]|]. split; [split; [simpl; lia|done]|].
    split; [done|]. split; [done|]. split; done.
  - pose proof (pop_lists_spec (_left_list d) (_right_list d) 1) as Hp1.
    pose proof (pop_lists_len (_left_list d) (_right_list d) 1) as Hl1.
    pose proof (pop_lists_spec (_right_list d) (_left_list d) 1) as Hp2.
    pose proof (pop_lists_len (_right_list d) (_left_list d) 1) as Hl2.
    destruct (_pop_lists (_left_list d) (_right_list d) 1) as [nl nr].
    destruct (_pop_lists (_right_list d) (_left_list d) 1) as [nr' nl'].
    simpl in Hp1, Hl1, Hp2, Hl2. simpl in Hmax.
    rewrite !PDeque_new_ok by done. eexists _, _. split; [done|]. split; [done|].
    split; [|split; [|split; [done|split; [done|split]]]].
    + split; [|done]. simpl. rewrite plist_len_cons. lia.
    + split; [|done]. simpl. rewrite plist_len_cons. lia.
    + rewrite !iter_as_pop_order_left. simpl.
      by rewrite pop_order_cons, Hp1.
    + rewrite iter_as_pop_order_right. simpl.
      rewrite pop_order_cons, Hp2, rev_app_distr. simpl. f_equal.
      rewrite (iter_as_pop_order_right d), length_rev, firstn_rev.
      f_equal. f_equal.
      pose proof (length_pop_order (_right_list d) (_left_list d)). lia.
Qed.

Lemma X26_deque_append_witness :
  exists d1 d2,
    PDeque_append sample_full_deque 6 = Ok d1
    /\ PDeque_appendleft sample_full_deque 6 = Ok d2
    /\ dq_wf d1 /\ dq_wf d2
    /\ _maxlen d1 = _maxlen sample_full_deque
    /\ _maxlen d2 = _maxlen sample_full_deque
    /\ let l := PDeque_iter sample_full_deque in
       let full := match _maxlen sample_full_deque with
                   | Some n => PDeque_len sample_full_deque =? n
                   | None => false
                   end in
       if full then
         if PDeque_len sample_full_deque =? 0
         then PDeque_iter d1 = l /\ PDeque_iter d2 = l
         else PDeque_iter d1 = drop 1 l ++ [6]
              /\ PDeque_iter d2 = 6 :: take (length l - 1) l
       else PDeque_iter d1 = l ++ [6] /\ PDeque_iter d2 = 6 :: l.
Proof.
  apply (X26_deque_append sample_full_deque 6).
  split; [reflexivity|]. simpl. lia.
Defined.

(** X27: [d.extend(xs)] returns a deque that yields the elements of [d]
    followed by those of [xs], cut from the left down to the last [maxlen]
    ones when [d] has a [maxlen]; [d.extendleft(xs)] yields the elements of
    [xs] in reverse order followed by those of [d], cut from the right down
    to the first [maxlen] ones. *)
Theorem X27_deque_extend {A : Type} (d : PDeque A) (xs : list A) :
  dq_wf d ->
  exists d1 d2,
    PDeque_extend d xs = Ok d1 /\ PDeque_extendleft d xs = Ok d2
    /\ dq_wf d1 /\ dq_wf d2 /\ _maxlen d1 = _maxlen d /\ _maxlen d2 = _maxlen d
    /\ match _maxlen d with
       | Some n =>
           PDeque_iter d1
           = drop (Z.to_nat (len (PDeque_iter d ++ xs) - n)) (PDeque_iter d ++ xs)
           /\ PDeque_iter d2 = take (Z.to_nat n) (rev xs ++ PDeque_iter d)
       | None =>
           PDeque_iter d1 = PDeque_iter d ++ xs
           /\ PDeque_iter d2 = rev xs ++ PDeque_iter d
       end.
Proof.
  intros Hwf.
  destruct (dq_extend_spec d xs Hwf) as (d1 & Hd1 & Hwf1 & Hm1 & Hit1).
  destruct (dq_extendleft_spec d xs Hwf) as (d2 & Hd2 & Hwf2 & Hm2 & Hit2).
  exists d1, d2. repeat (split; [done|]). by destruct (_maxlen d).
Qed.

Lemma X27_deque_extend_witness :
  exists d1 d2,
    PDeque_extend sample_full_deque [6; 7] = Ok d1
    /\ PDeque_extendleft sample_full_deque [6; 7] = Ok d2
    /\ dq_wf d1 /\ dq_wf d2
    /\ _maxlen d1 = _maxlen sample_full_deque
    /\ _maxlen d2 = _maxlen sample_full_deque
    /\ match _maxlen sample_full_deque with
       | Some n =>
           PDeque_iter d1
           = drop (Z.to_nat (len (PDeque_iter sample_full_deque ++ [6; 7]) - n))
                  (PDeque_iter sample_full_deque ++ [6; 7])
           /\ PDeque_iter d2
              = take (Z.to_nat n) (rev [6; 7] ++ PDeque_iter sample_full_deque)
       | None =>
           PDeque_iter d1 = PDeque_iter sample_full_deque ++ [6; 7]
           /\ PDeque_iter d2 = rev [6; 7] ++ PDeque_iter sample_full_deque
       end.
Proof.
  apply (X27_deque_extend sample_full_deque [6; 7]).
  split; [reflexivity|]. simpl. lia.
Defined.

(** X28: [d.reverse()] yields the elements of [d] in reverse and has no
    [maxlen].  For a deque within its [maxlen], [d.rotate(steps)] with
    [0 <= steps <= len(d)] moves the last [steps] elements to the front,
    with [-len(d) <= steps < 0] it moves the first [-steps] elements to the
    end, and with [steps] beyond [len(d)] in either direction it yields what
    [d] yields. *)
Theorem X28_deque_rotate {A : Type} (d : PDeque A) (steps : Z) :
  dq_wf d -> bounded d ->
  (exists r, PDeque_reverse d = Ok r /\ dq_wf r /\ _maxlen r = None
             /\ PDeque_len r = PDeque_len d
             /\ PDeque_iter r = rev (PDeque_iter d))
  /\ exists d',
       PDeque_rotate d steps = Ok d' /\ dq_wf d' /\ _maxlen d' = _maxlen d
       /\ let l := PDeque_iter d in
          let k := if 0 <=? steps then (length l - Z.to_nat steps)%nat
                   else Z.to_nat (- steps) in
          PDeque_iter d' = drop k l ++ take k l.
Proof.
  intros Hwf Hb. pose proof (iter_length d Hwf) as Hil.
  destruct (dq_reverse_spec d Hwf) as (r & Hr & Hwfr & Hmr & Hitr & Hlr).
  split; [exists r; by repeat (split; [done|])|].
  unfold PDeque_rotate, PDeque_pop. rewrite Hr.
  unfold bounded in Hb. unfold PDeque_len in Hil.
  destruct (Z.leb_spec 0 steps) as [Hpos|Hneg].
  - destruct (Z.ltb_spec steps 0); [lia|].
    destruct (pop_right_spec d steps Hwf Hpos) as (p & Hp & Hwfp & Hlp & Hitp).
    rewrite Hp. rsimpl. rewrite Hitr. unfold islice.
    pose proof (pop_right_maxlen d steps p Hp) as Hmp.
    destruct (dq_extendleft_spec p (take (Z.to_nat steps) (rev (PDeque_iter d))) Hwfp)
      as (d' & Hd' & Hwf' & Hm' & Hit').
    exists d'. split; [done|]. split; [done|]. split; [congruence|].
    assert (rev (take (Z.to_nat steps) (rev (PDeque_iter d))) ++ PDeque_iter p
            = drop (length (PDeque_iter d) - Z.to_nat steps) (PDeque_iter d)
              ++ take (length (PDeque_iter d) - Z.to_nat steps) (PDeque_iter d))
      as Hall.
    { rewrite firstn_rev, rev_involutive, Hitp. f_equal. f_equal.
      unfold PDeque_len. rewrite Hil. unfold len. lia. }
    rewrite Hit', Hall, Hmp. destruct (_maxlen d) as [n|]; [|done].
    apply take_ge. rewrite length_app, length_drop, length_take.
    unfold len in Hil. lia.
  - destruct (Z.ltb_spec steps 0); [|lia].
    destruct (Z.ltb_spec (- steps) 0); [lia|].
    destruct (pop_left_spec d (- steps) Hwf ltac:(lia)) as (p & Hp & Hwfp & Hlp & Hitp).
    rewrite Hp. rsimpl. unfold islice.
    pose proof (pop_left_maxlen d (- steps) p Hp) as Hmp.
    destruct (dq_extend_spec p (take (Z.to_nat (- steps)) (PDeque_iter d)) Hwfp)
      as (d' & Hd' & Hwf' & Hm' & Hit').
    exists d'. split; [done|]. split; [done|]. split; [congruence|].
    rewrite Hit', Hitp, Hmp. destruct (_maxlen d) as [n|]; [|done].
    replace (Z.to_nat _) with 0%nat; [done|].
    unfold len. rewrite length_app, length_drop, length_take.
    unfold len in Hil. lia.
Qed.

Lemma X28_deque_rotate_witness :
  (exists r, PDeque_reverse sample_full_deque = Ok r /\ dq_wf r /\ _maxlen r = None
             /\ PDeque_len r = PDeque_len sample_full_deque
             /\ PDeque_iter r = rev (PDeque_iter sample_full_deque))
  /\ exists d',
       PDeque_rotate sample_full_deque 2 = Ok d' /\ dq_wf d'
       /\ _maxlen d' = _maxlen sample_full_deque
       /\ let l := PDeque_iter sample_full_deque in
          let k := if 0 <=? 2 then (length l - Z.to_nat 2)%nat
                   else Z.to_nat (- 2) in
          PDeque_iter d' = drop k l ++ take k l.
Proof.
  apply (X28_deque_rotate sample_full_deque 2).
  - split; [reflexivity|]. simpl. lia.
  - unfold bounded. simpl. lia.
Defined.

(** X29: [d.left] and [d.right] are the first and the last element [d]
    yields, and raise [IndexError] on an empty deque.  [d[i]] for [i >= 0]
    is element [i], and [IndexError] from [len(d)] on.  For a negative
    index [d[i]] pops [-i] elements from the left and returns the rightmost
    of the rest: the last element of [d] for every [-len(d) < i < 0], and
    [IndexError] for [i <= -len(d)]. *)
Theorem X29_deque_indexing {A : Type} (d : PDeque A) (index : Z) :
  dq_wf d ->
  let l := PDeque_iter d in
  PDeque_left d = match l with x :: _ => Ok x | [] => Raise IndexError end
  /\ PDeque_right d = match rev l with x :: _ => Ok x | [] => Raise IndexError end
  /\ (0 <= index ->
      PDeque_getitem d index = match l !! Z.to_nat index with
                               | Some x => Ok x
                               | None => Raise IndexError
                               end)
  /\ (- len l < index < 0 -> PDeque_getitem d index = PDeque_right d)
  /\ (index <= - len l -> index < 0 -> PDeque_getitem d index = Raise IndexError).
Proof.
  intros Hwf l. split; [apply left_spec|]. split; [apply right_spec|].
  unfold PDeque_getitem, PDeque_popleft, PDeque_pop.
  split; [|split].
  - intros Hi. destruct (Z.leb_spec 0 index); [|lia].
    destruct (Z.ltb_spec index 0); [lia|].
    destruct (pop_left_spec d index Hwf Hi) as (p & -> & _ & _ & Hitp). rsimpl.
    rewrite left_spec, Hitp. fold l.
    destruct (l !! Z.to_nat index) as [x|] eqn:Hx.
    + by rewrite (drop_S _ x _ Hx).
    + apply lookup_ge_None_1 in Hx. by rewrite drop_ge.
  - intros Hi. destruct (Z.leb_spec 0 index); [lia|].
    destruct (Z.ltb_spec index 0); [|lia].
    destruct (Z.ltb_spec (- index) 0); [lia|].
    destruct (pop_left_spec d (- index) Hwf ltac:(lia)) as (p & -> & _ & _ & Hitp).
    rsimpl. rewrite !right_spec, Hitp. fold l.
    rewrite <- (take_drop (Z.to_nat (- index)) l) at 2.
    rewrite rev_app_distr.
    destruct (rev (drop (Z.to_nat (- index)) l)) as [|y ys] eqn:Hrev; [|done].
    apply (f_equal (@length A)) in Hrev. rewrite length_rev, length_drop in Hrev.
    unfold len in Hi. simpl in Hrev. lia.
  - intros Hi Hneg. destruct (Z.leb_spec 0 index); [lia|].
    destruct (Z.ltb_spec index 0); [|lia].
    destruct (Z.ltb_spec (- index) 0); [lia|].
    destruct (pop_left_spec d (- index) Hwf ltac:(lia)) as (p & -> & _ & _ & Hitp).
    rsimpl. rewrite right_spec, Hitp. fold l.
    rewrite drop_ge; [done|]. unfold len in Hi. lia.
Qed.

Lemma X29_deque_indexing_witness :
  let l := PDeque_iter sample_full_deque in
  PDeque_left sample_full_deque
  = match l with x :: _ => Ok x | [] => Raise IndexError end
  /\ PDeque_right sample_full_deque
     = match rev l with x :: _ => Ok x | [] => Raise IndexError end
  /\ (0 <= -2 ->
      PDeque_getitem sample_full_deque (-2) = match l !! Z.to_nat (-2) with
                                              | Some x => Ok x
                                              | None => Raise IndexError
                                              end)
  /\ (- len l < -2 < 0 ->
      PDeque_getitem sample_full_deque (-2) = PDeque_right sample_full_deque)
  /\ (-2 <= - len l -> -2 < 0 ->
      PDeque_getitem sample_full_deque (-2) = Raise IndexError).
Proof.
  apply (X29_deque_indexing sample_full_deque (-2)).
  split; [reflexivity|]. simpl. lia.
Defined.

(** X30: [l.remove(x)] on a linked list and [d.remove(x)] on a deque return
    the container without the first element equal to [x], counted from the
    left, and raise [ValueError] when no element equals [x]; the deque
    returned has no [maxlen]. *)
Theorem X30_remove_first_equal {A : Type} (elem_eq : A -> A -> bool)
    (l : plist A) (d : PDeque A) (elem : A) :
  dq_wf d ->
  let p := fun y => elem_eq y elem in
  (if existsb p (plist_iter l)
   then exists l', plist_remove elem_eq l elem = Ok l'
                   /\ plist_iter l' = remove_first p (plist_iter l)
   else plist_remove elem_eq l elem = Raise ValueError)
  /\ (if existsb p (PDeque_iter d)
      then exists d', PDeque_remove elem_eq d elem = Ok d' /\ dq_wf d'
                      /\ _maxlen d' = None
                      /\ PDeque_len d' = PDeque_len d - 1
                      /\ PDeque_iter d' = remove_first p (PDeque_iter d)
      else PDeque_remove elem_eq d elem = Raise ValueError).
Proof.
  intros [Hlen Hmax] p. split; [apply plist_remove_spec|].
  unfold PDeque_iter, PDeque_remove. rewrite existsb_app.
  pose proof (plist_remove_spec elem_eq (_left_list d) elem) as Hleft.
  pose proof (plist_remove_spec elem_eq (plist_reverse (_right_list d)) elem) as Hright.
  fold p in Hleft, Hright.
  destruct (existsb p (plist_iter (_left_list d))) eqn:El; simpl.
  - destruct Hleft as (l' & -> & Hl'). eexists. split; [done|].
    pose proof (remove_first_length p _ El) as Hn.
    split; [|split; [done|split; [done|]]].
    + split; [|done]. simpl. unfold plist_len, len in *. rewrite Hl'. lia.
    + simpl. by rewrite Hl', remove_first_app_l.
  - rewrite Hleft.
    destruct (existsb p (plist_iter (plist_reverse (_right_list d)))) eqn:Er.
    + destruct Hright as (r' & -> & Hr'). eexists. split; [done|].
      pose proof (remove_first_length p _ Er) as Hn.
      split; [|split; [done|split; [done|]]].
      * split; [|done]. simpl. unfold plist_len, len in *.
        rewrite (plist_reverse_iter r'), length_rev, Hr'.
        rewrite (plist_reverse_iter (_right_list d)), length_rev in Hn.
        rewrite (plist_reverse_iter (_right_list d)). lia.
      * simpl. rewrite remove_first_app_r by done.
        rewrite (plist_reverse_iter (_right_list d)) in Hr'.
        by rewrite !plist_reverse_iter, rev_involutive, Hr'.
    + by rewrite Hright.
Qed.

Lemma X30_remove_first_equal_witness :
  let p := fun y => Z.eqb y 2 in
  (if existsb p (plist_iter sample_plist)
   then exists l', plist_remove Z.eqb sample_plist 2 = Ok l'
                   /\ plist_iter l' = remove_first p (plist_iter sample_plist)
   else plist_remove Z.eqb sample_plist 2 = Raise ValueError)
  /\ (if existsb p (PDeque_iter sample_full_deque)
      then exists d', PDeque_remove Z.eqb sample_full_deque 2 = Ok d' /\ dq_wf d'
                      /\ _maxlen d' = None
                      /\ PDeque_len d' = PDeque_len sample_full_deque - 1
                      /\ PDeque_iter d' = remove_first p (PDeque_iter sample_full_deque)
      else PDeque_remove Z.eqb sample_full_deque 2 = Raise ValueError).
Proof.
  apply (X30_remove_first_equal Z.eqb sample_plist sample_full_deque 2).
  split; [reflexivity|]. simpl. lia.
Defined.
